(** * sgflib: a shallow embedding of the SGF parser, serializer and merge engine

    The development follows [sgflib.py]: the data model ([Node], [GameTree],
    [Collection]), the property metadata tables, the properties of a node as
    attributes, the merge engine ([Node.merge], [GameTree.merge],
    [Collection.merge]), the normalizer, the main line and the search of a
    tree, the serializers ([__bytes__], [__str__] and [pretty]), the
    recursive-descent [Parser] and the [RootNodeParser].

    Python objects that are mutated in place are modelled twice:
    - in the first part as immutable values threaded through the functions
      (the updated target is returned), which is what every property of the
      merged result needs;
    - in [Module Heap] as objects in a store, with references, aliasing and
      [deepcopy], which is what the frame property of merge and the
      properties of the copies need.

    The models, the predicates of the properties and the example data come
    first; the properties and their proofs follow. *)

From Stdlib Require Import ZArith NArith List String Ascii Bool Lia Floats Uint63.
From Stdlib.Strings Require Import Byte.
From stdpp Require Import base option list.

Open Scope string_scope.
Open Scope list_scope.

(** ** Python strings and bytes *)

(** A Python [str] is a sequence of Unicode code points; [bytes] is a
    sequence of bytes. *)
Definition pystr := list N.

Definition bytes := list byte.

#[global] Instance byte_eq_dec : EqDecision byte.
Proof.
  intros a b. destruct (N.eq_dec (Byte.to_N a) (Byte.to_N b)) as [H|H].
  - left. apply (f_equal Byte.of_N) in H. rewrite !Byte.of_to_N in H. congruence.
  - right. congruence.
Defined.

(** A [str] literal, from its ASCII spelling. *)
Definition py (s : string) : pystr := map N_of_ascii (list_ascii_of_string s).

(** A [bytes] literal. *)
Definition pyb (s : string) : bytes := list_byte_of_string s.

Definition str_eqb (a b : pystr) : bool := bool_decide (a = b).

(** [x in s] for a set or a list of strings. *)
Definition str_in (x : pystr) (s : list pystr) : bool := bool_decide (x ∈ s).

(** [str.isspace] on one code point, as [str.strip] uses it. *)
Definition py_isspace (c : N) : bool :=
  ((9 <=? c) && (c <=? 13) || (28 <=? c) && (c <=? 32) || (c =? 133) || (c =? 160)
   || (c =? 5760) || (8192 <=? c) && (c <=? 8202) || (c =? 8232) || (c =? 8233)
   || (c =? 8239) || (c =? 8287) || (c =? 12288))%N.

Fixpoint lstrip (s : pystr) : pystr :=
  match s with
  | c :: s' => if py_isspace c then lstrip s' else s
  | [] => []
  end.

(** [str.strip()] *)
Definition strip (s : pystr) : pystr := rev (lstrip (rev (lstrip s))).

(** The byte of a number below 256. *)
Definition byte_of (n : N) : byte := default x00 (Byte.of_N n).

(** [bytes(text, 'UTF-8')]: [None] stands for [UnicodeEncodeError]
    (surrogates; a [str] holds no code point above 0x10FFFF). *)
Definition utf8_encode_char (c : N) : option bytes :=
  (if c <? 128 then Some [byte_of c]
   else if c <? 2048 then Some [byte_of (192 + c / 64); byte_of (128 + c mod 64)]
   else if c <? 65536 then
     if (55296 <=? c) && (c <? 57344) then None
     else Some [byte_of (224 + c / 4096); byte_of (128 + (c / 64) mod 64);
                byte_of (128 + c mod 64)]
   else if c <? 1114112 then
     Some [byte_of (240 + c / 262144); byte_of (128 + (c / 4096) mod 64);
           byte_of (128 + (c / 64) mod 64); byte_of (128 + c mod 64)]
   else None)%N.

Fixpoint utf8_encode (s : pystr) : option bytes :=
  match s with
  | [] => Some []
  | c :: s' =>
      match utf8_encode_char c, utf8_encode s' with
      | Some b, Some bs => Some (b ++ bs)
      | _, _ => None
      end
  end.

(** [bytes(text, 'ASCII')] *)
Fixpoint ascii_encode (s : pystr) : option bytes :=
  match s with
  | [] => Some []
  | c :: s' =>
      if (c <? 128)%N then (fun bs => byte_of c :: bs) <$> ascii_encode s' else None
  end.

Definition is_ascii_bytes (bs : bytes) : bool :=
  forallb (fun b => (Byte.to_N b <? 128)%N) bs.

Definition is_ascii_str (s : pystr) : bool := forallb (fun c => (c <? 128)%N) s.

(** ** The Python runtime the module relies on

    The codec registry behind [bytes.decode], [str.lower], [float],
    [math.isclose] and the iteration order of a [set] are not code of this
    module.  They are taken as an interface, with the facts about them that
    the proofs use; [cpython] below is an instance covering the codecs the
    module itself names. *)
Class PyRuntime := {
  (** [data.decode(encoding)]; [None] is [LookupError] or [UnicodeDecodeError] *)
  codec_decode : pystr -> bytes -> option pystr;
  (** [text.lower()] *)
  str_lower : pystr -> pystr;
  (** [float(text)]; [None] is [ValueError] *)
  py_float : pystr -> option float;
  (** [math.isclose(a, b)] *)
  math_isclose : float -> float -> bool;
  (** the elements of [set(other) - set(self)] in the order iteration yields them *)
  set_difference : list pystr -> list pystr -> list pystr;

  decode_latin1 : forall bs, codec_decode (py "latin-1") bs = Some (map Byte.to_N bs);
  decode_ascii : forall bs,
    codec_decode (py "ASCII") bs =
      if is_ascii_bytes bs then Some (map Byte.to_N bs) else None;
  decode_utf8 : forall s bs,
    utf8_encode s = Some bs -> codec_decode (py "UTF-8") bs = Some s;
  set_difference_NoDup : forall other self, NoDup (set_difference other self);
  set_difference_elem : forall other self x,
    x ∈ set_difference other self <-> x ∈ other /\ x ∉ self;
}.

(** ** Module constants *)

(** Encoding used for all text output. *)
Definition TEXT_ENCODING : pystr := py "UTF-8".

(** Encoding used for all property names and non-text values. *)
Definition NAME_ENCODING : pystr := py "ASCII".

(** ** Exceptions *)

(** A property value: a scalar string, or a list of strings. *)
Inductive value : Type :=
  | VStr (s : pystr)
  | VList (items : list pystr).

#[global] Instance value_eq_dec : EqDecision value.
Proof. solve_decision. Defined.

Inductive error : Type :=
  | EndOfDataParseError
  | TreeParseError (msg : string)
  | NodePropertyParseError
  | PropertyValueParseError
  (** [MergeError] of [Collection.merge]: the path and the number of games *)
  | MergeError_games (path : string) (games : nat)
  (** [MergeError] of [Node.merge_differing_scalar_property_values]:
      the property ID, the value in [self] and the value in [other] *)
  | MergeError_differ (property_id self_value : pystr) (other_value : value)
  (** [PropertyError] of [Node.node_type] *)
  | PropertyError_node_type
  (** [PropertyError] of [Node.equivalent]: the node and the number of players found *)
  | PropertyError_players (node : string) (num_players : nat)
  (** exceptions of the interpreter *)
  | PyCodecError
  | PyValueError
  | PyTypeError
  | PyAttributeError
  | PyIndexError
  | PyKeyError
  (** a step that the model does not cover *)
  | NotModelled
  (** the model ran out of fuel: never the result of a run of the program *)
  | OutOfFuel.

Inductive result (A : Type) : Type :=
  | Ok (a : A)
  | Err (e : error).
Arguments Ok {A} a.
Arguments Err {A} e.

#[global] Instance result_ret : MRet result := fun _ a => Ok a.
#[global] Instance result_bind : MBind result := fun _ _ f m =>
  match m with
  | Ok a => f a
  | Err e => Err e
  end.

(** ** Property metadata (class attributes of [Node]) *)

Definition list_properties : list pystr := map py
  ["AB"; "AE"; "AR"; "AW"; "CR"; "DD"; "LB"; "LN"; "MA"; "SL"; "SQ";
   "TB"; "TR"; "TW"; "VW"].

Definition scalar_properties : list pystr := map py
  ["AN"; "AP"; "AS"; "B"; "BL"; "BM"; "BR"; "BT"; "C"; "CA"; "CP"; "DM";
   "DO"; "DT"; "EV"; "FF"; "FG"; "GB"; "GC"; "GM"; "GN"; "GW"; "HA";
   "HO"; "IP"; "IT"; "IY"; "KM"; "KO"; "MN"; "N"; "OB"; "ON"; "OT"; "OW";
   "PB"; "PC"; "PL"; "PM"; "PW"; "RE"; "RO"; "RU"; "SE"; "SO"; "ST";
   "SU"; "SZ"; "TE"; "TM"; "UC"; "US"; "V"; "W"; "WL"; "WR"; "WT"].

Definition text_properties : list pystr := map py
  ["AN"; "AP"; "AS"; "BR"; "BT"; "C"; "CA"; "CP"; "DT"; "EV"; "FG"; "GC";
   "GN"; "IP"; "IY"; "LB"; "N"; "ON"; "OT"; "PB"; "PC"; "PW"; "RE"; "RO";
   "RU"; "SO"; "SU"; "US"; "WR"; "WT"].

Definition real_properties : list pystr := map py ["KM"; "BL"; "TM"; "V"; "WL"].

Definition root_only_properties : list pystr := map py
  ["AP"; "CA"; "FF"; "GM"; "ST"; "SZ"; "AN"; "BR"; "BT"; "CP"; "DT";
   "EV"; "GN"; "GC"; "ON"; "OT"; "PB"; "PW"; "PC"; "RE"; "RO"; "RU";
   "SO"; "TM"; "US"; "WR"; "WT"].

Definition setup_properties : list pystr := map py ["AB"; "AW"; "AE"; "PL"].

Definition root_properties : list pystr := root_only_properties ++ setup_properties.

Definition move_properties : list pystr := map py
  ["B"; "W"; "KO"; "MN"; "BM"; "DO"; "IT"; "TE"; "BL"; "OB"; "OW"; "WL"].

Definition move_required_properties : list pystr := map py ["B"; "W"].

(** A value to ignore when merging: a string, or [any] (every value). *)
Inductive ignore_value : Type :=
  | IgnoreAny
  | IgnoreValue (s : pystr).

#[global] Instance ignore_value_eq_dec : EqDecision ignore_value.
Proof. solve_decision. Defined.

(** [Node.ignore_property_values] *)
Definition default_ignore_property_values : list (pystr * list ignore_value) :=
  [(py "RE", [IgnoreValue (py "?")]); (py "AP", [IgnoreAny])].

Inductive NodeType : Type := root | setup | move.

#[global] Instance NodeType_eq_dec : EqDecision NodeType.
Proof. solve_decision. Defined.

(** [Node.node_types], in the order the dictionary is iterated *)
Definition node_types : list (NodeType * list pystr) :=
  [(root, root_properties); (setup, setup_properties); (move, move_properties)].

(** ** The data model *)

(** A property value ([value], above) is a string or a list of strings. *)

(** A [Node] is a [dict]: property IDs to values, in insertion order. *)
Definition Node := list (pystr * value).

(** A [GameTree] is the list of its trunk nodes, with [branches]. *)
#[warnings="-register-all"]
Inductive GameTree : Type :=
  | Tree (nodes : list Node) (branches : list GameTree).

Definition nodes (g : GameTree) : list Node := match g with Tree ns _ => ns end.
Definition branches (g : GameTree) : list GameTree := match g with Tree _ bs => bs end.

Definition Collection := list GameTree.

(** *** [dict] operations *)

Definition keys (d : Node) : list pystr := map fst d.

(** [d.get(k)] *)
Fixpoint dict_get (k : pystr) (d : Node) : option value :=
  match d with
  | [] => None
  | (k', v) :: d' => if str_eqb k k' then Some v else dict_get k d'
  end.

(** [d[k] = v]: an existing key keeps its place, a new one goes last. *)
Fixpoint dict_set (k : pystr) (v : value) (d : Node) : Node :=
  match d with
  | [] => [(k, v)]
  | (k', v') :: d' => if str_eqb k k' then (k, v) :: d' else (k', v') :: dict_set k v d'
  end.

(** [del d[k]] *)
Fixpoint dict_del (k : pystr) (d : Node) : Node :=
  match d with
  | [] => []
  | (k', v') :: d' => if str_eqb k k' then d' else (k', v') :: dict_del k d'
  end.

(** [k in d] *)
Definition dict_in (k : pystr) (d : Node) : bool := str_in k (keys d).

(** Truth value of a property value: an empty string or list is false. *)
Definition truthy (v : value) : bool :=
  match v with
  | VStr [] | VList [] => false
  | _ => true
  end.

(** Truth value of an optional comment: [None] and [''] are false. *)
Definition comment_given (comment : option pystr) : bool :=
  match comment with
  | None | Some [] => false
  | Some _ => true
  end.

(** [.get(property_id, set())] on a table of values to ignore *)
Fixpoint ignore_get (property_id : pystr) (t : list (pystr * list ignore_value))
  : list ignore_value :=
  match t with
  | [] => []
  | (k, vs) :: t' => if str_eqb property_id k then vs else ignore_get property_id t'
  end.

(** The characters of a string, as one-character strings. *)
Definition chars (s : pystr) : list pystr := map (fun c => [c]) s.

(** [set(v)]: the items of a list, or the characters of a string. *)
Definition elements_of (v : value) : list pystr :=
  match v with
  | VStr s => chars s
  | VList items => items
  end.

Section Model.
Context {rt : PyRuntime}.

(** *** [Node] methods *)

(** [Node.node_type] *)
Definition node_type (self : Node) : result (option NodeType) :=
  let props := keys self in
  if bool_decide (props = [])
     || (str_in (py "C") props
         && negb (from_option truthy false (dict_get (py "C") self)))
  then Ok None
  else
    match find (fun '(_, node_type_properties) =>
                  existsb (fun k => str_in k node_type_properties) props) node_types with
    | Some (t, _) => Ok (Some t)
    | None => Err PropertyError_node_type
    end.

(** [set(node.keys()) & node.move_required_properties] *)
Definition players (n : Node) : list pystr :=
  filter (fun k => k ∈ keys n) move_required_properties.

(** [Node.equivalent] *)
Definition equivalent (self other : Node) : result bool :=
  my_type ← node_type self;
  other_type ← node_type other;
  match my_type, other_type with
  | None, _ | _, None => Ok true
  | Some my_type, Some other_type =>
      if negb (bool_decide (my_type = other_type)) then Ok false
      else if bool_decide (my_type = move) then
        let self_player := players self in
        if negb (length self_player =? 1)%nat
        then Err (PropertyError_players "self" (length self_player))
        else
          let other_player := players other in
          if negb (length other_player =? 1)%nat
          then Err (PropertyError_players "other" (length other_player))
          else if negb (bool_decide (self_player = other_player)) then Ok false
          else
            match self_player with
            | player :: _ =>
                if negb (bool_decide (dict_get player self = dict_get player other))
                then Ok false  (* different coordinates *)
                else Ok true
            | [] => Ok true
            end
      else Ok true
  end.

(** [Node.prefix_comment] *)
Definition Node_prefix_comment (self : Node) (comment : option pystr) : result Node :=
  match comment with
  | None | Some [] => Ok self
  | Some comment =>
      match dict_get (py "C") self with
      | Some (VStr c) =>
          if bool_decide (strip c = [])
          then Ok (dict_set (py "C") (VStr comment) self)
          else Ok (dict_set (py "C") (VStr (comment ++ py (String "010" "") ++ c)) self)
      | Some (VList _) => Err PyAttributeError
      | None => Ok (dict_set (py "C") (VStr comment) self)
      end
  end.

(** [Node.merge_differing_scalar_property_values]; [self[property_id]] is
    present and differs from [other_value]. *)
Definition merge_differing_scalar_property_values
    (self : Node) (property_id : pystr) (other_value : value)
    (ignore_values : list ignore_value) : result Node :=
  match dict_get property_id self with
  | None => Err PyKeyError
  | Some (VList _) => Err PyTypeError
  | Some (VStr self_value) =>
      let '(self, self_value) :=
        if bool_decide (IgnoreValue self_value ∈ ignore_values)
        then (dict_del property_id self, None)  (* the value from other is used instead *)
        else (self, Some self_value) in
      if negb (truthy other_value) then Ok self
      else
        match self_value with
        | None | Some [] => Ok (dict_set property_id other_value self)
        | Some self_value =>
            match other_value with
            | VList _ =>
                if str_in property_id real_properties then
                  match py_float self_value with
                  | None => Err PyValueError
                  | Some _ => Err PyTypeError
                  end
                else if str_in property_id text_properties then Err PyAttributeError
                else Err (MergeError_differ property_id self_value other_value)
            | VStr other_text =>
                close ←
                  (if str_in property_id real_properties then
                     match py_float self_value with
                     | None => Err PyValueError
                     | Some a =>
                         match py_float other_text with
                         | None => Err PyValueError
                         | Some b => Ok (math_isclose a b)
                         end
                     end
                   else Ok false);
                if (close : bool) then Ok self
                else if str_in property_id text_properties
                        && str_eqb (str_lower self_value) (str_lower other_text)
                then Ok self
                else Err (MergeError_differ property_id self_value other_value)
            end
        end
  end.

(** One round of the loop of [Node.merge], for one item of [other]; [comment]
    is the prefix with its line break, or [''] . *)
Definition merge_item (comment : pystr) (comments_everywhere : bool)
    (ignore_property_values : list (pystr * list ignore_value))
    (self : Node) (item : pystr * value) : result Node :=
  let '(property_id, other_value) := item in
  let ignore_values :=
    ignore_get property_id default_ignore_property_values
    ++ ignore_get property_id ignore_property_values in
  ignored ←
    (if str_in property_id scalar_properties then
       if bool_decide (IgnoreAny ∈ ignore_values) then Ok true
       else
         match other_value with
         | VStr s => Ok (bool_decide (IgnoreValue s ∈ ignore_values))
         | VList _ => Err PyTypeError
         end
     else Ok false);
  if (ignored : bool) then Ok self
  else if str_eqb property_id (py "C") then
    match other_value with
    | VList _ => Err PyAttributeError
    | VStr other_value =>
        let nl := py (String "010" "") in
        match dict_get (py "C") self with
        | Some (VList []) | Some (VStr []) | None =>
            if comments_everywhere
            then Ok (dict_set (py "C") (VStr (comment ++ strip other_value)) self)
            else Ok (dict_set (py "C") (VStr (strip other_value)) self)
        | Some (VList _) => Err PyAttributeError
        | Some (VStr c) =>
            if negb (str_eqb (strip c) (strip other_value)) then
              if comments_everywhere
              then Ok (dict_set (py "C")
                         (VStr (strip c ++ nl ++ nl ++ comment ++ strip other_value)) self)
              else Ok (dict_set (py "C")
                         (VStr (strip c ++ nl ++ nl ++ strip other_value)) self)
            else Ok self
        end
    end
  else
    match dict_get property_id self with
    | Some self_value =>
        if str_in property_id scalar_properties then
          if negb (bool_decide (other_value = self_value))
          then merge_differing_scalar_property_values
                 self property_id other_value ignore_values
          else Ok self
        else
          let extras := set_difference (elements_of other_value) (elements_of self_value) in
          if bool_decide (extras = []) then Ok self
          else
            match self_value with
            | VList items => Ok (dict_set property_id (VList (items ++ extras)) self)
            | VStr _ => Err PyAttributeError
            end
    | None => Ok (dict_set property_id other_value self)
    end.

(** The loop of [Node.merge] over the items of [other]. *)
Fixpoint merge_items (comment : pystr) (comments_everywhere : bool)
    (ignore_property_values : list (pystr * list ignore_value))
    (self : Node) (items : list (pystr * value)) : result Node :=
  match items with
  | [] => Ok self
  | item :: items' =>
      self' ← merge_item comment comments_everywhere ignore_property_values self item;
      merge_items comment comments_everywhere ignore_property_values self' items'
  end.

(** [Node.merge]: the merged [self] *)
Definition Node_merge (self other : Node) (comment : option pystr)
    (comments_everywhere : bool)
    (ignore_property_values : option (list (pystr * list ignore_value))) : result Node :=
  let comment :=
    match comment with
    | None => []
    | Some comment => comment ++ py (String "010" "")
    end in
  let ignore_property_values := default [] ignore_property_values in
  merge_items comment comments_everywhere ignore_property_values self other.

End Model.

Section Merge.
Context {rt : PyRuntime}.

(** *** [GameTree] methods *)

(** [GameTree.prefix_comment] *)
Fixpoint GameTree_prefix_comment (self : GameTree) (comment : option pystr)
  : result GameTree :=
  if negb (comment_given comment) then Ok self
  else
    match self with
    | Tree (first :: rest) bs =>
        first' ← Node_prefix_comment first comment;
        Ok (Tree (first' :: rest) bs)
    | Tree [] bs =>
        bs' ← (fix each (l : list GameTree) : result (list GameTree) :=
                 match l with
                 | [] => Ok []
                 | branch :: l' =>
                     branch' ← GameTree_prefix_comment branch comment;
                     l'' ← each l';
                     Ok (branch' :: l'')
                 end) bs;
        Ok (Tree [] bs')
    end.

(** The constructor [GameTree(nodelist, branches, comment)] for a list of nodes. *)
Definition GameTree_init (nodelist : list Node) (branches : list GameTree)
    (comment : option pystr) : result GameTree :=
  GameTree_prefix_comment (Tree nodelist branches) comment.

(** [GameTree.normalize].  The loop body [self.extend(self.branches[0]);
    self.branches = self.branches[0].branches] makes [self] the tree of its
    trunk so far and of its only branch: [normalize_from trunk branch] is the
    loop on the tree with the nodes [trunk] followed by those of [branch],
    and the branches of [branch]. *)
Fixpoint normalize_from (trunk : list Node) (branch : GameTree) {struct branch}
  : GameTree :=
  match branch with
  | Tree ns bs =>
      match bs with
      | [] => Tree (trunk ++ ns) []
      | [only] => normalize_from (trunk ++ ns) only
      | _ => Tree (trunk ++ ns) (map (normalize_from []) bs)
      end
  end.

Definition normalize (self : GameTree) : GameTree := normalize_from [] self.

(** How the lockstep walk over the two trunks of [GameTree.merge] ends:
    [merged] are the nodes of [self] merged so far (their number is [i + 1]),
    [self_rest] and [other_rest] are [self[i+1:]] and [other[i+1:]] when the
    loop ran to its end, and [self[i:]] and [other[i:]] when it broke off. *)
Inductive walk : Type :=
  | Diverged (merged self_rest other_rest : list Node)
  | Exhausted (merged self_rest other_rest : list Node).

Definition walk_cons (n : Node) (w : walk) : walk :=
  match w with
  | Diverged merged s o => Diverged (n :: merged) s o
  | Exhausted merged s o => Exhausted (n :: merged) s o
  end.

(** The [for ... in zip(itertools.count(), self, other)] loop of [GameTree.merge]. *)
Fixpoint trunk_walk (self other : list Node) (comment : option pystr)
    (comments_everywhere : bool)
    (ignore_property_values : option (list (pystr * list ignore_value)))
  : result walk :=
  match self, other with
  | my_node :: self', other_node :: other' =>
      eq ← equivalent my_node other_node;
      if (eq : bool) then
        my_node' ← Node_merge my_node other_node comment comments_everywhere
                      ignore_property_values;
        w ← trunk_walk self' other' comment comments_everywhere ignore_property_values;
        Ok (walk_cons my_node' w)
      else Ok (Diverged [] self other)
  | _, _ => Ok (Exhausted [] self other)
  end.

(** [tree[0]] *)
Definition first_node (tree : GameTree) : result Node :=
  match nodes tree with
  | n :: _ => Ok n
  | [] => Err PyIndexError
  end.

(** The inner loop of the branch merge: [self_branch] is merged with the
    first branch of [other] that starts with an equivalent node, which is
    then deleted from the branches of [other]; [seen] are the branches
    passed over. *)
Fixpoint merge_into_branch (merge : GameTree -> GameTree -> result GameTree)
    (self_branch : GameTree) (seen others : list GameTree)
  : result (GameTree * list GameTree) :=
  match others with
  | [] => Ok (self_branch, seen)
  | other_branch :: others' =>
      mine ← first_node self_branch;
      theirs ← first_node other_branch;
      eq ← equivalent mine theirs;
      if (eq : bool) then
        self_branch' ← merge self_branch other_branch;
        Ok (self_branch', seen ++ others')
      else merge_into_branch merge self_branch (seen ++ [other_branch]) others'
  end.

(** The outer loop, over the branches of [self]. *)
Fixpoint merge_branches (merge : GameTree -> GameTree -> result GameTree)
    (self_branches other_branches : list GameTree)
  : result (list GameTree * list GameTree) :=
  match self_branches with
  | [] => Ok ([], other_branches)
  | self_branch :: rest =>
      '(self_branch', other_branches') ←
        merge_into_branch merge self_branch [] other_branches;
      '(rest', other_branches'') ← merge_branches merge rest other_branches';
      Ok (self_branch' :: rest', other_branches'')
  end.

(** [for other_branch in other.branches: other_branch.prefix_comment(comment)] *)
Fixpoint prefix_comments (bs : list GameTree) (comment : option pystr)
  : result (list GameTree) :=
  match bs with
  | [] => Ok []
  | b :: bs' =>
      b' ← GameTree_prefix_comment b comment;
      bs'' ← prefix_comments bs' comment;
      Ok (b' :: bs'')
  end.

(** The body of [GameTree.merge]: the merged [self]; [recurse] is the
    method itself, for the call [self_branch.merge(other_branch, ...)]. *)
Definition GameTree_merge_body (recurse : GameTree -> GameTree -> result GameTree)
    (self other : GameTree)
    (comment : option pystr) (comments_everywhere : bool)
    (ignore_property_values : option (list (pystr * list ignore_value)))
  : result GameTree :=
  (* other = other.deepcopy() *)
  w ← trunk_walk (nodes self) (nodes other) comment comments_everywhere
         ignore_property_values;
  match w with
  | Diverged merged self_rest other_rest =>
      (* Make the rest of self & other into branches: *)
      let self_branch := Tree self_rest (branches self) in
      other_branch ← GameTree_init other_rest (branches other) comment;
      Ok (Tree merged [self_branch; other_branch])
  | Exhausted merged self_rest other_rest =>
      let finish (self other : GameTree) : result GameTree :=
        (* Check for leftover nodes. *)
        '(self, other) ←
          (if (length (nodes other) <? length (nodes self))%nat then
             if negb (bool_decide (branches other = [])) then
               let self_branch := Tree self_rest (branches self) in
               Ok (Tree merged [self_branch], other)
             else Ok (self, other)
           else if (length (nodes self) <? length (nodes other))%nat then
             other_branch ← GameTree_init other_rest (branches other) comment;
             Ok (self,
                 Tree (take (length merged) (nodes other)) [other_branch])
           else Ok (self, other));
        if bool_decide (branches other = []) then Ok self
        else
          let self :=
            if bool_decide (branches self = [])
            then Tree (nodes self) [Tree [[(py "C", VStr [])]] []]
            else self in
          (* Merge branches: *)
          '(self_branches, other_branches) ←
            merge_branches recurse (branches self) (branches other);
          other_branches' ← prefix_comments other_branches comment;
          Ok (Tree (nodes self) (self_branches ++ other_branches')) in
      let self' := Tree (merged ++ self_rest) (branches self) in
      if bool_decide (merged = []) then
        (* Either self or other is empty, prior to branches. *)
        if negb (bool_decide (nodes self = [])) then
          if bool_decide (branches other = []) then Ok self'
          else finish self' other
        else if bool_decide (branches self = []) then
          (* self is empty; copy data from other: *)
          other_nodes ←
            match nodes other with
            | first :: rest =>
                first' ← Node_prefix_comment first comment;
                Ok (first' :: rest)
            | [] => Ok []
            end;
          Ok (Tree other_nodes (branches other))
        else finish self' other
      else finish self' other
  end.

(** [GameTree.merge], with [fuel] for the depth of the recursion into the
    branches, which is not structural. *)
Fixpoint GameTree_merge_fuel (fuel : nat) (self other : GameTree)
    (comment : option pystr) (comments_everywhere : bool)
    (ignore_property_values : option (list (pystr * list ignore_value)))
  : result GameTree :=
  match fuel with
  | O => Err OutOfFuel
  | S fuel' =>
      GameTree_merge_body
        (fun self_branch other_branch =>
           GameTree_merge_fuel fuel' self_branch other_branch comment
             comments_everywhere ignore_property_values)
        self other comment comments_everywhere ignore_property_values
  end.

(** The nodes and trees of a tree. *)
Fixpoint tree_size (g : GameTree) : nat :=
  match g with
  | Tree ns bs => S (length ns + list_sum (map tree_size bs))
  end.

(** [GameTree.merge] *)
Definition GameTree_merge (self other : GameTree)
    (comment : option pystr) (comments_everywhere : bool)
    (ignore_property_values : option (list (pystr * list ignore_value)))
  : result GameTree :=
  GameTree_merge_fuel (2 * tree_size other + 2) self other comment comments_everywhere
    ignore_property_values.

(** *** [Collection] methods *)

(** [Collection.normalize] *)
Definition Collection_normalize (self : Collection) : Collection := map normalize self.

(** [Collection.merge]; [path] is [None] for a collection that was not
    loaded from a file. *)
Definition Collection_merge (self other : Collection)
    (comment : option pystr) (comments_everywhere : bool)
    (ignore_property_values : option (list (pystr * list ignore_value)))
  : result Collection :=
  if negb (length self =? 1)%nat
  then Err (MergeError_games "<data:self>" (length self))
  else if negb (length other =? 1)%nat
  then Err (MergeError_games "<data:other>" (length other))
  else
    match self, other with
    | tree :: rest, other_tree :: _ =>
        tree' ← GameTree_merge tree other_tree comment comments_everywhere
                   ignore_property_values;
        Ok (Collection_normalize (tree' :: rest))
    | _, _ => Err PyIndexError
    end.

End Merge.

(** ** More methods of [GameTree] *)

(** [GameTree.trunk]: the main line of the game, as a tree without
    branches; a tree without branches is returned as it is. *)
Fixpoint trunk (self : GameTree) : GameTree :=
  match self with
  | Tree ns bs =>
      match bs with
      | first :: _ => Tree (ns ++ nodes (trunk first)) []
      | [] => self
      end
  end.

(** The nodes of a tree, in the order in which it is written: the trunk,
    then each branch. *)
Fixpoint all_nodes (g : GameTree) : list Node :=
  match g with
  | Tree ns bs => ns ++ flat_map all_nodes bs
  end.

(** ** Properties as attributes of a [Node] *)

(** [Node.property_ids]: the name of each property ID. *)
Definition property_ids : list (pystr * pystr) := map (fun '(k, v) => (py k, py v))
  [("AB", "add_black"); ("AE", "add_empty"); ("AN", "annotation");
   ("AP", "application"); ("AR", "arrow"); ("AS", "who_adds_stones");
   ("AW", "add_white"); ("B", "black"); ("BL", "black_time_left"); ("BM", "bad_move");
   ("BR", "black_rank"); ("BT", "black_team"); ("C", "comment"); ("CA", "charset");
   ("CP", "copyright"); ("CR", "circle"); ("DD", "dim_points");
   ("DM", "even_position"); ("DO", "doubtful"); ("DT", "date"); ("EV", "event");
   ("FF", "file_format"); ("FG", "figure"); ("GB", "good_for_black");
   ("GC", "game_comment"); ("GM", "game"); ("GN", "game_name");
   ("GW", "good_for_white"); ("HA", "handicap"); ("HO", "hotspot");
   ("IP", "initial_position"); ("IT", "interesting"); ("IY", "invert_y_axis");
   ("KM", "komi"); ("KO", "ko"); ("LB", "label"); ("LN", "line"); ("MA", "mark");
   ("MN", "set_move_number"); ("N", "node_name"); ("OB", "overtime_stones_black");
   ("ON", "opening"); ("OT", "overtime"); ("OW", "overtime_stones_white");
   ("PB", "player_black"); ("PC", "place"); ("PL", "player_to_play");
   ("PM", "print_move_mode"); ("PW", "player_white"); ("RE", "result");
   ("RO", "round"); ("RU", "rules"); ("SE", "markup"); ("SL", "selected");
   ("SO", "source"); ("SQ", "square"); ("ST", "style"); ("SU", "setup_type");
   ("SZ", "size"); ("TB", "territory_black"); ("TE", "tesuji"); ("TM", "time_limit");
   ("TR", "triangle"); ("TW", "territory_white"); ("UC", "unclear_position");
   ("US", "user"); ("V", "value"); ("VW", "view"); ("W", "white");
   ("WL", "white_time_left"); ("WR", "white_rank"); ("WT", "white_team")].

Fixpoint names_get (k : pystr) (table : list (pystr * pystr)) : option pystr :=
  match table with
  | [] => None
  | (k', v) :: table' => if str_eqb k k' then Some v else names_get k table'
  end.

Fixpoint names_set (k v : pystr) (table : list (pystr * pystr))
  : list (pystr * pystr) :=
  match table with
  | [] => [(k, v)]
  | (k', v') :: table' =>
      if str_eqb k k' then (k, v) :: table' else (k', v') :: names_set k v table'
  end.

(** [Node.property_names]: the dict comprehension
    [{value: key for (key, value) in property_ids.items()}]. *)
Definition property_names : list (pystr * pystr) :=
  fold_left (fun names '(key, value) => names_set value key names) property_ids [].

(** What attribute access raises: [PropertyError] with one of its three
    messages, and the [TypeError] of calling what is not callable. *)
Inductive raised : Type :=
  | PropertyError_unknown (name : pystr)
  | PropertyError_no_id (name : pystr)
  | PropertyError_no_property (name key : pystr)
  | PyTypeError_not_callable.

Inductive attr (A : Type) : Type :=
  | Returned (a : A)
  | Raised (e : raised).

Arguments Returned {A} a.
Arguments Raised {A} e.

(** [Node.resolve_property_id] *)
Definition resolve_property_id (name : pystr) : attr pystr :=
  if str_in name (map fst property_ids) then Returned name
  else
    match names_get name property_names with
    | Some key => Returned key
    | None => Raised (PropertyError_unknown name)
    end.

(** [Node.__getattr__] *)
Definition Node_getattr (self : Node) (name : pystr) : attr value :=
  match resolve_property_id name with
  | Raised e => Raised e
  | Returned key =>
      match dict_get key self with
      | Some v => Returned v
      | None =>
          if str_eqb name key then Raised (PropertyError_no_id name)
          else Raised (PropertyError_no_property name key)
      end
  end.

(** [Node.__setattr__]: the node with the value *)
Definition Node_setattr (self : Node) (name : pystr) (v : value) : attr Node :=
  match resolve_property_id name with
  | Raised e => Raised e
  | Returned key => Returned (dict_set key v self)
  end.

(** [Node.__delattr__]: the node without the property *)
Definition Node_delattr (self : Node) (name : pystr) : attr Node :=
  match resolve_property_id name with
  | Raised e => Raised e
  | Returned key =>
      if dict_in key self then Returned (dict_del key self)
      else if str_eqb name key then Raised (PropertyError_no_id name)
      else Raised (PropertyError_no_property name key)
  end.

(** [n.has_key(pid)] in [GameTree.property_search]: a [dict] of Python 3
    has no [has_key], and [Node] defines none, so the name goes to
    [Node.__getattr__]; a property of that name would not be callable. *)
Definition Node_has_key (n : Node) (pid : pystr) : attr bool :=
  match Node_getattr n (py "has_key") with
  | Raised e => Raised e
  | Returned _ => Raised PyTypeError_not_callable
  end.

(** The loop of [GameTree.property_search] over the nodes of the trunk:
    the matches, and whether the loop broke off. *)
Fixpoint search_nodes (ns : list Node) (pid : pystr) (getall : bool)
    (matches : list Node) : attr (list Node * bool) :=
  match ns with
  | [] => Returned (matches, false)
  | n :: ns' =>
      match Node_has_key n pid with
      | Raised e => Raised e
      | Returned true =>
          if negb getall then Returned (matches ++ [n], true)
          else search_nodes ns' pid getall (matches ++ [n])
      | Returned false => search_nodes ns' pid getall matches
      end
  end.

(** The loop of [GameTree.property_search] over the branches; [search] is
    the method itself. *)
Fixpoint search_branches (search : GameTree -> attr GameTree) (getall : bool)
    (l : list GameTree) (matches : list Node) : attr (list Node) :=
  match l with
  | [] => Returned matches
  | v :: l' =>
      match search v with
      | Raised e => Raised e
      | Returned found =>
          let matches := matches ++ nodes found in
          if negb getall && negb (bool_decide (matches = [])) then Returned matches
          else search_branches search getall l' matches
      end
  end.

(** [GameTree.property_search] *)
Fixpoint property_search (self : GameTree) (pid : pystr) (getall : bool)
  : attr GameTree :=
  match self with
  | Tree ns bs =>
      match search_nodes ns pid getall [] with
      | Raised e => Raised e
      | Returned (matches, true) => Returned (Tree matches [])
      | Returned (matches, false) =>
          (* getall or not matches: *)
          match
            search_branches (fun v => property_search v pid getall) getall bs matches
          with
          | Raised e => Raised e
          | Returned matches => Returned (Tree matches [])
          end
      end
  end.

(** What the tables give for every property: its ID stands for itself,
    and its name stands for its ID. *)
Definition resolves (entry : pystr * pystr) : bool :=
  match resolve_property_id entry.1, resolve_property_id entry.2 with
  | Returned key, Returned key' => str_eqb key entry.1 && str_eqb key' entry.1
  | _, _ => false
  end.

(** ** The serializer: [__bytes__] *)

(** [Node.chars_to_escape]: the backslash and the closing bracket *)
Definition chars_to_escape : list N := [92%N; 93%N].

(** [chars_to_escape_pattern.split(text)]: the text between the characters
    to escape at the even indexes, those characters at the odd ones;
    [current] is the part being read. *)
Fixpoint pattern_split (text current : pystr) : list pystr :=
  match text with
  | [] => [current]
  | c :: text' =>
      if bool_decide (c ∈ chars_to_escape)
      then current :: [c] :: pattern_split text' []
      else pattern_split text' (current ++ [c])
  end.

(** [Node.escape_text] *)
Definition escape_text (text : pystr) : pystr :=
  concat (imap (fun index part => if Nat.odd index then 92%N :: part else part)
            (pattern_split text [])).

(** [bytes(text, encoding)] for the two encodings of the module *)
Definition encode (text_property : bool) (text : pystr) : result bytes :=
  match (if text_property then utf8_encode text else ascii_encode text) with
  | Some data => Ok data
  | None => Err PyCodecError
  end.

(** [sep.join(parts)] *)
Fixpoint join {A : Type} (sep : list A) (parts : list (list A)) : list A :=
  match parts with
  | [] => []
  | [part] => part
  | part :: parts' => part ++ sep ++ join sep parts'
  end.

(** The bytes of the items of a list property, each escaped and encoded. *)
Fixpoint encode_items (text_property : bool) (items : list pystr) : result (list bytes) :=
  match items with
  | [] => Ok []
  | item :: items' =>
      data ← encode text_property (escape_text item);
      rest ← encode_items text_property items';
      Ok (data :: rest)
  end.

(** One round of the loop of [Node.__bytes__]: the parts of one property.
    The [str()] of a list held by a scalar property is its [repr], which is
    not modelled. *)
Definition property_bytes (item : pystr * value) : result bytes :=
  let '(name, value) := item in
  let text_property := str_in name text_properties in
  name_bytes ← encode false name;
  value_bytes ←
    (if str_in name list_properties then
       items ← encode_items text_property (elements_of value);
       Ok (join (pyb "][") items)
     else
       match value with
       | VStr text => encode text_property (escape_text text)
       | VList _ => Err NotModelled
       end);
  Ok (name_bytes ++ pyb "[" ++ value_bytes ++ pyb "]").

Fixpoint properties_bytes (items : list (pystr * value)) : result bytes :=
  match items with
  | [] => Ok []
  | item :: items' =>
      data ← property_bytes item;
      rest ← properties_bytes items';
      Ok (data ++ rest)
  end.

(** [Node.__bytes__] *)
Definition Node_bytes (self : Node) : result bytes :=
  data ← properties_bytes self;
  Ok (pyb ";" ++ data).

Fixpoint nodes_bytes (ns : list Node) : result (list bytes) :=
  match ns with
  | [] => Ok []
  | n :: ns' =>
      data ← Node_bytes n;
      rest ← nodes_bytes ns';
      Ok (data :: rest)
  end.

(** The line break that joins the parts of a tree. *)
Definition LF : bytes := [x0a].

(** [GameTree.__bytes__] *)
Fixpoint GameTree_bytes (self : GameTree) : result bytes :=
  match self with
  | Tree ns bs =>
      items ← nodes_bytes ns;
      subtrees ←
        (fix each (l : list GameTree) : result (list bytes) :=
           match l with
           | [] => Ok []
           | branch :: l' =>
               data ← GameTree_bytes branch;
               rest ← each l';
               Ok (data :: rest)
           end) bs;
      Ok (join LF ([pyb "("] ++ items ++ subtrees ++ [pyb ")"]))
  end.

Fixpoint trees_bytes (l : list GameTree) : result (list bytes) :=
  match l with
  | [] => Ok []
  | tree :: l' =>
      data ← GameTree_bytes tree;
      rest ← trees_bytes l';
      Ok (data :: rest)
  end.

(** [Collection.__bytes__]: game trees separated by a blank line *)
Definition Collection_bytes (self : Collection) : result bytes :=
  items ← trees_bytes self;
  Ok (join (LF ++ LF) items).

(** ** The serializer: [__str__] and [pretty] *)

(** [PRETTY_INDENT_SPACES] *)
Definition PRETTY_INDENT_SPACES : nat := 2.

(** One round of the loop of [Node.__str__]: the parts of one property.
    As in [__bytes__], the [str()] of a list held by a scalar property is
    not modelled. *)
Definition property_str (item : pystr * value) : result pystr :=
  let '(name, value) := item in
  value_str ←
    (if str_in name list_properties then
       Ok (join (py "][") (map escape_text (elements_of value)))
     else
       match value with
       | VStr text => Ok (escape_text text)
       | VList _ => Err NotModelled
       end);
  Ok (name ++ py "[" ++ value_str ++ py "]").

Fixpoint properties_str (items : list (pystr * value)) : result pystr :=
  match items with
  | [] => Ok []
  | item :: items' =>
      text ← property_str item;
      rest ← properties_str items';
      Ok (text ++ rest)
  end.

(** [Node.__str__] *)
Definition Node_str (self : Node) : result pystr :=
  text ← properties_str self;
  Ok (py ";" ++ text).

(** [Node.pretty] *)
Definition Node_pretty (self : Node) (indent : nat) : result pystr := Node_str self.

(** The line break of [str]. *)
Definition NL : pystr := [10%N].

(** [' ' * n] *)
Definition spaces (n : nat) : pystr := repeat 32%N n.

(** [[f(item) for item in l]] *)
Fixpoint map_ok {A B : Type} (f : A -> result B) (l : list A) : result (list B) :=
  match l with
  | [] => Ok []
  | x :: l' =>
      y ← f x;
      ys ← map_ok f l';
      Ok (y :: ys)
  end.

(** [GameTree.__str__] *)
Fixpoint GameTree_str (self : GameTree) : result pystr :=
  match self with
  | Tree ns bs =>
      items ← map_ok Node_str ns;
      subtrees ←
        (fix trees (l : list GameTree) : result (list pystr) :=
           match l with
           | [] => Ok []
           | branch :: l' =>
               text ← GameTree_str branch;
               rest ← trees l';
               Ok (text :: rest)
           end) bs;
      Ok (join NL ([py "("] ++ items ++ subtrees ++ [py ")"]))
  end.

(** [GameTree.pretty] *)
Fixpoint GameTree_pretty (self : GameTree) (indent : nat) : result pystr :=
  match self with
  | Tree ns bs =>
      let indent := (indent + 1)%nat in
      items ← map_ok (fun item => Node_pretty item indent) ns;
      subtrees ←
        (fix trees (l : list GameTree) : result (list pystr) :=
           match l with
           | [] => Ok []
           | branch :: l' =>
               text ← GameTree_pretty branch indent;
               rest ← trees l';
               Ok (text :: rest)
           end) bs;
      Ok (join (NL ++ spaces (indent * PRETTY_INDENT_SPACES))
               ([py "("] ++ items ++ subtrees)
          ++ NL ++ spaces ((indent - 1) * PRETTY_INDENT_SPACES) ++ py ")")
  end.

(** [Collection.__str__] *)
Definition Collection_str (self : Collection) : result pystr :=
  items ← map_ok GameTree_str self;
  Ok (join (NL ++ NL) items).

(** [Collection.pretty] *)
Definition Collection_pretty (self : Collection) : result pystr :=
  items ← map_ok (fun item => GameTree_pretty item 0) self;
  Ok (join (NL ++ NL) items ++ NL).

(** The bytes that [Collection.save] writes. *)
Definition save_output (self : Collection) (pretty : bool) : result bytes :=
  if pretty then
    text ← Collection_pretty self;
    encode true text
  else Collection_bytes self.

(** ** The parser *)

(** The state of a [Parser]: [rest] is [self.data[self.index:]], what is
    left to read of the data (every pattern is matched or searched from
    [self.index] on, and [self.index < self.datalen] says that [rest] is not
    empty); [encoding] is [self.encoding]. *)
Record Parser : Type := mkParser {
  rest : bytes;
  encoding : pystr;
}.

Definition set_rest (p : Parser) (r : bytes) : Parser := mkParser r (encoding p).

(** *** [Parser.patterns] *)

(** [\s] in a bytes pattern: space, tab, line feed, vertical tab, form feed,
    carriage return *)
Definition is_space (b : byte) : bool :=
  match b with
  | x20 | x09 | x0a | x0b | x0c | x0d => true
  | _ => false
  end.

(** [[A-Za-z]] *)
Definition is_letter (b : byte) : bool :=
  let n := Byte.to_N b in
  ((65 <=? n) && (n <=? 90) || (97 <=? n) && (n <=? 122))%N.

(** What is left after [\s*] *)
Fixpoint skip_space (data : bytes) : bytes :=
  match data with
  | b :: data' => if is_space b then skip_space data' else data
  | [] => []
  end.

(** A pattern [\s*c] for one byte [c]: what is left after the match *)
Definition after_space (c : byte) (data : bytes) : option bytes :=
  match skip_space data with
  | b :: r => if bool_decide (b = c) then Some r else None
  | [] => None
  end.

(** [game_tree_start = \s*\(] *)
Definition game_tree_start (data : bytes) : option bytes := after_space x28 data.

(** [game_tree_end = \s*\)] *)
Definition game_tree_end (data : bytes) : option bytes := after_space x29 data.

(** [game_tree_next = \s*(;|\(|\))]: the group and what is left *)
Definition game_tree_next (data : bytes) : option (byte * bytes) :=
  match skip_space data with
  | b :: r =>
      if bool_decide (b = x3b) || bool_decide (b = x28) || bool_decide (b = x29)
      then Some (b, r)
      else None
  | [] => None
  end.

(** The longest run of letters at the head, and what follows it. *)
Fixpoint span_letters (data : bytes) : bytes * bytes :=
  match data with
  | b :: data' =>
      if is_letter b
      then let '(letters, r) := span_letters data' in (b :: letters, r)
      else ([], data)
  | [] => ([], [])
  end.

(** [property_start = \s*\[] *)
Definition property_start (data : bytes) : option bytes := after_space x5b data.

(** [node_contents = \s*([A-Za-z]+(?=\s*\[))]: the group and what is left
    after it.  A shorter run of letters is followed by a letter, so only the
    longest run can be followed by [\s*\[]. *)
Definition node_contents (data : bytes) : option (bytes * bytes) :=
  let '(letters, r) := span_letters (skip_space data) in
  match letters, property_start r with
  | _ :: _, Some _ => Some (letters, r)
  | _, _ => None
  end.

(** [pattern.search] for a one-byte pattern: the offset of the first
    occurrence of the byte *)
Fixpoint search (b : byte) (data : bytes) : option nat :=
  match data with
  | [] => None
  | b' :: data' => if bool_decide (b' = b) then Some O else S <$> search b data'
  end.

(** [line_break = \r\n?|\n\r?]: the length of the match *)
Definition line_break (data : bytes) : option nat :=
  match data with
  | b :: data' =>
      let other := if bool_decide (b = x0d) then Some x0a
                   else if bool_decide (b = x0a) then Some x0d else None in
      match other, data' with
      | Some c, b' :: _ => if bool_decide (b' = c) then Some 2%nat else Some 1%nat
      | Some _, [] => Some 1%nat
      | None, _ => None
      end
  | [] => None
  end.

Section Parser.
Context {rt : PyRuntime}.

(** *** [Parser.parse_property_value] *)

(** The loop that scans one value for escaped characters; [data] is what
    is left to read and [value_parts] what was copied.  It ends with the
    value and what is left after its closing bracket. *)
Fixpoint scan_value (fuel : nat) (data value_parts : bytes) : result (bytes * bytes) :=
  match fuel with
  | O => Err OutOfFuel
  | S fuel' =>
      let mend := search x5d data in
      let mesc := search x5c data in
      match mesc, mend with
      | Some esc, Some close =>
          if (S esc <? S close)%nat then
            (* copy up to the escape, but remove it *)
            let value_parts := value_parts ++ take esc data in
            let after := drop (S esc) data in
            match line_break after with
            | Some n => scan_value fuel' (drop n after) value_parts
            | None => scan_value fuel' (drop 1 after) (value_parts ++ take 1 after)
            end
          else Ok (value_parts ++ take close data, drop (S close) data)
      | None, Some close => Ok (value_parts ++ take close data, drop (S close) data)
      | _, None => Err PropertyValueParseError
      end
  end.

(** The loop over the values of one property. *)
Fixpoint property_values (fuel : nat) (data : bytes) (pvlist : list bytes)
  : result (list bytes * bytes) :=
  match fuel with
  | O => Err OutOfFuel
  | S fuel' =>
      if bool_decide (data = []) then Ok (pvlist, data)
      else
        match property_start data with
        | Some data' =>
            '(item, data'') ← scan_value (S (length data')) data' [];
            (* _convert_control_chars returns its argument *)
            property_values fuel' data'' (pvlist ++ [item])
        | None => Ok (pvlist, data)  (* reached end of Property *)
        end
  end.

Definition parse_property_value (p : Parser) : result (list bytes * Parser) :=
  '(pvlist, data) ← property_values (S (length (rest p))) (rest p) [];
  if (1 <=? length pvlist)%nat then Ok (pvlist, set_rest p data)
  else Err PropertyValueParseError.

(** *** [Parser.parse_node] *)

(** [[item.decode(encoding) for item in pvlist]] *)
Fixpoint decode_all (encoding : pystr) (pvlist : list bytes) : result (list pystr) :=
  match pvlist with
  | [] => Ok []
  | item :: pvlist' =>
      match codec_decode encoding item with
      | Some text =>
          texts ← decode_all encoding pvlist';
          Ok (text :: texts)
      | None => Err PyCodecError
      end
  end.

(** The loop of [parse_node].  The warning for a duplicate property ID is
    not fatal and leaves no trace in the result; it is not modelled. *)
Fixpoint parse_node_loop (fuel : nat) (node : Node) (p : Parser) : result (Node * Parser) :=
  match fuel with
  | O => Err OutOfFuel
  | S fuel' =>
      if bool_decide (rest p = []) then Err EndOfDataParseError
      else
        match node_contents (rest p) with
        | None => Ok (node, p)  (* reached end of Node *)
        | Some (group, data) =>
            match codec_decode NAME_ENCODING group with
            | None => Err PyCodecError
            | Some property_id =>
                '(pvlist, p) ← parse_property_value (set_rest p data);
                let encoding :=
                  if str_in property_id text_properties then encoding p
                  else NAME_ENCODING in
                pvlist ← decode_all encoding pvlist;
                value ←
                  (if str_in property_id list_properties then Ok (VList pvlist)
                   else
                     match pvlist with
                     | [text] => Ok (VStr text)
                     | _ => Err NodePropertyParseError
                     end);
                node ←
                  match dict_get property_id node with
                  | Some old =>
                      if str_in property_id list_properties then
                        match old with
                        | VList items =>
                            Ok (dict_set property_id
                                  (VList (items ++ elements_of value)) node)
                        | VStr _ => Err PyAttributeError
                        end
                      else
                        match old, value with
                        | VStr old_text, VStr text =>
                            Ok (dict_set property_id
                                  (VStr (old_text ++ py (String "010" (String "010" ""))
                                         ++ text)) node)
                        | _, _ => Err NotModelled
                        end
                  | None => Ok (dict_set property_id value node)
                  end;
                (* CA == charset *)
                if str_eqb property_id (py "CA") then
                  match pvlist with
                  | first :: _ =>
                      parse_node_loop fuel'
                        (dict_set (py "CA") (VStr TEXT_ENCODING) node)
                        (mkParser (rest p) first)
                  | [] => Err PyIndexError
                  end
                else parse_node_loop fuel' node p
            end
        end
  end.

Definition parse_node (p : Parser) : result (Node * Parser) :=
  parse_node_loop (S (length (rest p))) [] p.

(** *** [Parser.parse_game_tree] and [Parser.parse_branches]

    The loops of the two methods, which call each other; [g] and [v] are
    the tree and the list of branches built so far. *)
Fixpoint parse_game_tree_loop (fuel : nat) (g : GameTree) (p : Parser)
  : result (GameTree * Parser) :=
  match fuel with
  | O => Err OutOfFuel
  | S fuel' =>
      if bool_decide (rest p = []) then Ok (g, p)
      else
        match game_tree_next (rest p) with
        | Some (group, data) =>
            let p := set_rest p data in
            if bool_decide (group = x3b) then
              (* found start of node *)
              if negb (bool_decide (branches g = []))
              then Err (TreeParseError "A node was encountered after a branch.")
              else
                '(node, p) ← parse_node p;
                parse_game_tree_loop fuel' (Tree (nodes g ++ [node]) (branches g)) p
            else if bool_decide (group = x28) then
              (* found start of branch *)
              '(v, p) ← parse_branches_loop fuel' [] p;
              parse_game_tree_loop fuel' (Tree (nodes g) v) p
            else
              (* found end of GameTree ")" *)
              Ok (g, p)
        | None => Err (TreeParseError "Past end of SGF.")
        end
  end
with parse_branches_loop (fuel : nat) (v : list GameTree) (p : Parser)
  : result (list GameTree * Parser) :=
  match fuel with
  | O => Err OutOfFuel
  | S fuel' =>
      if bool_decide (rest p = []) then Err EndOfDataParseError
      else
        (* check for ")" at end of GameTree, but don't consume it *)
        match game_tree_end (rest p) with
        | Some _ => Ok (v, p)
        | None =>
            '(g, p) ← parse_game_tree_loop fuel' (Tree [] []) p;
            let v := if negb (bool_decide (nodes g = [])) then v ++ [g] else v in
            (* check for next branch, and consume "(" *)
            let p :=
              match game_tree_start (rest p) with
              | Some data => set_rest p data
              | None => p
              end in
            parse_branches_loop fuel' v p
        end
  end.

(** Fuel for the trees of [data]: two rounds for each byte, and one to
    see the end. *)
Definition tree_fuel (data : bytes) : nat := 2 * length data + 2.

Definition parse_game_tree (p : Parser) : result (GameTree * Parser) :=
  parse_game_tree_loop (tree_fuel (rest p)) (Tree [] []) p.

(** [Parser.parse_one_game] *)
Definition parse_one_game (p : Parser) : result (option GameTree * Parser) :=
  if negb (bool_decide (rest p = [])) then
    match game_tree_start (rest p) with
    | Some data =>
        '(g, p) ← parse_game_tree (set_rest p data);
        Ok (Some g, p)
    | None => Ok (None, p)
    end
  else Ok (None, p).

(** The loop of [Parser.parse] *)
Fixpoint parse_loop (fuel : nat) (collection : Collection) (p : Parser)
  : result (Collection * Parser) :=
  match fuel with
  | O => Err OutOfFuel
  | S fuel' =>
      if bool_decide (rest p = []) then Ok (collection, p)
      else
        '(game, p) ← parse_one_game p;
        match game with
        | Some (Tree (n :: ns) bs) =>
            parse_loop fuel' (collection ++ [Tree (n :: ns) bs]) p
        | _ => Ok (collection, p)
        end
  end.

(** [Parser(data).parse()] *)
Definition parse (data : bytes) : result Collection :=
  '(collection, _) ← parse_loop (S (length data)) [] (mkParser data (py "latin-1"));
  Ok collection.

End Parser.

(** ** [RootNodeParser]

    A subclass of [Parser] that overrides [parse_node]: the methods of
    [Parser] that it inherits call the [parse_node] of the object.  They are
    given here for any [parse_node]; with [Parser.parse_node] they are the
    methods of [Parser]. *)
Section ParserClass.
Variable node_parser : Parser -> result (Node * Parser).

(** [parse_game_tree] and [parse_branches] of a parser whose
    [parse_node] is [node_parser] *)
Fixpoint parse_game_tree_loop_with (fuel : nat) (g : GameTree) (p : Parser)
  : result (GameTree * Parser) :=
  match fuel with
  | O => Err OutOfFuel
  | S fuel' =>
      if bool_decide (rest p = []) then Ok (g, p)
      else
        match game_tree_next (rest p) with
        | Some (group, data) =>
            let p := set_rest p data in
            if bool_decide (group = x3b) then
              if negb (bool_decide (branches g = []))
              then Err (TreeParseError "A node was encountered after a branch.")
              else
                '(node, p) ← node_parser p;
                parse_game_tree_loop_with fuel' (Tree (nodes g ++ [node]) (branches g)) p
            else if bool_decide (group = x28) then
              '(v, p) ← parse_branches_loop_with fuel' [] p;
              parse_game_tree_loop_with fuel' (Tree (nodes g) v) p
            else Ok (g, p)
        | None => Err (TreeParseError "Past end of SGF.")
        end
  end
with parse_branches_loop_with (fuel : nat) (v : list GameTree) (p : Parser)
  : result (list GameTree * Parser) :=
  match fuel with
  | O => Err OutOfFuel
  | S fuel' =>
      if bool_decide (rest p = []) then Err EndOfDataParseError
      else
        match game_tree_end (rest p) with
        | Some _ => Ok (v, p)
        | None =>
            '(g, p) ← parse_game_tree_loop_with fuel' (Tree [] []) p;
            let v := if negb (bool_decide (nodes g = [])) then v ++ [g] else v in
            let p :=
              match game_tree_start (rest p) with
              | Some data => set_rest p data
              | None => p
              end in
            parse_branches_loop_with fuel' v p
        end
  end.

Definition parse_game_tree_with (p : Parser) : result (GameTree * Parser) :=
  parse_game_tree_loop_with (tree_fuel (rest p)) (Tree [] []) p.

(** [parse_one_game] of such a parser *)
Definition parse_one_game_with (p : Parser) : result (option GameTree * Parser) :=
  if negb (bool_decide (rest p = [])) then
    match game_tree_start (rest p) with
    | Some data =>
        '(g, p) ← parse_game_tree_with (set_rest p data);
        Ok (Some g, p)
    | None => Ok (None, p)
    end
  else Ok (None, p).

(** The loop of [parse] of such a parser *)
Fixpoint parse_loop_with (fuel : nat) (collection : Collection) (p : Parser)
  : result (Collection * Parser) :=
  match fuel with
  | O => Err OutOfFuel
  | S fuel' =>
      if bool_decide (rest p = []) then Ok (collection, p)
      else
        '(game, p) ← parse_one_game_with p;
        match game with
        | Some (Tree (n :: ns) bs) =>
            parse_loop_with fuel' (collection ++ [Tree (n :: ns) bs]) p
        | _ => Ok (collection, p)
        end
  end.

(** [parse] of such a parser *)
Definition parse_with (data : bytes) : result Collection :=
  '(collection, _) ← parse_loop_with (S (length data)) []
                        (mkParser data (py "latin-1"));
  Ok collection.

End ParserClass.

(** [RootNodeParser.parse_node]: one node as usual, and then the end of
    the data. *)
Definition RootNodeParser_parse_node {rt : PyRuntime} (p : Parser)
  : result (Node * Parser) :=
  '(n, p) ← parse_node p;
  Ok (n, set_rest p []).

(** [RootNodeParser(data).parse()] *)
Definition RootNodeParser_parse {rt : PyRuntime} (data : bytes) : result Collection :=
  parse_with RootNodeParser_parse_node data.

(** ** What the parser builds *)

(** The errors that the parser raises by itself, and the failure of a
    codec. *)
Definition parser_error (e : error) : bool :=
  match e with
  | EndOfDataParseError | TreeParseError _ | NodePropertyParseError
  | PropertyValueParseError | PyCodecError => true
  | _ => false
  end.

Definition is_letter_code (c : N) : bool :=
  ((65 <=? c) && (c <=? 90) || (97 <=? c) && (c <=? 122))%N.

(** The strings that a value holds. *)
Definition strings_of (v : value) : list pystr :=
  match v with
  | VStr s => [s]
  | VList items => items
  end.

(** What [parse_node] stores for a property: a name of letters; a
    non-empty list for a list property and a string for another one;
    [TEXT_ENCODING] for [CA]; and ASCII strings unless the property holds
    text. *)
Definition parsed_item (item : pystr * value) : bool :=
  let '(k, v) := item in
  negb (bool_decide (k = [])) && forallb is_letter_code k
  && match v with
     | VList items => str_in k list_properties && negb (bool_decide (items = []))
     | VStr _ => negb (str_in k list_properties)
     end
  && (negb (str_eqb k (py "CA")) || bool_decide (v = VStr TEXT_ENCODING))
  && (str_in k text_properties || forallb is_ascii_str (strings_of v)).

(** A node as [parse_node] builds it. *)
Definition parsed_node (n : Node) : bool :=
  bool_decide (NoDup (keys n)) && forallb parsed_item n.

(** A tree as the parser builds it: parsed nodes, and branches that start
    with a node. *)
Fixpoint parsed_tree (g : GameTree) : bool :=
  match g with
  | Tree ns bs =>
      forallb parsed_node ns
      && forallb (fun b => negb (bool_decide (nodes b = [])) && parsed_tree b) bs
  end.

(** The trees that the parser keeps: those that start with a node. *)
Definition parsed_trees (l : list GameTree) : bool :=
  forallb (fun b => negb (bool_decide (nodes b = [])) && parsed_tree b) l.

(** What was read from [before] to leave [after] ends with a closing
    parenthesis. *)
Definition closes (before after : bytes) : Prop :=
  exists consumed, before = consumed ++ x29 :: after.

(** ** Predicates of the specification *)

(** Normal form: no tree, at any depth, with exactly one branch. *)
Fixpoint normal (g : GameTree) : bool :=
  match g with
  | Tree _ bs => negb (length bs =? 1)%nat && forallb normal bs
  end.

(** Every scalar property holds a string. *)
Definition scalars_are_strings (n : Node) : bool :=
  forallb (fun '(k, v) =>
             negb (str_in k scalar_properties)
             || match v with VStr _ => true | VList _ => false end) n.

(** A node that [Node.merge] and [Node.equivalent] accept: its keys are
    distinct, as in every [dict]; its scalar properties hold strings; it has
    a node type or none, and exactly one player when it is a move. *)
Definition legal_node (n : Node) : bool :=
  bool_decide (NoDup (keys n)) && scalars_are_strings n
  && match equivalent n n with Ok true => true | _ => false end.

(** A tree of such nodes in which every branch starts with a node. *)
Fixpoint legal (g : GameTree) : bool :=
  match g with
  | Tree ns bs =>
      forallb legal_node ns
      && forallb (fun b => negb (bool_decide (nodes b = [])) && legal b) bs
  end.

(** A result other than the end of the fuel. *)
Definition finishes {A : Type} (r : result A) : Prop := r <> Err OutOfFuel.

(** The values to ignore for a property: the defaults of [Node] and the
    caller's. *)
Definition ignore_values_of (property_id : pystr)
    (ignore_property_values : option (list (pystr * list ignore_value)))
  : list ignore_value :=
  ignore_get property_id default_ignore_property_values
  ++ ignore_get property_id (default [] ignore_property_values).

(** The prefix as [Node.merge] uses it: with its line break, or empty. *)
Definition comment_line (comment : option pystr) : pystr :=
  match comment with
  | None => []
  | Some comment => comment ++ py (String "010" "")
  end.

(** The encoding in force when reading: the default one until a charset
    is declared, the one of the output afterwards. *)
Definition encoding_of (declared : bool) : pystr :=
  if declared then TEXT_ENCODING else py "latin-1".

(** The text of the properties up to the charset must be ASCII to be read
    back: [reads_back declared items] is whether a charset is declared
    after [items], when each text before the declaration is ASCII. *)
Fixpoint reads_back (declared : bool) (items : Node) : option bool :=
  match items with
  | [] => Some declared
  | (k, v) :: items' =>
      if negb (str_in k text_properties) || declared
         || forallb is_ascii_str (strings_of v)
      then reads_back (declared || str_eqb k (py "CA")) items'
      else None
  end.

(** The same for the nodes of a trunk, in their order. *)
Fixpoint reads_back_nodes (declared : bool) (ns : list Node) : option bool :=
  match ns with
  | [] => Some declared
  | n :: ns' =>
      match reads_back declared n with
      | Some declared' => reads_back_nodes declared' ns'
      | None => None
      end
  end.

(** The same for a tree: its trunk, then its branches, as they are
    written and read. *)
Fixpoint reads_back_tree (g : GameTree) (declared : bool) : option bool :=
  match g with
  | Tree ns bs =>
      match reads_back_nodes declared ns with
      | Some declared' =>
          (fix each (l : list GameTree) (declared : bool) : option bool :=
             match l with
             | [] => Some declared
             | branch :: l' =>
                 match reads_back_tree branch declared with
                 | Some declared' => each l' declared'
                 | None => None
                 end
             end) bs declared'
      | None => None
      end
  end.

(** The same for the trees of a collection: the charset that one game
    declares stays in force for the next ones. *)
Fixpoint reads_back_trees (l : list GameTree) (declared : bool) : option bool :=
  match l with
  | [] => Some declared
  | tree :: l' =>
      match reads_back_tree tree declared with
      | Some declared' => reads_back_trees l' declared'
      | None => None
      end
  end.

(** The text of a collection can be read back when the text before a
    charset is declared is ASCII. *)
Definition ascii_until_charset (collection : Collection) : bool :=
  match reads_back_trees collection false with
  | Some _ => true
  | None => false
  end.

(** ** The shape of serialized data *)

(** A character with its escape, as [escape_text] writes it. *)
Definition escaped_char (c : N) : pystr :=
  if bool_decide (c ∈ chars_to_escape) then [92%N; c] else [c].

(** A byte with its escape. *)
Definition escaped_byte (b : byte) : bytes :=
  if bool_decide (b = x5c \/ b = x5d) then [x5c; b] else [b].

(** The bytes of the values of one property, each in its brackets. *)
Definition values_bytes (raws : list bytes) : bytes :=
  concat (map (fun raw => x5b :: flat_map escaped_byte raw ++ [x5d]) raws).

(** What follows the properties of a serialized node: a line feed, and
    the start of a node, or the start or the end of a tree. *)
Definition ends_node (r : bytes) : Prop :=
  exists x r', r = x0a :: x :: r' /\ (x = x3b \/ x = x28 \/ x = x29).

(** What the parser needs of what follows the properties of a node, to stop
    there: some data that start neither with the name of a property nor with
    a value. *)
Definition after_node (r : bytes) : Prop :=
  r <> [] /\ node_contents r = None /\ property_start r = None.

(** The parts of a tree after its opening parenthesis, each on its line. *)
Definition lines (parts : list bytes) : bytes :=
  concat (map (fun part => x0a :: part) parts).

(** The trees after the first one, each after a blank line. *)
Definition blank_lines (parts : list bytes) : bytes :=
  concat (map (fun part => x0a :: x0a :: part) parts).

(** ** Data with space between the parts *)

(** Data that start, after some space, a node, a tree or the end of a
    tree. *)
Definition starts_part (r : bytes) : Prop :=
  exists ws x r',
    forallb is_space ws = true /\ r = ws ++ x :: r' /\ (x = x3b \/ x = x28 \/ x = x29).

(** The bytes of a node after some space. *)
Definition written_node (n : Node) (part : bytes) : Prop :=
  exists ws data,
    forallb is_space ws = true /\ properties_bytes n = Ok data /\ part = ws ++ x3b :: data.

(** [body] is what is written of a tree after its opening parenthesis:
    its nodes, its branches and its closing parenthesis, each after some
    space. *)
Fixpoint written (g : GameTree) (body : bytes) : Prop :=
  match g with
  | Tree ns bs =>
      exists items subtrees ws,
        Forall2 written_node ns items
        /\ (fix trees (l : list GameTree) (parts : list bytes) : Prop :=
              match l, parts with
              | [], [] => True
              | b :: l', part :: parts' =>
                  (exists ws' body',
                     forallb is_space ws' = true /\ part = ws' ++ x28 :: body'
                     /\ written b body')
                  /\ trees l' parts'
              | _, _ => False
              end) bs subtrees
        /\ forallb is_space ws = true
        /\ body = concat items ++ concat subtrees ++ ws ++ [x29]
  end.

(** A tree after some space. *)
Definition written_tree (b : GameTree) (part : bytes) : Prop :=
  exists ws body,
    forallb is_space ws = true /\ part = ws ++ x28 :: body /\ written b body.

(** ** Trees of nodes of a kind *)

(** A tree whose nodes, at any depth, are all [P], and whose branches all
    start with a node. *)
Fixpoint trees_of (P : Node -> bool) (g : GameTree) : bool :=
  match g with
  | Tree ns bs =>
      forallb P ns
      && forallb (fun b => negb (bool_decide (nodes b = [])) && trees_of P b) bs
  end.

(** Such a tree that starts with a node. *)
Definition rooted (P : Node -> bool) (b : GameTree) : bool :=
  negb (bool_decide (nodes b = [])) && trees_of P b.

(** Every branch of the tree, at any depth, starts with a node. *)
Definition rooted_branches (g : GameTree) : bool := trees_of (fun _ => true) g.

(** The two trees start with nodes that are equivalent. *)
Definition starts_alike {rt : PyRuntime} (self other : GameTree) : Prop :=
  match nodes self, nodes other with
  | mine :: _, theirs :: _ => equivalent mine theirs = Ok true
  | _, _ => False
  end.

(** A result that holds [P], or an exception other than [IndexError]. *)
Definition no_IndexError {A : Type} (P : A -> Prop) (r : result A) : Prop :=
  match r with
  | Ok a => P a
  | Err e => e <> PyIndexError
  end.

(** The nodes that the walk has merged, and those that it has left. *)
Definition merged_of (w : walk) : list Node :=
  match w with
  | Diverged merged _ _ | Exhausted merged _ _ => merged
  end.

Definition nodes_of (w : walk) : list Node :=
  match w with
  | Diverged merged self_rest other_rest | Exhausted merged self_rest other_rest =>
      merged ++ self_rest ++ other_rest
  end.

(** A result that holds [Q], when there is one. *)
Definition when_ok {A : Type} (Q : A -> Prop) (r : result A) : Prop :=
  match r with
  | Ok a => Q a
  | Err _ => True
  end.

(** * Objects in a store

    [GameTree.merge] changes its target in place.  Here the trees, the
    nodes and the lists are objects in a store, named by references, so
    that two names of one object see the same changes; [deepcopy] makes new
    objects. *)

Module Heap.

(** A reference: objects are numbered in the order of their creation. *)
Abbreviation loc := nat (only parsing).

(** A property value in a node: a [str], which is immutable, or a
    reference to a [list] of [str]. *)
Inductive pval : Type :=
  | PStr (s : pystr)
  | PRef (l : loc).

(** The objects: a [Node] (a dict), a list of strings, a [GameTree] (a
    list of nodes, with its attribute [branches]), and a list of trees. *)
Inductive obj : Type :=
  | ONode (props : list (pystr * pval))
  | OList (items : list pystr)
  | OTree (nodes : list loc) (branches : loc)
  | OTrees (trees : list loc).

Abbreviation heap := (list obj) (only parsing).

(** Computations on the store; what was done before an exception was
    raised stays done. *)
Definition M (A : Type) : Type := heap -> result A * heap.

#[global] Instance M_ret : MRet M := fun _ a h => (Ok a, h).

#[global] Instance M_bind : MBind M := fun _ _ f m h =>
  match m h with
  | (Ok a, h') => f a h'
  | (Err e, h') => (Err e, h')
  end.

Definition raise {A : Type} (e : error) : M A := fun h => (Err e, h).

Definition lift {A : Type} (r : result A) : M A := fun h => (r, h).

(** A new object. *)
Definition alloc (o : obj) : M loc := fun h => (Ok (length h), h ++ [o]).

(** The object that a reference names; none for a reference to nothing,
    which Python does not have. *)
Definition read (l : loc) : M obj := fun h =>
  match h !! l with
  | Some o => (Ok o, h)
  | None => (Err NotModelled, h)
  end.

Definition write (l : loc) (o : obj) : M unit := fun h => (Ok tt, <[l := o]> h).

(** An object of another class than the code expects is not modelled. *)
Definition read_node (l : loc) : M (list (pystr * pval)) :=
  o ← read l;
  match o with
  | ONode props => mret props
  | _ => raise NotModelled
  end.

Definition read_list (l : loc) : M (list pystr) :=
  o ← read l;
  match o with
  | OList items => mret items
  | _ => raise NotModelled
  end.

Definition read_tree (l : loc) : M (list loc * loc) :=
  o ← read l;
  match o with
  | OTree ns br => mret (ns, br)
  | _ => raise NotModelled
  end.

Definition read_trees (l : loc) : M (list loc) :=
  o ← read l;
  match o with
  | OTrees ts => mret ts
  | _ => raise NotModelled
  end.

(** [[f(x) for x in l]] *)
Fixpoint each {A B : Type} (f : A -> M B) (l : list A) : M (list B) :=
  match l with
  | [] => mret []
  | x :: l' =>
      y ← f x;
      ys ← each f l';
      mret (y :: ys)
  end.

(** [for x in l: f(x)] *)
Fixpoint for_each {A : Type} (f : A -> M unit) (l : list A) : M unit :=
  match l with
  | [] => mret tt
  | x :: l' => f x;; for_each f l'
  end.

(** ** The contents of a node *)

Definition load_value (v : pval) : M value :=
  match v with
  | PStr s => mret (VStr s)
  | PRef l =>
      items ← read_list l;
      mret (VList items)
  end.

(** The items of a node, with the contents of its lists. *)
Fixpoint load_props (props : list (pystr * pval)) : M Node :=
  match props with
  | [] => mret []
  | (k, v) :: props' =>
      v' ← load_value v;
      rest ← load_props props';
      mret ((k, v') :: rest)
  end.

Definition load_node (l : loc) : M Node :=
  props ← read_node l;
  load_props props.

Fixpoint prop_get (k : pystr) (props : list (pystr * pval)) : option pval :=
  match props with
  | [] => None
  | (k', v) :: props' => if str_eqb k k' then Some v else prop_get k props'
  end.

(** The items [new] are stored in a node that had the properties [props],
    with the contents [old].  A list that the node holds and whose
    contents change is changed in place ([extend]); a list under a key that
    held none is a new object ([other_value[:]]). *)
Fixpoint store_props (props : list (pystr * pval)) (old new : Node)
  : M (list (pystr * pval)) :=
  match new with
  | [] => mret []
  | (k, v) :: new' =>
      v' ←
        match v with
        | VStr s => mret (PStr s)
        | VList items =>
            match prop_get k props with
            | Some (PRef l) =>
                (if bool_decide (dict_get k old = Some (VList items)) then mret tt
                 else write l (OList items));;
                mret (PRef l)
            | _ =>
                l ← alloc (OList items);
                mret (PRef l)
            end
        end;
      rest ← store_props props old new';
      mret ((k, v') :: rest)
  end.

(** One step on the dict of a node: [step] gives the contents of the node
    after the step from its contents before it. *)
Definition Node_update (self : loc) (step : Node -> result Node) : M unit :=
  props ← read_node self;
  old ← load_props props;
  new ← lift (step old);
  props' ← store_props props old new;
  write self (ONode props').

Section Methods.
Context {rt : PyRuntime}.

(** ** [Node] methods *)

(** [deepcopy] of the values of a dict: a list that was already copied
    is not copied again. *)
Fixpoint copy_props (memo : list (loc * loc)) (props : list (pystr * pval))
  : M (list (pystr * pval)) :=
  match props with
  | [] => mret []
  | (k, PStr s) :: props' =>
      rest ← copy_props memo props';
      mret ((k, PStr s) :: rest)
  | (k, PRef l) :: props' =>
      match list_find (fun entry => bool_decide (entry.1 = l)) memo with
      | Some (_, (_, l')) =>
          rest ← copy_props memo props';
          mret ((k, PRef l') :: rest)
      | None =>
          items ← read_list l;
          l' ← alloc (OList items);
          rest ← copy_props ((l, l') :: memo) props';
          mret ((k, PRef l') :: rest)
      end
  end.

(** [Node.deepcopy] *)
Definition Node_deepcopy (self : loc) : M loc :=
  copy ← alloc (ONode []);
  props ← read_node self;
  props' ← copy_props [] props;
  write copy (ONode props');;
  mret copy.

(** [Node.prefix_comment] *)
Definition Node_prefix_comment (self : loc) (comment : option pystr) : M unit :=
  Node_update self (fun node => Node_prefix_comment node comment).

(** The loop of [Node.merge] over the items of the copy of [other]. *)
Fixpoint merge_items (self : loc) (comment : pystr) (comments_everywhere : bool)
    (ignore_property_values : list (pystr * list ignore_value))
    (items : list (pystr * value)) : M unit :=
  match items with
  | [] => mret tt
  | item :: items' =>
      Node_update self
        (fun node =>
           merge_item comment comments_everywhere ignore_property_values node item);;
      merge_items self comment comments_everywhere ignore_property_values items'
  end.

(** [Node.merge] *)
Definition Node_merge (self other : loc) (comment : option pystr)
    (comments_everywhere : bool)
    (ignore_property_values : option (list (pystr * list ignore_value))) : M unit :=
  other ← Node_deepcopy other;
  let comment :=
    match comment with
    | None => []
    | Some comment => comment ++ py (String "010" "")
    end in
  let ignore_property_values := default [] ignore_property_values in
  items ← load_node other;
  merge_items self comment comments_everywhere ignore_property_values items.

(** ** [GameTree] methods *)

(** [GameTree.deepcopy]; [fuel] bounds the depth of the tree. *)
Fixpoint GameTree_deepcopy (fuel : nat) (self : loc) : M loc :=
  match fuel with
  | O => raise OutOfFuel
  | S fuel' =>
      '(ns, br) ← read_tree self;
      ns' ← each Node_deepcopy ns;
      bs ← read_trees br;
      bs' ← each (GameTree_deepcopy fuel') bs;
      br' ← alloc (OTrees bs');
      alloc (OTree ns' br')
  end.

(** [GameTree.prefix_comment] *)
Fixpoint GameTree_prefix_comment (fuel : nat) (self : loc) (comment : option pystr)
  : M unit :=
  if negb (comment_given comment) then mret tt
  else
    match fuel with
    | O => raise OutOfFuel
    | S fuel' =>
        '(ns, br) ← read_tree self;
        match ns with
        | first :: _ => Node_prefix_comment first comment
        | [] =>
            bs ← read_trees br;
            for_each (fun branch => GameTree_prefix_comment fuel' branch comment) bs
        end
    end.

(** The constructor [GameTree(nodelist, branches, comment)] for a list of
    nodes and a list object [branches]. *)
Definition GameTree_init (fuel : nat) (nodelist : list loc) (branches : loc)
    (comment : option pystr) : M loc :=
  self ← alloc (OTree nodelist branches);
  GameTree_prefix_comment fuel self comment;;
  mret self.

(** How the loop over the two trunks ends: at the index [i] where the
    nodes differ, or after [n] rounds. *)
Inductive walk : Type :=
  | Diverged (i : nat)
  | Exhausted (n : nat).

(** The [for ... in zip(itertools.count(), self, other)] loop of
    [GameTree.merge], from the index [i]. *)
Fixpoint trunk_walk (i : nat) (self other : list loc) (comment : option pystr)
    (comments_everywhere : bool)
    (ignore_property_values : option (list (pystr * list ignore_value))) : M walk :=
  match self, other with
  | my_node :: self', other_node :: other' =>
      mine ← load_node my_node;
      theirs ← load_node other_node;
      eq ← lift (equivalent mine theirs);
      if (eq : bool) then
        Node_merge my_node other_node comment comments_everywhere
          ignore_property_values;;
        trunk_walk (S i) self' other' comment comments_everywhere
          ignore_property_values
      else mret (Diverged i)
  | _, _ => mret (Exhausted i)
  end.

(** [tree[0]] *)
Definition first_node (tree : loc) : M loc :=
  '(ns, _) ← read_tree tree;
  match ns with
  | n :: _ => mret n
  | [] => raise PyIndexError
  end.

(** The inner loop of the branch merge, over [other.branches[:]] from the
    index [i]. *)
Fixpoint merge_into_branch (merge : loc -> loc -> M unit)
    (self_branch other : loc) (i : nat) (others : list loc) : M unit :=
  match others with
  | [] => mret tt
  | other_branch :: others' =>
      mine ← first_node self_branch;
      theirs ← first_node other_branch;
      mine ← load_node mine;
      theirs ← load_node theirs;
      eq ← lift (equivalent mine theirs);
      if (eq : bool) then
        merge self_branch other_branch;;
        (* del other.branches[i] *)
        '(_, br) ← read_tree other;
        bs ← read_trees br;
        if (i <? length bs)%nat then write br (OTrees (delete i bs))
        else raise PyIndexError
      else merge_into_branch merge self_branch other (S i) others'
  end.

(** The outer loop, over [self.branches[:]]. *)
Fixpoint merge_branches (merge : loc -> loc -> M unit)
    (self_branches : list loc) (other : loc) : M unit :=
  match self_branches with
  | [] => mret tt
  | self_branch :: rest =>
      '(_, br) ← read_tree other;
      others ← read_trees br;
      merge_into_branch merge self_branch other 0 others;;
      merge_branches merge rest other
  end.

(** [tree.branches], the list and its contents *)
Definition branches_of (tree : loc) : M (loc * list loc) :=
  '(_, br) ← read_tree tree;
  bs ← read_trees br;
  mret (br, bs).

(** The end of [GameTree.merge], from the check for leftover nodes, after
    [n] rounds of the loop over the trunks; [recurse] is the method itself,
    for the call [self_branch.merge(other_branch, ...)]. *)
Definition GameTree_merge_branches (recurse : loc -> loc -> M unit) (fuel : nat)
    (self other : loc) (n : nat) (comment : option pystr) : M unit :=
  (* Check for leftover nodes. *)
  '(ns, br) ← read_tree self;
  '(ons, obr) ← read_tree other;
  (if (length ons <? length ns)%nat then
     obs ← read_trees obr;
     if negb (bool_decide (obs = [])) then
       self_branch ← GameTree_init fuel (drop n ns) br None;
       write self (OTree (take n ns) br);;
       br' ← alloc (OTrees [self_branch]);
       write self (OTree (take n ns) br')
     else mret tt
   else if (length ns <? length ons)%nat then
     other_branch ← GameTree_init fuel (drop n ons) obr comment;
     write other (OTree (take n ons) obr);;
     br' ← alloc (OTrees [other_branch]);
     write other (OTree (take n ons) br')
   else mret tt);;
  '(_, obs) ← branches_of other;
  if bool_decide (obs = []) then mret tt
  else
    '(br, bs) ← branches_of self;
    (if bool_decide (bs = []) then
       node ← alloc (ONode [(py "C", PStr [])]);
       none ← alloc (OTrees []);
       placeholder ← alloc (OTree [node] none);
       write br (OTrees (bs ++ [placeholder]))
     else mret tt);;
    (* Merge branches: *)
    '(_, bs) ← branches_of self;
    merge_branches recurse bs other;;
    '(_, obs) ← branches_of other;
    for_each (fun other_branch => GameTree_prefix_comment fuel other_branch comment)
      obs;;
    '(br, bs) ← branches_of self;
    '(_, obs) ← branches_of other;
    write br (OTrees (bs ++ obs)).

(** The body of [GameTree.merge]. *)
Definition GameTree_merge_body (recurse : loc -> loc -> M unit) (fuel : nat)
    (self other : loc) (comment : option pystr) (comments_everywhere : bool)
    (ignore_property_values : option (list (pystr * list ignore_value))) : M unit :=
  other ← GameTree_deepcopy fuel other;
  '(self_nodes, _) ← read_tree self;
  '(other_nodes, _) ← read_tree other;
  w ← trunk_walk 0 self_nodes other_nodes comment comments_everywhere
         ignore_property_values;
  match w with
  | Diverged i =>
      (* Make the rest of self & other into branches: *)
      '(ns, br) ← read_tree self;
      self_branch ← GameTree_init fuel (drop i ns) br None;
      write self (OTree (take i ns) br);;
      '(ons, obr) ← read_tree other;
      other_branch ← GameTree_init fuel (drop i ons) obr comment;
      br' ← alloc (OTrees [self_branch; other_branch]);
      write self (OTree (take i ns) br')
  | Exhausted n =>
      let finish := GameTree_merge_branches recurse fuel self other n comment in
      if (n =? 0)%nat then
        (* Either self or other is empty, prior to branches. *)
        '(ns, br) ← read_tree self;
        if negb (bool_decide (ns = [])) then
          '(_, obs) ← branches_of other;
          if bool_decide (obs = []) then mret tt else finish
        else
          bs ← read_trees br;
          if bool_decide (bs = []) then
            (* self is empty; copy data from other: *)
            '(ons, obr) ← read_tree other;
            match ons with
            | first :: _ => Node_prefix_comment first comment
            | [] => mret tt
            end;;
            write self (OTree ons br);;
            write self (OTree ons obr)
          else finish
      else finish
  end.

(** [GameTree.merge], with [fuel] for the depth of the recursion. *)
Fixpoint GameTree_merge (fuel : nat) (self other : loc)
    (comment : option pystr) (comments_everywhere : bool)
    (ignore_property_values : option (list (pystr * list ignore_value))) : M unit :=
  match fuel with
  | O => raise OutOfFuel
  | S fuel' =>
      GameTree_merge_body
        (fun self_branch other_branch =>
           GameTree_merge fuel' self_branch other_branch comment comments_everywhere
             ignore_property_values)
        fuel self other comment comments_everywhere ignore_property_values
  end.

End Methods.

(** ** Trees in the store *)

(** The objects of a node with the items [n]. *)
Fixpoint new_props (n : Node) : M (list (pystr * pval)) :=
  match n with
  | [] => mret []
  | (k, VStr s) :: n' =>
      rest ← new_props n';
      mret ((k, PStr s) :: rest)
  | (k, VList items) :: n' =>
      l ← alloc (OList items);
      rest ← new_props n';
      mret ((k, PRef l) :: rest)
  end.

Definition new_node (n : Node) : M loc :=
  props ← new_props n;
  alloc (ONode props).

(** The objects of a tree, as the parser builds them. *)
Fixpoint new_tree (g : GameTree) : M loc :=
  match g with
  | Tree ns bs =>
      ns' ← each new_node ns;
      bs' ← (fix trees (l : list GameTree) : M (list loc) :=
               match l with
               | [] => mret []
               | b :: l' =>
                   b' ← new_tree b;
                   rest ← trees l';
                   mret (b' :: rest)
               end) bs;
      br ← alloc (OTrees bs');
      alloc (OTree ns' br)
  end.

(** The tree that a reference names, read from the store. *)
Definition value_at (h : heap) (v : pval) : option value :=
  match v with
  | PStr s => Some (VStr s)
  | PRef l =>
      match h !! l with
      | Some (OList items) => Some (VList items)
      | _ => None
      end
  end.

Fixpoint props_at (h : heap) (props : list (pystr * pval)) : option Node :=
  match props with
  | [] => Some []
  | (k, v) :: props' =>
      v' ← value_at h v;
      rest ← props_at h props';
      Some ((k, v') :: rest)
  end.

Definition node_at (h : heap) (l : loc) : option Node :=
  match h !! l with
  | Some (ONode props) => props_at h props
  | _ => None
  end.

Fixpoint all_of {A B : Type} (f : A -> option B) (l : list A) : option (list B) :=
  match l with
  | [] => Some []
  | x :: l' =>
      y ← f x;
      ys ← all_of f l';
      Some (y :: ys)
  end.

Fixpoint tree_at (fuel : nat) (h : heap) (l : loc) : option GameTree :=
  match fuel with
  | O => None
  | S fuel' =>
      match h !! l with
      | Some (OTree ns br) =>
          ns' ← all_of (node_at h) ns;
          match h !! br with
          | Some (OTrees bs) =>
              bs' ← all_of (tree_at fuel' h) bs;
              Some (Tree ns' bs')
          | _ => None
          end
      | _ => None
      end
  end.

(** ** What an object refers to *)

Definition prop_refs (props : list (pystr * pval)) : list loc :=
  flat_map (fun '(_, v) => match v with PRef l => [l] | PStr _ => [] end) props.

Definition refs (o : obj) : list loc :=
  match o with
  | ONode props => prop_refs props
  | OList _ => []
  | OTree ns br => br :: ns
  | OTrees ts => ts
  end.

(** The objects that can be reached from [root]. *)
Inductive reachable (h : heap) (root : loc) : loc -> Prop :=
  | reachable_root : is_Some (h !! root) -> reachable h root root
  | reachable_ref (l : loc) (o : obj) (r : loc) :
      reachable h root l -> h !! l = Some o -> r ∈ refs o -> is_Some (h !! r) ->
      reachable h root r.

(** The objects [within] refer to objects [within] only. *)
Definition closed_in (h : heap) (within : list loc) : bool :=
  forallb (fun l =>
             match h !! l with
             | Some o => forallb (fun r => bool_decide (r ∈ within)) (refs o)
             | None => true
             end) within.

End Heap.

(** * Examples and the runtime *)

(** ** Example games *)

(** A node with one scalar property, from the spelling of its ID and value. *)
Definition scalar_node (property_id text : string) : Node :=
  [(py property_id, VStr (py text))].

(** A node with one list property. *)
Definition list_node (property_id : string) (items : list string) : Node :=
  [(py property_id, VList (map py items))].

(** The branch that [GameTree.merge] gives a target without branches, to
    merge the branches of the source into: one node with an empty comment. *)
Definition placeholder : GameTree := Tree [[(py "C", VStr [])]] [].

(** A game with a charset, a comment with an escaped bracket and a
    letter outside ASCII after it, and two variations. *)
Definition round_trip_games : Collection :=
  [Tree [[(py "CA", VStr TEXT_ENCODING); (py "C", VStr [97; 93; 233]%N)]]
        [Tree [[(py "B", VStr (py "aa"))]] [];
         Tree [[(py "W", VStr (py "bb"))]] []]].

(** A target and a source that share no object: two games that differ
    at their second node. *)
Definition frame_target : GameTree :=
  Tree [[(py "GM", VStr (py "1")); (py "AB", VList [py "aa"])];
        [(py "B", VStr (py "cc"))]] [].

(** The source: the same first moves, with more stones and a comment. *)
Definition frame_source : GameTree :=
  Tree [[(py "GM", VStr (py "1")); (py "AB", VList [py "bb"]);
         (py "C", VStr (py "hi"))];
        [(py "B", VStr (py "dd"))]] [].

(** The store with the objects of the target, the tree [4], and then
    those of the source, the tree [9]. *)
Definition frame_heap : list Heap.obj :=
  (Heap.new_tree frame_source (Heap.new_tree frame_target []).2).2.

(** A game of one node with an empty comment, the tree [2] of its store. *)
Definition alias_heap : list Heap.obj :=
  (Heap.new_tree (Tree [[(py "C", VStr [])]] []) []).2.

(** ** An instance of the runtime

    [cpython] implements the interface for the three codecs the module
    names (['latin-1'], ['ASCII'], ['UTF-8']; another name is a
    [LookupError]), [str.lower] on ASCII letters, [float] on plain decimal
    literals, [math.isclose] with its default tolerances, and a [set] that
    yields its elements in the order of their first insertion. *)

Definition continuation (n : N) : bool := ((128 <=? n) && (n <? 192))%N.

(** [data.decode('UTF-8')] *)
Fixpoint utf8_decode (bs : bytes) : option pystr :=
  match bs with
  | [] => Some []
  | b0 :: r0 =>
      let n0 := Byte.to_N b0 in
      (if n0 <? 128 then cons n0 <$> utf8_decode r0
       else if n0 <? 192 then None
       else if n0 <? 224 then
         match r0 with
         | b1 :: r1 =>
             let n1 := Byte.to_N b1 in
             let c := (n0 - 192) * 64 + (n1 - 128) in
             if continuation n1 && (128 <=? c) then cons c <$> utf8_decode r1 else None
         | _ => None
         end
       else if n0 <? 240 then
         match r0 with
         | b1 :: b2 :: r2 =>
             let n1 := Byte.to_N b1 in
             let n2 := Byte.to_N b2 in
             let c := (n0 - 224) * 4096 + (n1 - 128) * 64 + (n2 - 128) in
             if continuation n1 && continuation n2 && (2048 <=? c)
                && negb ((55296 <=? c) && (c <? 57344))
             then cons c <$> utf8_decode r2 else None
         | _ => None
         end
       else if n0 <? 248 then
         match r0 with
         | b1 :: b2 :: b3 :: r3 =>
             let n1 := Byte.to_N b1 in
             let n2 := Byte.to_N b2 in
             let n3 := Byte.to_N b3 in
             let c := (n0 - 240) * 262144 + (n1 - 128) * 4096
                      + (n2 - 128) * 64 + (n3 - 128) in
             if continuation n1 && continuation n2 && continuation n3
                && (65536 <=? c) && (c <? 1114112)
             then cons c <$> utf8_decode r3 else None
         | _ => None
         end
       else None)%N
  end.

Definition cpython_decode (encoding : pystr) (data : bytes) : option pystr :=
  if str_eqb encoding (py "latin-1") then Some (map Byte.to_N data)
  else if str_eqb encoding (py "ASCII") then
    if is_ascii_bytes data then Some (map Byte.to_N data) else None
  else if str_eqb encoding (py "UTF-8") then utf8_decode data
  else None.

Definition ascii_lower (s : pystr) : pystr :=
  map (fun c => if (65 <=? c) && (c <=? 90) then c + 32 else c)%N s.

(** The digits at the head of [s]: their value after [acc], their number
    after [count], and the rest of [s]. *)
Fixpoint read_digits (s : pystr) (acc : N) (count : nat) : N * nat * pystr :=
  match s with
  | c :: s' =>
      if ((48 <=? c) && (c <=? 57))%N
      then read_digits s' (10 * acc + (c - 48))%N (S count)
      else (acc, count, s)
  | [] => (acc, count, [])
  end.

(** The binary64 value of [mantissa / 10 ^ exponent]: both are exact as
    floats within the bounds, and the division rounds to nearest. *)
Definition decimal (negative : bool) (mantissa : N) (exponent : nat) : option float :=
  if ((mantissa <? 2 ^ 53)%N && (exponent <=? 22)%nat)%bool then
    let m := PrimFloat.of_uint63 (Uint63.of_Z (Z.of_N mantissa)) in
    let d := PrimFloat.of_uint63 (Uint63.of_Z (10 ^ Z.of_nat exponent)) in
    let q := PrimFloat.div m d in
    Some (if negative then PrimFloat.opp q else q)
  else None.

(** [float(text)] for [text] of the form [[+-]digits[.digits]]. *)
Definition decimal_float (text : pystr) : option float :=
  let '(negative, s) :=
    match text with
    | 45%N :: s => (true, s)
    | 43%N :: s => (false, s)
    | _ => (false, text)
    end in
  let '(int_part, int_digits, rest) := read_digits s 0%N 0%nat in
  match rest with
  | [] => if (int_digits =? 0)%nat then None else decimal negative int_part 0
  | 46%N :: fraction =>
      let '(mantissa, frac_digits, rest') := read_digits fraction int_part 0%nat in
      match rest' with
      | [] =>
          if (int_digits + frac_digits =? 0)%nat then None
          else decimal negative mantissa frac_digits
      | _ => None
      end
  | _ => None
  end.

(** [math.isclose(a, b)] with [rel_tol=1e-09] and [abs_tol=0.0] *)
Definition isclose (a b : float) : bool :=
  let rel_tol := 0x1.12e0be826d695p-30%float in  (* 1e-09 *)
  let abs_tol := 0%float in
  if PrimFloat.eqb a b then true
  else if PrimFloat.is_infinity a || PrimFloat.is_infinity b then false
  else
    let diff := PrimFloat.abs (PrimFloat.sub b a) in
    PrimFloat.leb diff (PrimFloat.abs (PrimFloat.mul rel_tol b))
    || PrimFloat.leb diff (PrimFloat.abs (PrimFloat.mul rel_tol a))
    || PrimFloat.leb diff abs_tol.

(** The new elements of [other], each once, in the order of [other]. *)
Definition ordered_difference (other self : list pystr) : list pystr :=
  filter (fun x => x ∉ self) (remove_dups other).

(** *** The instance satisfies the interface *)

Lemma to_N_byte_of (n : N) : (n < 256)%N -> Byte.to_N (byte_of n) = n.
Proof.
  intros Hn. unfold byte_of.
  destruct (Byte.of_N n) as [b|] eqn:E; simpl.
  - by apply Byte.to_of_N in E.
  - apply Byte.of_N_None_iff in E. lia.
Qed.

Lemma byte_of_to_N (b : byte) : byte_of (Byte.to_N b) = b.
Proof. unfold byte_of. by rewrite Byte.of_to_N. Qed.

Lemma to_N_bound (b : byte) : (Byte.to_N b < 256)%N.
Proof. pose proof (Byte.to_N_bounded b). lia. Qed.

Lemma utf8_split (c k : N) :
  (k <> 0 -> c = k * (c / k) + c mod k /\ c mod k < k /\ 0 <= c / k /\ 0 <= c mod k)%N.
Proof.
  intros. split; [apply N.div_mod'|].
  split; [by apply N.mod_lt|]. split; apply N.le_0_l.
Qed.

Ltac utf8_arith c :=
  pose proof (utf8_split c 64 ltac:(done));
  pose proof (utf8_split (c / 64) 64 ltac:(done));
  pose proof (utf8_split (c / 4096) 64 ltac:(done));
  pose proof (utf8_split c 4096 ltac:(done));
  pose proof (utf8_split c 262144 ltac:(done));
  assert (c / 64 / 64 = c / 4096)%N by (by rewrite N.Div0.div_div);
  assert (c / 4096 / 64 = c / 262144)%N by (by rewrite N.Div0.div_div).

Ltac utf8_branch :=
  repeat match goal with
  | |- context [(?a <? ?b)%N] => destruct (N.ltb_spec a b); try lia
  | |- context [(?a <=? ?b)%N] => destruct (N.leb_spec a b); try lia
  end.

Lemma utf8_char_roundtrip (c : N) (b r : bytes) :
  utf8_encode_char c = Some b ->
  utf8_decode (b ++ r) = cons c <$> utf8_decode r.
Proof.
  unfold utf8_encode_char. utf8_arith c.
  destruct (N.ltb_spec c 128).
  { intros [= <-]. simpl. rewrite to_N_byte_of by lia. utf8_branch. done. }
  destruct (N.ltb_spec c 2048).
  { intros [= <-]. cbn [app utf8_decode].
    rewrite !to_N_byte_of by lia.
    replace ((192 + c / 64 - 192) * 64 + (128 + c mod 64 - 128))%N with c by lia.
    unfold continuation. utf8_branch. done. }
  destruct (N.ltb_spec c 65536).
  { destruct (N.leb_spec 55296 c); destruct (N.ltb_spec c 57344); simpl; try done.
    all: intros [= <-]; cbn [app utf8_decode]; rewrite !to_N_byte_of by lia.
    all: replace ((224 + c / 4096 - 224) * 4096 + (128 + (c / 64) mod 64 - 128) * 64
                  + (128 + c mod 64 - 128))%N with c by lia.
    all: unfold continuation; utf8_branch; done. }
  destruct (N.ltb_spec c 1114112); [|done].
  intros [= <-]; cbn [app utf8_decode]; rewrite !to_N_byte_of by lia.
  replace ((240 + c / 262144 - 240) * 262144 + (128 + (c / 4096) mod 64 - 128) * 4096
           + (128 + (c / 64) mod 64 - 128) * 64 + (128 + c mod 64 - 128))%N
    with c by lia.
  unfold continuation. utf8_branch. done.
Qed.

Lemma utf8_roundtrip (s : pystr) (bs : bytes) :
  utf8_encode s = Some bs -> utf8_decode bs = Some s.
Proof.
  revert bs. induction s as [|c s IH]; intros bs; simpl.
  - by intros [= <-].
  - destruct (utf8_encode_char c) as [b|] eqn:Ec; [|done].
    destruct (utf8_encode s) as [bs'|]; [|done].
    intros [= <-]. rewrite (utf8_char_roundtrip _ _ _ Ec), (IH bs' eq_refl). done.
Qed.

Lemma ordered_difference_NoDup (other self : list pystr) :
  NoDup (ordered_difference other self).
Proof. apply NoDup_filter, NoDup_remove_dups. Qed.

Lemma ordered_difference_elem (other self : list pystr) (x : pystr) :
  x ∈ ordered_difference other self <-> x ∈ other /\ x ∉ self.
Proof.
  unfold ordered_difference. rewrite list_elem_of_filter, elem_of_remove_dups. tauto.
Qed.

Lemma rev_difference_NoDup (other self : list pystr) :
  NoDup (rev (ordered_difference other self)).
Proof. rewrite <- Permutation_rev. apply ordered_difference_NoDup. Qed.

Lemma rev_difference_elem (other self : list pystr) (x : pystr) :
  x ∈ rev (ordered_difference other self) <-> x ∈ other /\ x ∉ self.
Proof.
  rewrite <- ordered_difference_elem, !list_elem_of_In. symmetry. apply in_rev.
Qed.

(** The runtime over a given iteration order of the set difference. *)
Definition cpython_with (difference : list pystr -> list pystr -> list pystr)
    (HNoDup : forall other self, NoDup (difference other self))
    (Helem : forall other self x,
       x ∈ difference other self <-> x ∈ other /\ x ∉ self) : PyRuntime :=
  {| codec_decode := cpython_decode;
     str_lower := ascii_lower;
     py_float := decimal_float;
     math_isclose := isclose;
     set_difference := difference;
     decode_latin1 := fun bs => eq_refl;
     decode_ascii := fun bs => eq_refl;
     decode_utf8 := utf8_roundtrip;
     set_difference_NoDup := HNoDup;
     set_difference_elem := Helem |}.

(** A set that yields its elements in insertion order. *)
Definition cpython : PyRuntime :=
  cpython_with ordered_difference ordered_difference_NoDup ordered_difference_elem.

(** A set that yields its elements in the reverse order. *)
Definition cpython_rev : PyRuntime :=
  cpython_with (fun other self => rev (ordered_difference other self))
    rev_difference_NoDup rev_difference_elem.

(** * Properties *)

(** ** Dictionaries *)

Lemma str_eqb_true (a b : pystr) : str_eqb a b = true <-> a = b.
Proof. unfold str_eqb. apply bool_decide_eq_true. Qed.

Lemma str_eqb_false (a b : pystr) : str_eqb a b = false <-> a <> b.
Proof. unfold str_eqb. apply bool_decide_eq_false. Qed.

Lemma str_eqb_refl (a : pystr) : str_eqb a a = true.
Proof. by apply str_eqb_true. Qed.

Lemma str_in_true (x : pystr) (s : list pystr) : str_in x s = true <-> x ∈ s.
Proof. unfold str_in. apply bool_decide_eq_true. Qed.

Lemma str_in_false (x : pystr) (s : list pystr) : str_in x s = false <-> x ∉ s.
Proof. unfold str_in. apply bool_decide_eq_false. Qed.

Lemma dict_get_set_eq (k : pystr) (v : value) (d : Node) :
  dict_get k (dict_set k v d) = Some v.
Proof.
  induction d as [|[k' v'] d IH]; simpl.
  - by rewrite str_eqb_refl.
  - destruct (str_eqb k k') eqn:E; simpl; rewrite ?str_eqb_refl, ?E; done.
Qed.

Lemma dict_get_set_ne (k k' : pystr) (v : value) (d : Node) :
  k <> k' -> dict_get k (dict_set k' v d) = dict_get k d.
Proof.
  intros Hne. induction d as [|[k0 v0] d IH]; simpl.
  - by apply str_eqb_false in Hne as ->.
  - destruct (str_eqb k' k0) eqn:E; simpl.
    + apply str_eqb_true in E as <-. by apply str_eqb_false in Hne as ->.
    + by rewrite IH.
Qed.

Lemma dict_get_del_ne (k k' : pystr) (d : Node) :
  k <> k' -> dict_get k (dict_del k' d) = dict_get k d.
Proof.
  intros Hne. induction d as [|[k0 v0] d IH]; simpl; [done|].
  destruct (str_eqb k' k0) eqn:E; simpl.
  - apply str_eqb_true in E as <-. by apply str_eqb_false in Hne as ->.
  - by rewrite IH.
Qed.

Lemma dict_set_same (k : pystr) (v : value) (d : Node) :
  dict_get k d = Some v -> dict_set k v d = d.
Proof.
  induction d as [|[k0 v0] d IH]; simpl; [done|].
  destruct (str_eqb k k0) eqn:E.
  - apply str_eqb_true in E as <-. by intros [= ->].
  - intros H. by rewrite IH.
Qed.

Lemma dict_get_None (k : pystr) (d : Node) : dict_get k d = None <-> k ∉ keys d.
Proof.
  induction d as [|[k0 v0] d IH]; simpl.
  - split; [intros _; apply not_elem_of_nil|done].
  - rewrite not_elem_of_cons. destruct (str_eqb k k0) eqn:E.
    + apply str_eqb_true in E. split; [done|]. by intros [? _].
    + apply str_eqb_false in E. rewrite IH. tauto.
Qed.

Lemma dict_set_new (k : pystr) (v : value) (d : Node) :
  k ∉ keys d -> dict_set k v d = d ++ [(k, v)].
Proof.
  induction d as [|[k0 v0] d IH]; simpl; [done|].
  rewrite not_elem_of_cons. intros [Hne Hd].
  apply str_eqb_false in Hne as ->. by rewrite IH.
Qed.

Lemma dict_get_app_new (k : pystr) (v : value) (d d' : Node) :
  k ∉ keys d -> dict_get k (d ++ (k, v) :: d') = Some v.
Proof.
  induction d as [|[k0 v0] d IH]; simpl.
  - by rewrite str_eqb_refl.
  - rewrite not_elem_of_cons. intros [Hne Hd].
    apply str_eqb_false in Hne as ->. by apply IH.
Qed.

(** ** Merging the properties of two nodes *)

(** Case analysis on the tests of a computation [H : m = Ok x]. *)
Ltac case_result H :=
  repeat match type of H with
  | Ok _ = Ok _ => injection H as H; try subst
  | Err _ = Ok _ => discriminate H
  | mbind _ ?m = _ => let E := fresh "E" in destruct m eqn:E; simpl in H
  | (if ?b then _ else _) = _ => let E := fresh "E" in destruct b eqn:E
  | match ?x with _ => _ end = _ => let E := fresh "E" in destruct x eqn:E
  | (let '(_, _) := ?x in _) = _ => let E := fresh "E" in destruct x eqn:E
  end.

Ltac str_eqs :=
  repeat match goal with
  | E : str_eqb _ _ = true |- _ => apply str_eqb_true in E
  | E : str_eqb _ _ = false |- _ => apply str_eqb_false in E
  | E : str_in _ _ = true |- _ => apply str_in_true in E
  | E : str_in _ _ = false |- _ => apply str_in_false in E
  end.

Section NodeMerge.
Context {rt : PyRuntime}.

Lemma merge_items_app comment ce ign (self : Node) (items items' : list (pystr * value)) :
  merge_items comment ce ign self (items ++ items') =
  self' ← merge_items comment ce ign self items;
  merge_items comment ce ign self' items'.
Proof.
  revert self. induction items as [|item items IH]; intros self; simpl; [done|].
  destruct (merge_item comment ce ign self item) as [self'|e]; simpl; [apply IH|done].
Qed.

(** Merging one item of [other] leaves the other properties of [self] alone. *)
Lemma merge_item_other_keys comment ce ign (self self' : Node) (k k' : pystr) (v : value) :
  merge_item comment ce ign self (k, v) = Ok self' ->
  k' <> k -> dict_get k' self' = dict_get k' self.
Proof.
  intros H Hne. unfold merge_item, merge_differing_scalar_property_values in H.
  case_result H; try done; str_eqs; subst;
  repeat match goal with
  | E : (if ?b then _ else _) = (_, _) |- _ => destruct b; simplify_eq
  end;
  rewrite ?dict_get_set_ne, ?dict_get_del_ne by done; done.
Qed.

Lemma merge_items_other_keys comment ce ign (items : list (pystr * value))
    (self self' : Node) (k : pystr) :
  merge_items comment ce ign self items = Ok self' ->
  k ∉ keys items -> dict_get k self' = dict_get k self.
Proof.
  revert self. induction items as [|[k0 v0] items IH]; intros self; cbn [merge_items keys map fst].
  - by intros [= <-].
  - rewrite not_elem_of_cons. intros H [Hne Hk].
    destruct (merge_item comment ce ign self (k0, v0)) as [self1|] eqn:E; [|done].
    simpl in H. rewrite (IH _ H Hk). by eapply merge_item_other_keys.
Qed.

Lemma Node_merge_items (self other : Node) comment ce ign :
  Node_merge self other comment ce ign =
  merge_items (comment_line comment) ce (default [] ign) self other.
Proof. by destruct comment. Qed.

(** What [Node.merge] does with a scalar property of [other] that [self]
    holds with another value, when both values are non-empty strings and
    none is ignored. *)
Lemma merge_item_differing (self : Node) (property_id self_value other_value : pystr)
    comment ce ign :
  property_id ∈ scalar_properties ->
  property_id <> py "C" ->
  dict_get property_id self = Some (VStr self_value) ->
  self_value <> other_value -> self_value <> [] -> other_value <> [] ->
  IgnoreAny ∉ ignore_values_of property_id (Some ign) ->
  IgnoreValue other_value ∉ ignore_values_of property_id (Some ign) ->
  IgnoreValue self_value ∉ ignore_values_of property_id (Some ign) ->
  merge_item comment ce ign self (property_id, VStr other_value) =
    let conflict :=
      if str_in property_id text_properties
         && str_eqb (str_lower self_value) (str_lower other_value)
      then Ok self
      else Err (MergeError_differ property_id self_value (VStr other_value)) in
    if str_in property_id real_properties then
      match py_float self_value, py_float other_value with
      | Some a, Some b => if math_isclose a b then Ok self else conflict
      | _, _ => Err PyValueError
      end
    else conflict.
Proof.
  unfold ignore_values_of. simpl.
  intros Hscalar HC Hget Hne Hs Ho Hany Hov Hsv.
  unfold merge_item.
  apply str_in_true in Hscalar as ->.
  rewrite (bool_decide_eq_false_2 _ Hany). simpl.
  rewrite (bool_decide_eq_false_2 _ Hov). simpl.
  apply str_eqb_false in HC as ->. rewrite Hget.
  rewrite bool_decide_eq_false_2 by congruence. simpl.
  unfold merge_differing_scalar_property_values. rewrite Hget.
  rewrite (bool_decide_eq_false_2 _ Hsv).
  destruct other_value as [|c ov]; [done|]. destruct self_value as [|c' sv]; [done|].
  simpl. destruct (str_in property_id real_properties); simpl; [|done].
  destruct (py_float (c' :: sv)); [|done]. destruct (py_float (c :: ov)); [|done].
  simpl. by destruct (math_isclose _ _).
Qed.


End NodeMerge.

(** Facts about concrete data are decided by evaluation. *)
Ltac by_compute := apply (bool_decide_unpack _); vm_compute; exact I.




(** ** Merging a list property *)

Lemma list_scalar_disjoint (property_id : pystr) :
  property_id ∈ list_properties -> property_id ∉ scalar_properties.
Proof.
  intros Hl Hs.
  assert (forallb (fun k => negb (str_in k scalar_properties)) list_properties = true)
    as H by (vm_compute; reflexivity).
  rewrite forallb_forall in H. apply list_elem_of_In, H, negb_true_iff, str_in_false in Hl.
  done.
Qed.

Lemma list_not_comment (property_id : pystr) :
  property_id ∈ list_properties -> property_id <> py "C".
Proof. intros Hl ->. revert Hl. by_compute. Qed.

(** Two duplicate-free lists with the same elements, at most one of them,
    are equal. *)
Lemma NoDup_short_eq (l l' : list pystr) :
  NoDup l -> NoDup l' -> (forall x, x ∈ l <-> x ∈ l') -> (length l' <= 1)%nat -> l = l'.
Proof.
  intros Hl Hl' Hiff Hlen.
  assert (length l = length l') as Hsame.
  { apply Permutation_length, NoDup_Permutation; done. }
  destruct l' as [|y [|? ?]]; simpl in *; [| |lia].
  - by destruct l.
  - destruct l as [|x [|? ?]]; simpl in *; try lia.
    assert (x ∈ [y]) as Hx by (apply Hiff; left).
    apply list_elem_of_singleton in Hx. by subst.
Qed.

(** C6, as amended: for a list-valued property present in both nodes, the
    merged value is the list of [self] as it was, followed by the entries of
    [other] that [self] does not hold, each of them once, in the order in
    which the set difference yields them; that is the order of [other] when
    at most one entry is new. *)
Theorem merge_list_property_appends_new {rt : PyRuntime}
    (self other merged : Node) (property_id : pystr)
    (self_values other_values : list pystr)
    (comment : option pystr) (comments_everywhere : bool)
    (ignore_property_values : option (list (pystr * list ignore_value))) :
  NoDup (keys other) ->
  property_id ∈ list_properties ->
  dict_get property_id self = Some (VList self_values) ->
  dict_get property_id other = Some (VList other_values) ->
  Node_merge self other comment comments_everywhere ignore_property_values = Ok merged ->
  exists extras,
    dict_get property_id merged = Some (VList (self_values ++ extras))
    /\ NoDup extras
    /\ (forall x, x ∈ extras <-> x ∈ other_values /\ x ∉ self_values)
    /\ ((length (ordered_difference other_values self_values) <= 1)%nat ->
        extras = ordered_difference other_values self_values).
Proof.
  intros Hnodup Hlist Hself Hother. rewrite Node_merge_items.
  assert (exists before after,
            other = before ++ (property_id, VList other_values) :: after
            /\ (property_id ∉ keys before) /\ (property_id ∉ keys after))
    as (before & after & -> & Hb & Ha).
  { clear Hself. induction other as [|[k v] other IH]; [done|].
    simpl in Hother, Hnodup. apply NoDup_cons in Hnodup as [Hk Hnodup].
    destruct (str_eqb property_id k) eqn:E.
    - apply str_eqb_true in E as <-. injection Hother as ->.
      exists [], other. split; [done|]. split; [apply not_elem_of_nil|done].
    - apply str_eqb_false in E.
      destruct (IH Hnodup Hother) as (before & after & -> & Hb & Ha).
      exists ((k, v) :: before), after. split; [done|]. split; [|done].
      simpl. apply not_elem_of_cons. done. }
  rewrite merge_items_app. intros Hm.
  destruct (merge_items _ _ _ self before) as [self1|] eqn:E1; [|done].
  cbn [mbind result_bind merge_items] in Hm.
  destruct (merge_item _ _ _ self1 _) as [self2|] eqn:E2; [|done].
  cbn [mbind result_bind] in Hm.
  assert (dict_get property_id self1 = Some (VList self_values)) as Hself1.
  { rewrite <- Hself. by eapply merge_items_other_keys. }
  exists (set_difference other_values self_values).
  rewrite (merge_items_other_keys _ _ _ _ _ _ _ Hm Ha).
  split; [|split; [apply set_difference_NoDup|split; [apply set_difference_elem|]]].
  - unfold merge_item in E2.
    pose proof (list_scalar_disjoint _ Hlist) as Hs%str_in_false. rewrite Hs in E2.
    cbn [mbind result_bind] in E2.
    pose proof (list_not_comment _ Hlist) as HC%str_eqb_false. rewrite HC in E2.
    rewrite Hself1 in E2. simpl in E2. case_bool_decide as Hx.
    + injection E2 as <-. by rewrite Hx, app_nil_r.
    + injection E2 as <-. by rewrite dict_get_set_eq.
  - intros Hlen. apply NoDup_short_eq; [apply set_difference_NoDup| |
      |done].
    + apply ordered_difference_NoDup.
    + intros x. by rewrite set_difference_elem, ordered_difference_elem.
Qed.

(** C6, witness: [LB[bb:B]] merged with [LB[aa:A][bb:B]] is [LB[bb:B][aa:A]]. *)
Lemma merge_list_property_witness :
  exists extras,
    dict_get (py "LB") (list_node "LB" ["bb:B"; "aa:A"])
    = Some (VList (map py ["bb:B"] ++ extras))
    /\ NoDup extras
    /\ (forall x, x ∈ extras <-> x ∈ map py ["aa:A"; "bb:B"] /\ x ∉ map py ["bb:B"])
    /\ ((length (ordered_difference (map py ["aa:A"; "bb:B"]) (map py ["bb:B"])) <= 1)%nat ->
        extras = ordered_difference (map py ["aa:A"; "bb:B"]) (map py ["bb:B"])).
Proof.
  apply (merge_list_property_appends_new (rt := cpython)
           (list_node "LB" ["bb:B"]) (list_node "LB" ["aa:A"; "bb:B"])
           (list_node "LB" ["bb:B"; "aa:A"]) (py "LB") _ _ None true None);
    try by_compute; reflexivity.
Defined.

(** C6, counterexample: with a set that yields [cc] before [bb], the new
    entries [bb], [cc] of [other] are appended as [cc], [bb], which is not
    their order in [other]. *)
Lemma merge_list_property_counterexample :
  Node_merge (rt := cpython_rev) (list_node "LB" ["aa"]) (list_node "LB" ["bb"; "cc"])
    None true None
  = Ok (list_node "LB" ["aa"; "cc"; "bb"]).
Proof. vm_compute. reflexivity. Qed.

(** ** Merging a real-valued property *)

(** C7, as amended: for a real-valued property that both nodes hold with
    different non-empty values that read as numbers, none of them ignored,
    the merge goes on with the value of [self] unchanged when
    [math.isclose] holds of the two numbers, and raises the merge error
    otherwise. *)
Theorem merge_real_property_tolerance {rt : PyRuntime}
    (self self1 other_before other_after : Node)
    (property_id self_value other_value : pystr) (a b : float)
    (comment : option pystr) (comments_everywhere : bool)
    (ignore_property_values : option (list (pystr * list ignore_value))) :
  NoDup (keys (other_before ++ (property_id, VStr other_value) :: other_after)) ->
  property_id ∈ real_properties ->
  dict_get property_id self = Some (VStr self_value) ->
  self_value <> other_value -> self_value <> [] -> other_value <> [] ->
  IgnoreAny ∉ ignore_values_of property_id ignore_property_values ->
  IgnoreValue other_value ∉ ignore_values_of property_id ignore_property_values ->
  IgnoreValue self_value ∉ ignore_values_of property_id ignore_property_values ->
  py_float self_value = Some a ->
  py_float other_value = Some b ->
  Node_merge self other_before comment comments_everywhere ignore_property_values
    = Ok self1 ->
  dict_get property_id self1 = Some (VStr self_value)
  /\ Node_merge self (other_before ++ (property_id, VStr other_value) :: other_after)
       comment comments_everywhere ignore_property_values
     = if math_isclose a b
       then Node_merge self1 other_after comment comments_everywhere
              ignore_property_values
       else Err (MergeError_differ property_id self_value (VStr other_value)).
Proof.
  intros Hnodup Hreal Hget Hne Hs Ho Hany Hov Hsv Ha Hb.
  assert (property_id ∉ keys other_before) as Hbefore.
  { unfold keys in *. rewrite fmap_app in Hnodup. apply NoDup_app in Hnodup as (_ & H & _).
    intros Hin. apply (H _ Hin). simpl. left. }
  assert (ignore_values_of property_id ignore_property_values
          = ignore_values_of property_id (Some (default [] ignore_property_values)))
    as Hign by by destruct ignore_property_values.
  rewrite Hign in *. rewrite !Node_merge_items. intros Hpre.
  assert (dict_get property_id self1 = Some (VStr self_value)) as Hget1.
  { rewrite <- Hget. by eapply merge_items_other_keys. }
  split; [done|].
  rewrite merge_items_app, Hpre. cbn [mbind result_bind merge_items].
  rewrite (merge_item_differing self1 property_id self_value other_value); try done.
  - cbn zeta. apply str_in_true in Hreal as Hr. rewrite Hr, Ha, Hb.
    assert (str_in property_id text_properties = false) as ->.
    { apply str_in_false. intros Ht. revert Hreal Ht. clear.
      assert (forallb (fun k => negb (str_in k text_properties)) real_properties = true)
        as H by (vm_compute; reflexivity).
      rewrite forallb_forall in H. intros Hr%list_elem_of_In%H%negb_true_iff%str_in_false.
      done. }
    by destruct (math_isclose a b).
  - revert Hreal. clear.
    assert (forallb (fun k => str_in k scalar_properties) real_properties = true)
      as H by (vm_compute; reflexivity).
    rewrite forallb_forall in H. by intros Hr%list_elem_of_In%H%str_in_true.
  - intros ->. revert Hreal. by_compute.
Qed.

(** C7, witness: [KM[4.5]] and [KM[4.5000000001]] are close and merge;
    [KM[4.5]] and [KM[5.5]] are not and raise. *)
Lemma merge_real_property_tolerance_witness :
  Node_merge (rt := cpython) (scalar_node "KM" "4.5") (scalar_node "KM" "4.5000000001")
    None true None
  = Ok (scalar_node "KM" "4.5")
  /\ Node_merge (rt := cpython) (scalar_node "KM" "4.5") (scalar_node "KM" "5.5")
       None true None
     = Err (MergeError_differ (py "KM") (py "4.5") (VStr (py "5.5"))).
Proof.
  split.
  - refine (proj2 (merge_real_property_tolerance (rt := cpython)
      (scalar_node "KM" "4.5") (scalar_node "KM" "4.5") [] []
      (py "KM") (py "4.5") (py "4.5000000001")
      (PrimFloat.div (PrimFloat.of_uint63 45) (PrimFloat.of_uint63 10))
      (PrimFloat.div (PrimFloat.of_uint63 45000000001) (PrimFloat.of_uint63 10000000000))
      None true None _ _ _ _ _ _ _ _ _ _ _ _)); try by_compute; reflexivity.
  - refine (proj2 (merge_real_property_tolerance (rt := cpython)
      (scalar_node "KM" "4.5") (scalar_node "KM" "4.5") [] []
      (py "KM") (py "4.5") (py "5.5")
      (PrimFloat.div (PrimFloat.of_uint63 45) (PrimFloat.of_uint63 10))
      (PrimFloat.div (PrimFloat.of_uint63 55) (PrimFloat.of_uint63 10))
      None true None _ _ _ _ _ _ _ _ _ _ _ _)); try by_compute; reflexivity.
Defined.

(** C7, counterexample: [4.5] and [4.50000001] differ by 1e-08, more than
    the relative tolerance 1e-09 of [math.isclose] allows, and the merge of
    [KM[4.5]] with [KM[4.50000001]] raises. *)
Lemma merge_real_property_counterexample :
  Node_merge (rt := cpython) (scalar_node "KM" "4.5") (scalar_node "KM" "4.50000001")
    None true None
  = Err (MergeError_differ (py "KM") (py "4.5") (VStr (py "4.50000001"))).
Proof. vm_compute. reflexivity. Qed.

(** ** Trees *)

(** Induction on a tree, with the property for all its branches. *)
Lemma GameTree_ind' (P : GameTree -> Prop) :
  (forall ns bs, Forall P bs -> P (Tree ns bs)) -> forall g, P g.
Proof.
  intros H. fix IH 1. intros [ns bs]. apply H.
  induction bs as [|b bs IHbs]; constructor; [apply IH|apply IHbs].
Qed.

Lemma normalize_from_normal (g : GameTree) :
  forall trunk, normal (normalize_from trunk g) = true.
Proof.
  induction g as [ns bs IH] using GameTree_ind'. intros trunk.
  destruct bs as [|b1 [|b2 bs]].
  - done.
  - simpl. by apply Forall_cons in IH as [IH _].
  - cbn [normalize_from normal]. rewrite length_map. simpl.
    rewrite !Forall_cons in IH. destruct IH as (IH1 & IH2 & IH).
    rewrite IH1, IH2. simpl. apply forallb_forall. intros x Hx.
    apply in_map_iff in Hx as (y & <- & Hy). rewrite Forall_forall in IH.
    by apply IH, list_elem_of_In.
Qed.

Lemma normalize_normal (g : GameTree) : normal (normalize g) = true.
Proof. apply normalize_from_normal. Qed.


(** ** Merging a node with a copy of itself *)

Lemma dict_get_elem (n : Node) (k : pystr) (v : value) :
  NoDup (keys n) -> (k, v) ∈ n -> dict_get k n = Some v.
Proof.
  induction n as [|[k0 v0] n IH]; simpl; intros Hnodup Hin.
  - by apply elem_of_nil in Hin.
  - apply NoDup_cons in Hnodup as [Hk0 Hnodup]. apply elem_of_cons in Hin as [[= -> ->]|Hin].
    + by rewrite str_eqb_refl.
    + destruct (str_eqb k k0) eqn:E; [|by apply IH].
      apply str_eqb_true in E as ->. destruct Hk0.
      apply list_elem_of_fmap. by exists (k0, v).
Qed.

Section NodeSelf.
Context {rt : PyRuntime}.

Lemma set_difference_self (l : list pystr) : set_difference l l = [].
Proof.
  destruct (set_difference l l) as [|x sd] eqn:E; [done|].
  assert (x ∈ set_difference l l) as Hx by (rewrite E; left).
  apply set_difference_elem in Hx as [? ?]. done.
Qed.

Lemma merge_item_self (n : Node) (k : pystr) (v : value) ce ign :
  NoDup (keys n) -> scalars_are_strings n = true -> (k, v) ∈ n ->
  merge_item [] ce ign n (k, v) = Ok n.
Proof.
  intros Hnodup Htyped Hin. pose proof (dict_get_elem _ _ _ Hnodup Hin) as Hget.
  unfold scalars_are_strings in Htyped. rewrite forallb_forall in Htyped.
  apply list_elem_of_In, Htyped in Hin. unfold merge_item.
  destruct (str_in k scalar_properties) eqn:Hs; simpl in Hin.
  - destruct v as [s|]; [|done]. clear Hin.
    destruct (bool_decide (IgnoreAny ∈ _)); simpl; [done|].
    destruct (bool_decide (IgnoreValue s ∈ _)); simpl; [done|].
    destruct (str_eqb k (py "C")) eqn:EC.
    + apply str_eqb_true in EC as ->. rewrite Hget. destruct s as [|c s].
      * change (strip []) with (@nil N). simpl. rewrite (dict_set_same _ _ _ Hget).
        by destruct ce.
      * by rewrite str_eqb_refl.
    + rewrite Hget. by rewrite bool_decide_eq_true_2.
  - simpl. destruct (str_eqb k (py "C")) eqn:EC.
    + apply str_eqb_true in EC as ->. by vm_compute in Hs.
    + rewrite Hget, set_difference_self. done.
Qed.

(** Merging a copy of a node into it, with no prefix, leaves the node as it
    is, whatever is ignored. *)
Lemma Node_merge_self (n : Node) ce ign :
  NoDup (keys n) -> scalars_are_strings n = true -> Node_merge n n None ce ign = Ok n.
Proof.
  intros Hnodup Htyped. rewrite Node_merge_items. simpl.
  assert (forall items, (forall item, item ∈ items -> item ∈ n) ->
            merge_items [] ce (default [] ign) n items = Ok n) as H.
  { induction items as [|[k v] items IH]; intros Hsub; cbn [merge_items]; [done|].
    rewrite merge_item_self; try done; [|apply Hsub; left].
    cbn [mbind result_bind]. apply IH. intros item Hitem. apply Hsub. by right. }
  by apply H.
Qed.

End NodeSelf.

(** ** Divergence *)

Section TreeMerge.
Context {rt : PyRuntime}.

Lemma GameTree_init_cons (first : Node) (rest : list Node) (branches : list GameTree)
    (comment : option pystr) :
  GameTree_init (first :: rest) branches comment =
  first' ← Node_prefix_comment first comment; Ok (Tree (first' :: rest) branches).
Proof. unfold GameTree_init. simpl. by destruct comment as [[|c comment]|]. Qed.


End TreeMerge.



(** ** Merging a tree with a copy of itself *)

Lemma legal_node_spec (n : Node) :
  legal_node n = true ->
  NoDup (keys n) /\ scalars_are_strings n = true /\ equivalent n n = Ok true.
Proof.
  unfold legal_node. rewrite !andb_true_iff, bool_decide_eq_true.
  intros [[? ?] He]. repeat split; try done.
  by destruct (equivalent n n) as [[]|].
Qed.

Lemma tree_size_branch (b : GameTree) (bs : list GameTree) :
  b ∈ bs -> (tree_size b <= list_sum (map tree_size bs))%nat.
Proof.
  induction bs as [|b' bs IH]; intros Hin; [by apply elem_of_nil in Hin|].
  apply elem_of_cons in Hin as [->|Hin]; simpl; [lia|]. apply IH in Hin. lia.
Qed.

Lemma decide_cons_nil {A : Type} (x : A) (l : list A) (H : Decision (x :: l = [])) :
  @bool_decide (x :: l = []) H = false.
Proof. by apply bool_decide_eq_false_2. Qed.

Lemma decide_nil_nil {A : Type} (H : Decision (@nil A = [])) :
  @bool_decide (@nil A = []) H = true.
Proof. by apply bool_decide_eq_true_2. Qed.

Section TreeSelf.
Context {rt : PyRuntime}.

Lemma trunk_walk_self (ns : list Node) ce ign :
  forallb legal_node ns = true ->
  trunk_walk ns ns None ce ign = Ok (Exhausted ns [] []).
Proof.
  induction ns as [|n ns IH]; simpl; [done|].
  rewrite andb_true_iff. intros [(Hnodup & Htyped & Heq)%legal_node_spec Hns].
  rewrite Heq. cbn [mbind result_bind]. rewrite Node_merge_self by done.
  cbn [mbind result_bind]. by rewrite IH.
Qed.

Lemma merge_branches_self (merge : GameTree -> GameTree -> result GameTree)
    (bs : list GameTree) :
  Forall (fun b => nodes b <> [] /\ legal b = true /\ merge b b = Ok b) bs ->
  merge_branches merge bs bs = Ok (bs, []).
Proof.
  induction bs as [|b bs IH]; [done|].
  intros [(Hnodes & Hlegal & Hmerge) Hbs]%Forall_cons.
  cbn [merge_branches merge_into_branch]. unfold first_node.
  destruct b as [[|n ns] bs']; [done|]. cbn [nodes mbind result_bind].
  simpl in Hlegal. apply andb_true_iff in Hlegal as [Hns _].
  apply andb_true_iff in Hns as [(_ & _ & Heq)%legal_node_spec _].
  rewrite Heq. cbn [mbind result_bind]. rewrite Hmerge. cbn [mbind result_bind app].
  by rewrite IH.
Qed.

Lemma GameTree_merge_fuel_self (g : GameTree) ce ign :
  legal g = true ->
  forall fuel, (tree_size g <= fuel)%nat ->
  GameTree_merge_fuel fuel g g None ce ign = Ok g.
Proof.
  induction g as [ns bs IH] using GameTree_ind'. intros Hlegal fuel Hfuel.
  destruct fuel as [|fuel]; [simpl in Hfuel; lia|].
  simpl in Hlegal. apply andb_true_iff in Hlegal as [Hns Hbs].
  cbn [GameTree_merge_fuel]. unfold GameTree_merge_body.
  cbn [nodes branches]. rewrite trunk_walk_self by done.
  cbn [mbind result_bind]. rewrite app_nil_r.
  assert (merge_branches (fun s o => GameTree_merge_fuel fuel s o None ce ign) bs bs
          = Ok (bs, [])) as Hmb.
  { apply merge_branches_self. rewrite Forall_forall in IH |- *. intros b Hb.
    rewrite forallb_forall in Hbs. pose proof (Hbs b (proj1 (list_elem_of_In _ _) Hb)) as Hb'.
    apply andb_true_iff in Hb' as [Hne Hlb]. apply negb_true_iff, bool_decide_eq_false in Hne.
    repeat split; try done. apply IH; try done.
    pose proof (tree_size_branch _ _ Hb). simpl in Hfuel. lia. }
  assert ((length ns <? length ns)%nat = false) as Hlt by (apply Nat.ltb_ge; lia).
  destruct ns as [|n ns], bs as [|b bs];
    rewrite ?decide_cons_nil, ?decide_nil_nil; cbn [negb nodes branches mbind result_bind];
    rewrite ?Hlt, ?decide_cons_nil, ?decide_nil_nil;
    cbn [negb nodes branches mbind result_bind];
    rewrite ?decide_cons_nil, ?decide_nil_nil; try done.
  all: cbn [nodes branches]; rewrite Hmb; cbn [mbind result_bind prefix_comments];
    by rewrite app_nil_r.
Qed.

(** C3: merging a copy of a legal tree into it, with no comment prefix,
    leaves the tree unchanged: trunk, branches and every property of every
    node, whatever the values to ignore. *)
Theorem merge_self_unchanged (g : GameTree) (comments_everywhere : bool)
    (ignore_property_values : option (list (pystr * list ignore_value))) :
  legal g = true ->
  GameTree_merge g g None comments_everywhere ignore_property_values = Ok g.
Proof. intros Hlegal. apply GameTree_merge_fuel_self; [done|lia]. Qed.

End TreeSelf.

(** ** The fuel of [GameTree.merge] *)

Section MergeFuel.
Context {rt : PyRuntime}.

Lemma merge_into_branch_mono (m1 m2 : GameTree -> GameTree -> result GameTree)
    (self_branch : GameTree) (others seen : list GameTree) x :
  (forall s o r, m1 s o = Ok r -> m2 s o = Ok r) ->
  merge_into_branch m1 self_branch seen others = Ok x ->
  merge_into_branch m2 self_branch seen others = Ok x.
Proof.
  intros Hm. revert seen. induction others as [|o others IH]; intros seen; [done|].
  cbn [merge_into_branch].
  destruct (first_node self_branch); [|done]. destruct (first_node o); [|done].
  cbn [mbind result_bind]. destruct (equivalent _ _) as [[|]|]; try done.
  - cbn [mbind result_bind]. destruct (m1 self_branch o) eqn:E; [|done].
    by rewrite (Hm _ _ _ E).
  - apply IH.
Qed.

Lemma merge_branches_mono (m1 m2 : GameTree -> GameTree -> result GameTree)
    (bs others : list GameTree) x :
  (forall s o r, m1 s o = Ok r -> m2 s o = Ok r) ->
  merge_branches m1 bs others = Ok x ->
  merge_branches m2 bs others = Ok x.
Proof.
  intros Hm. revert others x. induction bs as [|b bs IH]; intros others x; [done|].
  cbn [merge_branches].
  destruct (merge_into_branch m1 b [] others) as [[b' others']|] eqn:E; [|done].
  rewrite (merge_into_branch_mono _ _ _ _ _ _ Hm E). cbn [mbind result_bind].
  destruct (merge_branches m1 bs others') as [[bs' others'']|] eqn:E'; [|done].
  by rewrite (IH _ _ E').
Qed.

Lemma GameTree_merge_body_mono (m1 m2 : GameTree -> GameTree -> result GameTree)
    (self other : GameTree) comment ce ign r :
  (forall s o r, m1 s o = Ok r -> m2 s o = Ok r) ->
  GameTree_merge_body m1 self other comment ce ign = Ok r ->
  GameTree_merge_body m2 self other comment ce ign = Ok r.
Proof.
  intros Hm. unfold GameTree_merge_body.
  destruct (trunk_walk _ _ _ _ _) as [[merged sr or|merged sr or]|]; try done.
  cbn [mbind result_bind].
  repeat (match goal with
  | |- context [if ?b then _ else _] => destruct b
  | |- context [GameTree_init ?a ?b ?c] => destruct (GameTree_init a b c)
  | |- context [merge_branches m1 ?a ?b] =>
      let E := fresh "E" in
      destruct (merge_branches m1 a b) as [[? ?]|] eqn:E;
      [rewrite (merge_branches_mono _ _ _ _ _ Hm E)|]
  end; cbn [mbind result_bind]; try done).
Qed.

Lemma GameTree_merge_fuel_mono (fuel fuel' : nat) (self other : GameTree) comment ce ign r :
  (fuel <= fuel')%nat ->
  GameTree_merge_fuel fuel self other comment ce ign = Ok r ->
  GameTree_merge_fuel fuel' self other comment ce ign = Ok r.
Proof.
  revert fuel' self other r. induction fuel as [|fuel IH]; intros fuel' self other r Hle; [done|].
  destruct fuel' as [|fuel']; [lia|]. cbn [GameTree_merge_fuel].
  apply GameTree_merge_body_mono. intros s o r'. apply IH. lia.
Qed.

Lemma trunk_walk_length (self other merged self_rest other_rest : list Node) comment ce ign :
  trunk_walk self other comment ce ign = Ok (Exhausted merged self_rest other_rest) ->
  self_rest = drop (length merged) self /\ other_rest = drop (length merged) other
  /\ (length merged <= length self)%nat /\ (length merged <= length other)%nat
  /\ (self_rest = [] \/ other_rest = []).
Proof.
  revert other merged. induction self as [|n self IH]; intros other merged; simpl.
  - intros [= <- <- <-]. simpl. repeat split; try done; try lia. by left.
  - destruct other as [|o other].
    + intros [= <- <- <-]. simpl. repeat split; try done; try lia. by right.
    + destruct (equivalent n o) as [[|]|]; try done. cbn [mbind result_bind].
      destruct (Node_merge _ _ _ _ _); [|done]. cbn [mbind result_bind].
      destruct (trunk_walk self other comment ce ign) as [[m s o'|m s o']|] eqn:E; try done.
      cbn [mbind result_bind walk_cons]. intros [= <- <- <-].
      destruct (IH _ _ E) as (-> & -> & ? & ? & ?). simpl. repeat split; try done; lia.
Qed.

Lemma trunk_walk_app_l (self other merged tail : list Node) comment ce ign :
  trunk_walk self other comment ce ign = Ok (Exhausted merged [] []) ->
  trunk_walk (self ++ tail) other comment ce ign = Ok (Exhausted merged tail []).
Proof.
  revert other merged. induction self as [|n self IH]; intros other merged; simpl.
  - intros [= <- ->]. by destruct tail.
  - destruct other as [|o other]; [done|].
    destruct (equivalent n o) as [[|]|]; try done. cbn [mbind result_bind].
    destruct (Node_merge _ _ _ _ _); [|done]. cbn [mbind result_bind].
    destruct (trunk_walk self other comment ce ign) as [[m s o'|m s o']|] eqn:E; try done.
    cbn [mbind result_bind walk_cons]. intros [= <- -> ->]. by rewrite (IH _ _ E).
Qed.

Lemma trunk_walk_app_r (self other merged tail : list Node) comment ce ign :
  trunk_walk self other comment ce ign = Ok (Exhausted merged [] []) ->
  trunk_walk self (other ++ tail) comment ce ign = Ok (Exhausted merged [] tail).
Proof.
  revert other merged. induction self as [|n self IH]; intros other merged; simpl.
  - intros [= <- ->]. by destruct tail.
  - destruct other as [|o other]; [done|].
    cbn [app]. destruct (equivalent n o) as [[|]|]; try done. cbn [mbind result_bind].
    destruct (Node_merge _ _ _ _ _); [|done]. cbn [mbind result_bind].
    destruct (trunk_walk self other comment ce ign) as [[m s o'|m s o']|] eqn:E; try done.
    cbn [mbind result_bind walk_cons]. intros [= <- -> ->]. by rewrite (IH _ _ E).
Qed.

(** C8, as amended: when the walk pairs every node of the shorter trunk
    with an equivalent node of the longer one,
    - a longer trunk of the target keeps its tail in place when the source
      has no branches: nothing is converted into a branch;
    - a longer trunk of the source is not discarded: its tail, with the
      branches of the source and the comment prefix on its first node,
      becomes the one branch of the copy of the source, a target without
      branches is given the placeholder branch, and the target ends with
      the result of merging that tail into the placeholder as its only
      branch. *)
Theorem merge_unequal_trunks
    (short long_prefix merged : list Node) (first first' : Node) (rest : list Node)
    (bs : list GameTree) (t : option NodeType) (grafted : GameTree)
    (comment : option pystr) (comments_everywhere : bool)
    (ignore_property_values : option (list (pystr * list ignore_value))) :
  (trunk_walk long_prefix short comment comments_everywhere ignore_property_values
     = Ok (Exhausted merged [] []) ->
   GameTree_merge (Tree (long_prefix ++ first :: rest) bs) (Tree short [])
     comment comments_everywhere ignore_property_values
   = Ok (Tree (merged ++ first :: rest) bs))
  /\ (trunk_walk short long_prefix comment comments_everywhere ignore_property_values
        = Ok (Exhausted merged [] []) ->
      short <> [] ->
      Node_prefix_comment first comment = Ok first' ->
      node_type first' = Ok t ->
      GameTree_merge placeholder (Tree (first' :: rest) bs)
        comment comments_everywhere ignore_property_values = Ok grafted ->
      GameTree_merge (Tree short []) (Tree (long_prefix ++ first :: rest) bs)
        comment comments_everywhere ignore_property_values
      = Ok (Tree merged [grafted])).
Proof.
  split.
  - intros Hwalk. unfold GameTree_merge. rewrite Nat.add_comm.
    cbn [Nat.add GameTree_merge_fuel]. unfold GameTree_merge_body. cbn [nodes branches].
    rewrite (trunk_walk_app_l _ _ _ _ _ _ _ Hwalk). cbn [mbind result_bind].
    apply trunk_walk_length in Hwalk as (Hl1 & Hl2 & Hle1 & Hle2 & _).
    rewrite decide_nil_nil.
    assert ((length short <? length (merged ++ first :: rest))%nat = true) as Hlt.
    { apply Nat.ltb_lt. rewrite length_app. simpl.
      apply (f_equal length) in Hl1, Hl2. rewrite length_drop in *. simpl in *. lia. }
    rewrite Hlt. cbn [negb mbind result_bind branches]. rewrite decide_nil_nil.
    destruct (bool_decide (merged = [])); [|done].
    rewrite bool_decide_eq_false_2; [done|]. by destruct long_prefix.
  - intros Hwalk Hshort Hfirst Htype Hgraft. unfold GameTree_merge.
    replace (2 * tree_size (Tree (long_prefix ++ first :: rest) bs) + 2)%nat
      with (S (2 * tree_size (Tree (long_prefix ++ first :: rest) bs) + 1)) by lia.
    remember (2 * tree_size (Tree (long_prefix ++ first :: rest) bs) + 1)%nat
      as fuel' eqn:Hfuel.
    cbn [GameTree_merge_fuel]. unfold GameTree_merge_body. cbn [nodes branches].
    rewrite (trunk_walk_app_r _ _ _ _ _ _ _ Hwalk). cbn [mbind result_bind].
    apply trunk_walk_length in Hwalk as (Hl1 & Hl2 & Hle1 & Hle2 & _).
    apply (f_equal length) in Hl1, Hl2. rewrite length_drop in *. simpl in Hl1, Hl2.
    assert (merged <> []) as Hmerged.
    { intros ->. simpl in *. destruct short; [done|simpl in *; lia]. }
    rewrite (bool_decide_eq_false_2 _ Hmerged), app_nil_r.
    assert ((length (long_prefix ++ first :: rest) <? length merged)%nat = false) as ->.
    { apply Nat.ltb_ge. rewrite length_app. simpl. lia. }
    assert ((length merged <? length (long_prefix ++ first :: rest))%nat = true) as ->.
    { apply Nat.ltb_lt. rewrite length_app. simpl. lia. }
    rewrite GameTree_init_cons, Hfirst. cbn [mbind result_bind branches nodes].
    rewrite decide_cons_nil, decide_nil_nil.
    cbn [branches nodes merge_branches merge_into_branch first_node mbind result_bind].
    assert (equivalent [(py "C", VStr [])] first' = Ok true) as ->.
    { unfold equivalent. rewrite Htype. done. }
    cbn [mbind result_bind].
    unfold GameTree_merge, placeholder in Hgraft.
    apply (GameTree_merge_fuel_mono _ fuel') in Hgraft; [by rewrite Hgraft|].
    subst fuel'. simpl. rewrite length_app. simpl.
    destruct long_prefix; simpl in *; [|lia]. destruct merged; [done|simpl in *; lia].
Qed.

End MergeFuel.

(** C8, witness: the target [;B[aa];W[bb]] keeps its trunk when merged
    with [;B[aa]]; the target [;B[aa]] merged with [;B[aa];W[bb]] ends with
    the branch [;C[]W[bb]]. *)
Lemma merge_unequal_trunks_witness :
  GameTree_merge (rt := cpython)
    (Tree [scalar_node "B" "aa"; scalar_node "W" "bb"] []) (Tree [scalar_node "B" "aa"] [])
    None true None
  = Ok (Tree [scalar_node "B" "aa"; scalar_node "W" "bb"] [])
  /\ GameTree_merge (rt := cpython)
       (Tree [scalar_node "B" "aa"] []) (Tree [scalar_node "B" "aa"; scalar_node "W" "bb"] [])
       None true None
     = Ok (Tree [scalar_node "B" "aa"]
             [Tree [scalar_node "C" "" ++ scalar_node "W" "bb"] []]).
Proof.
  pose proof (merge_unequal_trunks (rt := cpython)
    [scalar_node "B" "aa"] [scalar_node "B" "aa"] [scalar_node "B" "aa"]
    (scalar_node "W" "bb") (scalar_node "W" "bb") [] [] (Some move)
    (Tree [scalar_node "C" "" ++ scalar_node "W" "bb"] []) None true None) as [H1 H2].
  split.
  - apply H1. reflexivity.
  - apply H2; try reflexivity. done.
Defined.

(** C8, counterexample: the source [;B[aa];W[bb]] is longer than the target
    [;B[aa]], which has no branches; the tail [;W[bb]] of the source is not
    discarded: the target gains a branch that holds it. *)
Lemma merge_unequal_trunks_counterexample :
  GameTree_merge (rt := cpython)
    (Tree [scalar_node "B" "aa"] []) (Tree [scalar_node "B" "aa"; scalar_node "W" "bb"] [])
    None true None
  = Ok (Tree [scalar_node "B" "aa"]
          [Tree [[(py "C", VStr []); (py "W", VStr (py "bb"))]] []]).
Proof. vm_compute. reflexivity. Qed.

(** C3, witness: a game with setup, moves, comments and two variations. *)
Lemma merge_self_unchanged_witness :
  let game :=
    Tree [ [(py "GM", VStr (py "1")); (py "FF", VStr (py "4")); (py "AB", VList [py "pd"; py "dp"])];
           scalar_node "W" "pp"; scalar_node "B" "nq";
           scalar_node "W" "oq" ++ scalar_node "C" "comment 1" ]
         [ Tree [scalar_node "B" "qc" ++ scalar_node "C" "comment 2"; scalar_node "W" "kc"] [];
           Tree [scalar_node "B" "hc"; scalar_node "W" "oe"] [] ] in
  GameTree_merge (rt := cpython) game game None true None = Ok game.
Proof.
  intros game. apply (merge_self_unchanged (rt := cpython) game true None).
  vm_compute. reflexivity.
Defined.


(** ** [GameTree.merge] has fuel enough

    The fuel of [GameTree_merge] bounds the depth of the recursion into the
    branches: the method never stops for want of it. *)

Lemma finishes_bind {A B : Type} (m : result A) (k : A -> result B) :
  finishes m -> (forall a, m = Ok a -> finishes (k a)) -> finishes (m ≫= k).
Proof.
  intros Hm Hk. destruct m as [a|e]; [by apply Hk|].
  intros [= ->]. by apply Hm.
Qed.

Ltac finish :=
  repeat match goal with
  | |- finishes (Ok _) => done
  | |- finishes (Err _) => done
  | |- finishes (mbind _ _) => apply finishes_bind; [|intros ? ?]
  | |- finishes (match ?x with _ => _ end) => destruct x eqn:?
  | |- finishes (let '(_, _) := ?x in _) => destruct x eqn:?
  end.

Section Finishes.
Context {rt : PyRuntime}.

Lemma node_type_finishes (n : Node) : finishes (node_type n).
Proof. unfold node_type. finish. Qed.

Lemma equivalent_finishes (self other : Node) : finishes (equivalent self other).
Proof. unfold equivalent. finish; apply node_type_finishes. Qed.

Lemma Node_prefix_comment_finishes (n : Node) (comment : option pystr) :
  finishes (Node_prefix_comment n comment).
Proof. unfold Node_prefix_comment. finish. Qed.

Lemma merge_differing_finishes (self : Node) (property_id : pystr)
    (other_value : value) (ignore_values : list ignore_value) :
  finishes (merge_differing_scalar_property_values self property_id other_value
              ignore_values).
Proof. unfold merge_differing_scalar_property_values. finish. Qed.

Lemma merge_item_finishes (comment : pystr) (comments_everywhere : bool)
    (ignore_property_values : list (pystr * list ignore_value)) (self : Node)
    (item : pystr * value) :
  finishes (merge_item comment comments_everywhere ignore_property_values self item).
Proof. unfold merge_item. finish; apply merge_differing_finishes. Qed.

Lemma merge_items_finishes (comment : pystr) (comments_everywhere : bool)
    (ignore_property_values : list (pystr * list ignore_value)) (self : Node)
    (items : list (pystr * value)) :
  finishes (merge_items comment comments_everywhere ignore_property_values self items).
Proof.
  revert self. induction items as [|item items IH]; intros self; [done|].
  cbn [merge_items]. apply finishes_bind; [apply merge_item_finishes|]. intros. apply IH.
Qed.

Lemma Node_merge_finishes (self other : Node) (comment : option pystr)
    (comments_everywhere : bool)
    (ignore_property_values : option (list (pystr * list ignore_value))) :
  finishes (Node_merge self other comment comments_everywhere ignore_property_values).
Proof. apply merge_items_finishes. Qed.

Lemma GameTree_prefix_comment_finishes (g : GameTree) (comment : option pystr) :
  finishes (GameTree_prefix_comment g comment).
Proof.
  induction g as [ns bs IH] using GameTree_ind'. cbn [GameTree_prefix_comment].
  destruct (negb (comment_given comment)); [done|]. destruct ns as [|first ns].
  - apply finishes_bind; [|done]. induction IH as [|b bs Hb _ IHbs]; [done|].
    apply finishes_bind; [exact Hb|]. intros. apply finishes_bind; [exact IHbs|done].
  - apply finishes_bind; [apply Node_prefix_comment_finishes|done].
Qed.

(** [prefix_comment] keeps the size of a tree. *)
Lemma GameTree_prefix_comment_size (g g' : GameTree) (comment : option pystr) :
  GameTree_prefix_comment g comment = Ok g' -> tree_size g' = tree_size g.
Proof.
  revert g'. induction g as [ns bs IH] using GameTree_ind'. intros g'.
  cbn [GameTree_prefix_comment].
  destruct (negb (comment_given comment)); [by intros [= <-]|].
  destruct ns as [|first ns].
  - match goal with
    | |- mbind _ ?m = _ -> _ => destruct m as [bs'|] eqn:E; [|done]
    end.
    intros [= <-]. cbn [tree_size length]. do 2 f_equal.
    revert bs' E. induction IH as [|b bs Hb _ IHbs]; intros bs' E.
    + by injection E as <-.
    + destruct (GameTree_prefix_comment b comment) as [b'|] eqn:Eb; [|done].
      cbn [mbind result_bind] in E.
      match type of E with
      | mbind _ ?m = _ => destruct m as [bs''|] eqn:E'; [|done]
      end.
      injection E as <-.
      change (tree_size b' + list_sum (map tree_size bs'')
              = tree_size b + list_sum (map tree_size bs))%nat.
      by rewrite (Hb b'), (IHbs bs'').
  - destruct (Node_prefix_comment first comment) as [first'|]; [|done].
    by intros [= <-].
Qed.

Lemma GameTree_init_finishes (nodelist : list Node) (bs : list GameTree)
    (comment : option pystr) :
  finishes (GameTree_init nodelist bs comment).
Proof. apply GameTree_prefix_comment_finishes. Qed.

Lemma trunk_walk_finishes (self other : list Node) (comment : option pystr)
    (comments_everywhere : bool)
    (ignore_property_values : option (list (pystr * list ignore_value))) :
  finishes (trunk_walk self other comment comments_everywhere ignore_property_values).
Proof.
  revert other. induction self as [|my_node self IH]; intros other; [done|].
  destruct other as [|other_node other]; [done|]. cbn [trunk_walk].
  apply finishes_bind; [apply equivalent_finishes|]. intros [|] _; [|done].
  apply finishes_bind; [apply Node_merge_finishes|]. intros.
  apply finishes_bind; [apply IH|done].
Qed.

Lemma prefix_comments_finishes (bs : list GameTree) (comment : option pystr) :
  finishes (prefix_comments bs comment).
Proof.
  induction bs as [|b bs IH]; [done|]. cbn [prefix_comments].
  apply finishes_bind; [apply GameTree_prefix_comment_finishes|]. intros.
  apply finishes_bind; [apply IH|done].
Qed.

(** The recursive call is made for a branch of [self] that starts with a
    node, and a branch of [other]. *)
Lemma merge_into_branch_finishes (merge : GameTree -> GameTree -> result GameTree)
    (self_branch : GameTree) (seen others : list GameTree) :
  (forall o, o ∈ others -> nodes self_branch <> [] -> finishes (merge self_branch o)) ->
  finishes (merge_into_branch merge self_branch seen others).
Proof.
  revert seen. induction others as [|other_branch others IH]; intros seen Hmerge;
    [done|].
  cbn [merge_into_branch].
  apply finishes_bind; [unfold first_node; finish|]. intros mine Hmine.
  apply finishes_bind; [unfold first_node; finish|]. intros theirs _.
  apply finishes_bind; [apply equivalent_finishes|]. intros [|] _.
  - apply finishes_bind; [|done]. apply Hmerge; [left|].
    unfold first_node in Hmine. by destruct (nodes self_branch).
  - apply IH. intros o Ho. apply Hmerge. by right.
Qed.

Lemma merge_into_branch_left (merge : GameTree -> GameTree -> result GameTree)
    (self_branch self_branch' : GameTree) (seen others left : list GameTree) :
  merge_into_branch merge self_branch seen others = Ok (self_branch', left) ->
  left ⊆ seen ++ others.
Proof.
  revert seen. induction others as [|other_branch others IH]; intros seen.
  - intros [= _ <-]. by rewrite app_nil_r.
  - cbn [merge_into_branch]. intros H.
    destruct (first_node self_branch) as [mine|]; [|done].
    destruct (first_node other_branch) as [theirs|]; [|done].
    cbn [mbind result_bind] in H.
    destruct (equivalent mine theirs) as [[|]|]; cbn [mbind result_bind] in H;
      [| |done].
    + destruct (merge self_branch other_branch); [|done]. injection H as _ <-.
      intros x. rewrite !elem_of_app, elem_of_cons. tauto.
    + apply IH in H. intros x Hx. apply H in Hx. revert Hx.
      rewrite !elem_of_app, !elem_of_cons, elem_of_nil. tauto.
Qed.

Lemma merge_branches_finishes (merge : GameTree -> GameTree -> result GameTree)
    (self_branches other_branches : list GameTree) :
  (forall s o, o ∈ other_branches -> nodes s <> [] -> finishes (merge s o)) ->
  finishes (merge_branches merge self_branches other_branches).
Proof.
  revert other_branches.
  induction self_branches as [|self_branch rest IH]; intros other_branches Hmerge;
    [done|].
  cbn [merge_branches].
  apply finishes_bind; [apply merge_into_branch_finishes; intros; by apply Hmerge|].
  intros [self_branch' left] Hleft. apply merge_into_branch_left in Hleft.
  apply finishes_bind; [|by intros [? ?] _].
  apply IH. intros s o Ho. apply Hmerge. by apply Hleft in Ho.
Qed.

Lemma GameTree_merge_fuel_finishes (comment : option pystr)
    (comments_everywhere : bool)
    (ignore_property_values : option (list (pystr * list ignore_value)))
    (fuel : nat) :
  forall self other,
  (2 * tree_size other + (if bool_decide (nodes self = []) then 2 else 1) <= fuel)%nat ->
  finishes (GameTree_merge_fuel fuel self other comment comments_everywhere
              ignore_property_values).
Proof.
  induction fuel as [|fuel IH]; intros self other Hfuel.
  { destruct (bool_decide (nodes self = [])); lia. }
  cbn [GameTree_merge_fuel]. unfold GameTree_merge_body.
  apply finishes_bind; [apply trunk_walk_finishes|]. intros w Hw.
  destruct w as [merged self_rest other_rest|merged self_rest other_rest].
  { apply finishes_bind; [apply GameTree_init_finishes|done]. }
  apply trunk_walk_length in Hw as (Hself_rest & Hother_rest & Hlen & Hlen' & Hrest).
  assert ((length (nodes self) = 0 -> 2 * tree_size other + 2 <= S fuel)
          /\ 2 * tree_size other + 1 <= S fuel)%nat as [Hempty Hbound].
  { case_bool_decide as Hnodes; [lia|]. split; [|lia].
    intros Hnil. by destruct (nodes self). }
  assert (length self_rest = length (nodes self) - length merged)%nat as Hlen_self
    by (by rewrite Hself_rest, length_drop).
  assert (length other_rest = length (nodes other) - length merged)%nat as Hlen_other
    by (by rewrite Hother_rest, length_drop).
  assert (length self_rest = 0 \/ length other_rest = 0)%nat as Hrest'
    by (destruct Hrest as [-> | ->]; auto).
  clear Hfuel Hself_rest Hother_rest Hrest.
  destruct (bool_decide (merged = []));
    [destruct (negb (bool_decide (nodes self = [])));
       [destruct (bool_decide (branches other = [])); [done|]
       |destruct (bool_decide (branches self = []));
          [apply finishes_bind; [|done];
           destruct (nodes other); [done|];
           apply finishes_bind; [apply Node_prefix_comment_finishes|done]|]]|].
  all: apply finishes_bind; [finish; apply GameTree_init_finishes|].
  all: intros [self0 other0] Hleft.
  all: assert (forall b, b ∈ branches other0 -> 2 * tree_size b + 1 <= fuel)%nat as Hb.
  all: try (destruct (bool_decide (branches other0 = [])); [done|];
            apply finishes_bind;
              [apply merge_branches_finishes; intros s o Ho Hs; apply IH;
               rewrite bool_decide_eq_false_2 by done; by apply Hb
              |intros [? ?] _; apply finishes_bind;
                 [apply prefix_comments_finishes|done]]).
  all: intros b Hin; cbn [nodes branches] in Hleft; rewrite length_app in Hleft.
  all: destruct other as [ons obs]; cbn [nodes branches tree_size] in *.
  all: destruct (length ons <? length merged + length self_rest)%nat eqn:E1;
    [destruct (negb (bool_decide (obs = []))); injection Hleft as <- <-;
       cbn [branches] in Hin; apply tree_size_branch in Hin; lia|].
  all: destruct (length merged + length self_rest <? length ons)%nat eqn:E2;
    [|injection Hleft as <- <-; cbn [branches] in Hin;
      apply tree_size_branch in Hin; lia].
  all: apply Nat.ltb_lt in E2.
  all: destruct (GameTree_init other_rest obs comment) as [other_branch|] eqn:Einit;
    [|done].
  all: injection Hleft as <- <-; cbn [branches] in Hin.
  all: apply list_elem_of_singleton in Hin as ->.
  all: apply GameTree_prefix_comment_size in Einit; rewrite Einit.
  all: cbn [tree_size]; lia.
Qed.

(** [GameTree.merge] returns, or raises an exception of the code. *)
Lemma GameTree_merge_finishes (self other : GameTree) (comment : option pystr)
    (comments_everywhere : bool)
    (ignore_property_values : option (list (pystr * list ignore_value))) :
  finishes (GameTree_merge self other comment comments_everywhere
              ignore_property_values).
Proof.
  apply GameTree_merge_fuel_finishes. destruct (bool_decide (nodes self = [])); lia.
Qed.

Lemma Collection_merge_finishes (self other : Collection) (comment : option pystr)
    (comments_everywhere : bool)
    (ignore_property_values : option (list (pystr * list ignore_value))) :
  finishes (Collection_merge self other comment comments_everywhere
              ignore_property_values).
Proof.
  unfold Collection_merge. finish. apply GameTree_merge_finishes.
Qed.

End Finishes.

(** ** The patterns of the parser *)

Lemma skip_space_spec (data : bytes) :
  exists ws, data = ws ++ skip_space data /\ forallb is_space ws = true.
Proof.
  induction data as [|b data (ws & IH & Hws)]; [by exists []|].
  cbn [skip_space]. destruct (is_space b) eqn:E.
  - exists (b :: ws). split; [by rewrite <- app_comm_cons, <- IH|]. simpl. by rewrite E.
  - by exists [].
Qed.

Lemma skip_space_head (data : bytes) (b : byte) (r : bytes) :
  skip_space data = b :: r -> is_space b = false.
Proof.
  induction data as [|b' data IH]; [done|]. cbn [skip_space].
  destruct (is_space b') eqn:E; [done|]. by intros [= <- <-].
Qed.

Lemma skip_space_not_space (b : byte) (data : bytes) :
  is_space b = false -> skip_space (b :: data) = b :: data.
Proof. intros H. cbn [skip_space]. by rewrite H. Qed.

Lemma after_space_spec (c : byte) (data r : bytes) :
  after_space c data = Some r ->
  exists ws, data = ws ++ c :: r /\ forallb is_space ws = true.
Proof.
  unfold after_space. destruct (skip_space_spec data) as (ws & Hd & Hws).
  destruct (skip_space data) as [|b r'] eqn:E; [done|].
  case_bool_decide; [|done]. intros [= <-]. subst b. by exists ws.
Qed.

Lemma game_tree_next_spec (data : bytes) (b : byte) (r : bytes) :
  game_tree_next data = Some (b, r) ->
  (exists ws, data = ws ++ b :: r /\ forallb is_space ws = true)
  /\ (b = x3b \/ b = x28 \/ b = x29).
Proof.
  unfold game_tree_next. destruct (skip_space_spec data) as (ws & Hd & Hws).
  destruct (skip_space data) as [|b' r'] eqn:E; [done|].
  destruct (_ || _) eqn:Eb; [|done]. intros [= <- <-]. split; [by exists ws|].
  repeat case_bool_decide; auto. done.
Qed.

Lemma span_letters_spec (data letters r : bytes) :
  span_letters data = (letters, r) -> data = letters ++ r /\ forallb is_letter letters = true.
Proof.
  revert letters r. induction data as [|b data IH]; intros letters r; cbn [span_letters].
  - by intros [= <- <-].
  - destruct (is_letter b) eqn:E.
    + destruct (span_letters data) as [l' r'] eqn:Es. intros [= <- <-].
      destruct (IH _ _ eq_refl) as [-> Hl]. split; [done|]. simpl. by rewrite E.
    + by intros [= <- <-].
Qed.

Lemma node_contents_spec (data group r : bytes) :
  node_contents data = Some (group, r) ->
  (exists ws, data = ws ++ group ++ r /\ forallb is_space ws = true)
  /\ group <> [] /\ forallb is_letter group = true /\ is_Some (property_start r).
Proof.
  unfold node_contents. destruct (skip_space_spec data) as (ws & Hd & Hws).
  destruct (span_letters (skip_space data)) as [letters r'] eqn:Es.
  apply span_letters_spec in Es as [Hs Hl].
  destruct letters as [|l letters]; [done|].
  destruct (property_start r') eqn:Ep; [|done]. intros [= <- <-].
  repeat split; try done. exists ws. by rewrite <- Hs.
Qed.

Lemma search_spec (b : byte) (data : bytes) (n : nat) :
  search b data = Some n ->
  exists before after, data = before ++ b :: after /\ length before = n /\ b ∉ before.
Proof.
  revert n. induction data as [|b' data IH]; intros n; cbn [search]; [done|].
  case_bool_decide as Hb.
  - intros [= <-]. subst. exists [], data. repeat split; try done. apply not_elem_of_nil.
  - destruct (search b data) as [m|]; [|done]. intros [= <-].
    destruct (IH _ eq_refl) as (before & after & -> & <- & Hnot).
    exists (b' :: before), after. repeat split; try done.
    apply not_elem_of_cons. split; [congruence|done].
Qed.

Lemma search_None (b : byte) (data : bytes) : search b data = None -> b ∉ data.
Proof.
  induction data as [|b' data IH]; cbn [search]; intros H; [apply not_elem_of_nil|].
  case_bool_decide as Hb; [done|]. destruct (search b data); [done|].
  apply not_elem_of_cons. split; [congruence|by apply IH].
Qed.

Lemma line_break_length (data : bytes) (n : nat) :
  line_break data = Some n -> (1 <= n <= length data)%nat.
Proof.
  unfold line_break. destruct data as [|b [|b' data]]; [done| |].
  - repeat case_bool_decide; intros [= <-]; simpl; lia.
  - repeat case_bool_decide; intros [= <-]; simpl; lia.
Qed.

Lemma drop_past (A : Type) (before : list A) (b : A) (after : list A) :
  drop (S (length before)) (before ++ b :: after) = after.
Proof. induction before as [|x before IH]; simpl; [by rewrite drop_0|done]. Qed.

Lemma take_drop_split (A : Type) (n : nat) (l : list A) : l = take n l ++ drop n l.
Proof. by rewrite take_drop. Qed.

Lemma parsed_item_spec (k : pystr) (v : value) :
  parsed_item (k, v) = true <->
  k <> [] /\ forallb is_letter_code k = true
  /\ match v with
     | VList items => str_in k list_properties = true /\ items <> []
     | VStr _ => str_in k list_properties = false
     end
  /\ (k = py "CA" -> v = VStr TEXT_ENCODING)
  /\ (str_in k text_properties = false -> forallb is_ascii_str (strings_of v) = true).
Proof.
  unfold parsed_item. rewrite !andb_true_iff, negb_true_iff, bool_decide_eq_false.
  rewrite !orb_true_iff, negb_true_iff, bool_decide_eq_true, str_eqb_false.
  split.
  - intros ((((Hk & Hl) & Hs) & HCA) & Ha). repeat split; try done.
    + destruct v; [by apply negb_true_iff|].
      apply andb_true_iff in Hs as [? ?%negb_true_iff%bool_decide_eq_false]. done.
    + intros ->. by destruct HCA.
    + intros Ht. destruct Ha as [Ha|Ha]; [congruence|done].
  - intros (Hk & Hl & Hs & HCA & Ha). repeat split; try done.
    + destruct v; [by apply negb_true_iff|]. destruct Hs as [-> Hs].
      by apply negb_true_iff, bool_decide_eq_false.
    + destruct (decide (k = py "CA")); [right; auto|by left].
    + destruct (str_in k text_properties); [by left|right; auto].
Qed.

Lemma dict_set_twice (k : pystr) (v v' : value) (n : Node) :
  dict_set k v' (dict_set k v n) = dict_set k v' n.
Proof.
  induction n as [|[k0 v0] n IH]; simpl.
  - by rewrite str_eqb_refl.
  - destruct (str_eqb k k0) eqn:E; simpl; rewrite ?str_eqb_refl, ?E, ?IH; done.
Qed.

Lemma keys_dict_set (k : pystr) (v : value) (n : Node) :
  keys (dict_set k v n) = if dict_in k n then keys n else keys n ++ [k].
Proof.
  unfold dict_in. induction n as [|[k0 v0] n IH]; simpl; [done|].
  destruct (str_eqb k k0) eqn:E.
  - apply str_eqb_true in E as <-. simpl. rewrite (proj2 (str_in_true _ _)); [done|left].
  - simpl. rewrite IH. apply str_eqb_false in E.
    destruct (str_in k (keys n)) eqn:Ein.
    + rewrite (proj2 (str_in_true _ _)); [done|]. right. by apply str_in_true.
    + rewrite (proj2 (str_in_false _ _)); [done|].
      apply not_elem_of_cons. split; [done|by apply str_in_false].
Qed.

Lemma forallb_dict_set (P : pystr * value -> bool) (k : pystr) (v : value) (n : Node) :
  forallb P n = true -> P (k, v) = true -> forallb P (dict_set k v n) = true.
Proof.
  intros Hn Hk. induction n as [|[k0 v0] n IH]; simpl in *; [by rewrite Hk|].
  apply andb_true_iff in Hn as [H0 Hn]. destruct (str_eqb k k0); simpl.
  - by rewrite Hk, Hn.
  - by rewrite H0, IH.
Qed.

Lemma parsed_node_set (k : pystr) (v : value) (n : Node) :
  parsed_node n = true -> parsed_item (k, v) = true -> parsed_node (dict_set k v n) = true.
Proof.
  unfold parsed_node. rewrite !andb_true_iff, !bool_decide_eq_true.
  intros [Hnodup Hall] Hitem. split; [|by apply forallb_dict_set].
  rewrite keys_dict_set. unfold dict_in. destruct (str_in k (keys n)) eqn:E; [done|].
  apply str_in_false in E. apply NoDup_app. repeat split; try done.
  - intros x Hx Hx'. apply list_elem_of_singleton in Hx'. by subst.
  - apply NoDup_singleton.
Qed.

Lemma parsed_node_get (k : pystr) (v : value) (n : Node) :
  parsed_node n = true -> dict_get k n = Some v -> parsed_item (k, v) = true.
Proof.
  unfold parsed_node. rewrite andb_true_iff. intros [_ Hall].
  induction n as [|[k0 v0] n IH]; simpl in *; [done|].
  apply andb_true_iff in Hall as [H0 Hall]. destruct (str_eqb k k0) eqn:E.
  - apply str_eqb_true in E as ->. by intros [= <-].
  - by apply IH.
Qed.

Lemma is_letter_ascii (group : bytes) :
  forallb is_letter group = true ->
  is_ascii_bytes group = true /\ forallb is_letter_code (map Byte.to_N group) = true.
Proof.
  induction group as [|b group IH]; simpl; [done|].
  rewrite andb_true_iff. intros [Hb Hg]. destruct (IH Hg) as [-> ->].
  unfold is_letter in Hb. unfold is_letter_code. rewrite Hb. split; [|done].
  rewrite andb_true_r. apply N.ltb_lt.
  repeat match type of Hb with
  | (_ || _) = true => apply orb_true_iff in Hb as [Hb|Hb]
  | (_ && _) = true => apply andb_true_iff in Hb as [? Hb]
  end; apply N.leb_le in Hb; lia.
Qed.

Lemma is_ascii_str_app (a b : pystr) :
  is_ascii_str (a ++ b) = is_ascii_str a && is_ascii_str b.
Proof. apply forallb_app. Qed.

Section ParserFacts.
Context {rt : PyRuntime}.

Lemma decode_all_spec (enc : pystr) (pvlist : list bytes) :
  match decode_all enc pvlist with
  | Ok texts =>
      length texts = length pvlist
      /\ (enc = NAME_ENCODING -> forallb is_ascii_str texts = true)
  | Err e => e = PyCodecError
  end.
Proof.
  induction pvlist as [|item pvlist IH]; simpl; [done|].
  destruct (codec_decode enc item) as [text|] eqn:E; [|done].
  destruct (decode_all enc pvlist) as [texts|]; [|done]. simpl.
  destruct IH as [-> IH]. split; [done|]. intros ->. rewrite IH by done.
  unfold NAME_ENCODING in E. rewrite decode_ascii in E.
  destruct (is_ascii_bytes item) eqn:Ea; [|done]. injection E as <-.
  rewrite andb_true_r. clear -Ea. induction item as [|b item IHi]; [done|].
  simpl in *. apply andb_true_iff in Ea as [-> Ea]. by apply IHi.
Qed.

Lemma scan_value_spec (fuel : nat) (data value_parts : bytes) :
  (length data < fuel)%nat ->
  match scan_value fuel data value_parts with
  | Ok (_, r) => exists c, data = c ++ x5d :: r
  | Err e => e = PropertyValueParseError
  end.
Proof.
  revert data value_parts. induction fuel as [|fuel IH]; intros data value_parts Hfuel; [lia|].
  cbn [scan_value].
  destruct (search x5d data) as [close|] eqn:Eend; [|by destruct (search x5c data)].
  apply search_spec in Eend as (before & after & Hd & Hlen & _).
  assert (exists c, data = c ++ x5d :: drop (S close) data) as Hdone.
  { exists before. subst close. rewrite Hd at 2. by rewrite drop_past. }
  destruct (search x5c data) as [esc|] eqn:Eesc; [|done].
  destruct (S esc <? S close)%nat; [|done].
  apply search_spec in Eesc as (before' & after' & Hd' & Hlen' & _).
  assert (drop (S esc) data = after') as -> by (subst esc; rewrite Hd'; apply drop_past).
  assert (length after' < fuel)%nat as Hafter.
  { rewrite Hd' in Hfuel. rewrite length_app in Hfuel. simpl in Hfuel. lia. }
  destruct (line_break after') as [n|] eqn:Eb.
  - specialize (IH (drop n after') (value_parts ++ take esc data)).
    destruct (scan_value fuel (drop n after') _) as [[v r]|e]; [|apply IH].
    + destruct IH as [c Hc]. { rewrite length_drop. lia. }
      exists (before' ++ x5c :: take n after' ++ c).
      rewrite Hd' at 1. rewrite (take_drop_split _ n after') at 1. rewrite Hc.
      by rewrite <- !app_assoc, <- !app_comm_cons, <- !app_assoc.
    + rewrite length_drop. lia.
  - specialize (IH (drop 1 after') ((value_parts ++ take esc data) ++ take 1 after')).
    destruct (scan_value fuel (drop 1 after') _) as [[v r]|e]; [|apply IH].
    + destruct IH as [c Hc]. { rewrite length_drop. lia. }
      exists (before' ++ x5c :: take 1 after' ++ c).
      rewrite Hd' at 1. rewrite (take_drop_split _ 1 after') at 1. rewrite Hc.
      by rewrite <- !app_assoc, <- !app_comm_cons, <- !app_assoc.
    + rewrite length_drop. lia.
Qed.

Lemma property_values_spec (fuel : nat) (data : bytes) (pvlist : list bytes) :
  (length data < fuel)%nat ->
  match property_values fuel data pvlist with
  | Ok (pvlist', r) =>
      (exists c, data = c ++ r)
      /\ (length pvlist <= length pvlist')%nat
      /\ ((length pvlist < length pvlist')%nat -> (length r < length data)%nat)
  | Err e => e = PropertyValueParseError
  end.
Proof.
  revert data pvlist. induction fuel as [|fuel IH]; intros data pvlist Hfuel; [lia|].
  cbn [property_values]. case_bool_decide as Hnil.
  { split; [by exists []|]. split; lia. }
  destruct (property_start data) as [data'|] eqn:Es.
  - apply after_space_spec in Es as (ws & -> & _).
    pose proof (scan_value_spec (S (length data')) data' [] ltac:(lia)) as Hscan.
    destruct (scan_value _ data' []) as [[item data'']|e]; [|by subst].
    cbn [mbind result_bind]. destruct Hscan as [c ->].
    specialize (IH data'' (pvlist ++ [item])).
    destruct (property_values fuel data'' _) as [[pv r]|e]; [|apply IH].
    + destruct IH as ((c' & ->) & Hlen & _).
      { rewrite !length_app in Hfuel. simpl in Hfuel. rewrite length_app in Hfuel.
        simpl in Hfuel. lia. }
      rewrite length_app in Hlen. simpl in Hlen.
      split; [|split; [lia|]].
      * exists (ws ++ x5b :: c ++ x5d :: c').
        by rewrite <- !app_assoc, <- !app_comm_cons, <- !app_assoc.
      * intros _. rewrite !length_app. simpl. rewrite !length_app. simpl.
        rewrite length_app. lia.
    + rewrite !length_app in Hfuel. simpl in Hfuel. rewrite length_app in Hfuel.
      simpl in Hfuel. lia.
  - split; [by exists []|]. split; lia.
Qed.

Lemma parse_property_value_spec (p : Parser) :
  match parse_property_value p with
  | Ok (pvlist, p') =>
      pvlist <> [] /\ encoding p' = encoding p
      /\ (exists c, rest p = c ++ rest p') /\ (length (rest p') < length (rest p))%nat
  | Err e => e = PropertyValueParseError
  end.
Proof.
  unfold parse_property_value.
  pose proof (property_values_spec (S (length (rest p))) (rest p) [] ltac:(lia)) as H.
  destruct (property_values _ _ _) as [[pvlist r]|e]; [|done].
  cbn [mbind result_bind]. destruct H as (Hc & _ & Hlt).
  destruct pvlist as [|item pvlist]; [done|]. simpl.
  repeat split; try done. apply Hlt. simpl. lia.
Qed.

Lemma parse_node_loop_spec (fuel : nat) (node : Node) (p : Parser) :
  (length (rest p) < fuel)%nat ->
  parsed_node node = true ->
  match parse_node_loop fuel node p with
  | Ok (node', p') =>
      parsed_node node' = true /\ (exists c, rest p = c ++ rest p')
      /\ rest p' <> [] /\ node_contents (rest p') = None
  | Err e => parser_error e = true
  end.
Proof.
  revert node p. induction fuel as [|fuel IH]; intros node p Hfuel Hnode; [lia|].
  cbn [parse_node_loop]. case_bool_decide as Hrest; [done|].
  destruct (node_contents (rest p)) as [[group data]|] eqn:Enc; [|by (repeat split; try done); exists []].
  apply node_contents_spec in Enc as ((ws & Hdata & _) & Hgroup & Hletters & _).
  destruct (is_letter_ascii _ Hletters) as [Hascii Hcodes].
  unfold NAME_ENCODING at 1. rewrite decode_ascii, Hascii.
  pose proof (parse_property_value_spec (set_rest p data)) as Hpv.
  destruct (parse_property_value (set_rest p data)) as [[pvlist p1]|e]; [|by subst e].
  cbn [mbind result_bind]. destruct Hpv as (Hpvlist & Henc & (c1 & Hc1) & Hlt). simpl in Hc1, Hlt.
  set (property_id := map Byte.to_N group) in *.
  set (enc := if str_in property_id text_properties then encoding p1 else NAME_ENCODING).
  pose proof (decode_all_spec enc pvlist) as Hdec.
  destruct (decode_all enc pvlist) as [texts|e]; [|by subst e].
  cbn [mbind result_bind]. destruct Hdec as [Hlen Hasc].
  assert (texts <> []) as Htexts by (destruct texts, pvlist; done).
  assert (str_in property_id text_properties = false -> forallb is_ascii_str texts = true)
    as Hasc'.
  { intros Ht. apply Hasc. unfold enc. by rewrite Ht. }
  assert (property_id <> []) as Hpid by (unfold property_id; by destruct group).
  assert (length (rest p1) < fuel)%nat as Hfuel1.
  { rewrite Hdata, !length_app in Hfuel. destruct group; [done|]. simpl in Hfuel. lia. }
  assert (exists c, rest p = c ++ rest p1) as [c Hc].
  { exists (ws ++ group ++ c1). by rewrite Hdata, Hc1, <- !app_assoc. }
  (* what follows the update of the node *)
  assert (forall v,
    (property_id <> py "CA" -> parsed_item (property_id, v) = true) ->
    match
      (if str_eqb property_id (py "CA") then
         match texts with
         | first :: _ =>
             parse_node_loop fuel
               (dict_set (py "CA") (VStr TEXT_ENCODING) (dict_set property_id v node))
               (mkParser (rest p1) first)
         | [] => Err PyIndexError
         end
       else parse_node_loop fuel (dict_set property_id v node) p1)
    with
    | Ok (node', p') =>
        parsed_node node' = true /\ (exists c, rest p = c ++ rest p')
        /\ rest p' <> [] /\ node_contents (rest p') = None
    | Err e => parser_error e = true
    end) as Htail.
  { intros v Hv. destruct (str_eqb property_id (py "CA")) eqn:ECA.
    - apply str_eqb_true in ECA. destruct texts as [|first texts]; [done|].
      rewrite ECA, dict_set_twice.
      specialize (IH (dict_set (py "CA") (VStr TEXT_ENCODING) node)
                    (mkParser (rest p1) first)
                    Hfuel1 (parsed_node_set (py "CA") (VStr TEXT_ENCODING) _ Hnode
                              ltac:(vm_compute; reflexivity))).
      destruct (parse_node_loop fuel _ _) as [[node' p']|e]; [|done].
      destruct IH as (? & [c' Hc'] & ? & ?). repeat split; try done.
      exists (c ++ c'). simpl in Hc'. by rewrite Hc, Hc', <- app_assoc.
    - apply str_eqb_false in ECA.
      specialize (IH (dict_set property_id v node) p1 Hfuel1
                    (parsed_node_set _ _ _ Hnode (Hv ECA))).
      destruct (parse_node_loop fuel _ _) as [[node' p']|e]; [|done].
      destruct IH as (? & [c' Hc'] & ? & ?). repeat split; try done.
      exists (c ++ c'). by rewrite Hc, Hc', <- app_assoc. }
  destruct (str_in property_id list_properties) eqn:El; cbn [mbind result_bind].
  - destruct (dict_get property_id node) as [old|] eqn:Eget.
    + pose proof (parsed_node_get _ _ _ Hnode Eget) as Hold.
      apply parsed_item_spec in Hold as (_ & _ & Hshape & _ & Hold).
      destruct old as [old|items]; [congruence|]. destruct Hshape as [_ Hitems].
      cbn [mbind result_bind]. apply Htail. intros HCA. apply parsed_item_spec.
      repeat split; try done.
      * by destruct items.
      * intros Ht. cbn [strings_of elements_of] in *. rewrite forallb_app.
        by rewrite Hold, Hasc'.
    + cbn [mbind result_bind]. apply Htail. intros HCA. apply parsed_item_spec.
      repeat split; try done.
  - destruct texts as [|text [|? ?]]; try done. cbn [mbind result_bind].
    destruct (dict_get property_id node) as [old|] eqn:Eget.
    + pose proof (parsed_node_get _ _ _ Hnode Eget) as Hold.
      apply parsed_item_spec in Hold as (_ & _ & Hshape & _ & Hold).
      destruct old as [old|items]; [|destruct Hshape; congruence].
      cbn [mbind result_bind]. apply Htail. intros HCA. apply parsed_item_spec.
      repeat split; try done.
      intros Ht. cbn [strings_of forallb] in *. rewrite !is_ascii_str_app.
      specialize (Hold Ht). specialize (Hasc' Ht). rewrite andb_true_r in *.
      by rewrite Hold, Hasc'.
    + cbn [mbind result_bind]. apply Htail. intros HCA. apply parsed_item_spec.
      repeat split; try done.
Qed.

Lemma parse_node_spec (p : Parser) :
  match parse_node p with
  | Ok (node, p') =>
      parsed_node node = true /\ (exists c, rest p = c ++ rest p')
      /\ rest p' <> [] /\ node_contents (rest p') = None
  | Err e => parser_error e = true
  end.
Proof. apply parse_node_loop_spec; [lia|done]. Qed.

End ParserFacts.

Lemma closes_after (c before after : bytes) :
  closes before after -> closes (c ++ before) after.
Proof. intros [c' ->]. exists (c ++ c'). by rewrite <- app_assoc. Qed.

Lemma closes_length (before after : bytes) :
  closes before after -> (length after < length before)%nat.
Proof. intros [c ->]. rewrite length_app. simpl. lia. Qed.

Lemma parsed_trees_snoc (v : list GameTree) (g : GameTree) :
  parsed_trees v = true -> parsed_tree g = true ->
  parsed_trees (if negb (bool_decide (nodes g = [])) then v ++ [g] else v) = true.
Proof.
  intros Hv Hg. destruct (negb _) eqn:E; [|done].
  unfold parsed_trees in *. rewrite forallb_app, Hv. simpl. by rewrite E, Hg.
Qed.

Section TreeParser.
Context {rt : PyRuntime}.

Lemma tree_loops_spec (fuel : nat) :
  (forall g p,
     (2 * length (rest p) + 1 <= fuel)%nat -> parsed_tree g = true ->
     match parse_game_tree_loop fuel g p with
     | Ok (g', p') =>
         parsed_tree g' = true
         /\ (rest p = [] /\ g' = g /\ p' = p \/ closes (rest p) (rest p'))
     | Err e => parser_error e = true
     end)
  /\ (forall v p,
        (2 * length (rest p) + 2 <= fuel)%nat -> parsed_trees v = true ->
        match parse_branches_loop fuel v p with
        | Ok (v', p') =>
            parsed_trees v' = true /\ (exists c, rest p = c ++ rest p')
            /\ is_Some (game_tree_end (rest p'))
        | Err e => parser_error e = true
        end).
Proof.
  induction fuel as [|fuel [IHg IHb]]; [split; intros; lia|]. split.
  - intros g p Hfuel Hg. cbn [parse_game_tree_loop]. case_bool_decide as Hrest; [by auto|].
    destruct (game_tree_next (rest p)) as [[b data]|] eqn:En; [|done].
    apply game_tree_next_spec in En as ((ws & Hdata & _) & Hb).
    assert (length data < length (rest p))%nat as Hlen.
    { rewrite Hdata, length_app. simpl. lia. }
    case_bool_decide as Hsemi.
    + destruct g as [ns bs]. cbn [branches nodes]. destruct bs as [|b0 bs]; [|done].
      rewrite decide_nil_nil. cbn [negb].
      pose proof (parse_node_spec (set_rest p data)) as Hn.
      destruct (parse_node (set_rest p data)) as [[node p1]|e]; [|done].
      cbn [mbind result_bind]. destruct Hn as (Hnode & [c Hc] & Hne & _). simpl in Hc.
      assert (length (rest p1) <= length data)%nat.
      { rewrite Hc, length_app. lia. }
      specialize (IHg (Tree (ns ++ [node]) []) p1).
      destruct (parse_game_tree_loop fuel _ p1) as [[g' p']|e]; [|apply IHg; [lia|]].
      * destruct IHg as [Hg' Hcl]; [lia| |].
        { simpl in *. rewrite andb_true_r in *. rewrite forallb_app, Hg. simpl.
          by rewrite Hnode. }
        split; [done|]. right. destruct Hcl as [[? _]|Hcl]; [done|].
        rewrite Hdata, Hc. apply closes_after.
        change (closes ([b] ++ c ++ rest p1) (rest p')). by do 2 apply closes_after.
      * simpl in *. rewrite andb_true_r in *. rewrite forallb_app, Hg. simpl.
        by rewrite Hnode.
    + case_bool_decide as Hopen.
      * specialize (IHb [] (set_rest p data)).
        destruct (parse_branches_loop fuel [] _) as [[v p1]|e]; [|apply IHb; simpl; [lia|done]].
        cbn [mbind result_bind].
        destruct IHb as (Hv & [c Hc] & Hend); [simpl; lia|done|]. simpl in Hc.
        assert (length (rest p1) <= length data)%nat.
        { rewrite Hc, length_app. lia. }
        assert (rest p1 <> []) as Hne.
        { intros Hnil. rewrite Hnil in Hend. by destruct Hend. }
        specialize (IHg (Tree (nodes g) v) p1).
        assert (parsed_tree (Tree (nodes g) v) = true) as Hgv.
        { destruct g as [ns bs]. simpl in *. apply andb_true_iff in Hg as [-> _]. done. }
        destruct (parse_game_tree_loop fuel _ p1) as [[g' p']|e]; [|apply IHg; [lia|done]].
        destruct IHg as [Hg' Hcl]; [lia|done|].
        split; [done|]. right. destruct Hcl as [[? _]|Hcl]; [done|].
        rewrite Hdata, Hc. apply closes_after.
        change (closes ([b] ++ c ++ rest p1) (rest p')). by do 2 apply closes_after.
      * split; [done|]. right. destruct Hb as [?|[?| ->]]; try done.
        exists ws. by rewrite Hdata.
  - intros v p Hfuel Hv. cbn [parse_branches_loop]. case_bool_decide as Hrest; [done|].
    destruct (game_tree_end (rest p)) eqn:Eend.
    { split; [done|]. split; [by exists []|]. by rewrite Eend. }
    specialize (IHg (Tree [] []) p).
    destruct (parse_game_tree_loop fuel _ p) as [[g p1]|e]; [|apply IHg; [lia|done]].
    cbn [mbind result_bind].
    destruct IHg as [Hg [[? _]|Hcl]]; [lia|done|done|].
    pose proof (closes_length _ _ Hcl) as Hlen. destruct Hcl as [c Hc].
    set (p2 := match game_tree_start (rest p1) with
               | Some data => set_rest p1 data
               | None => p1
               end).
    assert (exists c', rest p1 = c' ++ rest p2) as [c' Hc'].
    { unfold p2. destruct (game_tree_start (rest p1)) as [data|] eqn:Es; [|by exists []].
      apply after_space_spec in Es as (ws & -> & _). exists (ws ++ [x28]).
      by rewrite <- app_assoc. }
    assert (length (rest p2) <= length (rest p1))%nat.
    { rewrite Hc', length_app. lia. }
    specialize (IHb (if negb (bool_decide (nodes g = [])) then v ++ [g] else v) p2).
    destruct (parse_branches_loop fuel _ p2) as [[v' p']|e];
      [|apply IHb; [lia|by apply parsed_trees_snoc]].
    destruct IHb as (Hv' & [c'' Hc''] & Hend); [lia|by apply parsed_trees_snoc|].
    repeat split; try done. exists (c ++ x29 :: c' ++ c'').
    by rewrite Hc, Hc', Hc'', <- !app_assoc, <- !app_comm_cons, <- !app_assoc.
Qed.

Lemma parse_game_tree_spec (p : Parser) :
  match parse_game_tree p with
  | Ok (g, p') =>
      parsed_tree g = true
      /\ (rest p = [] /\ g = Tree [] [] /\ p' = p \/ closes (rest p) (rest p'))
  | Err e => parser_error e = true
  end.
Proof. apply tree_loops_spec; [unfold tree_fuel; lia|done]. Qed.

Lemma parse_loop_spec (fuel : nat) (collection : Collection) (p : Parser) :
  (length (rest p) < fuel)%nat -> parsed_trees collection = true ->
  match parse_loop fuel collection p with
  | Ok (collection', _) =>
      parsed_trees collection' = true
      /\ (x29 ∉ rest p ->
          collection' = collection
          /\ (rest p = [] \/ game_tree_start (rest p) = None
              \/ game_tree_start (rest p) = Some []))
  | Err e => parser_error e = true
  end.
Proof.
  revert collection p. induction fuel as [|fuel IH]; intros collection p Hfuel Hc; [lia|].
  cbn [parse_loop]. case_bool_decide as Hrest; [by auto|].
  unfold parse_one_game. rewrite (bool_decide_eq_false_2 _ Hrest). cbn [negb].
  destruct (game_tree_start (rest p)) as [data|] eqn:Es; cbn [mbind result_bind]; [|by auto].
  pose proof (parse_game_tree_spec (set_rest p data)) as Hg.
  destruct (parse_game_tree (set_rest p data)) as [[g p1]|e]; [|done].
  cbn [mbind result_bind]. destruct Hg as [Hg Hcl]. simpl in Hcl.
  apply after_space_spec in Es as (ws & Hdata & _).
  destruct g as [[|n ns] bs].
  - split; [done|]. intros Hno. split; [done|]. right. right. f_equal.
    destruct Hcl as [[-> _]|[c Hc']]; [done|]. destruct Hno.
    rewrite Hdata, Hc'. rewrite !elem_of_app. right. right. rewrite elem_of_app. right. left.
  - assert (closes data (rest p1)) as Hcl' by (by destruct Hcl as [[_ [? _]]|?]).
    pose proof (closes_length _ _ Hcl') as Hlen.
    assert (parsed_trees (collection ++ [Tree (n :: ns) bs]) = true) as Hc2.
    { pose proof (parsed_trees_snoc _ _ Hc Hg) as H'. cbn [nodes] in H'.
      by rewrite decide_cons_nil in H'. }
    assert (length (rest p1) < fuel)%nat as Hfuel1.
    { rewrite Hdata, length_app in Hfuel. simpl in Hfuel. lia. }
    specialize (IH (collection ++ [Tree (n :: ns) bs]) p1 Hfuel1 Hc2).
    destruct (parse_loop fuel _ p1) as [[collection' ?]|e]; [|done].
    destruct IH as [Hc' _]. split; [done|]. intros Hno. destruct Hno.
    destruct Hcl' as [c ->].
    rewrite Hdata. rewrite !elem_of_app. right. right. rewrite elem_of_app. right. left.
Qed.

End TreeParser.




(** * The round trip through the serializer and the parser

    [Collection.__bytes__] writes each value escaped and encoded; the
    parser undoes the escapes and decodes with the encoding that it has at
    that point of the data: [latin-1] until a [CA] property is read, and
    [TEXT_ENCODING] after it, since [parse_node] stores [TEXT_ENCODING] as
    the value of [CA]. *)

(** ** Escaping and encoding *)

Lemma pattern_split_concat (g : nat -> pystr -> pystr) (text current : pystr) :
  (forall i part, g i part = if Nat.odd i then 92%N :: part else part) ->
  concat (imap g (pattern_split text current)) = current ++ flat_map escaped_char text.
Proof.
  revert g current. induction text as [|c text IH]; intros g current Hg; cbn [pattern_split].
  - simpl. rewrite Hg. simpl. done.
  - unfold escaped_char at 1. cbn [flat_map]. case_bool_decide as Hc.
    + cbn [imap concat]. rewrite !Hg. cbn [Nat.odd]. rewrite (IH (g ∘ S ∘ S)).
      * unfold compose. rewrite Hg. done.
      * intros i part. unfold compose. rewrite Hg. done.
    + rewrite (IH g) by done. unfold escaped_char. by rewrite <- app_assoc.
Qed.

Lemma escape_text_flat_map (text : pystr) :
  escape_text text = flat_map escaped_char text.
Proof. unfold escape_text. by rewrite pattern_split_concat. Qed.

Lemma utf8_encode_app (a b : pystr) :
  utf8_encode (a ++ b) =
  match utf8_encode a, utf8_encode b with
  | Some x, Some y => Some (x ++ y)
  | _, _ => None
  end.
Proof.
  induction a as [|c a IH]; simpl.
  - by destruct (utf8_encode b).
  - rewrite IH. destruct (utf8_encode_char c), (utf8_encode a), (utf8_encode b); try done.
    by rewrite app_assoc.
Qed.

Lemma byte_of_inj_small (c : N) (b : N) :
  (c < 256)%N -> (b < 256)%N -> byte_of c = byte_of b -> c = b.
Proof.
  intros Hc Hb H. apply (f_equal Byte.to_N) in H. by rewrite !to_N_byte_of in H.
Qed.

Lemma utf8_encode_char_bytes (c : N) (b : bytes) :
  utf8_encode_char c = Some b ->
  (c < 128)%N /\ b = [byte_of c]
  \/ (128 <= c)%N /\ Forall (fun x => (128 <= Byte.to_N x)%N) b.
Proof.
  unfold utf8_encode_char. utf8_arith c.
  destruct (N.ltb_spec c 128); [intros [= <-]; by left|].
  destruct (N.ltb_spec c 2048).
  { intros [= <-]. right. split; [done|].
    repeat constructor; rewrite to_N_byte_of; lia. }
  destruct (N.ltb_spec c 65536).
  { destruct (_ && _); [done|]. intros [= <-]. right. split; [done|].
    repeat constructor; rewrite to_N_byte_of; lia. }
  destruct (N.ltb_spec c 1114112); [|done].
  intros [= <-]. right. split; [done|].
  repeat constructor; rewrite to_N_byte_of; lia.
Qed.

Lemma escaped_byte_high (b : bytes) :
  Forall (fun x => (128 <= Byte.to_N x)%N) b -> flat_map escaped_byte b = b.
Proof.
  induction 1 as [|x b Hx Hb IH]; [done|]. cbn [flat_map]. rewrite IH.
  unfold escaped_byte. rewrite bool_decide_eq_false_2; [done|].
  intros [->| ->]; vm_compute in Hx; by destruct Hx.
Qed.

Lemma flat_map_app' {A B : Type} (f : A -> list B) (l k : list A) :
  flat_map f (l ++ k) = flat_map f l ++ flat_map f k.
Proof. induction l as [|x l IH]; simpl; [done|]. by rewrite IH, app_assoc. Qed.

(** Escaping a text and encoding it is encoding it and escaping the bytes. *)
Lemma utf8_encode_escaped (text : pystr) (data : bytes) :
  utf8_encode (flat_map escaped_char text) = Some data ->
  exists raw, utf8_encode text = Some raw /\ data = flat_map escaped_byte raw.
Proof.
  revert data. induction text as [|c text IH]; intros data.
  - intros [= <-]. by exists [].
  - cbn [flat_map]. rewrite utf8_encode_app.
    destruct (utf8_encode (escaped_char c)) as [x|] eqn:Ec; [|done].
    destruct (utf8_encode (flat_map escaped_char text)) as [y|]; [|done].
    intros [= <-]. destruct (IH y eq_refl) as (raw & Hraw & ->).
    cbn [utf8_encode]. rewrite Hraw. unfold escaped_char in Ec.
    case_bool_decide as Hc.
    + assert (c = 92%N \/ c = 93%N) as Hc'.
      { unfold chars_to_escape in Hc. rewrite !elem_of_cons in Hc.
        destruct Hc as [?|[?|Hc]]; auto. by apply elem_of_nil in Hc. }
      destruct Hc' as [-> | ->]; injection Ec as <-; eexists; (split; [reflexivity|]);
        done.
    + simpl in Ec. destruct (utf8_encode_char c) as [b|] eqn:Eb; [|done].
      injection Ec as <-. rewrite app_nil_r. eexists. split; [reflexivity|].
      rewrite flat_map_app'. f_equal.
      apply utf8_encode_char_bytes in Eb as [[Hlt ->]|[_ Hhigh]];
        [|by rewrite escaped_byte_high].
      simpl. unfold escaped_byte. rewrite bool_decide_eq_false_2; [done|].
      intros [H|H]; apply Hc; unfold chars_to_escape.
      * change x5c with (byte_of 92) in H. apply byte_of_inj_small in H; [|lia|done].
        subst. left.
      * change x5d with (byte_of 93) in H. apply byte_of_inj_small in H; [|lia|done].
        subst. right. left.
Qed.

Lemma ascii_encode_spec (text : pystr) (data : bytes) :
  ascii_encode text = Some data <->
  is_ascii_str text = true /\ data = map byte_of text.
Proof.
  revert data. induction text as [|c text IH]; intros data; simpl.
  - split; [by intros [= <-]|by intros [_ ->]].
  - destruct (c <? 128)%N; simpl; [|split; [done|by intros [? _]]].
    destruct (ascii_encode text) as [bs|]; simpl.
    + destruct (IH bs) as [IH1 _]. destruct (IH1 eq_refl) as [-> ->].
      split; [by intros [= <-]|by intros [_ ->]].
    + split; [done|]. intros [Ha ->]. destruct (IH (map byte_of text)) as [_ IH2].
      by specialize (IH2 (conj Ha eq_refl)).
Qed.

Lemma utf8_encode_ascii (text : pystr) :
  is_ascii_str text = true -> utf8_encode text = Some (map byte_of text).
Proof.
  induction text as [|c text IH]; simpl; [done|].
  rewrite andb_true_iff. intros [Hc Ht]. rewrite (IH Ht).
  unfold utf8_encode_char. by rewrite Hc.
Qed.

Lemma to_N_byte_of_ascii (text : pystr) :
  is_ascii_str text = true -> map Byte.to_N (map byte_of text) = text.
Proof.
  induction text as [|c text IH]; simpl; [done|].
  rewrite andb_true_iff. intros [Hc%N.ltb_lt Ht]. rewrite (IH Ht), to_N_byte_of; [done|lia].
Qed.

Lemma is_ascii_bytes_of (text : pystr) :
  is_ascii_str text = true -> is_ascii_bytes (map byte_of text) = true.
Proof.
  induction text as [|c text IH]; simpl; [done|].
  rewrite andb_true_iff. intros [Hc Ht]. rewrite (IH Ht), andb_true_r.
  apply N.ltb_lt in Hc. rewrite to_N_byte_of; [by apply N.ltb_lt|lia].
Qed.

Lemma is_ascii_escaped (text : pystr) :
  is_ascii_str (flat_map escaped_char text) = is_ascii_str text.
Proof.
  induction text as [|c text IH]; [done|]. cbn [flat_map].
  rewrite is_ascii_str_app, IH. simpl. f_equal.
  unfold escaped_char. case_bool_decide; simpl; by rewrite ?andb_true_r.
Qed.

Section Encoding.
Context {rt : PyRuntime}.

(** What [Node.__bytes__] writes for a value is the escaped form of bytes
    that decode to the value in the encoding that the parser uses for it. *)
Lemma encode_escaped_decodes (text_property declared : bool) (text : pystr) (data : bytes) :
  encode text_property (escape_text text) = Ok data ->
  (text_property = false \/ declared = true \/ is_ascii_str text = true) ->
  exists raw,
    data = flat_map escaped_byte raw
    /\ codec_decode (if text_property then encoding_of declared else NAME_ENCODING) raw
       = Some text.
Proof.
  unfold encode. rewrite escape_text_flat_map. intros Henc Hok.
  destruct text_property.
  - destruct (utf8_encode _) as [d|] eqn:E; [|done]. injection Henc as <-.
    apply utf8_encode_escaped in E as (raw & Hraw & ->).
    exists raw. split; [done|]. destruct declared; simpl.
    + by apply decode_utf8.
    + destruct Hok as [?|[?|Ha]]; try done.
      rewrite (utf8_encode_ascii _ Ha) in Hraw. injection Hraw as <-.
      by rewrite decode_latin1, to_N_byte_of_ascii.
  - destruct (ascii_encode _) as [d|] eqn:E; [|done]. injection Henc as <-.
    apply ascii_encode_spec in E as [Ha ->]. rewrite is_ascii_escaped in Ha.
    pose proof (utf8_encode_ascii (flat_map escaped_char text)) as Hu.
    rewrite is_ascii_escaped in Hu. specialize (Hu Ha).
    apply utf8_encode_escaped in Hu as (raw & Hraw & Hd).
    rewrite (utf8_encode_ascii _ Ha) in Hraw. injection Hraw as <-.
    exists (map byte_of text). split; [done|].
    unfold NAME_ENCODING. by rewrite decode_ascii, is_ascii_bytes_of, to_N_byte_of_ascii.
Qed.

End Encoding.

(** ** Reading back a value *)

Lemma search_first (b : byte) (before after : bytes) :
  b ∉ before -> search b (before ++ b :: after) = Some (length before).
Proof.
  induction before as [|x before IH]; intros Hnot; simpl.
  - by rewrite bool_decide_eq_true_2.
  - apply not_elem_of_cons in Hnot as [Hne Hnot].
    rewrite bool_decide_eq_false_2 by congruence. by rewrite IH.
Qed.

Lemma search_after (b x : byte) (before after : bytes) :
  b ∉ before -> b <> x ->
  search b (before ++ x :: after) = (fun n => length before + 1 + n)%nat <$> search b after.
Proof.
  intros Hnot Hne. induction before as [|y before IH]; simpl.
  - rewrite bool_decide_eq_false_2 by congruence. by destruct (search b after).
  - apply not_elem_of_cons in Hnot as [Hne' Hnot].
    rewrite bool_decide_eq_false_2 by congruence. rewrite IH by done.
    by destruct (search b after).
Qed.

Lemma search_elem (b : byte) (data : bytes) : b ∈ data -> is_Some (search b data).
Proof.
  intros Hin. destruct (search b data) eqn:E; [done|]. by apply search_None in E.
Qed.

(** A byte string starts with bytes that need no escape, up to its first
    backslash or closing bracket. *)
Lemma split_escapable (raw : bytes) :
((x5c ∉ raw) /\ (x5d ∉ raw))
  \/ exists before c after,
       raw = before ++ c :: after
       /\ ((x5c ∉ before) /\ ((x5d ∉ before) /\ (c = x5c \/ c = x5d))).
Proof.
  induction raw as [|b raw IH].
  - left. split; apply not_elem_of_nil.
  - destruct (decide (b = x5c \/ b = x5d)) as [Hb|Hb].
    + right. exists [], b, raw. repeat split; try done; apply not_elem_of_nil.
    + destruct IH as [[H1 H2]|(before & c & after & -> & H1 & H2 & Hc)].
      * left. rewrite !not_elem_of_cons.
        repeat split; try done; intros E; apply Hb; auto.
      * right. exists (b :: before), c, after. rewrite !not_elem_of_cons.
        repeat split; try done; intros E; apply Hb; auto.
Qed.

Lemma escaped_plain (raw : bytes) :
  x5c ∉ raw -> x5d ∉ raw -> flat_map escaped_byte raw = raw.
Proof.
  induction raw as [|b raw IH]; [done|]. rewrite !not_elem_of_cons.
  intros [? ?] [? ?]. cbn [flat_map]. rewrite IH by done.
  unfold escaped_byte. rewrite bool_decide_eq_false_2; [done|]. intros [?|?]; congruence.
Qed.

Section ReadValue.
Context {rt : PyRuntime}.

Lemma scan_value_escaped (fuel : nat) (raw value_parts r : bytes) :
  (length (flat_map escaped_byte raw ++ x5d :: r) < fuel)%nat ->
  scan_value fuel (flat_map escaped_byte raw ++ x5d :: r) value_parts
  = Ok (value_parts ++ raw, r).
Proof.
  revert raw value_parts.
  induction fuel as [|fuel IH]; intros raw value_parts Hfuel; [lia|].
  cbn [scan_value].
  destruct (split_escapable raw) as [[H1 H2]|(before & c & after & -> & H1 & H2 & Hc)].
  - rewrite escaped_plain by done. rewrite (search_first x5d) by done.
    rewrite (search_after x5c x5d) by done.
    assert (take (length raw) (raw ++ x5d :: r) = raw) as Htake
      by (by rewrite take_app_length).
    assert (drop (S (length raw)) (raw ++ x5d :: r) = r) as Hdrop by apply drop_past.
    destruct (search x5c r) as [n|]; simpl; [|by rewrite Htake, Hdrop].
    destruct (Nat.ltb_spec (S (length raw + 1 + n)) (S (length raw))); [lia|].
    by rewrite Htake, Hdrop.
  - rewrite flat_map_app'. cbn [flat_map]. rewrite (escaped_plain before) by done.
    assert (escaped_byte c = [x5c; c]) as ->.
    { unfold escaped_byte. by rewrite bool_decide_eq_true_2. }
    rewrite <- !app_assoc. cbn [app].
    set (tail := c :: flat_map escaped_byte after ++ x5d :: r).
    rewrite (search_first x5c) by done.
    rewrite (search_after x5d x5c) by done.
    destruct (search_elem x5d tail) as [n ->].
    { unfold tail. right. rewrite elem_of_app. right. left. }
    simpl. destruct (Nat.ltb_spec (S (length before)) (S (length before + 1 + n))); [|lia].
    rewrite take_app_length, drop_past.
    assert (line_break tail = None) as ->.
    { unfold tail, line_break. destruct Hc as [-> | ->]; done. }
    unfold tail. cbn [drop take]. rewrite drop_0, take_0.
    rewrite IH.
    + by rewrite <- !app_assoc.
    + rewrite flat_map_app' in Hfuel. cbn [flat_map] in Hfuel.
      rewrite !length_app in Hfuel. simpl in Hfuel. rewrite !length_app in *.
      simpl in *.
      assert (length (escaped_byte c) = 2%nat)
        by (unfold escaped_byte; by rewrite bool_decide_eq_true_2).
      lia.
Qed.

Lemma property_values_escaped (fuel : nat) (raws : list bytes) (pvlist : list bytes)
    (r : bytes) :
  (length (values_bytes raws ++ r) < fuel)%nat ->
  property_start r = None ->
  property_values fuel (values_bytes raws ++ r) pvlist = Ok (pvlist ++ raws, r).
Proof.
  revert pvlist fuel. induction raws as [|raw raws IH]; intros pvlist fuel Hfuel Hr.
  - destruct fuel as [|fuel]; [lia|]. cbn [property_values values_bytes map concat app].
    rewrite app_nil_r. case_bool_decide; [done|]. by rewrite Hr.
  - destruct fuel as [|fuel]; [lia|]. cbn [property_values].
    unfold values_bytes in *. cbn [map concat] in *.
    rewrite <- !app_assoc in *. cbn [app] in *. rewrite <- !app_assoc in *. cbn [app] in *.
    rewrite bool_decide_eq_false_2 by done.
    unfold property_start at 1, after_space. rewrite skip_space_not_space by done.
    rewrite bool_decide_eq_true_2 by done.
    rewrite scan_value_escaped by lia. cbn [mbind result_bind app].
    rewrite IH; [by rewrite <- app_assoc| |done].
    simpl in Hfuel. rewrite !length_app in Hfuel. rewrite !length_app. simpl in Hfuel. rewrite ?length_app in Hfuel. lia.
Qed.

End ReadValue.

(** ** Reading back a node *)

Lemma ends_node_not_empty (r : bytes) : ends_node r -> r <> [].
Proof. by intros (x & r' & -> & _). Qed.

Lemma ends_node_contents (r : bytes) : ends_node r -> node_contents r = None.
Proof. intros (x & r' & -> & [-> | [-> | ->]]); reflexivity. Qed.

Lemma ends_node_start (r : bytes) : ends_node r -> property_start r = None.
Proof. intros (x & r' & -> & [-> | [-> | ->]]); reflexivity. Qed.

Lemma ends_node_after_node (r : bytes) : ends_node r -> after_node r.
Proof.
  intros Hr. split; [by apply ends_node_not_empty|].
  split; [by apply ends_node_contents|by apply ends_node_start].
Qed.

Lemma is_letter_not_space (b : byte) : is_letter b = true -> is_space b = false.
Proof. by destruct b. Qed.

Lemma is_letter_not_bracket (b : byte) : is_letter b = true -> b <> x5b.
Proof. by destruct b. Qed.

Lemma span_letters_name (name r : bytes) :
  forallb is_letter name = true ->
  span_letters (name ++ x5b :: r) = (name, x5b :: r).
Proof.
  induction name as [|b name IH]; [done|]. cbn [forallb app span_letters].
  rewrite andb_true_iff. intros [-> Hname]. by rewrite IH.
Qed.

Lemma node_contents_name (name r : bytes) :
  name <> [] -> forallb is_letter name = true ->
  node_contents (name ++ x5b :: r) = Some (name, x5b :: r).
Proof.
  intros Hne Hname. unfold node_contents.
  destruct name as [|b name]; [done|].
  assert (is_letter b = true) as Hb by (cbn in Hname; by apply andb_true_iff in Hname as [? _]).
  change ((b :: name) ++ x5b :: r) with (b :: (name ++ x5b :: r)).
  rewrite skip_space_not_space by by apply is_letter_not_space.
  change (b :: (name ++ x5b :: r)) with ((b :: name) ++ x5b :: r).
  rewrite span_letters_name by done. reflexivity.
Qed.

Lemma property_start_name (name r : bytes) :
  name <> [] -> forallb is_letter name = true -> property_start (name ++ r) = None.
Proof.
  intros Hne Hname. destruct name as [|b name]; [done|].
  assert (is_letter b = true) as Hb by (cbn in Hname; by apply andb_true_iff in Hname as [? _]).
  unfold property_start, after_space. cbn [app].
  rewrite skip_space_not_space by by apply is_letter_not_space.
  rewrite bool_decide_eq_false_2; [done|]. by apply is_letter_not_bracket.
Qed.

Lemma is_letter_byte_of (k : pystr) :
  forallb is_letter_code k = true ->
  is_ascii_str k = true /\ forallb is_letter (map byte_of k) = true.
Proof.
  induction k as [|c k IH]; [done|]. cbn [forallb map].
  rewrite andb_true_iff. intros [Hc Hk]. destruct (IH Hk) as [Hascii Hletters].
  assert (c < 128)%N as Hlt.
  { unfold is_letter_code in Hc.
    rewrite orb_true_iff, !andb_true_iff, !N.leb_le in Hc. lia. }
  split.
  - change (c :: k) with ([c] ++ k). rewrite is_ascii_str_app, Hascii, andb_true_r.
    unfold is_ascii_str. cbn [forallb]. rewrite andb_true_r. by apply N.ltb_lt.
  - rewrite Hletters, andb_true_r. unfold is_letter.
    rewrite to_N_byte_of by lia. exact Hc.
Qed.

Lemma values_bytes_join (raws : list bytes) :
  raws <> [] ->
  pyb "[" ++ join (pyb "][") (map (flat_map escaped_byte) raws) ++ pyb "]"
  = values_bytes raws.
Proof.
  intros Hne. destruct raws as [|raw raws]; [done|]. clear Hne.
  revert raw. induction raws as [|raw' raws IH]; intros raw.
  - unfold values_bytes. cbn. by rewrite app_nil_r.
  - change (values_bytes (raw :: raw' :: raws))
      with ((x5b :: flat_map escaped_byte raw ++ [x5d]) ++ values_bytes (raw' :: raws)).
    rewrite <- IH. cbn [map join]. cbn [pyb]. cbn.
    by rewrite <- !app_assoc.
Qed.

Section ReadNode.
Context {rt : PyRuntime}.

Lemma encode_items_decodes (text_property declared : bool) (items : list pystr)
    (l : list bytes) :
  encode_items text_property items = Ok l ->
  (text_property = false \/ declared = true \/ forallb is_ascii_str items = true) ->
  exists raws,
    l = map (flat_map escaped_byte) raws
    /\ length raws = length items
    /\ decode_all (if text_property then encoding_of declared else NAME_ENCODING) raws
       = Ok items.
Proof.
  revert l. induction items as [|item items IH]; intros l Henc Hok.
  - injection Henc as <-. by exists [].
  - cbn [encode_items] in Henc.
    destruct (encode text_property (escape_text item)) as [data|] eqn:E; [|done].
    destruct (encode_items text_property items) as [l'|] eqn:E'; [|done].
    injection Henc as <-.
    apply (encode_escaped_decodes _ declared) in E as (raw & -> & Hraw).
    2: { cbn [forallb] in Hok. rewrite andb_true_iff in Hok. tauto. }
    destruct (IH l' eq_refl) as (raws & -> & Hlen & Hraws).
    { cbn [forallb] in Hok. rewrite andb_true_iff in Hok. tauto. }
    exists (raw :: raws). repeat split; [by cbn; rewrite Hlen|].
    cbn [decode_all]. by rewrite Hraw, Hraws.
Qed.

(** What [Node.__bytes__] writes for a property: its name, and its values
    in brackets, which decode to the strings that the property holds. *)
Lemma property_bytes_decodes (declared : bool) (k : pystr) (v : value) (data : bytes) :
  property_bytes (k, v) = Ok data ->
  parsed_item (k, v) = true ->
  negb (str_in k text_properties) || declared || forallb is_ascii_str (strings_of v)
  = true ->
  exists raws,
    data = map byte_of k ++ values_bytes raws
    /\ raws <> []
    /\ decode_all (if str_in k text_properties then encoding_of declared
                   else NAME_ENCODING) raws
       = Ok (strings_of v).
Proof.
  intros Hbytes Hitem Hread.
  apply parsed_item_spec in Hitem as (Hk & Hletters & Hshape & _ & _).
  assert (str_in k text_properties = false \/ declared = true
          \/ forallb is_ascii_str (strings_of v) = true) as Hok.
  { rewrite !orb_true_iff, negb_true_iff in Hread. tauto. }
  unfold property_bytes in Hbytes.
  destruct (encode false k) as [name|] eqn:Ename; [|done].
  unfold encode in Ename. destruct (ascii_encode k) as [name'|] eqn:Eascii; [|done].
  injection Ename as <-. apply ascii_encode_spec in Eascii as [_ ->].
  cbn [mbind result_bind] in Hbytes.
  destruct v as [text|items].
  - rewrite Hshape in Hbytes.
    destruct (encode _ (escape_text text)) as [vb|] eqn:E; [|done].
    injection Hbytes as <-.
    apply (encode_escaped_decodes _ declared) in E as (raw & -> & Hraw).
    2: { cbn [strings_of forallb] in Hok. rewrite andb_true_r in Hok. exact Hok. }
    exists [raw]. repeat split; [|done|].
    + rewrite <- (values_bytes_join [raw]) by done. reflexivity.
    + cbn [decode_all strings_of]. by rewrite Hraw.
  - destruct Hshape as [Hlist Hne]. rewrite Hlist in Hbytes.
    cbn [elements_of] in Hbytes.
    destruct (encode_items _ items) as [l|] eqn:E; [|done].
    injection Hbytes as <-.
    apply (encode_items_decodes _ declared) in E as (raws & -> & Hlen & Hraws);
      [|exact Hok].
    assert (raws <> []) as Hraws_ne.
    { intros ->. destruct items; [done|discriminate Hlen]. }
    exists raws. repeat split; [|done|exact Hraws].
    by rewrite <- values_bytes_join.
Qed.

Lemma properties_bytes_start (items : Node) (data r : bytes) :
  properties_bytes items = Ok data ->
  forallb parsed_item items = true ->
  property_start r = None ->
  property_start (data ++ r) = None.
Proof.
  intros Hbytes Hitems Hr. destruct items as [|[k v] items].
  - by injection Hbytes as <-.
  - cbn [properties_bytes forallb] in *. apply andb_true_iff in Hitems as [Hitem _].
    apply parsed_item_spec in Hitem as (Hk & Hletters & _).
    destruct (property_bytes (k, v)) as [d|] eqn:E; [|done].
    destruct (properties_bytes items) as [d'|]; [|done]. injection Hbytes as <-.
    unfold property_bytes in E.
    destruct (encode false k) as [name|] eqn:Ename; [|done].
    unfold encode in Ename. destruct (ascii_encode k) as [name'|] eqn:Eascii; [|done].
    injection Ename as <-. apply ascii_encode_spec in Eascii as [_ ->].
    cbn [mbind result_bind] in E.
    match type of E with
    | mbind _ ?m = _ => destruct m as [vb|]; [|done]
    end.
    injection E as <-. rewrite <- !app_assoc.
    apply property_start_name.
    + by destruct k.
    + by apply is_letter_byte_of.
Qed.

End ReadNode.

Section ReadNodeLoop.
Context {rt : PyRuntime}.

Lemma parse_node_loop_serialized (items : Node) :
  forall (acc : Node) (p : Parser) (declared declared' : bool) (data r : bytes)
         (fuel : nat),
  properties_bytes items = Ok data ->
  forallb parsed_item items = true ->
  NoDup (keys acc ++ keys items) ->
  reads_back declared items = Some declared' ->
  after_node r ->
  rest p = data ++ r ->
  encoding p = encoding_of declared ->
  (length (rest p) < fuel)%nat ->
  parse_node_loop fuel acc p = Ok (acc ++ items, mkParser r (encoding_of declared')).
Proof.
  induction items as [|[k v] items IH];
    intros acc p declared declared' data r fuel Hbytes Hitems Hdup Hread Hr Hrest Henc
           Hfuel.
  - injection Hbytes as <-. injection Hread as <-. cbn [app] in Hrest.
    destruct fuel as [|fuel]; [lia|]. cbn [parse_node_loop].
    rewrite Hrest. rewrite bool_decide_eq_false_2 by apply Hr.
    rewrite (proj1 (proj2 Hr)). rewrite app_nil_r.
    destruct p as [rest0 enc0]. cbn in Hrest, Henc. by subst.
  - cbn [properties_bytes] in Hbytes.
    destruct (property_bytes (k, v)) as [pd|] eqn:Epd; [|done].
    destruct (properties_bytes items) as [data'|] eqn:Edata; [|done].
    injection Hbytes as <-.
    cbn [forallb] in Hitems. apply andb_true_iff in Hitems as [Hitem Hitems].
    cbn [reads_back] in Hread.
    destruct (negb (str_in k text_properties) || declared
              || forallb is_ascii_str (strings_of v)) eqn:Hreadable; [|done].
    destruct (property_bytes_decodes declared k v pd Epd Hitem Hreadable)
      as (raws & -> & Hraws_ne & Hdecode).
    pose proof (proj1 (parsed_item_spec k v) Hitem) as (Hk & Hletters & Hshape & Hca & _).
    destruct (is_letter_byte_of k Hletters) as [Hascii Hname].
    assert (exists t, values_bytes raws = x5b :: t) as [t Ht].
    { destruct raws as [|raw raws]; [done|]. unfold values_bytes. cbn. eauto. }
    rewrite <- !app_assoc in Hrest. rewrite Ht in Hrest. cbn [app] in Hrest.
    destruct fuel as [|fuel]; [lia|]. cbn [parse_node_loop].
    rewrite Hrest.
    rewrite bool_decide_eq_false_2 by (by destruct k).
    rewrite node_contents_name; [|by destruct k|done].
    unfold NAME_ENCODING at 1. rewrite decode_ascii, is_ascii_bytes_of by done.
    rewrite to_N_byte_of_ascii by done.
    (* the values *)
    unfold parse_property_value. cbn [set_rest rest].
    change (x5b :: t ++ data' ++ r) with ((x5b :: t) ++ data' ++ r). rewrite <- Ht.
    rewrite property_values_escaped;
      [|lia|by apply (properties_bytes_start items); [| |apply Hr]].
    cbn [mbind result_bind app].
    assert ((1 <=? length raws)%nat = true) as ->.
    { apply Nat.leb_le. destruct raws; [done|simpl; lia]. }
    cbn [mbind result_bind set_rest encoding rest]. rewrite Henc, Hdecode. cbn [mbind result_bind].
    assert ((if str_in k list_properties then Ok (VList (strings_of v))
             else match strings_of v with
                  | [text] => Ok (VStr text)
                  | _ => Err NodePropertyParseError
                  end) = Ok v) as ->.
    { destruct v as [text|l]; [by rewrite Hshape|]. by destruct Hshape as [-> _]. }
    cbn [mbind result_bind].
    assert (k ∉ keys acc) as Hnew.
    { apply NoDup_app in Hdup as (_ & Hdisj & _). intros Hin.
      apply (Hdisj k Hin). cbn. constructor. }
    rewrite (proj2 (dict_get_None k acc) Hnew). cbn [mbind result_bind].
    rewrite (dict_set_new k v acc Hnew).
    assert (NoDup (keys (acc ++ [(k, v)]) ++ keys items)) as Hdup'.
    { unfold keys in *. rewrite map_app. cbn [map fst]. by rewrite <- app_assoc. }
    assert (length (data' ++ r) < fuel)%nat as Hfuel'.
    { rewrite Hrest in Hfuel. rewrite length_app in Hfuel. simpl in Hfuel.
      rewrite !length_app in *. lia. }
    replace (acc ++ (k, v) :: items) with ((acc ++ [(k, v)]) ++ items)
      by (by rewrite <- app_assoc).
    destruct (str_eqb k (py "CA")) eqn:Eca.
    + apply str_eqb_true in Eca. specialize (Hca Eca). subst k v.
      cbn [strings_of]. rewrite dict_set_same by by apply dict_get_app_new.
      rewrite orb_true_r in Hread.
      by apply (IH _ _ true declared' data' r).
    + rewrite orb_false_r in Hread.
      by apply (IH _ _ declared declared' data' r).
Qed.

(** Parsing the bytes of a node gives the node back. *)
Lemma parse_node_serialized (n : Node) (p : Parser) (declared declared' : bool)
    (data r : bytes) :
  properties_bytes n = Ok data ->
  parsed_node n = true ->
  reads_back declared n = Some declared' ->
  after_node r ->
  rest p = data ++ r ->
  encoding p = encoding_of declared ->
  parse_node p = Ok (n, mkParser r (encoding_of declared')).
Proof.
  intros Hbytes Hnode Hread Hr Hrest Henc. unfold parsed_node in Hnode.
  apply andb_true_iff in Hnode as [Hdup Hitems]. apply bool_decide_eq_true in Hdup.
  unfold parse_node.
  by rewrite (parse_node_loop_serialized n [] p declared declared' data r) by (done || lia).
Qed.

End ReadNodeLoop.

(** ** Reading back a tree *)

Lemma lines_app (a b : list bytes) : lines (a ++ b) = lines a ++ lines b.
Proof. unfold lines. by rewrite map_app, concat_app. Qed.

Lemma join_lines (first last : bytes) (parts : list bytes) :
  join LF (first :: parts ++ [last]) = first ++ lines parts ++ x0a :: last.
Proof.
  revert first. induction parts as [|part parts IH]; intros first.
  - reflexivity.
  - change (join LF (first :: (part :: parts) ++ [last]))
      with (first ++ LF ++ join LF (part :: parts ++ [last])).
    rewrite IH. unfold lines. cbn. by rewrite <- !app_assoc.
Qed.

Lemma reads_back_tree_eq (ns : list Node) (bs : list GameTree) (declared : bool) :
  reads_back_tree (Tree ns bs) declared
  = match reads_back_nodes declared ns with
    | Some declared' => reads_back_trees bs declared'
    | None => None
    end.
Proof.
  cbn [reads_back_tree]. destruct (reads_back_nodes declared ns) as [d|]; [|done].
  revert d. induction bs as [|b bs IH]; intros d; [done|].
  cbn [reads_back_trees]. destruct (reads_back_tree b d); [apply IH|done].
Qed.

Lemma GameTree_bytes_eq (ns : list Node) (bs : list GameTree) :
  GameTree_bytes (Tree ns bs)
  = (items ← nodes_bytes ns;
     subtrees ← trees_bytes bs;
     Ok (join LF ([pyb "("] ++ items ++ subtrees ++ [pyb ")"]))).
Proof.
  cbn [GameTree_bytes]. destruct (nodes_bytes ns) as [items|]; [|done].
  cbn [mbind result_bind].
  assert ((fix each (l : list GameTree) : result (list bytes) :=
             match l with
             | [] => Ok []
             | branch :: l' =>
                 data ← GameTree_bytes branch;
                 rest ← each l';
                 Ok (data :: rest)
             end) bs = trees_bytes bs) as ->; [|done].
  induction bs as [|b bs IH]; [done|].
  cbn [trees_bytes]. by rewrite IH.
Qed.

Lemma tree_join (items subtrees : list bytes) :
  join LF ([pyb "("] ++ items ++ subtrees ++ [pyb ")"])
  = x28 :: lines items ++ lines subtrees ++ [x0a; x29].
Proof.
  change ([pyb "("] ++ items ++ subtrees ++ [pyb ")"])
    with (pyb "(" :: items ++ subtrees ++ [pyb ")"]).
  rewrite (app_assoc items), join_lines, lines_app. cbn. by rewrite <- app_assoc.
Qed.

(** The bytes of a tree: the parenthesis, each node and each branch on its
    line, and the closing parenthesis on its own. *)
Lemma GameTree_bytes_lines (ns : list Node) (bs : list GameTree) (data : bytes) :
  GameTree_bytes (Tree ns bs) = Ok data ->
  exists items subtrees,
    nodes_bytes ns = Ok items /\ trees_bytes bs = Ok subtrees
    /\ data = x28 :: lines items ++ lines subtrees ++ [x0a; x29].
Proof.
  rewrite GameTree_bytes_eq. intros H.
  destruct (nodes_bytes ns) as [items|]; [|done].
  destruct (trees_bytes bs) as [subtrees|]; [|done].
  cbn [mbind result_bind] in H. rewrite tree_join in H.
  injection H as <-. by exists items, subtrees.
Qed.

Lemma nodes_bytes_cons (n : Node) (ns : list Node) (items : list bytes) :
  nodes_bytes (n :: ns) = Ok items ->
  exists data items',
    properties_bytes n = Ok data /\ nodes_bytes ns = Ok items'
    /\ items = (x3b :: data) :: items'.
Proof.
  cbn [nodes_bytes]. unfold Node_bytes. intros H.
  destruct (properties_bytes n) as [data|]; [|done]. cbn [mbind result_bind] in H.
  destruct (nodes_bytes ns) as [items'|]; [|done]. injection H as <-.
  by exists data, items'.
Qed.

Lemma trees_bytes_cons (b : GameTree) (l : list GameTree) (subtrees : list bytes) :
  trees_bytes (b :: l) = Ok subtrees ->
  exists body subtrees',
    GameTree_bytes b = Ok (x28 :: body) /\ trees_bytes l = Ok subtrees'
    /\ subtrees = (x28 :: body) :: subtrees'.
Proof.
  cbn [trees_bytes]. intros H.
  destruct (GameTree_bytes b) as [data|] eqn:E; [|done]. cbn [mbind result_bind] in H.
  destruct (trees_bytes l) as [subtrees'|]; [|done]. injection H as <-.
  destruct b as [ns bs]. apply GameTree_bytes_lines in E as (? & ? & _ & _ & ->).
  eauto.
Qed.

Lemma ends_node_nodes (ns : list Node) (items : list bytes) (tail : bytes) :
  nodes_bytes ns = Ok items -> ends_node tail -> ends_node (lines items ++ tail).
Proof.
  intros Hitems Htail. destruct ns as [|n ns].
  - by injection Hitems as <-.
  - apply nodes_bytes_cons in Hitems as (data & items' & _ & _ & ->).
    unfold lines. cbn. eexists _, _. split; [reflexivity|]. by left.
Qed.

Lemma ends_node_trees (l : list GameTree) (subtrees : list bytes) (r : bytes) :
  trees_bytes l = Ok subtrees -> ends_node (lines subtrees ++ x0a :: x29 :: r).
Proof.
  intros Hl. destruct l as [|b l].
  - injection Hl as <-. cbn. eexists _, _. split; [reflexivity|]. auto.
  - apply trees_bytes_cons in Hl as (body & subtrees' & _ & _ & ->).
    unfold lines. cbn. eexists _, _. split; [reflexivity|]. auto.
Qed.

Section ReadTree.
Context {rt : PyRuntime}.

(** The loop of [parse_game_tree] reads the nodes of a serialized trunk,
    and goes on with what follows with enough fuel for it. *)
Lemma parse_game_tree_loop_nodes (ns : list Node) :
  forall (acc : list Node) (p : Parser) (declared declared' : bool)
         (items : list bytes) (tail : bytes) (fuel : nat),
  nodes_bytes ns = Ok items ->
  forallb parsed_node ns = true ->
  reads_back_nodes declared ns = Some declared' ->
  ends_node tail ->
  rest p = lines items ++ tail ->
  encoding p = encoding_of declared ->
  (2 * length (rest p) + 1 <= fuel)%nat ->
  exists fuel',
    (2 * length tail + 1 <= fuel')%nat
    /\ parse_game_tree_loop fuel (Tree acc []) p
       = parse_game_tree_loop fuel' (Tree (acc ++ ns) [])
           (mkParser tail (encoding_of declared')).
Proof.
  induction ns as [|n ns IH];
    intros acc p declared declared' items tail fuel Hitems Hns Hread Htail Hrest Henc
           Hfuel.
  - injection Hitems as <-. injection Hread as <-. cbn in Hrest.
    exists fuel. rewrite app_nil_r. destruct p as [rest0 enc0]. cbn in *. subst.
    split; [lia|done].
  - apply nodes_bytes_cons in Hitems as (data & items' & Hdata & Hitems' & ->).
    cbn [forallb] in Hns. apply andb_true_iff in Hns as [Hn Hns].
    cbn [reads_back_nodes] in Hread.
    destruct (reads_back declared n) as [declared1|] eqn:Hread1; [|done].
    change (lines ((x3b :: data) :: items')) with (x0a :: x3b :: data ++ lines items')
      in Hrest.
    cbn [app] in Hrest. rewrite <- app_assoc in Hrest.
    destruct fuel as [|fuel]; [lia|]. cbn [parse_game_tree_loop].
    rewrite Hrest. rewrite bool_decide_eq_false_2 by done.
    change (game_tree_next (x0a :: x3b :: data ++ lines items' ++ tail))
      with (Some (x3b, data ++ lines items' ++ tail)).
    cbn [branches nodes]. rewrite decide_nil_nil.
    rewrite bool_decide_eq_true_2 by done. cbn [negb].
    rewrite (parse_node_serialized n _ declared declared1 data (lines items' ++ tail));
      [|done|done|done|by apply ends_node_after_node, (ends_node_nodes ns)|done|done].
    cbn [mbind result_bind].
    destruct (IH (acc ++ [n]) (mkParser (lines items' ++ tail) (encoding_of declared1))
                declared1 declared' items' tail fuel) as (fuel' & Hfuel' & ->);
      try done.
    { cbn [rest]. rewrite Hrest in Hfuel. cbn [length app] in Hfuel.
      rewrite length_app in Hfuel. lia. }
    exists fuel'. split; [done|]. by rewrite <- app_assoc.
Qed.

Lemma parse_game_tree_loop_end (fuel : nat) (g : GameTree) (r : bytes) (enc : pystr) :
  parse_game_tree_loop (S fuel) g (mkParser (x0a :: x29 :: r) enc)
  = Ok (g, mkParser r enc).
Proof.
  cbn [parse_game_tree_loop rest]. rewrite bool_decide_eq_false_2 by done.
  change (game_tree_next (x0a :: x29 :: r)) with (Some (x29, r)). cbv beta iota.
  rewrite (bool_decide_eq_false_2 (x29 = x3b)) by done.
  by rewrite (bool_decide_eq_false_2 (x29 = x28)) by done.
Qed.

(** Reading back a tree from what follows its opening parenthesis. *)
Definition reads_tree (g : GameTree) : Prop :=
  forall (p : Parser) (declared declared' : bool) (body r : bytes) (fuel : nat),
  GameTree_bytes g = Ok (x28 :: body) ->
  parsed_tree g = true ->
  reads_back_tree g declared = Some declared' ->
  rest p = body ++ r ->
  encoding p = encoding_of declared ->
  (2 * length (rest p) + 1 <= fuel)%nat ->
  parse_game_tree_loop fuel (Tree [] []) p
  = Ok (g, mkParser r (encoding_of declared')).

Lemma branch_body (b : GameTree) (body : bytes) :
  GameTree_bytes b = Ok (x28 :: body) -> nodes b <> [] ->
  exists body', body = x0a :: x3b :: body'.
Proof.
  destruct b as [[|n ns] bs]; [done|]. intros Hb _.
  apply GameTree_bytes_lines in Hb as (items & subtrees & Hitems & _ & [= ->]).
  apply nodes_bytes_cons in Hitems as (data & items' & _ & _ & ->).
  unfold lines. cbn. eauto.
Qed.

Lemma parse_branches_loop_serialized (l : list GameTree) :
  Forall reads_tree l ->
  forall (b : GameTree) (v : list GameTree) (p : Parser) (declared declared' : bool)
         (body : bytes) (subtrees : list bytes) (r : bytes) (fuel : nat),
  reads_tree b ->
  GameTree_bytes b = Ok (x28 :: body) ->
  trees_bytes l = Ok subtrees ->
  parsed_trees (b :: l) = true ->
  reads_back_trees (b :: l) declared = Some declared' ->
  rest p = body ++ lines subtrees ++ x0a :: x29 :: r ->
  encoding p = encoding_of declared ->
  (2 * length (rest p) + 2 <= fuel)%nat ->
  parse_branches_loop fuel v p
  = Ok (v ++ b :: l, mkParser (x0a :: x29 :: r) (encoding_of declared')).
Proof.
  induction l as [|b2 l IH];
    intros Hl b v p declared declared' body subtrees r fuel Hb Hbody Hsub Hparsed Hread
           Hrest Henc Hfuel.
  all: cbn [parsed_trees forallb] in Hparsed;
    apply andb_true_iff in Hparsed as [Hpb Hparsed];
    apply andb_true_iff in Hpb as [Hnodes Hpb];
    apply negb_true_iff, bool_decide_eq_false in Hnodes;
    cbn [reads_back_trees] in Hread;
    destruct (reads_back_tree b declared) as [declared1|] eqn:Hread1; [|done];
    destruct (branch_body b body Hbody Hnodes) as [body' Hbody'];
    (destruct fuel as [|fuel]; [lia|]); cbn [parse_branches_loop];
    rewrite bool_decide_eq_false_2 by (rewrite Hrest, Hbody'; done);
    assert (game_tree_end (rest p) = None) as -> by (by rewrite Hrest, Hbody');
    rewrite (Hb p declared declared1 body _ fuel Hbody Hpb Hread1 Hrest Henc)
      by lia;
    cbn [mbind result_bind];
    rewrite (bool_decide_eq_false_2 _ Hnodes); cbn [negb rest].
  - injection Hsub as <-. injection Hread as <-. cbn [lines map concat app].
    change (game_tree_start (x0a :: x29 :: r)) with (@None bytes).
    assert (2 <= fuel)%nat as Hf.
    { rewrite Hrest, Hbody' in Hfuel. cbn [length app] in Hfuel. lia. }
    destruct fuel as [|fuel]; [lia|]. cbn [parse_branches_loop rest].
    rewrite bool_decide_eq_false_2 by done.
    change (game_tree_end (x0a :: x29 :: r)) with (Some r). done.
  - apply trees_bytes_cons in Hsub as (body2 & subtrees' & Hbody2 & Hsub' & ->).
    apply Forall_cons in Hl as [Hb2 Hl].
    change (lines ((x28 :: body2) :: subtrees'))
      with (x0a :: x28 :: body2 ++ lines subtrees').
    change (game_tree_start ((x0a :: x28 :: body2 ++ lines subtrees') ++ x0a :: x29 :: r))
      with (Some ((body2 ++ lines subtrees') ++ x0a :: x29 :: r)).
    rewrite (IH Hl b2 (v ++ [b]) _ declared1 declared' body2 subtrees' r fuel);
      try done.
    + by rewrite <- app_assoc.
    + cbn [set_rest rest]. by rewrite <- app_assoc.
    + cbn [set_rest rest]. rewrite Hrest in Hfuel.
      change (lines ((x28 :: body2) :: subtrees'))
        with (x0a :: x28 :: body2 ++ lines subtrees') in Hfuel.
      rewrite !length_app in *. cbn [length] in *. rewrite !length_app in *. lia.
Qed.

Lemma parse_game_tree_loop_serialized (g : GameTree) : reads_tree g.
Proof.
  induction g as [ns bs IH] using GameTree_ind'.
  intros p declared declared' body r fuel Hbytes Hparsed Hread Hrest Henc Hfuel.
  apply GameTree_bytes_lines in Hbytes as (items & subtrees & Hitems & Hsub & [= ->]).
  cbn [parsed_tree] in Hparsed. apply andb_true_iff in Hparsed as [Hns Hbs].
  rewrite reads_back_tree_eq in Hread.
  destruct (reads_back_nodes declared ns) as [declared1|] eqn:Hread1; [|done].
  rewrite <- !app_assoc in Hrest. cbn [app] in Hrest.
  destruct (parse_game_tree_loop_nodes ns [] p declared declared1 items
              (lines subtrees ++ x0a :: x29 :: r) fuel)
    as (fuel' & Hfuel' & ->); try done.
  { by apply (ends_node_trees bs). }
  cbn [app]. destruct bs as [|b l].
  - injection Hsub as <-. injection Hread as <-. cbn [lines map concat app] in *.
    destruct fuel' as [|fuel']; [lia|]. apply parse_game_tree_loop_end.
  - apply trees_bytes_cons in Hsub as (bodyb & subtrees' & Hbodyb & Hsub' & ->).
    apply Forall_cons in IH as [Hb Hl].
    change (lines ((x28 :: bodyb) :: subtrees'))
      with (x0a :: x28 :: bodyb ++ lines subtrees') in *.
    destruct fuel' as [|fuel']; [lia|]. cbn [parse_game_tree_loop rest].
    rewrite bool_decide_eq_false_2 by done.
    change (game_tree_next ((x0a :: x28 :: bodyb ++ lines subtrees') ++ x0a :: x29 :: r))
      with (Some (x28, (bodyb ++ lines subtrees') ++ x0a :: x29 :: r)).
    cbv beta iota. rewrite (bool_decide_eq_false_2 (x28 = x3b)) by done.
    rewrite (bool_decide_eq_true_2 (x28 = x28)) by done.
    rewrite (parse_branches_loop_serialized l Hl b [] _ declared1 declared' bodyb
               subtrees' r fuel'); try done.
    + cbn [mbind result_bind app nodes].
      assert (1 <= fuel')%nat as Hf.
      { cbn [length app] in Hfuel'. lia. }
      destruct fuel' as [|fuel'']; [lia|]. apply parse_game_tree_loop_end.
    + cbn [set_rest rest]. by rewrite <- app_assoc.
    + cbn [set_rest rest]. cbn [length app] in Hfuel'.
      rewrite !length_app in *. cbn [length] in *. lia.
Qed.

End ReadTree.

(** ** Reading back a collection *)

Lemma join_blank_lines (first : bytes) (parts : list bytes) :
  join (LF ++ LF) (first :: parts) = first ++ blank_lines parts.
Proof.
  revert first. induction parts as [|part parts IH]; intros first.
  - cbn. by rewrite app_nil_r.
  - change (join (LF ++ LF) (first :: part :: parts))
      with (first ++ (LF ++ LF) ++ join (LF ++ LF) (part :: parts)).
    by rewrite IH.
Qed.

Section ReadCollection.
Context {rt : PyRuntime}.

Lemma parse_loop_tree (tree : GameTree) (collection : Collection) (p : Parser)
    (declared declared' : bool) (body tail : bytes) (fuel : nat) :
  GameTree_bytes tree = Ok (x28 :: body) ->
  nodes tree <> [] ->
  parsed_tree tree = true ->
  reads_back_tree tree declared = Some declared' ->
  rest p <> [] ->
  game_tree_start (rest p) = Some (body ++ tail) ->
  encoding p = encoding_of declared ->
  parse_loop (S fuel) collection p
  = parse_loop fuel (collection ++ [tree]) (mkParser tail (encoding_of declared')).
Proof.
  intros Hbytes Hnodes Hparsed Hread Hrest Hstart Henc.
  cbn [parse_loop]. rewrite bool_decide_eq_false_2 by done.
  unfold parse_one_game. rewrite bool_decide_eq_false_2 by done. cbn [negb].
  rewrite Hstart. unfold parse_game_tree.
  rewrite (parse_game_tree_loop_serialized tree _ declared declared' body tail);
    try done.
  - cbn [mbind result_bind]. by destruct tree as [[|n ns] bs].
  - unfold tree_fuel. lia.
Qed.

Lemma parse_loop_serialized (l : list GameTree) :
  forall (collection : Collection) (p : Parser) (declared declared' : bool)
         (items : list bytes) (fuel : nat),
  trees_bytes l = Ok items ->
  parsed_trees l = true ->
  reads_back_trees l declared = Some declared' ->
  rest p = blank_lines items ->
  encoding p = encoding_of declared ->
  (length (rest p) < fuel)%nat ->
  parse_loop fuel collection p
  = Ok (collection ++ l, mkParser [] (encoding_of declared')).
Proof.
  induction l as [|tree l IH];
    intros collection p declared declared' items fuel Hitems Hparsed Hread Hrest Henc
           Hfuel.
  - injection Hitems as <-. injection Hread as <-. cbn in Hrest.
    destruct fuel as [|fuel]; [lia|]. cbn [parse_loop].
    rewrite bool_decide_eq_true_2 by done. rewrite app_nil_r.
    destruct p as [rest0 enc0]. cbn in *. by subst.
  - apply trees_bytes_cons in Hitems as (body & items' & Hbody & Hitems' & ->).
    cbn [parsed_trees forallb] in Hparsed.
    apply andb_true_iff in Hparsed as [Htree Hparsed].
    apply andb_true_iff in Htree as [Hnodes Htree].
    apply negb_true_iff, bool_decide_eq_false in Hnodes.
    cbn [reads_back_trees] in Hread.
    destruct (reads_back_tree tree declared) as [declared1|] eqn:Hread1; [|done].
    change (blank_lines ((x28 :: body) :: items'))
      with (x0a :: x0a :: x28 :: body ++ blank_lines items') in Hrest.
    destruct fuel as [|fuel]; [lia|].
    rewrite (parse_loop_tree tree collection p declared declared1 body
               (blank_lines items') fuel); try done.
    + rewrite (IH (collection ++ [tree]) _ declared1 declared' items' fuel); try done.
      * by rewrite <- app_assoc.
      * cbn [rest]. rewrite Hrest in Hfuel. cbn [length] in Hfuel.
        rewrite length_app in Hfuel. lia.
    + by rewrite Hrest.
    + by rewrite Hrest.
Qed.

(** Parsing the bytes of a collection of parsed trees gives the
    collection back, when its text can be read back. *)
Lemma parse_Collection_bytes (collection : Collection) (data : bytes) :
  parsed_trees collection = true ->
  Collection_bytes collection = Ok data ->
  ascii_until_charset collection = true ->
  parse data = Ok collection.
Proof.
  intros Hparsed Hbytes Hascii. unfold ascii_until_charset in Hascii.
  destruct (reads_back_trees collection false) as [declared'|] eqn:Hread; [|done].
  unfold Collection_bytes in Hbytes.
  destruct (trees_bytes collection) as [items|] eqn:Hitems; [|done].
  injection Hbytes as <-. unfold parse.
  destruct collection as [|tree l].
  - injection Hitems as <-. reflexivity.
  - apply trees_bytes_cons in Hitems as (body & items' & Hbody & Hitems' & ->).
    rewrite join_blank_lines.
    cbn [parsed_trees forallb] in Hparsed.
    apply andb_true_iff in Hparsed as [Htree Hparsed].
    apply andb_true_iff in Htree as [Hnodes Htree].
    apply negb_true_iff, bool_decide_eq_false in Hnodes.
    cbn [reads_back_trees] in Hread.
    destruct (reads_back_tree tree false) as [declared1|] eqn:Hread1; [|done].
    rewrite (parse_loop_tree tree [] _ false declared1 body (blank_lines items'));
      try done.
    rewrite (parse_loop_serialized l [tree] _ declared1 declared' items'); try done.
    cbn [rest length app]. rewrite length_app. lia.
Qed.

End ReadCollection.

(** C1, as amended: a collection that [parse] returns, whose bytes
    [Collection.__bytes__] gives, is read back from those bytes as the same
    collection (with its [CA] values, which [parse] has already set to
    [TEXT_ENCODING]), provided that every text value that comes before the
    first [CA] property, in the order of the data, is ASCII. *)
Theorem parse_round_trip {rt : PyRuntime} (input data : bytes)
    (collection : Collection) :
  parse input = Ok collection ->
  Collection_bytes collection = Ok data ->
  ascii_until_charset collection = true ->
  parse data = Ok collection.
Proof.
  intros Hparse Hbytes Hascii. apply parse_Collection_bytes; [|done|done].
  unfold parse in Hparse.
  pose proof (parse_loop_spec (S (length input)) [] (mkParser input (py "latin-1"))
                ltac:(simpl; lia) eq_refl) as H.
  destruct (parse_loop _ _ _) as [[collection' p']|e]; [|done].
  cbn [mbind result_bind] in Hparse. injection Hparse as <-. by destruct H as [H _].
Qed.

(** C1, witness: the games above, parsed from [latin-1] data, are read
    back from their bytes. *)
Lemma parse_round_trip_witness :
  parse (rt := cpython)
    (pyb "(;CA[latin-1]C[a\]" ++ [xe9] ++ pyb "](;B[aa])(;W[bb]))")
  = Ok round_trip_games
  /\ match Collection_bytes round_trip_games with
     | Ok data => parse (rt := cpython) data = Ok round_trip_games
     | Err _ => False
     end.
Proof.
  split; [vm_compute; reflexivity|].
  destruct (Collection_bytes round_trip_games) as [data|e] eqn:E;
    [|vm_compute in E; discriminate E].
  apply (parse_round_trip (rt := cpython)
           (pyb "(;CA[latin-1]C[a\]" ++ [xe9] ++ pyb "](;B[aa])(;W[bb]))")
           data round_trip_games).
  - vm_compute. reflexivity.
  - exact E.
  - vm_compute. reflexivity.
Defined.

(** C1, counterexample: a comment in [latin-1] with a letter outside
    ASCII, and no charset.  The parser reads the letter; the serializer
    writes it as two bytes of UTF-8; and the parser, which has no charset to
    go by, reads them back as two [latin-1] letters. *)
Lemma parse_round_trip_counterexample :
  parse (rt := cpython) [x28; x3b; x43; x5b; xe9; x5d; x29]
  = Ok [Tree [[(py "C", VStr [233%N])]] []]
  /\ Collection_bytes [Tree [[(py "C", VStr [233%N])]] []]
     = Ok [x28; x0a; x3b; x43; x5b; xc3; xa9; x5d; x0a; x29]
  /\ parse (rt := cpython) [x28; x0a; x3b; x43; x5b; xc3; xa9; x5d; x0a; x29]
     = Ok [Tree [[(py "C", VStr [195%N; 169%N])]] []].
Proof. repeat split; vm_compute; reflexivity. Qed.

(** * The frame of [GameTree.merge] *)

Module HeapFrame.
Import Heap.

(** ** Ownership

    A computation that starts in the store [h0] and is given the objects
    [owned] keeps to them and to the objects it makes: these are its
    objects, [mine].  The invariant is that the other objects of [h0] are
    as they were, and that the objects of the computation refer to objects
    of the computation only. *)
Section Frame.
Context {rt : PyRuntime}.
Variable h0 : heap.
Variable owned : loc -> Prop.

Definition mine (l : loc) : Prop := owned l \/ (length h0 <= l)%nat.

Record inv (h : heap) : Prop := {
  inv_frame : forall l, (l < length h0)%nat -> ~ owned l -> h !! l = h0 !! l;
  inv_closed : forall l o, mine l -> h !! l = Some o -> Forall mine (refs o);
  inv_length : (length h0 <= length h)%nat;
}.

(** [m] keeps the invariant, and [P] holds for what it returns. *)
Definition keeps {A : Type} (m : M A) (P : A -> Prop) : Prop :=
  forall h, inv h -> inv (m h).2 /\ forall a, (m h).1 = Ok a -> P a.

Lemma keeps_ret {A : Type} (a : A) (P : A -> Prop) : P a -> keeps (mret a) P.
Proof. intros HP h Hinv. split; [done|]. by intros a' [= <-]. Qed.

Lemma keeps_raise {A : Type} (e : error) (P : A -> Prop) : keeps (raise e) P.
Proof. intros h Hinv. by split. Qed.

Lemma keeps_lift {A : Type} (r : result A) : keeps (lift r) (fun _ => True).
Proof. intros h Hinv. by split. Qed.

Lemma keeps_bind {A B : Type} (m : M A) (k : A -> M B) (P : A -> Prop)
    (Q : B -> Prop) :
  keeps m P -> (forall a, P a -> keeps (k a) Q) -> keeps (m ≫= k) Q.
Proof.
  intros Hm Hk h Hinv. unfold mbind, M_bind. specialize (Hm h Hinv).
  destruct (m h) as [[a|e] h']; simpl in Hm; destruct Hm as [Hinv' HP].
  - by apply Hk; [apply HP|].
  - by split.
Qed.

Lemma keeps_weaken {A : Type} (m : M A) (P Q : A -> Prop) :
  keeps m P -> (forall a, P a -> Q a) -> keeps m Q.
Proof.
  intros Hm HPQ h Hinv. destruct (Hm h Hinv) as [Hinv' HP]. split; [done|].
  intros a Ha. by apply HPQ, HP.
Qed.

Lemma keeps_read (l : loc) :
  keeps (read l) (fun o => mine l -> Forall mine (refs o)).
Proof.
  intros h Hinv. unfold read. destruct (h !! l) as [o|] eqn:E; simpl; (split; [done|]).
  - intros a [= <-] Hl. by apply (inv_closed h Hinv l).
  - done.
Qed.

Lemma keeps_write (l : loc) (o : obj) :
  mine l -> Forall mine (refs o) -> keeps (write l o) (fun _ => True).
Proof.
  intros Hl Ho h [Hframe Hclosed Hlen]. split; [|done]. unfold write. cbn [snd]. split.
  - intros l' Hl' Hnot. rewrite list_lookup_insert_ne; [by apply Hframe|].
    intros ->. destruct Hl as [?|?]; [done|lia].
  - intros l' o' Hl'. destruct (decide (l = l')) as [<-|Hne].
    + destruct (decide (l < length h)%nat) as [Hlt|Hge].
      * rewrite list_lookup_insert_eq by done. by intros [= <-].
      * rewrite list_insert_ge by lia. by apply Hclosed.
    + rewrite list_lookup_insert_ne by done. by apply Hclosed.
  - by rewrite length_insert.
Qed.

Lemma keeps_alloc (o : obj) : Forall mine (refs o) -> keeps (alloc o) mine.
Proof.
  intros Ho h [Hframe Hclosed Hlen]. unfold alloc. cbn [fst snd]. split; [split|].
  - intros l Hl Hnot. rewrite lookup_app_l by lia. by apply Hframe.
  - intros l o' Hl. destruct (decide (l < length h)%nat) as [Hlt|Hge].
    + rewrite lookup_app_l by done. by apply Hclosed.
    + rewrite lookup_app_r by lia. destruct (l - length h)%nat; [|done].
      by intros [= <-].
  - rewrite length_app. lia.
  - intros a [= <-]. right. lia.
Qed.

Lemma keeps_each {A B : Type} (f : A -> M B) (l : list A) (P : B -> Prop) :
  (forall x, x ∈ l -> keeps (f x) P) -> keeps (each f l) (Forall P).
Proof.
  induction l as [|x l IH]; intros Hf; cbn [each].
  - by apply keeps_ret.
  - eapply keeps_bind; [apply Hf; left|]. intros y Hy.
    eapply keeps_bind; [apply IH; intros z Hz; apply Hf; by right|]. intros ys Hys.
    apply keeps_ret. by constructor.
Qed.

Lemma keeps_for_each {A : Type} (f : A -> M unit) (l : list A) :
  (forall x, x ∈ l -> keeps (f x) (fun _ => True)) ->
  keeps (for_each f l) (fun _ => True).
Proof.
  induction l as [|x l IH]; intros Hf; cbn [for_each].
  - by apply keeps_ret.
  - eapply keeps_bind; [apply Hf; left|]. intros _ _.
    apply IH. intros z Hz. apply Hf. by right.
Qed.

(** *** Reading *)

Lemma keeps_read_node (l : loc) :
  keeps (read_node l) (fun props => mine l -> Forall mine (prop_refs props)).
Proof.
  eapply keeps_bind; [apply keeps_read|]. intros [props| | |] Ho;
    (apply keeps_ret || apply keeps_raise). exact Ho.
Qed.

Lemma keeps_read_list (l : loc) : keeps (read_list l) (fun _ => True).
Proof.
  eapply keeps_bind; [apply keeps_read|]. intros [| | |] Ho;
    (by apply keeps_ret) || apply keeps_raise.
Qed.

Lemma keeps_read_tree (l : loc) :
  keeps (read_tree l) (fun '(ns, br) => mine l -> Forall mine ns /\ mine br).
Proof.
  eapply keeps_bind; [apply keeps_read|]. intros [| |ns br|] Ho;
    (apply keeps_ret || apply keeps_raise).
  intros Hl. specialize (Ho Hl). by apply Forall_cons in Ho as [? ?].
Qed.

Lemma keeps_read_trees (l : loc) :
  keeps (read_trees l) (fun ts => mine l -> Forall mine ts).
Proof.
  eapply keeps_bind; [apply keeps_read|]. intros [| | |ts] Ho;
    (apply keeps_ret || apply keeps_raise). exact Ho.
Qed.

Lemma keeps_load_props (props : list (pystr * pval)) :
  keeps (load_props props) (fun _ => True).
Proof.
  induction props as [|[k v] props IH]; cbn [load_props]; [by apply keeps_ret|].
  eapply (keeps_bind _ _ (fun _ => True)).
  - destruct v; [by apply keeps_ret|].
    eapply keeps_bind; [apply keeps_read_list|]. intros. by apply keeps_ret.
  - intros v' _. eapply keeps_bind; [apply IH|]. intros. by apply keeps_ret.
Qed.

Lemma keeps_load_node (l : loc) : keeps (load_node l) (fun _ => True).
Proof.
  eapply keeps_bind; [apply keeps_read_node|]. intros. apply keeps_load_props.
Qed.

Lemma keeps_first_node (tree : loc) :
  keeps (first_node tree) (fun n => mine tree -> mine n).
Proof.
  eapply keeps_bind; [apply keeps_read_tree|]. intros [[|n ns] br] H.
  - apply keeps_raise.
  - apply keeps_ret. intros Hl. destruct (H Hl) as [Hns _].
    by apply Forall_cons in Hns as [? _].
Qed.

Lemma keeps_branches_of (tree : loc) :
  keeps (branches_of tree) (fun '(br, bs) => mine tree -> mine br /\ Forall mine bs).
Proof.
  eapply keeps_bind; [apply keeps_read_tree|]. intros [ns br] H.
  eapply keeps_bind; [apply keeps_read_trees|]. intros bs Hbs.
  apply keeps_ret. intros Hl. destruct (H Hl) as [_ Hbr]. auto.
Qed.

(** *** Nodes *)

Lemma prop_get_refs (k : pystr) (props : list (pystr * pval)) (l : loc) :
  prop_get k props = Some (PRef l) -> l ∈ prop_refs props.
Proof.
  induction props as [|[k' v] props IH]; [done|]. cbn [prop_get prop_refs flat_map].
  destruct (str_eqb k k').
  - intros [= ->]. apply elem_of_app. left. by left.
  - intros H. apply elem_of_app. right. by apply IH.
Qed.

Lemma prop_refs_cons (k : pystr) (v : pval) (props : list (pystr * pval)) :
  Forall mine (prop_refs ((k, v) :: props))
  <-> match v with PRef l => mine l | PStr _ => True end
      /\ Forall mine (prop_refs props).
Proof.
  cbn [prop_refs flat_map]. rewrite Forall_app. destruct v; [|rewrite Forall_singleton];
    intuition.
Qed.

Lemma keeps_store_props (props : list (pystr * pval)) (old new : Node) :
  Forall mine (prop_refs props) ->
  keeps (store_props props old new) (fun props' => Forall mine (prop_refs props')).
Proof.
  intros Hprops. induction new as [|[k v] new IH]; cbn [store_props].
  - apply keeps_ret. constructor.
  - eapply (keeps_bind _ _ (fun v' => match v' with PRef l => mine l | PStr _ => True end)).
    + destruct v as [s|items]; [by apply keeps_ret|].
      destruct (prop_get k props) as [[s|l]|] eqn:E.
      * eapply keeps_bind; [by apply keeps_alloc|]. intros l Hl. by apply keeps_ret.
      * assert (mine l) as Hl.
        { apply prop_get_refs in E. by apply (proj1 (Forall_forall _ _) Hprops). }
        eapply (keeps_bind _ _ (fun _ => True)).
        -- case_bool_decide; [by apply keeps_ret|]. by apply keeps_write.
        -- intros _ _. by apply keeps_ret.
      * eapply keeps_bind; [by apply keeps_alloc|]. intros l Hl. by apply keeps_ret.
    + intros v' Hv'. eapply keeps_bind; [apply IH|]. intros rest Hrest.
      apply keeps_ret. by apply prop_refs_cons.
Qed.

Lemma keeps_Node_update (self : loc) (step : Node -> result Node) :
  mine self -> keeps (Node_update self step) (fun _ => True).
Proof.
  intros Hself. eapply keeps_bind; [apply keeps_read_node|]. intros props Hprops.
  eapply keeps_bind; [apply keeps_load_props|]. intros old _.
  eapply keeps_bind; [apply keeps_lift|]. intros new _.
  eapply keeps_bind; [apply keeps_store_props; auto|]. intros props' Hprops'.
  by apply keeps_write.
Qed.

Lemma keeps_copy_props (memo : list (loc * loc)) (props : list (pystr * pval)) :
  Forall (fun entry => mine entry.2) memo ->
  keeps (copy_props memo props) (fun props' => Forall mine (prop_refs props')).
Proof.
  revert memo. induction props as [|[k [s|l]] props IH]; intros memo Hmemo;
    cbn [copy_props].
  - apply keeps_ret. constructor.
  - eapply keeps_bind; [by apply IH|]. intros rest Hrest. apply keeps_ret.
    by apply prop_refs_cons.
  - destruct (list_find _ memo) as [[i [l0 l']]|] eqn:E.
    + apply list_find_Some in E as (Hi & _).
      assert (mine l') as Hl'.
      { apply (proj1 (Forall_forall _ _) Hmemo (l0, l')). by eapply list_elem_of_lookup_2. }
      eapply keeps_bind; [by apply IH|]. intros rest Hrest. apply keeps_ret.
      by apply prop_refs_cons.
    + eapply keeps_bind; [apply keeps_read_list|]. intros items _.
      eapply keeps_bind; [by apply keeps_alloc|]. intros l' Hl'.
      eapply keeps_bind; [apply IH; by constructor|]. intros rest Hrest.
      apply keeps_ret. by apply prop_refs_cons.
Qed.

Lemma keeps_Node_deepcopy (self : loc) : keeps (Node_deepcopy self) mine.
Proof.
  eapply keeps_bind; [by apply keeps_alloc|]. intros copy Hcopy.
  eapply keeps_bind; [apply keeps_read_node|]. intros props _.
  eapply keeps_bind; [by apply keeps_copy_props|]. intros props' Hprops'.
  eapply keeps_bind; [by apply keeps_write|]. intros _ _. by apply keeps_ret.
Qed.

Lemma keeps_Node_prefix_comment (self : loc) (comment : option pystr) :
  mine self -> keeps (Node_prefix_comment self comment) (fun _ => True).
Proof. apply keeps_Node_update. Qed.

Lemma keeps_merge_items (self : loc) (comment : pystr) (comments_everywhere : bool)
    (ignore_property_values : list (pystr * list ignore_value))
    (items : list (pystr * value)) :
  mine self ->
  keeps (merge_items self comment comments_everywhere ignore_property_values items)
    (fun _ => True).
Proof.
  intros Hself. induction items as [|item items IH]; cbn [merge_items].
  - by apply keeps_ret.
  - eapply keeps_bind; [by apply keeps_Node_update|]. intros _ _. apply IH.
Qed.

Lemma keeps_Node_merge (self other : loc) (comment : option pystr)
    (comments_everywhere : bool)
    (ignore_property_values : option (list (pystr * list ignore_value))) :
  mine self ->
  keeps (Node_merge self other comment comments_everywhere ignore_property_values)
    (fun _ => True).
Proof.
  intros Hself. eapply keeps_bind; [apply keeps_Node_deepcopy|]. intros copy _.
  eapply keeps_bind; [apply keeps_load_node|]. intros items _.
  by apply keeps_merge_items.
Qed.

(** *** Trees *)

Lemma keeps_GameTree_deepcopy (fuel : nat) (self : loc) :
  keeps (GameTree_deepcopy fuel self) mine.
Proof.
  revert self. induction fuel as [|fuel IH]; intros self; cbn [GameTree_deepcopy].
  - apply keeps_raise.
  - eapply keeps_bind; [apply keeps_read_tree|]. intros [ns br] _.
    eapply keeps_bind; [apply keeps_each; intros; apply keeps_Node_deepcopy|].
    intros ns' Hns'.
    eapply keeps_bind; [apply keeps_read_trees|]. intros bs _.
    eapply keeps_bind; [apply keeps_each; intros; apply IH|]. intros bs' Hbs'.
    eapply keeps_bind; [by apply keeps_alloc|]. intros br' Hbr'.
    apply keeps_alloc. by constructor.
Qed.

Lemma keeps_GameTree_prefix_comment (fuel : nat) (self : loc)
    (comment : option pystr) :
  mine self -> keeps (GameTree_prefix_comment fuel self comment) (fun _ => True).
Proof.
  revert self. induction fuel as [|fuel IH]; intros self Hself;
    cbn [GameTree_prefix_comment];
    (destruct (negb (comment_given comment)); [by apply keeps_ret|]).
  - apply keeps_raise.
  - eapply keeps_bind; [apply keeps_read_tree|]. intros [[|first ns] br] H;
      destruct (H Hself) as [Hns Hbr].
    + eapply keeps_bind; [apply keeps_read_trees|]. intros bs Hbs.
      apply keeps_for_each. intros branch Hbranch. apply IH.
      by apply (proj1 (Forall_forall _ _) (Hbs Hbr)).
    + apply keeps_Node_prefix_comment. by apply Forall_cons in Hns as [? _].
Qed.

Lemma keeps_GameTree_init (fuel : nat) (nodelist : list loc) (branches : loc)
    (comment : option pystr) :
  Forall mine nodelist -> mine branches ->
  keeps (GameTree_init fuel nodelist branches comment) mine.
Proof.
  intros Hns Hbr. eapply keeps_bind; [apply keeps_alloc; by constructor|].
  intros self Hself.
  eapply keeps_bind; [by apply keeps_GameTree_prefix_comment|]. intros _ _.
  by apply keeps_ret.
Qed.

Lemma keeps_trunk_walk (i : nat) (self other : list loc) (comment : option pystr)
    (comments_everywhere : bool)
    (ignore_property_values : option (list (pystr * list ignore_value))) :
  Forall mine self ->
  keeps (trunk_walk i self other comment comments_everywhere ignore_property_values)
    (fun _ => True).
Proof.
  revert i other. induction self as [|my_node self IH]; intros i other Hself;
    [by apply keeps_ret|].
  destruct other as [|other_node other]; [by apply keeps_ret|]. cbn [trunk_walk].
  apply Forall_cons in Hself as [Hmy Hself].
  eapply keeps_bind; [apply keeps_load_node|]. intros mine' _.
  eapply keeps_bind; [apply keeps_load_node|]. intros theirs _.
  eapply keeps_bind; [apply keeps_lift|]. intros [|] _; [|by apply keeps_ret].
  eapply keeps_bind; [by apply keeps_Node_merge|]. intros _ _. by apply IH.
Qed.

(** The recursive call keeps to its objects. *)
Definition keeps_merge (merge : loc -> loc -> M unit) : Prop :=
  forall self other, mine self -> keeps (merge self other) (fun _ => True).

Lemma keeps_merge_into_branch (merge : loc -> loc -> M unit)
    (self_branch other : loc) (i : nat) (others : list loc) :
  keeps_merge merge -> mine self_branch -> mine other ->
  keeps (merge_into_branch merge self_branch other i others) (fun _ => True).
Proof.
  intros Hmerge Hself Hother. revert i.
  induction others as [|other_branch others IH]; intros i; cbn [merge_into_branch];
    [by apply keeps_ret|].
  eapply keeps_bind; [apply keeps_first_node|]. intros n _.
  eapply keeps_bind; [apply keeps_first_node|]. intros n' _.
  eapply keeps_bind; [apply keeps_load_node|]. intros mine' _.
  eapply keeps_bind; [apply keeps_load_node|]. intros theirs _.
  eapply keeps_bind; [apply keeps_lift|]. intros [|] _; [|apply IH].
  eapply keeps_bind; [by apply Hmerge|]. intros _ _.
  eapply keeps_bind; [apply keeps_read_tree|]. intros [ns br] H.
  destruct (H Hother) as [_ Hbr].
  eapply keeps_bind; [apply keeps_read_trees|]. intros bs Hbs.
  destruct (i <? length bs)%nat; [|apply keeps_raise].
  apply keeps_write; [done|]. cbn [refs].
  apply Forall_forall. intros l Hl. apply (proj1 (Forall_forall _ _) (Hbs Hbr)).
  by apply list_elem_of_delete_inv in Hl.
Qed.

Lemma keeps_merge_branches (merge : loc -> loc -> M unit)
    (self_branches : list loc) (other : loc) :
  keeps_merge merge -> Forall mine self_branches -> mine other ->
  keeps (merge_branches merge self_branches other) (fun _ => True).
Proof.
  intros Hmerge Hself Hother.
  induction self_branches as [|self_branch rest IH]; cbn [merge_branches];
    [by apply keeps_ret|].
  apply Forall_cons in Hself as [Hbranch Hrest].
  eapply keeps_bind; [apply keeps_read_tree|]. intros [ns br] _.
  eapply keeps_bind; [apply keeps_read_trees|]. intros others _.
  eapply keeps_bind; [by apply keeps_merge_into_branch|]. intros _ _. by apply IH.
Qed.

Ltac all_mine :=
  cbn [refs prop_refs flat_map app];
  repeat (constructor 2; [done|]); by constructor 1.

Lemma keeps_GameTree_merge_branches (recurse : loc -> loc -> M unit) (fuel : nat)
    (self other : loc) (n : nat) (comment : option pystr) :
  keeps_merge recurse -> mine self -> mine other ->
  keeps (GameTree_merge_branches recurse fuel self other n comment) (fun _ => True).
Proof.
  intros Hrecurse Hself Hcopy. unfold GameTree_merge_branches.
  eapply keeps_bind; [apply keeps_read_tree|]. intros [ns br] H.
  destruct (H Hself) as [Hns Hbr].
  eapply keeps_bind; [apply keeps_read_tree|]. intros [ons obr] H'.
  destruct (H' Hcopy) as [Hons Hobr].
  eapply (keeps_bind _ _ (fun _ => True)).
  { destruct (length ons <? length ns)%nat.
    - eapply keeps_bind; [apply keeps_read_trees|]. intros obs _.
      destruct (negb (bool_decide (obs = []))); [|by apply keeps_ret].
      eapply keeps_bind; [apply keeps_GameTree_init; [by apply Forall_drop|done]|].
      intros self_branch Hself_branch.
      eapply keeps_bind;
        [apply keeps_write; [done|constructor; [done|by apply Forall_take]]|].
      intros _ _.
      eapply keeps_bind; [apply keeps_alloc; all_mine|].
      intros br' Hbr'.
      apply keeps_write; [done|constructor; [done|by apply Forall_take]].
    - destruct (length ns <? length ons)%nat; [|by apply keeps_ret].
      eapply keeps_bind; [apply keeps_GameTree_init; [by apply Forall_drop|done]|].
      intros other_branch Hother_branch.
      eapply keeps_bind;
        [apply keeps_write; [done|constructor; [done|by apply Forall_take]]|].
      intros _ _.
      eapply keeps_bind; [apply keeps_alloc; all_mine|].
      intros br' Hbr'.
      apply keeps_write; [done|constructor; [done|by apply Forall_take]]. }
  intros _ _.
  eapply keeps_bind; [apply keeps_branches_of|]. intros [obr1 obs] _.
  destruct (bool_decide (obs = [])); [by apply keeps_ret|].
  eapply keeps_bind; [apply keeps_branches_of|]. intros [sbr bs] Hb.
  destruct (Hb Hself) as [Hsbr Hbs].
  eapply (keeps_bind _ _ (fun _ => True)).
  { destruct (bool_decide (bs = [])); [|by apply keeps_ret].
    eapply keeps_bind; [apply keeps_alloc; all_mine|].
    intros node Hnode.
    eapply keeps_bind; [apply keeps_alloc; all_mine|].
    intros none Hnone.
    eapply keeps_bind; [apply keeps_alloc; all_mine|].
    intros placeholder Hplaceholder.
    apply keeps_write; [done|]. cbn [refs]. apply Forall_app. split; [done|].
    all_mine. }
  intros _ _.
  eapply keeps_bind; [apply keeps_branches_of|]. intros [sbr1 bs'] Hb'.
  destruct (Hb' Hself) as [_ Hbs'].
  eapply keeps_bind; [by apply keeps_merge_branches|]. intros _ _.
  eapply keeps_bind; [apply keeps_branches_of|]. intros [obr2 obs'] Hob.
  destruct (Hob Hcopy) as [_ Hobs'].
  eapply keeps_bind.
  { apply keeps_for_each. intros other_branch Hin.
    apply keeps_GameTree_prefix_comment.
    by apply (proj1 (Forall_forall _ _) Hobs'). }
  intros _ _.
  eapply keeps_bind; [apply keeps_branches_of|]. intros [sbr' bs''] Hb''.
  destruct (Hb'' Hself) as [Hsbr' Hbs''].
  eapply keeps_bind; [apply keeps_branches_of|]. intros [obr3 obs''] Hob'.
  destruct (Hob' Hcopy) as [_ Hobs''].
  apply keeps_write; [done|]. cbn [refs]. by apply Forall_app.
Qed.

Lemma keeps_GameTree_merge_body (recurse : loc -> loc -> M unit) (fuel : nat)
    (self other : loc) (comment : option pystr) (comments_everywhere : bool)
    (ignore_property_values : option (list (pystr * list ignore_value))) :
  keeps_merge recurse -> mine self ->
  keeps (GameTree_merge_body recurse fuel self other comment comments_everywhere
           ignore_property_values) (fun _ => True).
Proof.
  intros Hrecurse Hself. unfold GameTree_merge_body.
  eapply keeps_bind; [apply keeps_GameTree_deepcopy|]. intros copy Hcopy.
  eapply keeps_bind; [apply keeps_read_tree|]. intros [self_nodes sbr0] Hs.
  destruct (Hs Hself) as [Hself_nodes _].
  eapply keeps_bind; [apply keeps_read_tree|]. intros [other_nodes obr0] _.
  eapply keeps_bind; [by apply keeps_trunk_walk|]. intros [i|rounds] _.
  - (* the trunks diverge *)
    eapply keeps_bind; [apply keeps_read_tree|]. intros [ns br] H.
    destruct (H Hself) as [Hns Hbr].
    eapply keeps_bind; [apply keeps_GameTree_init; [by apply Forall_drop|done]|].
    intros self_branch Hself_branch.
    eapply keeps_bind;
      [apply keeps_write; [done|constructor; [done|by apply Forall_take]]|].
    intros _ _.
    eapply keeps_bind; [apply keeps_read_tree|]. intros [ons obr] H'.
    destruct (H' Hcopy) as [Hons Hobr].
    eapply keeps_bind; [apply keeps_GameTree_init; [by apply Forall_drop|done]|].
    intros other_branch Hother_branch.
    eapply keeps_bind; [apply keeps_alloc; all_mine|]. intros br' Hbr'.
    apply keeps_write; [done|constructor; [done|by apply Forall_take]].
  - (* the loop ran to its end *)
    pose proof (keeps_GameTree_merge_branches recurse fuel self copy rounds comment
                  Hrecurse Hself Hcopy) as Hfinish.
    cbv zeta. destruct (rounds =? 0)%nat; [|done].
    eapply keeps_bind; [apply keeps_read_tree|]. intros [ns br] H.
    destruct (H Hself) as [Hns Hbr].
    destruct (negb (bool_decide (ns = []))).
    + eapply keeps_bind; [apply keeps_branches_of|]. intros [obr1 obs] _.
      by destruct (bool_decide (obs = [])); [apply keeps_ret|].
    + eapply keeps_bind; [apply keeps_read_trees|]. intros bs _.
      destruct (bool_decide (bs = [])); [|done].
      eapply keeps_bind; [apply keeps_read_tree|]. intros [ons obr] H'.
      destruct (H' Hcopy) as [Hons Hobr].
      eapply (keeps_bind _ _ (fun _ => True)).
      { destruct ons as [|first ons']; [by apply keeps_ret|].
        apply keeps_Node_prefix_comment. by apply Forall_cons in Hons as [? _]. }
      intros _ _.
      eapply keeps_bind; [apply keeps_write; [done|by constructor]|]. intros _ _.
      apply keeps_write; [done|by constructor].
Qed.

Lemma keeps_GameTree_merge (fuel : nat) (comment : option pystr)
    (comments_everywhere : bool)
    (ignore_property_values : option (list (pystr * list ignore_value))) :
  keeps_merge (fun self other =>
                 GameTree_merge fuel self other comment comments_everywhere
                   ignore_property_values).
Proof.
  induction fuel as [|fuel IH]; intros self other Hself; cbn [GameTree_merge].
  - apply keeps_raise.
  - by apply keeps_GameTree_merge_body.
Qed.

End Frame.

(** ** The objects of the source *)

Lemma reachable_allocated (h : heap) (root l : loc) :
  reachable h root l -> (l < length h)%nat.
Proof. intros [H|? ? ? _ _ _ H]; by apply lookup_lt_is_Some. Qed.

Lemma reachable_trans (h : heap) (a b c : loc) :
  reachable h a b -> reachable h b c -> reachable h a c.
Proof.
  intros Hab Hbc. induction Hbc as [|l o r _ IH Hl Hr Hsome]; [done|].
  by apply (reachable_ref h a l o r).
Qed.

(** At the start, with the objects that can be reached from [target]. *)
Lemma inv_start (h : heap) (target : loc) : inv h (reachable h target) h.
Proof.
  split; [done| |done].
  intros l o [Hl|Hl] Hlookup.
  - apply Forall_forall. intros r Hr.
    destruct (decide (r < length h)%nat) as [Hlt|Hge]; [left|right; lia].
    apply (reachable_ref h target l o r); try done. by apply lookup_lt_is_Some.
  - apply lookup_lt_Some in Hlookup. lia.
Qed.

Lemma mine_start (h : heap) (target : loc) : mine h (reachable h target) target.
Proof.
  destruct (decide (target < length h)%nat) as [Hlt|Hge]; [left|right; lia].
  apply reachable_root. by apply lookup_lt_is_Some.
Qed.

Lemma all_of_ext {A B : Type} (f g : A -> option B) (l : list A) (ys : list B) :
  (forall x y, x ∈ l -> f x = Some y -> g x = Some y) ->
  all_of f l = Some ys -> all_of g l = Some ys.
Proof.
  revert ys. induction l as [|x l IH]; intros ys Hfg; [done|]. cbn [all_of].
  destruct (f x) as [y|] eqn:Ey; [|done]. rewrite (Hfg x y) by (done || left).
  cbn. destruct (all_of f l) as [ys'|] eqn:Eys; [|done].
  rewrite (IH ys') by (done || intros; apply Hfg; (done || by right)). done.
Qed.

Lemma props_at_ext (h h' : heap) (props : list (pystr * pval)) (n : Node) :
  (forall r, r ∈ prop_refs props -> is_Some (h !! r) -> h' !! r = h !! r) ->
  props_at h props = Some n -> props_at h' props = Some n.
Proof.
  revert n. induction props as [|[k v] props IH]; intros n Hsame; [done|].
  cbn [props_at].
  destruct (value_at h v) as [v'|] eqn:Ev; [|done].
  assert (value_at h' v = Some v') as ->.
  { destruct v as [s|r]; [done|]. cbn [value_at] in *.
    destruct (h !! r) as [o|] eqn:Er; [|done].
    rewrite Hsame, Er; [done| |by rewrite Er].
    cbn [prop_refs flat_map]. apply elem_of_app. left. by left. }
  cbn. destruct (props_at h props) as [rest|] eqn:Erest; [|done].
  rewrite (IH rest); [done| |done].
  intros r Hr. apply Hsame. cbn [prop_refs flat_map]. apply elem_of_app. by right.
Qed.

(** A tree is read from the objects that can be reached from it. *)
Lemma tree_at_ext (n : nat) (h h' : heap) :
  forall (root : loc) (g : GameTree),
  (forall l, reachable h root l -> h' !! l = h !! l) ->
  tree_at n h root = Some g -> tree_at n h' root = Some g.
Proof.
  induction n as [|n IH]; intros root g Hsame; [done|]. cbn [tree_at].
  destruct (h !! root) as [[| |ns br|]|] eqn:Eroot; try done.
  assert (reachable h root root) as Hroot.
  { apply reachable_root. by rewrite Eroot. }
  rewrite (Hsame root Hroot), Eroot.
  destruct (all_of (node_at h) ns) as [ns'|] eqn:Ens; [|done].
  rewrite (all_of_ext (node_at h) (node_at h') ns ns'); [|
    |done].
  2: { intros l node Hl. unfold node_at.
       destruct (h !! l) as [[props| | |]|] eqn:El; try done.
       assert (reachable h root l) as Hreach.
       { apply (reachable_ref h root root (OTree ns br) l);
           [done|done|cbn [refs]; by right|by rewrite El]. }
       rewrite (Hsame l Hreach), El. apply props_at_ext.
       intros r Hr Hsome. apply Hsame.
       by apply (reachable_ref h root l (ONode props) r). }
  cbn.
  destruct (h !! br) as [[| | |bs]|] eqn:Ebr; try done.
  assert (reachable h root br) as Hbr.
  { apply (reachable_ref h root root (OTree ns br) br);
      [done|done|cbn [refs]; left|by rewrite Ebr]. }
  rewrite (Hsame br Hbr), Ebr.
  destruct (all_of (tree_at n h) bs) as [bs'|] eqn:Ebs; [|done].
  rewrite (all_of_ext (tree_at n h) (tree_at n h') bs bs'); [done| |done].
  intros b gb Hb Hgb. apply IH; [|done].
  intros l Hl. apply Hsame. apply (reachable_trans h root b l); [|done].
  apply (reachable_ref h root br (OTrees bs) b); [done|done|done|].
  destruct n; [done|]. cbn [tree_at] in Hgb. by destruct (h !! b).
Qed.

(** *** Checking that two trees are apart *)

Lemma reachable_closed_in (h : heap) (within : list loc) (root l : loc) :
  closed_in h within = true -> root ∈ within -> reachable h root l -> l ∈ within.
Proof.
  intros Hclosed Hroot Hl. induction Hl as [|l o r _ IH Hlookup Hr _]; [done|].
  unfold closed_in in Hclosed. rewrite forallb_forall in Hclosed.
  specialize (Hclosed l (proj1 (list_elem_of_In _ _) IH)). rewrite Hlookup in Hclosed.
  rewrite forallb_forall in Hclosed.
  specialize (Hclosed r (proj1 (list_elem_of_In _ _) Hr)).
  by apply bool_decide_eq_true in Hclosed.
Qed.

Lemma apart (h : heap) (target source : loc) (mine theirs : list loc) :
  closed_in h mine = true -> closed_in h theirs = true ->
  target ∈ mine -> source ∈ theirs ->
  forallb (fun l => bool_decide (l ∉ theirs)) mine = true ->
  forall l, reachable h target l -> reachable h source l -> False.
Proof.
  intros Hmine Htheirs Htarget Hsource Hdisjoint l Hl Hl'.
  apply (reachable_closed_in h mine) in Hl; [|done..].
  apply (reachable_closed_in h theirs) in Hl'; [|done..].
  rewrite forallb_forall in Hdisjoint.
  specialize (Hdisjoint l (proj1 (list_elem_of_In _ _) Hl)).
  by apply bool_decide_eq_true in Hdisjoint.
Qed.

End HeapFrame.

(** C5, as amended: when no object that can be reached from [source] can
    be reached from [target] before the call, the objects that can be
    reached from [source] are after [target.merge(source, ...)] as they were
    before it, whether the call returns or raises, and so the tree that
    [source] names is the same: [merge] changes objects of [target] and
    objects that it made, and it works on a deep copy of [source]. *)
Theorem merge_source_unchanged {rt : PyRuntime} (fuel : nat) (h : list Heap.obj)
    (target source : nat) (comment : option pystr) (comments_everywhere : bool)
    (ignore_property_values : option (list (pystr * list ignore_value))) :
  (forall l, Heap.reachable h target l -> Heap.reachable h source l -> False) ->
  (forall l,
     Heap.reachable h source l ->
     (Heap.GameTree_merge fuel target source comment comments_everywhere
        ignore_property_values h).2 !! l = h !! l)
  /\ (forall n g,
        Heap.tree_at n h source = Some g ->
        Heap.tree_at n
          (Heap.GameTree_merge fuel target source comment comments_everywhere
             ignore_property_values h).2 source = Some g).
Proof.
  intros Hapart.
  assert (forall l,
            Heap.reachable h source l ->
            (Heap.GameTree_merge fuel target source comment comments_everywhere
               ignore_property_values h).2 !! l = h !! l) as Hsame.
  { intros l Hl.
    destruct (HeapFrame.keeps_GameTree_merge h (Heap.reachable h target) fuel comment
                comments_everywhere ignore_property_values target source
                (HeapFrame.mine_start h target) h (HeapFrame.inv_start h target)) as [Hinv _].
    apply (HeapFrame.inv_frame _ _ _ Hinv).
    - by apply HeapFrame.reachable_allocated in Hl.
    - intros Hl'. by apply (Hapart l). }
  split; [done|]. intros n g. by apply HeapFrame.tree_at_ext.
Qed.

(** C5, witness: the merge returns, the target is the merged tree of the
    first part, and the source is as it was. *)
Lemma merge_source_unchanged_witness :
  (Heap.GameTree_merge (rt := cpython) 3 4 9 (Some (py "P")) true None frame_heap).1
  = Ok tt
  /\ match GameTree_merge (rt := cpython) frame_target frame_source (Some (py "P"))
             true None with
     | Ok merged =>
         Heap.tree_at 3
           (Heap.GameTree_merge (rt := cpython) 3 4 9 (Some (py "P")) true None
              frame_heap).2 4
         = Some merged
     | Err _ => False
     end
  /\ Heap.tree_at 2
       (Heap.GameTree_merge (rt := cpython) 3 4 9 (Some (py "P")) true None
          frame_heap).2 9
     = Some frame_source.
Proof.
  split; [vm_compute; reflexivity|]. split; [vm_compute; reflexivity|].
  assert (forall l,
            Heap.reachable frame_heap 4 l -> Heap.reachable frame_heap 9 l -> False)
    as Hapart.
  { apply (HeapFrame.apart frame_heap 4 9 (seq 0 5) (seq 5 5));
      [vm_compute; reflexivity|vm_compute; reflexivity|by_compute|by_compute
      |vm_compute; reflexivity]. }
  apply (proj2 (merge_source_unchanged (rt := cpython) 3 frame_heap 4 9
                  (Some (py "P")) true None Hapart)).
  vm_compute. reflexivity.
Defined.

(** C5, counterexample: a tree is merged into itself with a comment
    prefix.  The merge works on a copy of the source, and still changes the
    source, which is the target: its node has the prefix as its comment
    afterwards. *)
Lemma merge_source_counterexample :
  Heap.tree_at 2 alias_heap 2 = Some (Tree [[(py "C", VStr [])]] [])
  /\ (Heap.GameTree_merge (rt := cpython) 2 2 2 (Some (py "P")) true None
        alias_heap).1 = Ok tt
  /\ Heap.tree_at 2
       (Heap.GameTree_merge (rt := cpython) 2 2 2 (Some (py "P")) true None
          alias_heap).2 2
     = Some (Tree [[(py "C", VStr [80; 10]%N)]] []).
Proof. repeat split; vm_compute; reflexivity. Qed.

(** * The other methods of the trees, the nodes and the parser *)

(** ** Normal form and the main line *)

Lemma normalize_from_nodes (g : GameTree) :
  forall before, all_nodes (normalize_from before g) = before ++ all_nodes g.
Proof.
  induction g as [ns bs IH] using GameTree_ind'. intros before.
  destruct bs as [|b1 [|b2 bs]].
  - cbn. by rewrite !app_nil_r.
  - cbn [normalize_from all_nodes flat_map]. apply Forall_cons in IH as [IH _].
    by rewrite IH, app_nil_r, app_assoc.
  - cbn [normalize_from all_nodes]. rewrite <- app_assoc. do 2 f_equal.
    induction IH as [|b bs' Hb _ IHbs]; [done|].
    cbn [map flat_map]. by rewrite Hb, IHbs.
Qed.

(** X1: [GameTree.normalize] drops no node and changes no order: the
    nodes of the normalized tree, trunk first and then each branch, are
    those of the tree. *)
Theorem normalize_keeps_nodes (g : GameTree) :
  all_nodes (normalize g) = all_nodes g.
Proof. apply normalize_from_nodes. Qed.

Lemma normalize_of_normal (g : GameTree) : normal g = true -> normalize g = g.
Proof.
  unfold normalize. induction g as [ns bs IH] using GameTree_ind'.
  cbn [normal]. rewrite andb_true_iff, negb_true_iff. intros [Hlen Hbs].
  destruct bs as [|b1 [|b2 bs]]; [done|done|].
  cbn [normalize_from app]. f_equal.
  rewrite forallb_forall in Hbs.
  rewrite <- (map_id (b1 :: b2 :: bs)) at 2. apply map_ext_in. intros b Hb.
  apply (proj1 (Forall_forall _ _) IH); [by apply list_elem_of_In|by apply Hbs].
Qed.

(** X2: [GameTree.normalize] leaves a tree in normal form as it is, and
    so normalizing twice is normalizing once. *)
Theorem normalize_idempotent (g : GameTree) :
  (normal g = true -> normalize g = g)
  /\ normalize (normalize g) = normalize g.
Proof.
  split; [apply normalize_of_normal|]. apply normalize_of_normal, normalize_normal.
Qed.

Lemma trunk_branches (g : GameTree) : branches g = [] -> trunk g = g.
Proof. destruct g as [ns bs]. cbn. by intros ->. Qed.

Lemma normalize_from_trunk (g : GameTree) :
  forall before,
  nodes (trunk (normalize_from before g)) = before ++ nodes (trunk g).
Proof.
  induction g as [ns bs IH] using GameTree_ind'. intros before.
  destruct bs as [|b1 [|b2 bs]].
  - done.
  - cbn [normalize_from trunk nodes]. apply Forall_cons in IH as [IH _].
    by rewrite IH, <- app_assoc.
  - cbn [normalize_from trunk nodes map]. apply Forall_cons in IH as [IH _].
    by rewrite IH, <- app_assoc.
Qed.

(** X3: [GameTree.trunk] returns a tree without branches, which is its
    own trunk; and [GameTree.normalize] keeps the main line: the trunk of
    the normalized tree has the nodes of the trunk of the tree. *)
Theorem trunk_main_line (g : GameTree) :
  branches (trunk g) = []
  /\ trunk (trunk g) = trunk g
  /\ nodes (trunk (normalize g)) = nodes (trunk g).
Proof.
  assert (branches (trunk g) = []) as Hb by (by destruct g as [ns [|b bs]]).
  split; [done|]. split; [by apply trunk_branches|]. apply normalize_from_trunk.
Qed.

(** ** The empty tree in a merge *)

Section EmptyMerge.
Context {rt : PyRuntime}.

(** X4: merging a tree without nodes and without branches into a tree
    leaves the tree as it is, whatever the prefix and the rules to ignore. *)
Theorem merge_empty_source (self : GameTree) (comment : option pystr)
    (comments_everywhere : bool)
    (ignore_property_values : option (list (pystr * list ignore_value))) :
  GameTree_merge self (Tree [] []) comment comments_everywhere ignore_property_values
  = Ok self.
Proof.
  destruct self as [ns bs]. unfold GameTree_merge.
  cbn [tree_size length map list_sum Nat.add Nat.mul GameTree_merge_fuel].
  unfold GameTree_merge_body. cbn [nodes branches].
  assert (trunk_walk ns [] comment comments_everywhere ignore_property_values
          = Ok (Exhausted [] ns [])) as -> by (by destruct ns).
  cbn [mbind result_bind app]. rewrite decide_nil_nil.
  destruct ns as [|n ns].
  - rewrite decide_nil_nil. cbn [negb]. destruct bs as [|b bs].
    + by rewrite decide_nil_nil.
    + rewrite decide_cons_nil. cbn [length Nat.ltb Nat.leb mbind result_bind branches].
      by rewrite decide_nil_nil.
  - rewrite decide_cons_nil. cbn [negb]. by rewrite decide_nil_nil.
Qed.

(** X5: merging a tree into a tree without nodes and without branches
    makes it the source, with the prefix, when one is given, on the comment
    of its first node. *)
Theorem merge_into_empty (other : GameTree) (comment : option pystr)
    (comments_everywhere : bool)
    (ignore_property_values : option (list (pystr * list ignore_value))) :
  GameTree_merge (Tree [] []) other comment comments_everywhere ignore_property_values
  = match nodes other with
    | first :: rest =>
        first' ← Node_prefix_comment first comment;
        Ok (Tree (first' :: rest) (branches other))
    | [] => Ok other
    end.
Proof.
  destruct other as [ons obs]. unfold GameTree_merge.
  replace (2 * tree_size (Tree ons obs) + 2)%nat
    with (S (2 * tree_size (Tree ons obs) + 1))%nat by lia.
  cbn [GameTree_merge_fuel]. unfold GameTree_merge_body.
  cbn [nodes branches trunk_walk mbind result_bind app].
  rewrite !decide_nil_nil. cbn [negb].
  destruct ons as [|first rest]; [done|].
  by destruct (Node_prefix_comment first comment).
Qed.

End EmptyMerge.

(** ** Equivalent nodes *)

(** X6: when [Node.equivalent] returns, it returns the same for the two
    nodes the other way round. *)
Theorem equivalent_symmetric (self other : Node) (r : bool) :
  equivalent self other = Ok r -> equivalent other self = Ok r.
Proof.
  unfold equivalent.
  destruct (node_type self) as [[ts|]|]; destruct (node_type other) as [[to|]|];
    cbn [mbind result_bind]; try done.
  destruct (decide (ts = to)) as [<-|Hne].
  - rewrite !bool_decide_eq_true_2 by done. cbn [negb].
    destruct (bool_decide (ts = move)); [|done].
    destruct (length (players self) =? 1)%nat eqn:Es; [|done].
    destruct (length (players other) =? 1)%nat eqn:Eo; [|done]. cbn [negb].
    destruct (decide (players self = players other)) as [Heq|Hne].
    + rewrite !bool_decide_eq_true_2 by done. cbn [negb]. rewrite <- Heq.
      destruct (players self) as [|player ?]; [done|].
      destruct (decide (dict_get player self = dict_get player other)) as [Hv|Hv].
      * by rewrite !bool_decide_eq_true_2.
      * rewrite (bool_decide_eq_false_2 (dict_get player self = _)) by done.
        rewrite (bool_decide_eq_false_2 (dict_get player other = _)) by congruence.
        done.
    + rewrite (bool_decide_eq_false_2 (players self = players other)) by done.
      rewrite (bool_decide_eq_false_2 (players other = players self)) by congruence.
      done.
  - rewrite (bool_decide_eq_false_2 (ts = to)) by done.
    rewrite (bool_decide_eq_false_2 (to = ts)) by congruence. done.
Qed.

(** X6, witness: a black move and a white move are not equivalent, either
    way round. *)
Lemma equivalent_symmetric_witness :
  equivalent (scalar_node "W" "bb") (scalar_node "B" "aa") = Ok false.
Proof.
  apply (equivalent_symmetric (scalar_node "B" "aa") (scalar_node "W" "bb")).
  vm_compute. reflexivity.
Defined.

(** ** The properties that [Node.merge] leaves alone *)

(** X7: [Node.merge] leaves alone the properties of the target that the
    source does not have: each has its value, or is absent, as before. *)
Theorem Node_merge_keeps_other_properties {rt : PyRuntime} (self other merged : Node)
    (comment : option pystr) (comments_everywhere : bool)
    (ignore_property_values : option (list (pystr * list ignore_value)))
    (property_id : pystr) :
  Node_merge self other comment comments_everywhere ignore_property_values = Ok merged ->
  property_id ∉ keys other ->
  dict_get property_id merged = dict_get property_id self.
Proof.
  rewrite Node_merge_items. apply merge_items_other_keys.
Qed.

(** X7, witness: the result of the game is merged, the komi of the target
    stays. *)
Lemma Node_merge_keeps_other_properties_witness :
  dict_get (py "KM")
    (scalar_node "KM" "6.5" ++ scalar_node "RE" "B+R")
  = dict_get (py "KM") (scalar_node "KM" "6.5").
Proof.
  apply (Node_merge_keeps_other_properties (rt := cpython)
           (scalar_node "KM" "6.5") (scalar_node "RE" "B+R") _ None true None).
  - vm_compute. reflexivity.
  - by_compute.
Defined.

(** ** The depth of the recursion *)

(** X8: the recursion of [GameTree.merge] into the branches ends: with
    two rounds for each node and tree of the source, and two more, the merge
    returns or raises an exception of the code; and so does
    [Collection.merge]. *)
Theorem merge_recursion_ends {rt : PyRuntime} (self other : GameTree)
    (collection other_collection : Collection)
    (comment : option pystr) (comments_everywhere : bool)
    (ignore_property_values : option (list (pystr * list ignore_value))) :
  GameTree_merge_fuel (2 * tree_size other + 2) self other comment comments_everywhere
    ignore_property_values <> Err OutOfFuel
  /\ Collection_merge collection other_collection comment comments_everywhere
       ignore_property_values <> Err OutOfFuel.
Proof.
  split; [apply GameTree_merge_finishes|apply Collection_merge_finishes].
Qed.

(** ** Properties as attributes *)

Lemma dict_get_del_eq (k : pystr) (d : Node) :
  NoDup (keys d) -> dict_get k (dict_del k d) = None.
Proof.
  induction d as [|[k0 v0] d IH]; [done|]. cbn [keys map fst dict_del].
  rewrite NoDup_cons. intros [Hk0 Hd]. destruct (str_eqb k k0) eqn:E.
  - apply str_eqb_true in E as ->. by apply dict_get_None.
  - cbn [dict_get]. rewrite E. by apply IH.
Qed.

Lemma names_get_elem (name key : pystr) (table : list (pystr * pystr)) :
  names_get name table = Some key -> (name, key) ∈ table.
Proof.
  induction table as [|[k v] table IH]; [done|]. cbn [names_get].
  destruct (str_eqb name k) eqn:E.
  - apply str_eqb_true in E as ->. intros [= ->]. left.
  - intros H. right. by apply IH.
Qed.

(** X9: [Node.resolve_property_id] gives, for the ID of a property, the ID
    itself, and for its name, its ID; what it returns for any name is an ID,
    which resolves to itself. *)
Theorem resolve_property_id_known :
  (forall key name,
     (key, name) ∈ property_ids ->
     resolve_property_id key = Returned key
     /\ resolve_property_id name = Returned key)
  /\ (forall name key,
        resolve_property_id name = Returned key ->
        key ∈ map fst property_ids /\ resolve_property_id key = Returned key).
Proof.
  assert (forallb resolves property_ids = true) as Hall by (vm_compute; reflexivity).
  assert (forall key, key ∈ map fst property_ids ->
                      resolve_property_id key = Returned key) as Hid.
  { intros key Hkey. unfold resolve_property_id.
    by rewrite (proj2 (str_in_true _ _) Hkey). }
  split.
  - intros key name Hin. rewrite forallb_forall in Hall.
    specialize (Hall (key, name) (proj1 (list_elem_of_In _ _) Hin)).
    unfold resolves in Hall. cbn [fst snd] in Hall.
    destruct (resolve_property_id key) as [k|]; [|done].
    destruct (resolve_property_id name) as [k'|]; [|done].
    apply andb_true_iff in Hall as [H1 H2].
    by apply str_eqb_true in H1 as ->; apply str_eqb_true in H2 as ->.
  - intros name key. unfold resolve_property_id at 1.
    destruct (str_in name (map fst property_ids)) eqn:E.
    + intros [= <-]. apply str_in_true in E. auto.
    + destruct (names_get name property_names) as [k|] eqn:En; [|done].
      intros [= <-]. apply names_get_elem in En.
      assert (forallb (fun entry => str_in entry.2 (map fst property_ids))
                property_names = true) as Hnames by (vm_compute; reflexivity).
      rewrite forallb_forall in Hnames.
      specialize (Hnames (name, k) (proj1 (list_elem_of_In _ _) En)).
      cbn [snd] in Hnames. apply str_in_true in Hnames. auto.
Qed.

(** X10: a value set as an attribute, under the ID of a property or under
    its name, is stored under the ID, and is read back as an attribute under
    either. *)
Theorem setattr_then_getattr (self : Node) (name name' key : pystr) (v : value) :
  resolve_property_id name = Returned key ->
  resolve_property_id name' = Returned key ->
  exists self',
    Node_setattr self name v = Returned self'
    /\ dict_get key self' = Some v
    /\ Node_getattr self' name' = Returned v.
Proof.
  intros Hname Hname'. exists (dict_set key v self). unfold Node_setattr, Node_getattr.
  rewrite Hname, Hname', dict_get_set_eq. done.
Qed.

(** X10, witness: the komi set as [komi] is read back as [KM]. *)
Lemma setattr_then_getattr_witness :
  exists self',
    Node_setattr (scalar_node "B" "aa") (py "komi") (VStr (py "6.5")) = Returned self'
    /\ dict_get (py "KM") self' = Some (VStr (py "6.5"))
    /\ Node_getattr self' (py "KM") = Returned (VStr (py "6.5")).
Proof.
  apply (setattr_then_getattr (scalar_node "B" "aa") (py "komi") (py "KM") (py "KM"));
    vm_compute; reflexivity.
Defined.

(** X11: deleting an attribute that the node holds removes the property
    and no other, and reading it afterwards raises [PropertyError]; deleting
    one that the node does not hold raises [PropertyError] as well. *)
Theorem delattr_then_getattr (self : Node) (name key : pystr) :
  NoDup (keys self) ->
  resolve_property_id name = Returned key ->
  match Node_delattr self name with
  | Returned self' =>
      dict_in key self = true
      /\ Node_getattr self' name
         = Raised (if str_eqb name key then PropertyError_no_id name
                   else PropertyError_no_property name key)
      /\ forall k, k <> key -> dict_get k self' = dict_get k self
  | Raised e =>
      dict_in key self = false
      /\ e = (if str_eqb name key then PropertyError_no_id name
              else PropertyError_no_property name key)
  end.
Proof.
  intros Hdup Hname. unfold Node_delattr, Node_getattr. rewrite Hname.
  destruct (dict_in key self) eqn:Ein.
  - split; [done|]. rewrite dict_get_del_eq by done. split; [by destruct (str_eqb _ _)|].
    intros k Hk. by apply dict_get_del_ne.
  - by destruct (str_eqb name key).
Qed.

(** X11, witness: a move without its coordinates. *)
Lemma delattr_then_getattr_witness :
  match Node_delattr (scalar_node "B" "aa" ++ scalar_node "C" "hi") (py "black") with
  | Returned self' =>
      dict_in (py "B") (scalar_node "B" "aa" ++ scalar_node "C" "hi") = true
      /\ Node_getattr self' (py "black")
         = Raised (if str_eqb (py "black") (py "B")
                   then PropertyError_no_id (py "black")
                   else PropertyError_no_property (py "black") (py "B"))
      /\ forall k, k <> py "B" ->
                   dict_get k self'
                   = dict_get k (scalar_node "B" "aa" ++ scalar_node "C" "hi")
  | Raised e =>
      dict_in (py "B") (scalar_node "B" "aa" ++ scalar_node "C" "hi") = false
      /\ e = (if str_eqb (py "black") (py "B")
              then PropertyError_no_id (py "black")
              else PropertyError_no_property (py "black") (py "B"))
  end.
Proof.
  apply (delattr_then_getattr (scalar_node "B" "aa" ++ scalar_node "C" "hi")
           (py "black") (py "B")).
  - by_compute.
  - vm_compute. reflexivity.
Defined.

(** ** Searching a tree *)

Lemma search_nodes_raises (n : Node) (ns : list Node) (pid : pystr) (getall : bool)
    (matches : list Node) :
  search_nodes (n :: ns) pid getall matches
  = Raised (PropertyError_unknown (py "has_key")).
Proof. reflexivity. Qed.

(** X12: [GameTree.property_search] finds nothing: for a tree that holds a
    node, at any depth, it raises the [PropertyError] for the name
    [has_key], which no [Node] has; for a tree without any node it returns
    the empty tree. *)
Theorem property_search_finds_nothing (self : GameTree) (pid : pystr)
    (getall : bool) :
  property_search self pid getall
  = if bool_decide (all_nodes self = []) then Returned (Tree [] [])
    else Raised (PropertyError_unknown (py "has_key")).
Proof.
  induction self as [ns bs IH] using GameTree_ind'.
  cbn [property_search all_nodes]. destruct ns as [|n ns].
  - cbn [search_nodes app].
    assert (forall matches,
              matches = [] ->
              search_branches (fun v => property_search v pid getall) getall bs matches
              = if bool_decide (flat_map all_nodes bs = []) then Returned []
                else Raised (PropertyError_unknown (py "has_key"))) as Heach.
    { induction IH as [|b bs' Hb _ IHbs]; intros matches ->; [done|].
      cbn [search_branches].
      rewrite Hb. cbn [flat_map]. destruct (decide (all_nodes b = [])) as [Eb|Eb].
      - rewrite (bool_decide_eq_true_2 _ Eb), Eb. cbn [app nodes].
        rewrite decide_nil_nil, andb_false_r. by apply IHbs.
      - rewrite (bool_decide_eq_false_2 _ Eb). rewrite bool_decide_eq_false_2; [done|].
        intros Happ. by apply app_eq_nil in Happ as [? _]. }
    rewrite (Heach [] eq_refl). by case_bool_decide.
  - rewrite search_nodes_raises. cbn [app]. by rewrite decide_cons_nil.
Qed.

(** ** What the parser returns *)

(** X13: [Parser.parse] returns a collection or raises a parse error or
    the error of a codec, on every input.  In a collection that it returns,
    every game and every branch starts with a node, the ID of every property
    is made of letters and occurs once in its node, a list property holds a
    non-empty list and any other one a string, [CA] holds the name of the
    output encoding, and the values that are not text are ASCII. *)
Theorem parse_returns_well_formed {rt : PyRuntime} (data : bytes) :
  match parse data with
  | Ok collection => parsed_trees collection = true
  | Err e => parser_error e = true
  end.
Proof.
  unfold parse.
  pose proof (parse_loop_spec (S (length data)) [] (mkParser data (py "latin-1"))
                ltac:(simpl; lia) eq_refl) as H.
  destruct (parse_loop _ _ _) as [[collection p']|e]; [|done]. by destruct H as [H _].
Qed.

(** X14: a value is read back from what [Node.__bytes__] writes for it:
    the bytes of the escaped text between brackets are parsed as one value,
    the bytes of the text itself, whatever the text holds (brackets,
    backslashes, line breaks), and the parser stops after the closing
    bracket. *)
Theorem escaped_value_read_back (text : pystr) (data r : bytes)
    (encoding : pystr) :
  utf8_encode (escape_text text) = Some data ->
  property_start r = None ->
  exists raw,
    utf8_encode text = Some raw
    /\ parse_property_value (mkParser (x5b :: data ++ x5d :: r) encoding)
       = Ok ([raw], mkParser r encoding).
Proof.
  rewrite escape_text_flat_map. intros Hdata Hr.
  apply utf8_encode_escaped in Hdata as (raw & Hraw & ->).
  exists raw. split; [done|]. unfold parse_property_value. cbn [rest].
  pose proof (property_values_escaped
                (S (length (x5b :: flat_map escaped_byte raw ++ x5d :: r)))
                [raw] [] r) as H.
  unfold values_bytes in H. cbn [map concat] in H. rewrite app_nil_r in H.
  cbn [app] in H. rewrite <- app_assoc in H. cbn [app] in H.
  rewrite H; [done| |done]. cbn [length]. lia.
Qed.

(** X14, witness: the comment [a]b\c], after which the node ends. *)
Lemma escaped_value_read_back_witness :
  exists raw,
    utf8_encode (py "a]b\c") = Some raw
    /\ parse_property_value
         (mkParser (x5b :: pyb "a\]b\\c" ++ x5d :: pyb ")") (py "latin-1"))
       = Ok ([raw], mkParser (pyb ")") (py "latin-1")).
Proof.
  apply (escaped_value_read_back (py "a]b\c") (pyb "a\]b\\c") (pyb ")")
           (py "latin-1")); vm_compute; reflexivity.
Defined.

(** ** The parser of the root node *)

Section RootParser.
Context {rt : PyRuntime}.

(** With [Parser.parse_node], the methods are those of [Parser]. *)
Lemma tree_loops_with_parse_node (fuel : nat) :
  (forall g p,
     parse_game_tree_loop_with parse_node fuel g p = parse_game_tree_loop fuel g p)
  /\ (forall v p,
        parse_branches_loop_with parse_node fuel v p = parse_branches_loop fuel v p).
Proof.
  induction fuel as [|fuel [IHg IHb]]; [done|]. split.
  - intros g p. cbn [parse_game_tree_loop_with parse_game_tree_loop].
    destruct (bool_decide (rest p = [])); [done|].
    destruct (game_tree_next (rest p)) as [[group data]|]; [|done].
    destruct (bool_decide (group = x3b)).
    + destruct (negb _); [done|].
      destruct (parse_node (set_rest p data)) as [[node p1]|]; [|done].
      cbn [mbind result_bind]. apply IHg.
    + destruct (bool_decide (group = x28)); [|done]. rewrite IHb.
      destruct (parse_branches_loop fuel [] (set_rest p data)) as [[v p1]|]; [|done].
      cbn [mbind result_bind]. apply IHg.
  - intros v p. cbn [parse_branches_loop_with parse_branches_loop].
    destruct (bool_decide (rest p = [])); [done|].
    destruct (game_tree_end (rest p)); [done|]. rewrite IHg.
    destruct (parse_game_tree_loop fuel (Tree [] []) p) as [[g p1]|]; [|done].
    cbn [mbind result_bind]. apply IHb.
Qed.

Lemma parse_loop_with_parse_node (fuel : nat) (collection : Collection) (p : Parser) :
  parse_loop_with parse_node fuel collection p = parse_loop fuel collection p.
Proof.
  revert collection p. induction fuel as [|fuel IH]; intros collection p; [done|].
  cbn [parse_loop_with parse_loop]. destruct (bool_decide (rest p = [])); [done|].
  unfold parse_one_game_with, parse_one_game, parse_game_tree_with, parse_game_tree.
  destruct (negb _); [|done].
  destruct (game_tree_start (rest p)) as [data|]; [|done].
  rewrite (proj1 (tree_loops_with_parse_node _)).
  destruct (parse_game_tree_loop _ _ _) as [[g p1]|]; [|done].
  cbn [mbind result_bind]. destruct g as [[|n ns] bs]; [done|]. apply IH.
Qed.

Lemma parse_with_parse_node (data : bytes) : parse_with parse_node data = parse data.
Proof. unfold parse_with, parse. by rewrite parse_loop_with_parse_node. Qed.

(** [parse_branches] returns in front of a closing parenthesis. *)
Lemma parse_branches_loop_end (fuel : nat) (v v' : list GameTree) (p p' : Parser) :
  parse_branches_loop fuel v p = Ok (v', p') -> is_Some (game_tree_end (rest p')).
Proof.
  revert v p. induction fuel as [|fuel IH]; intros v p; [done|].
  cbn [parse_branches_loop]. destruct (bool_decide (rest p = [])); [done|].
  destruct (game_tree_end (rest p)) eqn:Eend.
  { intros [= _ <-]. by rewrite Eend. }
  destruct (parse_game_tree_loop fuel _ p) as [[g p1]|]; [|done].
  cbn [mbind result_bind]. apply IH.
Qed.

Lemma game_tree_end_next (data r : bytes) :
  game_tree_end data = Some r -> game_tree_next data = Some (x29, r).
Proof.
  unfold game_tree_end, after_space, game_tree_next.
  destruct (skip_space data) as [|b r']; [done|].
  case_bool_decide as Hb; [|done]. intros [= <-]. subst b. done.
Qed.

(** The nodes that [parse_game_tree] has when it starts are the first ones
    of its result. *)
Lemma parse_game_tree_loop_grows (fuel : nat) (g g' : GameTree) (p p' : Parser) :
  parse_game_tree_loop fuel g p = Ok (g', p') ->
  exists more, nodes g' = nodes g ++ more.
Proof.
  revert g p. induction fuel as [|fuel IH]; intros g p; [done|].
  cbn [parse_game_tree_loop]. case_bool_decide.
  { intros [= <- _]. exists []. by rewrite app_nil_r. }
  destruct (game_tree_next (rest p)) as [[b data]|]; [|done].
  case_bool_decide.
  - destruct (negb _); [done|].
    destruct (parse_node (set_rest p data)) as [[node p1]|]; [|done].
    cbn [mbind result_bind]. intros Hl. apply IH in Hl as [more Hm]. cbn [nodes] in Hm.
    exists (node :: more). by rewrite Hm, <- app_assoc.
  - case_bool_decide.
    + destruct (parse_branches_loop fuel [] _) as [[v p1]|]; [|done].
      cbn [mbind result_bind]. intros Hl. by apply IH in Hl.
    + intros [= <- _]. exists []. by rewrite app_nil_r.
Qed.

(** A tree that [parse_game_tree] returns with a node: the data started
    with that node. *)
Lemma parse_game_tree_loop_first (fuel : nat) (bs : list GameTree) (p p' : Parser)
    (n : Node) (ns : list Node) :
  parse_game_tree_loop fuel (Tree [] []) p = Ok (Tree (n :: ns) bs, p') ->
  rest p <> []
  /\ exists data p1,
       game_tree_next (rest p) = Some (x3b, data)
       /\ parse_node (set_rest p data) = Ok (n, p1).
Proof.
  destruct fuel as [|fuel]; [done|]. cbn [parse_game_tree_loop].
  case_bool_decide as Hrest; [done|]. intros Hl. split; [done|]. revert Hl.
  destruct (game_tree_next (rest p)) as [[b data]|]; [|done].
  case_bool_decide as Hsemi.
  - subst b. cbn [branches negb]. rewrite decide_nil_nil. cbn [negb].
    destruct (parse_node (set_rest p data)) as [[node p1]|] eqn:Hn; [|done].
    cbn [mbind result_bind]. intros Hl. apply parse_game_tree_loop_grows in Hl as [more Hm].
    cbn [nodes app] in Hm. injection Hm as -> _. by exists data, p1.
  - case_bool_decide; [|done].
    destruct (parse_branches_loop fuel [] _) as [[v p1]|] eqn:Eb; [|done].
    cbn [mbind result_bind]. apply parse_branches_loop_end in Eb as [r Hend].
    destruct fuel as [|fuel]; [done|]. cbn [parse_game_tree_loop].
    case_bool_decide; [done|]. rewrite (game_tree_end_next _ _ Hend).
    rewrite (bool_decide_eq_false_2 (x29 = x3b)) by done.
    by rewrite (bool_decide_eq_false_2 (x29 = x28)) by done.
Qed.

(** The games that [parse] has when it starts are the first ones of its
    result. *)
Lemma parse_loop_games (fuel : nat) (collection collection' : Collection) (p p' : Parser) :
  parse_loop fuel collection p = Ok (collection', p') ->
  exists more, collection' = collection ++ more.
Proof.
  revert collection p. induction fuel as [|fuel IH]; intros collection p; [done|].
  cbn [parse_loop]. case_bool_decide.
  { intros [= <- _]. exists []. by rewrite app_nil_r. }
  destruct (parse_one_game p) as [[game p1]|]; [|done]. cbn [mbind result_bind].
  destruct game as [[[|n ns] bs]|]; try (intros [= <- _]; exists []; by rewrite app_nil_r).
  intros Hl. apply IH in Hl as [more ->]. exists (Tree (n :: ns) bs :: more).
  by rewrite <- app_assoc.
Qed.

(** The two loops of a [RootNodeParser]: the branches never get a tree,
    and a tree gets one node, at the end of the data, or none. *)
Lemma root_loops_spec (fuel : nat) :
  (forall g p,
     (2 * length (rest p) + 1 <= fuel)%nat ->
     match parse_game_tree_loop_with RootNodeParser_parse_node fuel g p with
     | Ok (g', p') =>
         nodes g' = nodes g /\ (rest p = [] \/ closes (rest p) (rest p'))
         \/ exists n, g' = Tree (nodes g ++ [n]) [] /\ rest p' = []
                      /\ parsed_node n = true
     | Err e => parser_error e = true
     end)
  /\ (forall v p,
        (2 * length (rest p) + 2 <= fuel)%nat ->
        match parse_branches_loop_with RootNodeParser_parse_node fuel v p with
        | Ok (v', p') =>
            v' = v /\ (exists c, rest p = c ++ rest p')
            /\ is_Some (game_tree_end (rest p'))
        | Err e => parser_error e = true
        end).
Proof.
  induction fuel as [|fuel [IHg IHb]]; [split; intros; lia|]. split.
  - intros g p Hfuel. cbn [parse_game_tree_loop_with]. case_bool_decide as Hrest; [by auto|].
    destruct (game_tree_next (rest p)) as [[b data]|] eqn:En; [|done].
    apply game_tree_next_spec in En as ((ws & Hdata & _) & Hb).
    assert (length data < length (rest p))%nat as Hlen.
    { rewrite Hdata, length_app. simpl. lia. }
    case_bool_decide as Hsemi.
    + destruct g as [ns bs]. cbn [branches nodes]. destruct bs as [|b0 bs]; [|done].
      rewrite decide_nil_nil. cbn [negb]. unfold RootNodeParser_parse_node.
      pose proof (parse_node_spec (set_rest p data)) as Hn.
      destruct (parse_node (set_rest p data)) as [[node p1]|e]; [|done].
      cbn [mbind result_bind]. destruct Hn as (Hnode & _).
      destruct fuel as [|fuel]; [lia|]. cbn [parse_game_tree_loop_with].
      cbn [set_rest rest]. case_bool_decide; [|done]. right. by exists node.
    + case_bool_decide as Hopen.
      * specialize (IHb [] (set_rest p data)).
        destruct (parse_branches_loop_with _ fuel [] _) as [[v p1]|e];
          [|apply IHb; simpl; lia].
        cbn [mbind result_bind].
        destruct IHb as (-> & [c Hc] & Hend); [simpl; lia|]. simpl in Hc.
        destruct Hend as [r Hend]. pose proof Hend as Hr.
        apply after_space_spec in Hr as (ws' & Hr & _).
        destruct fuel as [|fuel]; [lia|]. cbn [parse_game_tree_loop_with].
        rewrite (bool_decide_eq_false_2 (rest p1 = [])) by (rewrite Hr; by destruct ws').
        rewrite (game_tree_end_next _ _ Hend).
        rewrite (bool_decide_eq_false_2 (x29 = x3b)) by done.
        rewrite (bool_decide_eq_false_2 (x29 = x28)) by done.
        left. split; [done|]. right. cbn [set_rest rest].
        exists (ws ++ b :: c ++ ws'). rewrite Hdata, Hc, Hr.
        by rewrite <- !app_assoc, <- !app_comm_cons, <- !app_assoc.
      * left. split; [done|]. right. destruct Hb as [?|[?| ->]]; try done.
        exists ws. by rewrite Hdata.
  - intros v p Hfuel. cbn [parse_branches_loop_with]. case_bool_decide as Hrest; [done|].
    destruct (game_tree_end (rest p)) eqn:Eend.
    { split; [done|]. split; [by exists []|]. by rewrite Eend. }
    specialize (IHg (Tree [] []) p).
    destruct (parse_game_tree_loop_with _ fuel _ p) as [[g p1]|e]; [|apply IHg; lia].
    cbn [mbind result_bind]. destruct IHg as [[Hg Hcl]|(n & -> & Hnil & _)]; [lia| |].
    + destruct Hcl as [?|Hcl]; [done|]. cbn [nodes] in Hg. rewrite Hg, decide_nil_nil.
      cbn [negb].
      pose proof (closes_length _ _ Hcl) as Hlen. destruct Hcl as [c Hc].
      set (p2 := match game_tree_start (rest p1) with
                 | Some data => set_rest p1 data
                 | None => p1
                 end).
      assert (exists c', rest p1 = c' ++ rest p2) as [c' Hc'].
      { unfold p2. destruct (game_tree_start (rest p1)) as [data|] eqn:Es; [|by exists []].
        apply after_space_spec in Es as (ws & -> & _). exists (ws ++ [x28]).
        by rewrite <- app_assoc. }
      assert (length (rest p2) <= length (rest p1))%nat.
      { rewrite Hc', length_app. lia. }
      specialize (IHb v p2).
      destruct (parse_branches_loop_with _ fuel _ p2) as [[v' p']|e]; [|apply IHb; lia].
      destruct IHb as (Hv' & [c'' Hc''] & Hend); [lia|].
      repeat split; try done. exists (c ++ x29 :: c' ++ c'').
      by rewrite Hc, Hc', Hc'', <- !app_assoc, <- !app_comm_cons, <- !app_assoc.
    + rewrite Hnil. cbn [game_tree_start after_space skip_space].
      destruct fuel as [|fuel]; [lia|]. cbn [parse_branches_loop_with].
      by rewrite (bool_decide_eq_true_2 (rest p1 = [])) by done.
Qed.

(** X15: a [RootNodeParser] returns no game, or one game that is one node
    (a node as [parse_node] builds them) with no branches; it fails with an
    error of the parser, and its loops end. *)
Theorem RootNodeParser_parse_one_node (data : bytes) :
  match RootNodeParser_parse data with
  | Ok collection =>
      collection = [] \/ exists n, collection = [Tree [n] []] /\ parsed_node n = true
  | Err e => parser_error e = true
  end.
Proof.
  unfold RootNodeParser_parse, parse_with.
  cbn [parse_loop_with rest]. case_bool_decide as Hrest; [by left|].
  unfold parse_one_game_with. cbn [rest]. rewrite (bool_decide_eq_false_2 _ Hrest).
  cbn [negb]. destruct (game_tree_start data) as [d1|] eqn:Es; [|by left].
  unfold parse_game_tree_with.
  pose proof (proj1 (root_loops_spec (tree_fuel d1)) (Tree [] [])
                (set_rest (mkParser data (py "latin-1")) d1)) as Hg.
  cbn [set_rest rest] in *.
  destruct (parse_game_tree_loop_with _ _ _ _) as [[g p1]|e]; cbn [mbind result_bind];
    [|apply Hg; unfold tree_fuel; lia].
  destruct Hg as [[Hg _]|(n & -> & Hnil & Hn)]; [unfold tree_fuel; lia| |].
  - destruct g as [ns bs]. cbn [nodes] in Hg. subst ns. by left.
  - cbn [app]. apply after_space_spec in Es as (ws & Hdata & _).
    destruct (length data) as [|len] eqn:El.
    { by destruct data. }
    cbn [parse_loop_with]. rewrite (bool_decide_eq_true_2 _ Hnil). cbn [mbind result_bind].
    right. by exists n.
Qed.

(** X16: when [Parser] reads a collection from the data, a
    [RootNodeParser] reads from them the first node of its first game, alone
    in a game. *)
Theorem RootNodeParser_parse_first_node (data : bytes) (n : Node) (ns : list Node)
    (bs : list GameTree) (games : Collection) :
  parse data = Ok (Tree (n :: ns) bs :: games) ->
  RootNodeParser_parse data = Ok [Tree [n] []].
Proof.
  unfold parse, RootNodeParser_parse, parse_with.
  cbn [parse_loop parse_loop_with rest]. case_bool_decide as Hrest; [done|].
  unfold parse_one_game, parse_one_game_with. cbn [rest].
  rewrite (bool_decide_eq_false_2 _ Hrest). cbn [negb].
  destruct (game_tree_start data) as [d1|] eqn:Es; [|done].
  unfold parse_game_tree, parse_game_tree_with. cbn [set_rest rest].
  destruct (parse_game_tree_loop _ _ _) as [[g p1]|] eqn:Eg; [|done].
  cbn [mbind result_bind]. destruct g as [[|n' ns'] bs']; [done|].
  destruct (parse_loop _ _ p1) as [[collection p2]|] eqn:El; [|done].
  cbn [mbind result_bind]. intros [= ->].
  apply parse_loop_games in El as [more [= -> -> -> _]].
  apply parse_game_tree_loop_first in Eg as (_ & d2 & p3 & En & Hn).
  unfold tree_fuel. replace (2 * length d1 + 2)%nat with (S (S (2 * length d1))) by lia.
  cbn [parse_game_tree_loop_with rest] in *.
  assert (d1 <> []) as Hd1 by (intros ->; done).
  rewrite (bool_decide_eq_false_2 _ Hd1), En.
  rewrite (bool_decide_eq_true_2 (x3b = x3b)) by done. cbn [branches nodes app].
  rewrite decide_nil_nil. cbn [negb]. unfold RootNodeParser_parse_node.
  cbn [set_rest] in Hn. rewrite Hn. cbn [mbind result_bind set_rest rest].
  case_bool_decide; [|done]. cbn [mbind result_bind].
  apply after_space_spec in Es as (ws & Hdata & _).
  destruct (length data) as [|len] eqn:Elen.
  { by destruct data. }
  cbn [parse_loop_with set_rest rest]. by case_bool_decide.
Qed.

End RootParser.

(** X16, witness: a game of two nodes. *)
Lemma RootNodeParser_parse_first_node_witness :
  RootNodeParser_parse (rt := cpython) (pyb "(;B[aa];W[bb])")
  = Ok [Tree [[(py "B", VStr (py "aa"))]] []].
Proof.
  apply (RootNodeParser_parse_first_node (rt := cpython) (pyb "(;B[aa];W[bb])")
           [(py "B", VStr (py "aa"))] [[(py "W", VStr (py "bb"))]] [] []).
  vm_compute. reflexivity.
Defined.

(** * The text of a collection and its pretty output *)

(** ** Text and bytes *)

Lemma encode_utf8 (text_property : bool) (text : pystr) (data : bytes) :
  encode text_property text = Ok data -> utf8_encode text = Some data.
Proof.
  unfold encode. destruct text_property.
  - by destruct (utf8_encode text) as [d|]; intros [= <-].
  - destruct (ascii_encode text) as [d|] eqn:E; intros [= <-].
    apply ascii_encode_spec in E as [Hascii ->]. by apply utf8_encode_ascii.
Qed.

Lemma utf8_encode_join (sep : pystr) (seps : bytes) (parts : list pystr)
    (datas : list bytes) :
  utf8_encode sep = Some seps ->
  Forall2 (fun text data => utf8_encode text = Some data) parts datas ->
  utf8_encode (join sep parts) = Some (join seps datas).
Proof.
  intros Hsep H. induction H as [|text data parts datas Ht H IH]; [done|].
  destruct H as [|text' data' parts datas Ht' H].
  - done.
  - change (join sep (text :: text' :: parts))
      with (text ++ sep ++ join sep (text' :: parts)).
    change (join seps (data :: data' :: datas))
      with (data ++ seps ++ join seps (data' :: datas)).
    by rewrite !utf8_encode_app, Ht, Hsep, IH.
Qed.

Lemma encode_items_utf8 (text_property : bool) (items : list pystr)
    (datas : list bytes) :
  encode_items text_property items = Ok datas ->
  Forall2 (fun text data => utf8_encode text = Some data) (map escape_text items) datas.
Proof.
  revert datas. induction items as [|item items IH]; intros datas.
  - intros [= <-]. constructor.
  - cbn [encode_items map].
    destruct (encode text_property (escape_text item)) as [d|] eqn:E; [|done].
    destruct (encode_items text_property items) as [ds|]; [|done].
    intros [= <-]. constructor; [by apply encode_utf8 in E|by apply IH].
Qed.

Lemma property_bytes_utf8 (item : pystr * value) (data : bytes) :
  property_bytes item = Ok data ->
  exists text, property_str item = Ok text /\ utf8_encode text = Some data.
Proof.
  destruct item as [name value]. unfold property_bytes, property_str.
  destruct (encode false name) as [nd|] eqn:En; [|done]. cbn [mbind result_bind].
  apply encode_utf8 in En.
  destruct (str_in name list_properties).
  - destruct (encode_items _ _) as [ds|] eqn:Ei; [|done]. cbn [mbind result_bind].
    intros [= <-]. eexists. split; [done|].
    apply encode_items_utf8 in Ei.
    rewrite !utf8_encode_app, En.
    by rewrite (utf8_encode_join (py "][") (pyb "][") _ ds eq_refl Ei).
  - destruct value as [text|items]; [|done].
    destruct (encode _ (escape_text text)) as [d|] eqn:Ev; [|done].
    cbn [mbind result_bind]. intros [= <-]. eexists. split; [done|].
    apply encode_utf8 in Ev. by rewrite !utf8_encode_app, En, Ev.
Qed.

Lemma properties_bytes_utf8 (items : Node) (data : bytes) :
  properties_bytes items = Ok data ->
  exists text, properties_str items = Ok text /\ utf8_encode text = Some data.
Proof.
  revert data. induction items as [|item items IH]; intros data.
  - intros [= <-]. by exists [].
  - cbn [properties_bytes properties_str].
    destruct (property_bytes item) as [d|] eqn:E; [|done].
    destruct (properties_bytes items) as [ds|]; [|done]. intros [= <-].
    apply property_bytes_utf8 in E as (t & -> & Ht).
    destruct (IH ds eq_refl) as (ts & -> & Hts). cbn [mbind result_bind].
    eexists. split; [done|]. by rewrite utf8_encode_app, Ht, Hts.
Qed.

Lemma Node_bytes_utf8 (n : Node) (data : bytes) :
  Node_bytes n = Ok data ->
  exists text, Node_str n = Ok text /\ utf8_encode text = Some data.
Proof.
  unfold Node_bytes, Node_str.
  destruct (properties_bytes n) as [d|] eqn:E; [|done]. intros [= <-].
  apply properties_bytes_utf8 in E as (t & -> & Ht). cbn [mbind result_bind].
  eexists. split; [done|]. by rewrite utf8_encode_app, Ht.
Qed.

Lemma nodes_bytes_utf8 (ns : list Node) (datas : list bytes) :
  nodes_bytes ns = Ok datas ->
  exists texts,
    map_ok Node_str ns = Ok texts
    /\ Forall2 (fun text data => utf8_encode text = Some data) texts datas.
Proof.
  revert datas. induction ns as [|n ns IH]; intros datas.
  - intros [= <-]. by exists [].
  - cbn [nodes_bytes map_ok]. destruct (Node_bytes n) as [d|] eqn:E; [|done].
    destruct (nodes_bytes ns) as [ds|]; [|done]. intros [= <-].
    apply Node_bytes_utf8 in E as (t & -> & Ht).
    destruct (IH ds eq_refl) as (ts & -> & Hts). cbn [mbind result_bind].
    eexists. split; [done|]. by constructor.
Qed.

Lemma GameTree_str_eq (ns : list Node) (bs : list GameTree) :
  GameTree_str (Tree ns bs)
  = (items ← map_ok Node_str ns;
     subtrees ← map_ok GameTree_str bs;
     Ok (join NL ([py "("] ++ items ++ subtrees ++ [py ")"]))).
Proof.
  cbn [GameTree_str]. destruct (map_ok Node_str ns) as [items|]; [|done].
  cbn [mbind result_bind].
  assert ((fix trees (l : list GameTree) : result (list pystr) :=
             match l with
             | [] => Ok []
             | branch :: l' =>
                 text ← GameTree_str branch;
                 rest ← trees l';
                 Ok (text :: rest)
             end) bs = map_ok GameTree_str bs) as ->; [|done].
  induction bs as [|b bs IH]; [done|]. cbn [map_ok]. by rewrite IH.
Qed.

Lemma GameTree_bytes_utf8 (g : GameTree) (data : bytes) :
  GameTree_bytes g = Ok data ->
  exists text, GameTree_str g = Ok text /\ utf8_encode text = Some data.
Proof.
  revert data. induction g as [ns bs IH] using GameTree_ind'. intros data.
  rewrite GameTree_bytes_eq, GameTree_str_eq.
  destruct (nodes_bytes ns) as [items|] eqn:En; [|done].
  apply nodes_bytes_utf8 in En as (texts & -> & Htexts). cbn [mbind result_bind].
  assert (forall subtrees, trees_bytes bs = Ok subtrees ->
            exists texts',
              map_ok GameTree_str bs = Ok texts'
              /\ Forall2 (fun text data => utf8_encode text = Some data) texts' subtrees)
    as Hbs.
  { clear -IH. induction IH as [|b bs Hb _ IHbs]; intros subtrees.
    - intros [= <-]. by exists [].
    - cbn [trees_bytes map_ok]. destruct (GameTree_bytes b) as [d|]; [|done].
      destruct (trees_bytes bs) as [ds|]; [|done]. intros [= <-].
      destruct (Hb d eq_refl) as (t & -> & Ht).
      destruct (IHbs ds eq_refl) as (ts & -> & Hts). cbn [mbind result_bind].
      eexists. split; [done|]. by constructor. }
  destruct (trees_bytes bs) as [subtrees|]; [|done].
  destruct (Hbs subtrees eq_refl) as (texts' & -> & Htexts').
  cbn [mbind result_bind]. intros Hdata.
  assert (data = join LF ([pyb "("] ++ items ++ subtrees ++ [pyb ")"])) as ->
    by congruence.
  eexists. split; [done|]. apply (utf8_encode_join NL LF); [done|].
  apply Forall2_app; [by repeat constructor|].
  apply Forall2_app; [done|]. apply Forall2_app; [done|]. by repeat constructor.
Qed.

(** X17: when [bytes(collection)] gives data, they are the UTF-8 bytes of
    [str(collection)]. *)
Theorem Collection_bytes_of_str (collection : Collection) (data : bytes) :
  Collection_bytes collection = Ok data ->
  exists text, Collection_str collection = Ok text /\ utf8_encode text = Some data.
Proof.
  unfold Collection_bytes, Collection_str.
  assert (forall items, trees_bytes collection = Ok items ->
            exists texts,
              map_ok GameTree_str collection = Ok texts
              /\ Forall2 (fun text data => utf8_encode text = Some data) texts items)
    as Hall.
  { induction collection as [|g l IH]; intros items.
    - intros [= <-]. by exists [].
    - cbn [trees_bytes map_ok]. destruct (GameTree_bytes g) as [d|] eqn:E; [|done].
      destruct (trees_bytes l) as [ds|]; [|done]. intros [= <-].
      apply GameTree_bytes_utf8 in E as (t & -> & Ht).
      destruct (IH ds eq_refl) as (ts & -> & Hts). cbn [mbind result_bind].
      eexists. split; [done|]. by constructor. }
  destruct (trees_bytes collection) as [items|]; [|done].
  destruct (Hall items eq_refl) as (texts & -> & Htexts). intros Hdata.
  assert (data = join (LF ++ LF) items) as -> by (cbn [mbind result_bind] in Hdata; congruence).
  cbn [mbind result_bind]. eexists. split; [done|].
  by apply (utf8_encode_join (NL ++ NL) (LF ++ LF)).
Qed.

(** X17, witness: the games above. *)
Lemma Collection_bytes_of_str_witness :
  match Collection_bytes round_trip_games with
  | Ok data =>
      exists text,
        Collection_str round_trip_games = Ok text /\ utf8_encode text = Some data
  | Err _ => False
  end.
Proof.
  destruct (Collection_bytes round_trip_games) as [data|e] eqn:E;
    [|vm_compute in E; discriminate E].
  by apply Collection_bytes_of_str.
Defined.

(** ** Reading data with space between the parts *)

Lemma written_eq (ns : list Node) (bs : list GameTree) (body : bytes) :
  written (Tree ns bs) body
  <-> exists items subtrees ws,
        Forall2 written_node ns items /\ Forall2 written_tree bs subtrees
        /\ forallb is_space ws = true
        /\ body = concat items ++ concat subtrees ++ ws ++ [x29].
Proof.
  cbn [written].
  assert (forall subtrees,
            (fix trees (l : list GameTree) (parts : list bytes) : Prop :=
               match l, parts with
               | [], [] => True
               | b :: l', part :: parts' =>
                   (exists ws' body',
                      forallb is_space ws' = true /\ part = ws' ++ x28 :: body'
                      /\ written b body')
                   /\ trees l' parts'
               | _, _ => False
               end) bs subtrees
            <-> Forall2 written_tree bs subtrees) as Htrees.
  { induction bs as [|b bs IH]; intros [|part parts]; split; try done.
    - inversion 1.
    - inversion 1.
    - intros [Hb Hbs]. constructor; [done|by apply IH].
    - inversion 1; subst. split; [done|by apply IH]. }
  split; intros (items & subtrees & ws & Hns & Hbs & Hws & ->);
    exists items, subtrees, ws; repeat split; try done; by apply Htrees.
Qed.

Lemma skip_space_app (ws r : bytes) :
  forallb is_space ws = true -> skip_space (ws ++ r) = skip_space r.
Proof.
  induction ws as [|b ws IH]; [done|]. cbn [forallb app skip_space].
  rewrite andb_true_iff. intros [-> Hws]. by apply IH.
Qed.

Lemma is_part_not_space (x : byte) :
  x = x3b \/ x = x28 \/ x = x29 -> is_space x = false /\ is_letter x = false /\ x <> x5b.
Proof. by intros [-> | [-> | ->]]. Qed.

Lemma after_space_found (c : byte) (ws r : bytes) :
  forallb is_space ws = true -> is_space c = false ->
  after_space c (ws ++ c :: r) = Some r.
Proof.
  intros Hws Hc. unfold after_space. rewrite skip_space_app by done.
  cbn [skip_space]. rewrite Hc. by rewrite bool_decide_eq_true_2.
Qed.

Lemma after_space_other (c x : byte) (ws r : bytes) :
  forallb is_space ws = true -> is_space x = false -> x <> c ->
  after_space c (ws ++ x :: r) = None.
Proof.
  intros Hws Hx Hc. unfold after_space. rewrite skip_space_app by done.
  cbn [skip_space]. rewrite Hx. by rewrite bool_decide_eq_false_2.
Qed.

Lemma game_tree_next_found (x : byte) (ws r : bytes) :
  forallb is_space ws = true -> x = x3b \/ x = x28 \/ x = x29 ->
  game_tree_next (ws ++ x :: r) = Some (x, r).
Proof.
  intros Hws Hx. unfold game_tree_next. rewrite skip_space_app by done.
  by destruct Hx as [-> | [-> | ->]].
Qed.

Lemma starts_part_after_node (r : bytes) : starts_part r -> after_node r.
Proof.
  intros (ws & x & r' & Hws & -> & Hx).
  destruct (is_part_not_space x Hx) as (Hspace & Hletter & Hbracket).
  split; [by destruct ws|]. split.
  - unfold node_contents. rewrite skip_space_app by done.
    by destruct Hx as [-> | [-> | ->]].
  - by apply after_space_other.
Qed.

Lemma starts_part_nodes (ns : list Node) (items : list bytes) (tail : bytes) :
  Forall2 written_node ns items -> starts_part tail -> starts_part (concat items ++ tail).
Proof.
  intros [|n item ns' items' (ws & data & Hws & _ & ->) _]; [done|]. intros _.
  exists ws, x3b, (data ++ concat items' ++ tail). split; [done|].
  split; [|by left]. cbn [concat]. by rewrite <- !app_assoc.
Qed.

Lemma starts_part_trees (bs : list GameTree) (subtrees : list bytes) (ws r : bytes) :
  Forall2 written_tree bs subtrees -> forallb is_space ws = true ->
  starts_part (concat subtrees ++ ws ++ x29 :: r).
Proof.
  intros [|b part bs' parts' (ws' & body & Hws' & -> & _) _] Hws.
  - exists ws, x29, r. auto.
  - exists ws', x28, (body ++ concat parts' ++ ws ++ x29 :: r). split; [done|].
    split; [|auto]. cbn [concat]. by rewrite <- !app_assoc.
Qed.

Section ReadWritten.
Context {rt : PyRuntime}.

(** The loop of [parse_game_tree] reads the nodes of a trunk, and goes on
    with what follows with enough fuel for it. *)
Lemma parse_game_tree_loop_written_nodes (ns : list Node) :
  forall (acc : list Node) (p : Parser) (declared declared' : bool)
         (items : list bytes) (tail : bytes) (fuel : nat),
  Forall2 written_node ns items ->
  forallb parsed_node ns = true ->
  reads_back_nodes declared ns = Some declared' ->
  starts_part tail ->
  rest p = concat items ++ tail ->
  encoding p = encoding_of declared ->
  (2 * length (rest p) + 1 <= fuel)%nat ->
  exists fuel',
    (2 * length tail + 1 <= fuel')%nat
    /\ parse_game_tree_loop fuel (Tree acc []) p
       = parse_game_tree_loop fuel' (Tree (acc ++ ns) [])
           (mkParser tail (encoding_of declared')).
Proof.
  induction ns as [|n ns IH];
    intros acc p declared declared' items tail fuel Hitems Hns Hread Htail Hrest Henc
           Hfuel.
  - inversion Hitems; subst. injection Hread as <-. cbn in Hrest.
    exists fuel. rewrite app_nil_r. destruct p as [rest0 enc0]. cbn in *. subst.
    split; [lia|done].
  - inversion Hitems as [|? item ? items' (ws & data & Hws & Hdata & ->) Hitems'];
      subst.
    cbn [forallb] in Hns. apply andb_true_iff in Hns as [Hn Hns].
    cbn [reads_back_nodes] in Hread.
    destruct (reads_back declared n) as [declared1|] eqn:Hread1; [|done].
    cbn [concat] in Hrest. rewrite <- !app_assoc in Hrest. cbn [app] in Hrest.
    destruct fuel as [|fuel]; [lia|]. cbn [parse_game_tree_loop].
    rewrite Hrest. rewrite bool_decide_eq_false_2 by (by destruct ws).
    rewrite game_tree_next_found by auto.
    cbn [branches nodes]. rewrite decide_nil_nil.
    rewrite (bool_decide_eq_true_2 (x3b = x3b)) by done. cbn [negb].
    rewrite (parse_node_serialized n _ declared declared1 data (concat items' ++ tail));
      [|done|done|done|by apply starts_part_after_node, (starts_part_nodes ns)
       |done|done].
    cbn [mbind result_bind].
    destruct (IH (acc ++ [n]) (mkParser (concat items' ++ tail) (encoding_of declared1))
                declared1 declared' items' tail fuel) as (fuel' & Hfuel' & ->);
      try done.
    { cbn [rest]. rewrite Hrest in Hfuel. rewrite !length_app in Hfuel.
      cbn [length] in Hfuel. rewrite !length_app in *. lia. }
    exists fuel'. split; [done|]. by rewrite <- app_assoc.
Qed.

Lemma parse_game_tree_loop_close (fuel : nat) (g : GameTree) (ws r : bytes)
    (enc : pystr) :
  forallb is_space ws = true ->
  parse_game_tree_loop (S fuel) g (mkParser (ws ++ x29 :: r) enc)
  = Ok (g, mkParser r enc).
Proof.
  intros Hws. cbn [parse_game_tree_loop rest].
  rewrite bool_decide_eq_false_2 by (by destruct ws).
  rewrite game_tree_next_found by auto. cbv beta iota.
  rewrite (bool_decide_eq_false_2 (x29 = x3b)) by done.
  by rewrite (bool_decide_eq_false_2 (x29 = x28)) by done.
Qed.

(** Reading a tree from what follows its opening parenthesis. *)
Definition reads_written (g : GameTree) : Prop :=
  forall (p : Parser) (declared declared' : bool) (body r : bytes) (fuel : nat),
  written g body ->
  parsed_tree g = true ->
  reads_back_tree g declared = Some declared' ->
  rest p = body ++ r ->
  encoding p = encoding_of declared ->
  (2 * length (rest p) + 1 <= fuel)%nat ->
  parse_game_tree_loop fuel (Tree [] []) p
  = Ok (g, mkParser r (encoding_of declared')).

Lemma written_branch (b : GameTree) (body : bytes) :
  written b body -> nodes b <> [] ->
  exists ws body', forallb is_space ws = true /\ body = ws ++ x3b :: body'.
Proof.
  destruct b as [[|n ns] bs]; [done|]. intros Hb _.
  apply written_eq in Hb as (items & subtrees & ws & Hns & _ & _ & ->).
  inversion Hns as [|? item ? items' (ws' & data & Hws' & _ & ->) _]; subst.
  exists ws'. eexists. split; [done|]. cbn [concat]. by rewrite <- !app_assoc.
Qed.

Lemma parse_branches_loop_written (l : list GameTree) :
  Forall reads_written l ->
  forall (b : GameTree) (v : list GameTree) (p : Parser) (declared declared' : bool)
         (body : bytes) (subtrees : list bytes) (ws r : bytes) (fuel : nat),
  reads_written b ->
  written b body ->
  Forall2 written_tree l subtrees ->
  forallb is_space ws = true ->
  parsed_trees (b :: l) = true ->
  reads_back_trees (b :: l) declared = Some declared' ->
  rest p = body ++ concat subtrees ++ ws ++ x29 :: r ->
  encoding p = encoding_of declared ->
  (2 * length (rest p) + 2 <= fuel)%nat ->
  parse_branches_loop fuel v p
  = Ok (v ++ b :: l, mkParser (ws ++ x29 :: r) (encoding_of declared')).
Proof.
  induction l as [|b2 l IH];
    intros Hl b v p declared declared' body subtrees ws r fuel Hb Hbody Hsub Hws Hparsed
           Hread Hrest Henc Hfuel.
  all: cbn [parsed_trees forallb] in Hparsed;
    apply andb_true_iff in Hparsed as [Hpb Hparsed];
    apply andb_true_iff in Hpb as [Hnodes Hpb];
    apply negb_true_iff, bool_decide_eq_false in Hnodes;
    cbn [reads_back_trees] in Hread;
    destruct (reads_back_tree b declared) as [declared1|] eqn:Hread1; [|done];
    destruct (written_branch b body Hbody Hnodes) as (ws1 & body' & Hws1 & Hbody');
    (destruct fuel as [|fuel]; [lia|]); cbn [parse_branches_loop];
    rewrite bool_decide_eq_false_2 by (rewrite Hrest, Hbody'; by destruct ws1);
    assert (game_tree_end (rest p) = None) as ->
      by (rewrite Hrest, Hbody', <- app_assoc; by apply after_space_other);
    rewrite (Hb p declared declared1 body _ fuel Hbody Hpb Hread1 Hrest Henc)
      by lia;
    cbn [mbind result_bind];
    rewrite (bool_decide_eq_false_2 _ Hnodes); cbn [negb rest].
  - inversion Hsub; subst. injection Hread as <-. cbn [concat app].
    assert (game_tree_start (ws ++ x29 :: r) = None) as ->
      by (by apply after_space_other).
    assert (2 <= fuel)%nat as Hf.
    { rewrite Hrest in Hfuel. rewrite !length_app in Hfuel.
      cbn [length] in Hfuel. lia. }
    destruct fuel as [|fuel]; [lia|]. cbn [parse_branches_loop rest].
    rewrite bool_decide_eq_false_2 by (by destruct ws).
    unfold game_tree_end. by rewrite after_space_found.
  - inversion Hsub as [|? part ? subtrees' (ws2 & body2 & Hws2 & -> & Hbody2) Hsub'];
      subst.
    apply Forall_cons in Hl as [Hb2 Hl].
    cbn [concat]. rewrite <- !app_assoc. cbn [app].
    unfold game_tree_start. rewrite after_space_found by done.
    rewrite (IH Hl b2 (v ++ [b]) _ declared1 declared' body2 subtrees' ws r fuel);
      try done.
    + by rewrite <- app_assoc.
    + cbn [set_rest rest]. rewrite Hrest in Hfuel. cbn [concat] in Hfuel.
      repeat (rewrite !length_app in Hfuel; cbn [length] in Hfuel).
      repeat (rewrite !length_app; cbn [length]). lia.
Qed.

Lemma parse_game_tree_loop_written (g : GameTree) : reads_written g.
Proof.
  induction g as [ns bs IH] using GameTree_ind'.
  intros p declared declared' body r fuel Hbody Hparsed Hread Hrest Henc Hfuel.
  apply written_eq in Hbody as (items & subtrees & ws & Hitems & Hsub & Hws & ->).
  cbn [parsed_tree] in Hparsed. apply andb_true_iff in Hparsed as [Hns Hbs].
  rewrite reads_back_tree_eq in Hread.
  destruct (reads_back_nodes declared ns) as [declared1|] eqn:Hread1; [|done].
  rewrite <- !app_assoc in Hrest. cbn [app] in Hrest.
  destruct (parse_game_tree_loop_written_nodes ns [] p declared declared1 items
              (concat subtrees ++ ws ++ x29 :: r) fuel)
    as (fuel' & Hfuel' & ->); try done.
  { by apply (starts_part_trees bs). }
  cbn [app]. destruct Hsub as [|b part l parts (ws1 & body1 & Hws1 & -> & Hbody1) Hsub].
  - injection Hread as <-. cbn [concat app] in *.
    destruct fuel' as [|fuel']; [lia|]. by apply parse_game_tree_loop_close.
  - apply Forall_cons in IH as [Hb Hl].
    cbn [concat] in *. rewrite <- !app_assoc in *. cbn [app] in *.
    destruct fuel' as [|fuel']; [lia|]. cbn [parse_game_tree_loop rest].
    rewrite bool_decide_eq_false_2 by (by destruct ws1).
    rewrite game_tree_next_found by auto.
    cbv beta iota. rewrite (bool_decide_eq_false_2 (x28 = x3b)) by done.
    rewrite (bool_decide_eq_true_2 (x28 = x28)) by done.
    rewrite (parse_branches_loop_written l Hl b [] _ declared1 declared' body1
               parts ws r fuel'); try done.
    + cbn [mbind result_bind app nodes].
      assert (1 <= fuel')%nat as Hf.
      { rewrite !length_app in Hfuel'. cbn [length] in Hfuel'. lia. }
      destruct fuel' as [|fuel'']; [lia|]. by apply parse_game_tree_loop_close.
    + cbn [set_rest rest].
      repeat (rewrite !length_app in Hfuel'; cbn [length] in Hfuel').
      repeat (rewrite !length_app; cbn [length]). lia.
Qed.

End ReadWritten.

Section ReadCollectionWritten.
Context {rt : PyRuntime}.

Lemma parse_loop_written (l : list GameTree) :
  forall (collection : Collection) (p : Parser) (declared declared' : bool)
         (parts : list bytes) (ws : bytes) (fuel : nat),
  Forall2 written_tree l parts ->
  forallb is_space ws = true ->
  parsed_trees l = true ->
  reads_back_trees l declared = Some declared' ->
  rest p = concat parts ++ ws ->
  encoding p = encoding_of declared ->
  (length (rest p) < fuel)%nat ->
  exists p', parse_loop fuel collection p = Ok (collection ++ l, p').
Proof.
  induction l as [|tree l IH];
    intros collection p declared declared' parts ws fuel Hparts Hws Hparsed Hread Hrest
           Henc Hfuel.
  - inversion Hparts; subst. cbn [concat app] in Hrest.
    destruct fuel as [|fuel]; [lia|]. cbn [parse_loop]. rewrite app_nil_r.
    case_bool_decide as Hnil; [by eexists|].
    unfold parse_one_game. rewrite (bool_decide_eq_false_2 _ Hnil). cbn [negb].
    assert (game_tree_start (rest p) = None) as ->; [|by eexists].
    rewrite Hrest. unfold game_tree_start, after_space.
    pose proof (skip_space_app ws [] Hws) as Hskip. rewrite app_nil_r in Hskip.
    by rewrite Hskip.
  - inversion Hparts as [|? part ? parts' (ws1 & body & Hws1 & -> & Hbody) Hparts'];
      subst.
    cbn [parsed_trees forallb] in Hparsed.
    apply andb_true_iff in Hparsed as [Htree Hparsed].
    apply andb_true_iff in Htree as [Hnodes Htree].
    apply negb_true_iff, bool_decide_eq_false in Hnodes.
    cbn [reads_back_trees] in Hread.
    destruct (reads_back_tree tree declared) as [declared1|] eqn:Hread1; [|done].
    cbn [concat] in Hrest. rewrite <- !app_assoc in Hrest. cbn [app] in Hrest.
    destruct fuel as [|fuel]; [lia|]. cbn [parse_loop].
    rewrite bool_decide_eq_false_2 by (rewrite Hrest; by destruct ws1).
    unfold parse_one_game.
    rewrite bool_decide_eq_false_2 by (rewrite Hrest; by destruct ws1). cbn [negb].
    rewrite Hrest. unfold game_tree_start. rewrite after_space_found by done.
    unfold parse_game_tree.
    rewrite (parse_game_tree_loop_written tree _ declared declared1 body
               (concat parts' ++ ws)); try done; [|unfold tree_fuel; lia].
    cbn [mbind result_bind].
    destruct (IH (collection ++ [tree]) (mkParser (concat parts' ++ ws)
                                           (encoding_of declared1))
                declared1 declared' parts' ws fuel) as [p' Hp']; try done.
    { cbn [rest]. rewrite Hrest in Hfuel.
      repeat (rewrite !length_app in Hfuel; cbn [length] in Hfuel).
      rewrite !length_app. lia. }
    exists p'. destruct tree as [[|n ns] bs]; [done|].
    by rewrite Hp', <- app_assoc.
Qed.

(** The parser reads a collection of parsed trees from any data that
    write its trees with space between their parts. *)
Lemma parse_written (collection : Collection) (parts : list bytes) (ws : bytes) :
  Forall2 written_tree collection parts ->
  forallb is_space ws = true ->
  parsed_trees collection = true ->
  ascii_until_charset collection = true ->
  parse (concat parts ++ ws) = Ok collection.
Proof.
  intros Hparts Hws Hparsed Hascii. unfold ascii_until_charset in Hascii.
  destruct (reads_back_trees collection false) as [declared'|] eqn:Hread; [|done].
  unfold parse.
  destruct (parse_loop_written collection [] (mkParser (concat parts ++ ws) (py "latin-1"))
              false declared' parts ws (S (length (concat parts ++ ws))))
    as [p' ->]; try done.
  cbn [rest]. lia.
Qed.

End ReadCollectionWritten.

(** ** The bytes of the pretty text *)

Lemma utf8_encode_app_inv (a b : pystr) (data : bytes) :
  utf8_encode (a ++ b) = Some data ->
  exists x y, utf8_encode a = Some x /\ utf8_encode b = Some y /\ data = x ++ y.
Proof.
  rewrite utf8_encode_app. destruct (utf8_encode a) as [x|]; [|done].
  destruct (utf8_encode b) as [y|]; [|done]. intros [= <-]. by exists x, y.
Qed.

Lemma utf8_encode_join_inv (sep : pystr) (seps : bytes) (parts : list pystr)
    (data : bytes) :
  utf8_encode sep = Some seps ->
  utf8_encode (join sep parts) = Some data ->
  exists datas,
    Forall2 (fun text data => utf8_encode text = Some data) parts datas
    /\ data = join seps datas.
Proof.
  intros Hsep. revert data. induction parts as [|text parts IH]; intros data.
  - intros [= <-]. by exists [].
  - destruct parts as [|text' parts].
    + intros Ht. exists [data]. split; [by repeat constructor|done].
    + change (join sep (text :: text' :: parts))
        with (text ++ sep ++ join sep (text' :: parts)).
      intros H. apply utf8_encode_app_inv in H as (x & y & Hx & H & ->).
      apply utf8_encode_app_inv in H as (s' & z & Hs' & Hz & ->).
      destruct (IH z Hz) as (datas & Hdatas & ->).
      assert (s' = seps) as -> by congruence.
      exists (x :: datas). split; [by constructor|].
      by inversion Hdatas.
Qed.

Lemma encode_of_utf8 (text_property : bool) (text : pystr) (data : bytes) :
  utf8_encode text = Some data ->
  (text_property = false -> is_ascii_str text = true) ->
  encode text_property text = Ok data.
Proof.
  intros Hd Hascii. unfold encode. destruct text_property; [by rewrite Hd|].
  specialize (Hascii eq_refl). rewrite (utf8_encode_ascii _ Hascii) in Hd.
  injection Hd as <-.
  by rewrite (proj2 (ascii_encode_spec text (map byte_of text))).
Qed.

Lemma is_ascii_escape_text (text : pystr) :
  is_ascii_str (escape_text text) = is_ascii_str text.
Proof. by rewrite escape_text_flat_map, is_ascii_escaped. Qed.

Lemma encode_items_of_utf8 (text_property : bool) (items : list pystr)
    (datas : list bytes) :
  Forall2 (fun text data => utf8_encode text = Some data) (map escape_text items) datas ->
  (text_property = false -> forallb is_ascii_str items = true) ->
  encode_items text_property items = Ok datas.
Proof.
  revert datas. induction items as [|item items IH]; intros datas Hd Hascii.
  - by inversion Hd.
  - cbn [map] in Hd. inversion Hd as [|? d ? ds Hitem Hitems]; subst.
    cbn [encode_items]. rewrite (encode_of_utf8 text_property _ d Hitem).
    + cbn [mbind result_bind]. rewrite (IH ds Hitems); [done|].
      intros Ht. specialize (Hascii Ht). cbn [forallb] in Hascii.
      by apply andb_true_iff in Hascii as [_ ?].
    + intros Ht. specialize (Hascii Ht). cbn [forallb] in Hascii.
      apply andb_true_iff in Hascii as [? _]. by rewrite is_ascii_escape_text.
Qed.

(** For a property that the parser stores, the UTF-8 bytes of the text
    are the bytes of [__bytes__]. *)
Lemma property_str_bytes (item : pystr * value) (text : pystr) (data : bytes) :
  property_str item = Ok text -> utf8_encode text = Some data ->
  parsed_item item = true ->
  property_bytes item = Ok data.
Proof.
  destruct item as [k v]. intros Hstr Hdata Hitem.
  apply parsed_item_spec in Hitem as (Hk & Hletters & Hshape & _ & Hascii).
  destruct (is_letter_byte_of k Hletters) as [Hka _].
  unfold property_str in Hstr. unfold property_bytes.
  rewrite (encode_of_utf8 false k (map byte_of k)); [|by apply utf8_encode_ascii|done].
  cbn [mbind result_bind].
  destruct v as [value|items].
  - rewrite Hshape in *. cbn [mbind result_bind] in Hstr.
    assert (text = k ++ py "[" ++ escape_text value ++ py "]") as -> by congruence.
    apply utf8_encode_app_inv in Hdata as (x & y & Hx & Hdata & ->).
    apply utf8_encode_app_inv in Hdata as (o & y' & Ho & Hdata & ->).
    apply utf8_encode_app_inv in Hdata as (vd & c & Hvd & Hc & ->).
    rewrite (utf8_encode_ascii _ Hka) in Hx. injection Hx as <-.
    injection Ho as <-. injection Hc as <-.
    rewrite (encode_of_utf8 _ _ vd Hvd); [done|].
    intros Ht. specialize (Hascii Ht). cbn [strings_of forallb] in Hascii.
    rewrite andb_true_r in Hascii. by rewrite is_ascii_escape_text.
  - destruct Hshape as [Hlist _]. rewrite Hlist in *. cbn [mbind result_bind] in Hstr.
    cbn [elements_of] in *.
    assert (text = k ++ py "[" ++ join (py "][") (map escape_text items) ++ py "]")
      as -> by congruence.
    apply utf8_encode_app_inv in Hdata as (x & y & Hx & Hdata & ->).
    apply utf8_encode_app_inv in Hdata as (o & y' & Ho & Hdata & ->).
    apply utf8_encode_app_inv in Hdata as (vd & c & Hvd & Hc & ->).
    rewrite (utf8_encode_ascii _ Hka) in Hx. injection Hx as <-.
    injection Ho as <-. injection Hc as <-.
    apply (utf8_encode_join_inv (py "][") (pyb "][")) in Hvd as (datas & Hdatas & ->);
      [|done].
    by rewrite (encode_items_of_utf8 _ _ datas Hdatas Hascii).
Qed.

Lemma properties_str_bytes (items : Node) (text : pystr) (data : bytes) :
  properties_str items = Ok text -> utf8_encode text = Some data ->
  forallb parsed_item items = true ->
  properties_bytes items = Ok data.
Proof.
  revert text data. induction items as [|item items IH]; intros text data.
  - by intros [= <-] [= <-].
  - cbn [properties_str properties_bytes forallb].
    destruct (property_str item) as [t|] eqn:Et; [|done].
    destruct (properties_str items) as [ts|]; [|done]. intros [= <-] Hdata.
    rewrite andb_true_iff. intros [Hitem Hitems].
    apply utf8_encode_app_inv in Hdata as (x & y & Hx & Hy & ->).
    rewrite (property_str_bytes item t x Et Hx Hitem).
    by rewrite (IH ts y eq_refl Hy Hitems).
Qed.

Lemma Node_str_written (n : Node) (text : pystr) (data ws : bytes) :
  Node_str n = Ok text -> utf8_encode text = Some data ->
  parsed_node n = true -> forallb is_space ws = true ->
  written_node n (ws ++ data).
Proof.
  unfold Node_str, parsed_node. destruct (properties_str n) as [t|] eqn:Et; [|done].
  cbn [mbind result_bind]. intros Htext Hdata Hn Hws.
  assert (text = py ";" ++ t) as -> by congruence.
  apply andb_true_iff in Hn as [_ Hitems].
  apply utf8_encode_app_inv in Hdata as (x & y & Hx & Hy & ->). injection Hx as <-.
  exists ws, y. split; [done|]. split; [|done].
  by apply (properties_str_bytes n t y).
Qed.

Lemma utf8_encode_spaces (n : nat) : utf8_encode (spaces n) = Some (repeat x20 n).
Proof. induction n as [|n IH]; [done|]. cbn. fold (spaces n). by rewrite IH. Qed.

Lemma is_space_indent (n : nat) : forallb is_space (x0a :: repeat x20 n) = true.
Proof. cbn. induction n as [|n IH]; [done|]. by cbn. Qed.

Lemma join_first (sep first : bytes) (parts : list bytes) :
  join sep (first :: parts) = first ++ concat (map (fun part => sep ++ part) parts).
Proof.
  revert first. induction parts as [|part parts IH]; intros first.
  - cbn. by rewrite app_nil_r.
  - change (join sep (first :: part :: parts))
      with (first ++ sep ++ join sep (part :: parts)).
    rewrite IH. cbn [map concat]. by rewrite <- !app_assoc.
Qed.

Lemma GameTree_pretty_eq (ns : list Node) (bs : list GameTree) (indent : nat) :
  GameTree_pretty (Tree ns bs) indent
  = (items ← map_ok (fun item => Node_pretty item (indent + 1)) ns;
     subtrees ← map_ok (fun branch => GameTree_pretty branch (indent + 1)) bs;
     Ok (join (NL ++ spaces ((indent + 1) * PRETTY_INDENT_SPACES))
              ([py "("] ++ items ++ subtrees)
         ++ NL ++ spaces ((indent + 1 - 1) * PRETTY_INDENT_SPACES) ++ py ")")).
Proof.
  cbn [GameTree_pretty].
  destruct (map_ok (fun item => Node_pretty item (indent + 1)) ns) as [items|]; [|done].
  cbn [mbind result_bind].
  assert ((fix trees (l : list GameTree) : result (list pystr) :=
             match l with
             | [] => Ok []
             | branch :: l' =>
                 text ← GameTree_pretty branch (indent + 1);
                 rest ← trees l';
                 Ok (text :: rest)
             end) bs = map_ok (fun branch => GameTree_pretty branch (indent + 1)) bs)
    as ->; [|done].
  induction bs as [|b bs IH]; [done|]. cbn [map_ok]. by rewrite IH.
Qed.

Lemma map_ok_Forall2 {A B : Type} (f : A -> result B) (l : list A) (ys : list B) :
  map_ok f l = Ok ys -> Forall2 (fun x y => f x = Ok y) l ys.
Proof.
  revert ys. induction l as [|x l IH]; intros ys.
  - intros [= <-]. constructor.
  - cbn [map_ok]. destruct (f x) as [y|] eqn:E; [|done].
    destruct (map_ok f l) as [ys'|]; [|done]. intros [= <-]. constructor; [done|by apply IH].
Qed.

(** The UTF-8 bytes of the pretty text of a parsed tree write the tree. *)
Lemma GameTree_pretty_written (g : GameTree) :
  forall (indent : nat) (text : pystr) (data : bytes),
  GameTree_pretty g indent = Ok text -> utf8_encode text = Some data ->
  parsed_tree g = true ->
  exists body, data = x28 :: body /\ written g body.
Proof.
  induction g as [ns bs IH] using GameTree_ind'. intros indent text data.
  rewrite GameTree_pretty_eq.
  destruct (map_ok _ ns) as [items|] eqn:Eitems; [|done].
  destruct (map_ok _ bs) as [subtrees|] eqn:Esub; [|done].
  cbn [mbind result_bind]. intros Htext Hdata Hparsed.
  cbn [parsed_tree] in Hparsed. apply andb_true_iff in Hparsed as [Hns Hbs].
  set (k := ((indent + 1) * PRETTY_INDENT_SPACES)%nat) in *.
  set (k' := ((indent + 1 - 1) * PRETTY_INDENT_SPACES)%nat) in *.
  assert (text = join (NL ++ spaces k) ([py "("] ++ items ++ subtrees)
                 ++ NL ++ spaces k' ++ py ")") as -> by congruence.
  clear Htext.
  apply utf8_encode_app_inv in Hdata as (d1 & d2 & Hd1 & Hd2 & ->).
  assert (utf8_encode (NL ++ spaces k) = Some (x0a :: repeat x20 k)) as Hsep.
  { rewrite utf8_encode_app, utf8_encode_spaces. done. }
  assert (d2 = (x0a :: repeat x20 k') ++ [x29]) as ->.
  { rewrite !utf8_encode_app, utf8_encode_spaces in Hd2.
    change (utf8_encode NL) with (Some [x0a]) in Hd2.
    change (utf8_encode (py ")")) with (Some [x29]) in Hd2.
    cbv beta iota in Hd2. by injection Hd2 as <-. }
  apply (utf8_encode_join_inv _ _ _ _ Hsep) in Hd1 as (datas & Hdatas & ->).
  apply Forall2_app_inv_l in Hdatas as (open & datas' & Hopen & Hdatas & ->).
  apply Forall2_app_inv_l in Hdatas as (ditems & dsubs & Hditems & Hdsubs & ->).
  inversion Hopen as [|? o ? ? Ho Hnil]; subst. inversion Hnil; subst.
  assert (o = [x28]) as -> by (vm_compute in Ho; congruence). cbn [app].
  rewrite join_first. cbn [app].
  eexists. split; [reflexivity|]. apply written_eq.
  exists (map (fun part => (x0a :: repeat x20 k) ++ part) ditems),
         (map (fun part => (x0a :: repeat x20 k) ++ part) dsubs),
         (x0a :: repeat x20 k').
  split; [|split; [|split; [apply is_space_indent|]]].
  - apply map_ok_Forall2 in Eitems. clear -Eitems Hditems Hns.
    revert ditems Hditems. induction Eitems as [|n t ns ts Hn _ IHns]; intros ditems Hd.
    + inversion Hd. constructor.
    + inversion Hd as [|? d ? ds Ht Hts]; subst. cbn [forallb] in Hns.
      apply andb_true_iff in Hns as [Hpn Hns]. cbn [map]. constructor; [|by apply IHns].
      apply (Node_str_written n t d); try done. apply is_space_indent.
  - apply map_ok_Forall2 in Esub. clear -Esub Hdsubs Hbs IH.
    revert dsubs Hdsubs. induction Esub as [|b t bs ts Hb _ IHbs]; intros dsubs Hd.
    + inversion Hd. constructor.
    + inversion Hd as [|? d ? ds Ht Hts]; subst. cbn [forallb] in Hbs.
      apply andb_true_iff in Hbs as [Hpb Hbs]. apply andb_true_iff in Hpb as [_ Hpb].
      apply Forall_cons in IH as [IHb IH].
      cbn [map]. constructor; [|by apply IHbs].
      destruct (IHb _ _ _ Hb Ht Hpb) as (body & -> & Hbody).
      exists (x0a :: repeat x20 k), body. split; [apply is_space_indent|done].
  - rewrite map_app, concat_app. by rewrite <- !app_assoc.
Qed.

(** X18: the bytes that [save] writes for a pretty output are read back
    as the collection, when the collection is one that [parse] returns and
    every text value before the first [CA] property is ASCII. *)
Theorem pretty_round_trip {rt : PyRuntime} (input data : bytes)
    (collection : Collection) :
  parse input = Ok collection ->
  save_output collection true = Ok data ->
  ascii_until_charset collection = true ->
  parse data = Ok collection.
Proof.
  intros Hparse Hsave Hascii.
  assert (parsed_trees collection = true) as Hparsed.
  { unfold parse in Hparse.
    pose proof (parse_loop_spec (S (length input)) [] (mkParser input (py "latin-1"))
                  ltac:(simpl; lia) eq_refl) as H.
    destruct (parse_loop _ _ _) as [[collection' p']|e]; [|done].
    cbn [mbind result_bind] in Hparse. injection Hparse as <-. by destruct H as [H _]. }
  unfold save_output, Collection_pretty in Hsave.
  destruct (map_ok _ collection) as [texts|] eqn:Etexts; [|done].
  cbn [mbind result_bind] in Hsave. unfold encode in Hsave.
  destruct (utf8_encode _) as [d|] eqn:Hd; [|done]. injection Hsave as ->.
  apply utf8_encode_app_inv in Hd as (d1 & d2 & Hd1 & Hd2 & ->). injection Hd2 as <-.
  apply (utf8_encode_join_inv (NL ++ NL) (LF ++ LF)) in Hd1 as (datas & Hdatas & ->);
    [|done].
  apply map_ok_Forall2 in Etexts.
  assert (exists parts,
            Forall2 written_tree collection parts
            /\ concat parts = join (LF ++ LF) datas) as (parts & Hparts & <-).
  { clear -Etexts Hdatas Hparsed. revert datas Hdatas.
    induction Etexts as [|g t l ts Hg Hl IHl]; intros datas Hd.
    - inversion Hd. by exists [].
    - inversion Hd as [|? d ? ds Ht Hts]; subst.
      cbn [parsed_trees forallb] in Hparsed.
      apply andb_true_iff in Hparsed as [Hpg Hparsed].
      apply andb_true_iff in Hpg as [_ Hpg].
      destruct (GameTree_pretty_written g 0 t d Hg Ht Hpg) as (body & -> & Hbody).
      rewrite join_first.
      exists ((x28 :: body)
              :: map (fun part => (LF ++ LF) ++ part) ds).
      split; [|done]. constructor; [by exists [], body|].
      clear -Hl Hts Hparsed. revert ds Hts.
      induction Hl as [|g t l ts Hg _ IHl]; intros ds Hd.
      + inversion Hd. constructor.
      + inversion Hd as [|? d ? ds' Ht Hts]; subst.
        cbn [parsed_trees forallb] in Hparsed.
        apply andb_true_iff in Hparsed as [Hpg Hparsed].
        apply andb_true_iff in Hpg as [_ Hpg].
        destruct (GameTree_pretty_written g 0 t d Hg Ht Hpg) as (body & -> & Hbody).
        cbn [map]. constructor; [|by apply IHl]. by exists (LF ++ LF), body. }
  by apply parse_written.
Qed.

(** X18, witness: the games above, parsed from [latin-1] data, are read
    back from their pretty output. *)
Lemma pretty_round_trip_witness :
  match save_output round_trip_games true with
  | Ok data => parse (rt := cpython) data = Ok round_trip_games
  | Err _ => False
  end.
Proof.
  destruct (save_output round_trip_games true) as [data|e] eqn:E;
    [|vm_compute in E; discriminate E].
  apply (pretty_round_trip (rt := cpython)
           (pyb "(;CA[latin-1]C[a\]" ++ [xe9] ++ pyb "](;B[aa])(;W[bb]))")
           data round_trip_games).
  - vm_compute. reflexivity.
  - exact E.
  - vm_compute. reflexivity.
Defined.

(** * The copies of [deepcopy] *)

Module HeapCopy.
Import Heap.

(** The objects of [h] are in [h'], as they were. *)
Definition preserves (h h' : list obj) : Prop :=
  forall l o, h !! l = Some o -> h' !! l = Some o.

Lemma preserves_refl (h : list obj) : preserves h h.
Proof. by intros l o. Qed.

Lemma preserves_trans (h1 h2 h3 : list obj) :
  preserves h1 h2 -> preserves h2 h3 -> preserves h1 h3.
Proof. intros H12 H23 l o Hl. by apply H23, H12. Qed.

Lemma preserves_alloc (h : list obj) (o : obj) : preserves h (h ++ [o]).
Proof. intros l o' Hl. by apply lookup_app_l_Some. Qed.

Lemma all_of_Forall2 {A B : Type} (f : A -> option B) (l : list A) (ys : list B) :
  all_of f l = Some ys <-> Forall2 (fun x y => f x = Some y) l ys.
Proof.
  revert ys. induction l as [|x l IH]; intros ys; cbn [all_of].
  - split; [intros [= <-]; constructor|by inversion 1].
  - split.
    + destruct (f x) as [y|] eqn:Ey; [|done]. cbn.
      destruct (all_of f l) as [ys'|]; [|done]. intros [= <-].
      constructor; [done|by apply IH].
    + inversion 1 as [|? y ? ys' Hy Hys]; subst. rewrite Hy. cbn.
      apply IH in Hys. by rewrite Hys.
Qed.

Lemma value_at_preserved (h h' : list obj) (v : pval) (v' : value) :
  preserves h h' -> value_at h v = Some v' -> value_at h' v = Some v'.
Proof.
  intros Hp. destruct v as [s|l]; [done|]. cbn [value_at].
  destruct (h !! l) as [o|] eqn:El; [|done]. by rewrite (Hp l o El).
Qed.

Lemma props_at_preserved (h h' : list obj) (props : list (pystr * pval)) (n : Node) :
  preserves h h' -> props_at h props = Some n -> props_at h' props = Some n.
Proof.
  intros Hp. revert n. induction props as [|[k v] props IH]; intros n; [done|].
  cbn [props_at]. destruct (value_at h v) as [v'|] eqn:Ev; [|done].
  rewrite (value_at_preserved h h' v v' Hp Ev). cbn.
  destruct (props_at h props) as [rest|]; [|done]. by rewrite (IH rest).
Qed.

Lemma node_at_preserved (h h' : list obj) (l : loc) (n : Node) :
  preserves h h' -> node_at h l = Some n -> node_at h' l = Some n.
Proof.
  intros Hp. unfold node_at. destruct (h !! l) as [[props| | |]|] eqn:El; try done.
  rewrite (Hp l _ El). by apply props_at_preserved.
Qed.

Lemma tree_at_preserved (n : nat) (h h' : list obj) :
  preserves h h' ->
  forall (l : loc) (g : GameTree), tree_at n h l = Some g -> tree_at n h' l = Some g.
Proof.
  intros Hp. induction n as [|n IH]; intros l g; [done|]. cbn [tree_at].
  destruct (h !! l) as [[| |ns br|]|] eqn:El; try done. rewrite (Hp l _ El).
  destruct (all_of (node_at h) ns) as [ns'|] eqn:Ens; [|done].
  apply all_of_Forall2 in Ens.
  assert (all_of (node_at h') ns = Some ns') as ->.
  { apply all_of_Forall2. eapply Forall2_impl; [done|].
    intros x y. by apply node_at_preserved. }
  cbn. destruct (h !! br) as [[| | |bs]|] eqn:Ebr; try done. rewrite (Hp br _ Ebr).
  destruct (all_of (tree_at n h) bs) as [bs'|] eqn:Ebs; [|done].
  apply all_of_Forall2 in Ebs.
  assert (all_of (tree_at n h') bs = Some bs') as ->; [|done].
  apply all_of_Forall2. eapply Forall2_impl; [done|]. intros x y. apply IH.
Qed.

Lemma run_bind {A B : Type} (m : M A) (k : A -> M B) (h h' : list obj) (a : A) :
  m h = (Ok a, h') -> (m ≫= k) h = k a h'.
Proof. intros H. unfold mbind, M_bind. by rewrite H. Qed.

Lemma run_read_node (h : list obj) (l : loc) (props : list (pystr * pval)) :
  h !! l = Some (ONode props) -> read_node l h = (Ok props, h).
Proof. intros H. unfold read_node, read, mbind, M_bind. by rewrite H. Qed.

Lemma run_read_tree (h : list obj) (l : loc) (ns : list loc) (br : loc) :
  h !! l = Some (OTree ns br) -> read_tree l h = (Ok (ns, br), h).
Proof. intros H. unfold read_tree, read, mbind, M_bind. by rewrite H. Qed.

Lemma run_read_trees (h : list obj) (l : loc) (bs : list loc) :
  h !! l = Some (OTrees bs) -> read_trees l h = (Ok bs, h).
Proof. intros H. unfold read_trees, read, mbind, M_bind. by rewrite H. Qed.

(** A node written over a node leaves the contents of the lists. *)
Lemma props_at_write_node (h : list obj) (c : loc) (old new : list (pystr * pval))
    (props : list (pystr * pval)) (n : Node) :
  h !! c = Some (ONode old) ->
  props_at h props = Some n -> props_at (<[c := ONode new]> h) props = Some n.
Proof.
  intros Hc. revert n. induction props as [|[k v] props IH]; intros n; [done|].
  cbn [props_at]. destruct (value_at h v) as [v'|] eqn:Ev; [|done].
  assert (value_at (<[c := ONode new]> h) v = Some v') as ->.
  { destruct v as [s|l]; [done|]. cbn [value_at] in *.
    destruct (decide (l = c)) as [->|Hne]; [by rewrite Hc in Ev|].
    by rewrite list_lookup_insert_ne. }
  cbn. destruct (props_at h props) as [rest|]; [|done]. by rewrite (IH rest).
Qed.

(** What [memo] remembers: a list and its copy, with the same items. *)
Definition remembers (h : list obj) (memo : list (loc * loc)) : Prop :=
  Forall (fun entry =>
            exists items,
              h !! entry.1 = Some (OList items) /\ h !! entry.2 = Some (OList items))
         memo.

Lemma remembers_preserved (h h' : list obj) (memo : list (loc * loc)) :
  preserves h h' -> remembers h memo -> remembers h' memo.
Proof.
  intros Hp Hmemo. eapply Forall_impl; [exact Hmemo|].
  intros [l l'] (items & H1 & H2). exists items. split; by apply Hp.
Qed.

Lemma copy_props_copies (props : list (pystr * pval)) :
  forall (memo : list (loc * loc)) (h : list obj) (n : Node),
  remembers h memo -> props_at h props = Some n ->
  exists props' h',
    copy_props memo props h = (Ok props', h') /\ preserves h h'
    /\ props_at h' props' = Some n.
Proof.
  induction props as [|[k [s|l]] props IH]; intros memo h n Hmemo; cbn [props_at copy_props].
  - intros [= <-]. exists [], h. by split; [|split; [apply preserves_refl|]].
  - cbn. destruct (props_at h props) as [rest|] eqn:Erest; [|done]. intros [= <-].
    destruct (IH memo h rest Hmemo Erest) as (props' & h' & Hcopy & Hp & Hat).
    exists ((k, PStr s) :: props'), h'. unfold mbind, M_bind. rewrite Hcopy.
    split; [done|]. split; [done|]. cbn [props_at value_at]. cbn. by rewrite Hat.
  - cbn [value_at]. destruct (h !! l) as [[|items| |]|] eqn:El; try done. cbn.
    destruct (props_at h props) as [rest|] eqn:Erest; [|done]. intros [= <-].
    destruct (list_find _ memo) as [[i [l0 l']]|] eqn:Efind.
    + apply list_find_Some in Efind as (Hi & Hl0 & _).
      apply bool_decide_unpack in Hl0. cbn in Hl0. subst l0.
      pose proof (proj1 (Forall_forall _ _) Hmemo (l, l')
                    (list_elem_of_lookup_2 _ _ _ Hi)) as (items' & H1 & H2).
      cbn in H1, H2. rewrite El in H1. injection H1 as <-.
      destruct (IH memo h rest Hmemo Erest) as (props' & h' & Hcopy & Hp & Hat).
      exists ((k, PRef l') :: props'), h'. unfold mbind, M_bind. rewrite Hcopy.
      split; [done|]. split; [done|]. cbn [props_at value_at].
      rewrite (Hp l' _ H2). cbn. by rewrite Hat.
    + unfold mbind, M_bind at 1. unfold read_list, read, mbind, M_bind at 1.
      rewrite El. cbn [mret M_ret]. unfold mbind, M_bind at 1. unfold alloc at 1.
      pose proof (preserves_alloc h (OList items)) as Hp1.
      destruct (IH ((l, length h) :: memo) (h ++ [OList items]) rest)
        as (props' & h' & Hcopy & Hp & Hat).
      { constructor.
        - exists items. cbn. split; [by apply Hp1|]. by rewrite lookup_app_r, Nat.sub_diag.
        - by apply (remembers_preserved h). }
      { by apply (props_at_preserved h). }
      exists ((k, PRef (length h)) :: props'), h'. unfold mbind, M_bind. rewrite Hcopy.
      split; [done|]. split; [by apply (preserves_trans h (h ++ [OList items]))|].
      cbn [props_at value_at].
      rewrite (Hp (length h) (OList items)) by (by rewrite lookup_app_r, Nat.sub_diag).
      cbn. by rewrite Hat.
Qed.

Lemma Node_deepcopy_copies (h : list obj) (self : loc) (n : Node) :
  node_at h self = Some n ->
  exists copy h',
    Node_deepcopy self h = (Ok copy, h') /\ preserves h h'
    /\ node_at h' copy = Some n.
Proof.
  unfold node_at. destruct (h !! self) as [[props| | |]|] eqn:Eself; try done.
  intros Hprops. pose proof (preserves_alloc h (ONode [])) as Hp1.
  destruct (copy_props_copies props [] (h ++ [ONode []]) n) as (props' & h' & Hcopy & Hp & Hat).
  { constructor. }
  { by apply (props_at_preserved h). }
  exists (length h), (<[length h := ONode props']> h').
  assert (h' !! length h = Some (ONode [])) as Hc.
  { apply Hp. by rewrite lookup_app_r, Nat.sub_diag. }
  split.
  { unfold Node_deepcopy. rewrite (run_bind _ _ h (h ++ [ONode []]) (length h)) by done.
    rewrite (run_bind _ _ _ _ _ (run_read_node _ _ _ (Hp1 self _ Eself))).
    rewrite (run_bind _ _ _ _ _ Hcopy).
    by rewrite (run_bind _ _ h' (<[length h := ONode props']> h') tt). }
  split.
  - intros l o Hl. destruct (decide (l = length h)) as [->|Hne].
    + apply lookup_lt_Some in Hl. lia.
    + rewrite list_lookup_insert_ne by done. by apply Hp, Hp1.
  - rewrite list_lookup_insert_eq by (by apply lookup_lt_Some in Hc).
    by apply (props_at_write_node h' (length h) []).
Qed.

(** A loop of copies. *)
Lemma each_copies {A : Type} (f : loc -> M loc) (R : list obj -> loc -> A -> Prop)
    (l : list loc) (xs : list A) :
  (forall h h' c a, preserves h h' -> R h c a -> R h' c a) ->
  (forall x a h, x ∈ l -> R h x a ->
     exists c h', f x h = (Ok c, h') /\ preserves h h' /\ R h' c a) ->
  forall h,
  Forall2 (R h) l xs ->
  exists cs h', each f l h = (Ok cs, h') /\ preserves h h' /\ Forall2 (R h') cs xs.
Proof.
  intros Hmono. revert xs. induction l as [|x l IH]; intros xs Hf h Hl.
  - inversion Hl; subst. exists [], h. split; [done|]. split; [apply preserves_refl|done].
  - inversion Hl as [|? a ? xs' Hx Hxs]; subst.
    destruct (Hf x a h) as (c & h1 & Hc & Hp1 & Hca); [left|done|].
    destruct (IH xs' (fun x a h Hin => Hf x a h (list_elem_of_further _ _ _ Hin)) h1)
      as (cs & h2 & Hcs & Hp2 & Hcsa).
    { eapply Forall2_impl; [done|]. intros y b. by apply Hmono. }
    exists (c :: cs), h2. cbn [each]. unfold mbind, M_bind. rewrite Hc, Hcs.
    split; [done|]. split; [by apply (preserves_trans h h1)|].
    constructor; [by apply (Hmono h1)|done].
Qed.

Lemma GameTree_deepcopy_copies (n : nat) :
  forall (h : list obj) (self : loc) (g : GameTree),
  tree_at n h self = Some g ->
  exists copy h',
    GameTree_deepcopy n self h = (Ok copy, h') /\ preserves h h'
    /\ tree_at n h' copy = Some g.
Proof.
  induction n as [|n IH]; intros h self g; [done|]. cbn [tree_at GameTree_deepcopy].
  destruct (h !! self) as [[| |ns br|]|] eqn:Eself; try done.
  destruct (all_of (node_at h) ns) as [ns'|] eqn:Ens; [|done]. cbn.
  destruct (h !! br) as [[| | |bs]|] eqn:Ebr; try done.
  destruct (all_of (tree_at n h) bs) as [bs'|] eqn:Ebs; [|done]. cbn. intros [= <-].
  apply all_of_Forall2 in Ens. apply all_of_Forall2 in Ebs.
  destruct (each_copies Node_deepcopy (fun h c a => node_at h c = Some a) ns ns')
    with (h := h) as (cns & h1 & Hcns & Hp1 & Hcnsa); [| |done|].
  { intros ? ? ? ?. apply node_at_preserved. }
  { intros x a h0 _. apply Node_deepcopy_copies. }
  destruct (each_copies (GameTree_deepcopy n) (fun h c a => tree_at n h c = Some a) bs bs')
    with (h := h1) as (cbs & h2 & Hcbs & Hp2 & Hcbsa).
  { intros ? ? ? ? Hp. by apply tree_at_preserved. }
  { intros x a h0 _. apply IH. }
  { eapply Forall2_impl; [done|]. intros x a. by apply tree_at_preserved. }
  exists (S (length h2)), ((h2 ++ [OTrees cbs]) ++ [OTree cns (length h2)]).
  pose proof (preserves_alloc h2 (OTrees cbs)) as Hp3.
  pose proof (preserves_alloc (h2 ++ [OTrees cbs]) (OTree cns (length h2))) as Hp4.
  assert (preserves h2 ((h2 ++ [OTrees cbs]) ++ [OTree cns (length h2)])) as Hp34
    by (by apply (preserves_trans _ (h2 ++ [OTrees cbs]))).
  split.
  - rewrite (run_bind _ _ _ _ _ (run_read_tree _ _ _ _ Eself)).
    rewrite (run_bind _ _ _ _ _ Hcns).
    rewrite (run_bind _ _ _ _ _ (run_read_trees _ _ _ (Hp1 br _ Ebr))).
    rewrite (run_bind _ _ _ _ _ Hcbs).
    rewrite (run_bind _ _ h2 (h2 ++ [OTrees cbs]) (length h2)) by done.
    unfold alloc. by rewrite length_app, Nat.add_1_r.
  - split.
    { apply (preserves_trans h h1); [done|]. by apply (preserves_trans h1 h2). }
    rewrite lookup_app_r by (rewrite length_app; simpl; lia).
    rewrite length_app. cbn [length]. rewrite Nat.add_1_r, Nat.sub_diag. cbn [lookup list_lookup].
    assert (all_of (node_at ((h2 ++ [OTrees cbs]) ++ [OTree cns (length h2)])) cns
            = Some ns') as ->.
    { apply all_of_Forall2. eapply Forall2_impl; [done|]. intros x a Hx.
      apply (node_at_preserved h1); [|done]. by apply (preserves_trans h1 h2). }
    cbn.
    rewrite (Hp4 (length h2) (OTrees cbs)) by (by rewrite lookup_app_r, Nat.sub_diag).
    assert (all_of (tree_at n ((h2 ++ [OTrees cbs]) ++ [OTree cns (length h2)])) cbs
            = Some bs') as ->; [|done].
    apply all_of_Forall2. eapply Forall2_impl; [done|]. intros x a.
    by apply tree_at_preserved.
Qed.

(** What a computation that was given no object returns refers to new
    objects only. *)
Lemma new_objects (h h' : list obj) (root : loc) :
  HeapFrame.inv h (fun _ => False) h' -> (length h <= root)%nat ->
  forall l, reachable h' root l -> (length h <= l)%nat.
Proof.
  intros Hinv Hroot l Hl. induction Hl as [|l o r _ IH Hlookup Hr _]; [done|].
  pose proof (HeapFrame.inv_closed _ _ _ Hinv l o (or_intror IH) Hlookup) as Hrefs.
  by destruct (proj1 (Forall_forall _ _) Hrefs r Hr).
Qed.

Lemma inv_none (h : list obj) : HeapFrame.inv h (fun _ => False) h.
Proof.
  split; [done| |done]. intros l o [[]|Hl] Hlookup.
  apply lookup_lt_Some in Hlookup. lia.
Qed.

End HeapCopy.

(** X19: [GameTree.deepcopy] of a tree in the store returns a tree with
    the same nodes and branches, made of new objects only, and leaves every
    object of the store as it was. *)
Theorem deepcopy_equal_and_new (n : nat) (h : list Heap.obj) (self : nat)
    (g : GameTree) :
  Heap.tree_at n h self = Some g ->
  exists copy h',
    Heap.GameTree_deepcopy n self h = (Ok copy, h')
    /\ Heap.tree_at n h' copy = Some g
    /\ (forall l, (l < length h)%nat -> h' !! l = h !! l)
    /\ (forall l, Heap.reachable h' copy l -> (length h <= l)%nat).
Proof.
  intros Hg.
  destruct (HeapCopy.GameTree_deepcopy_copies n h self g Hg) as (copy & h' & Hrun & Hp & Hg').
  exists copy, h'. split; [done|]. split; [done|].
  destruct (HeapFrame.keeps_GameTree_deepcopy h (fun _ => False) n self h
              (HeapCopy.inv_none h)) as [Hinv Hcopy].
  rewrite Hrun in Hinv, Hcopy. cbn [fst snd] in Hinv, Hcopy. split.
  - intros l Hl. apply (HeapFrame.inv_frame _ _ _ Hinv); [done|tauto].
  - destruct (Hcopy copy eq_refl) as [[]|Hnew]. by apply HeapCopy.new_objects.
Qed.

(** X19, witness: the copy of the target of the example above. *)
Lemma deepcopy_equal_and_new_witness :
  exists copy h',
    Heap.GameTree_deepcopy 2 4 frame_heap = (Ok copy, h')
    /\ Heap.tree_at 2 h' copy = Some frame_target
    /\ (forall l, (l < length frame_heap)%nat -> h' !! l = frame_heap !! l)
    /\ (forall l, Heap.reachable h' copy l -> (length frame_heap <= l)%nat).
Proof.
  apply (deepcopy_equal_and_new 2 frame_heap 4 frame_target). vm_compute. reflexivity.
Defined.

(** ** The target and the source after a merge *)

Module HeapApart.
Import Heap.

(** What can be reached from an object of a computation is an object of the
    computation. *)
Lemma reachable_mine (h0 h : list obj) (owned : loc -> Prop) (root l : loc) :
  HeapFrame.inv h0 owned h -> HeapFrame.mine h0 owned root ->
  reachable h root l -> HeapFrame.mine h0 owned l.
Proof.
  intros Hinv Hroot Hl. induction Hl as [|l o r _ IH Hlookup Hr _]; [done|].
  pose proof (HeapFrame.inv_closed _ _ _ Hinv l o IH Hlookup) as Hrefs.
  by apply (proj1 (Forall_forall _ _) Hrefs r Hr).
Qed.

(** What can be reached from [root] in the store [h], whose references name
    objects, and whose objects are the same in [h']: no more can be reached
    in [h']. *)
Lemma reachable_before (h h' : list obj) (root l : loc) :
  is_Some (h !! root) ->
  (forall l o r, reachable h root l -> h !! l = Some o -> r ∈ refs o -> is_Some (h !! r)) ->
  (forall l, reachable h root l -> h' !! l = h !! l) ->
  reachable h' root l -> reachable h root l.
Proof.
  intros Hroot Hrefs Hsame Hl. induction Hl as [|l o r _ IH Hlookup Hr _].
  - by apply reachable_root.
  - rewrite (Hsame l IH) in Hlookup.
    apply (reachable_ref h root l o r); try done. by apply (Hrefs l o r).
Qed.

(** Checking that the references name objects. *)
Lemma closed_in_allocated (h : list obj) (within : list loc) (root : loc) :
  closed_in h within = true -> root ∈ within ->
  forallb (fun l => bool_decide (l < length h)%nat) within = true ->
  forall l o r, reachable h root l -> h !! l = Some o -> r ∈ refs o -> is_Some (h !! r).
Proof.
  intros Hclosed Hroot Hwithin l o r Hl Hlookup Hr.
  apply (HeapFrame.reachable_closed_in h within) in Hl; [|done..].
  unfold closed_in in Hclosed. rewrite forallb_forall in Hclosed.
  specialize (Hclosed l (proj1 (list_elem_of_In _ _) Hl)). rewrite Hlookup in Hclosed.
  rewrite forallb_forall in Hclosed.
  specialize (Hclosed r (proj1 (list_elem_of_In _ _) Hr)).
  apply bool_decide_eq_true in Hclosed.
  rewrite forallb_forall in Hwithin.
  specialize (Hwithin r (proj1 (list_elem_of_In _ _) Hclosed)).
  apply bool_decide_eq_true in Hwithin. by apply lookup_lt_is_Some.
Qed.

End HeapApart.

(** X20: when the source is an object of a store without a reference to
    nothing, and no object that can be reached from the source can be reached
    from the target before [target.merge(source, ...)], none can after it,
    whether the call returns or raises: the merged tree shares no node and no
    list with the source. *)
Theorem merge_keeps_apart {rt : PyRuntime} (fuel : nat) (h : list Heap.obj)
    (target source : nat) (comment : option pystr) (comments_everywhere : bool)
    (ignore_property_values : option (list (pystr * list ignore_value))) :
  is_Some (h !! source) ->
  (forall l o r,
     Heap.reachable h source l -> h !! l = Some o -> r ∈ Heap.refs o ->
     is_Some (h !! r)) ->
  (forall l, Heap.reachable h target l -> Heap.reachable h source l -> False) ->
  forall l,
    Heap.reachable
      (Heap.GameTree_merge fuel target source comment comments_everywhere
         ignore_property_values h).2 target l ->
    Heap.reachable
      (Heap.GameTree_merge fuel target source comment comments_everywhere
         ignore_property_values h).2 source l ->
    False.
Proof.
  intros Hsource Hrefs Hapart l Htarget Hl.
  destruct (HeapFrame.keeps_GameTree_merge h (Heap.reachable h target) fuel comment
              comments_everywhere ignore_property_values target source
              (HeapFrame.mine_start h target) h (HeapFrame.inv_start h target)) as [Hinv _].
  apply (HeapApart.reachable_mine h _ _ target l Hinv (HeapFrame.mine_start h target))
    in Htarget.
  apply (HeapApart.reachable_before h) in Hl; [|done|done|].
  - destruct Htarget as [Hmine|Hnew]; [by apply (Hapart l)|].
    apply HeapFrame.reachable_allocated in Hl. lia.
  - intros l' Hl'. apply (HeapFrame.inv_frame _ _ _ Hinv).
    + by apply HeapFrame.reachable_allocated in Hl'.
    + intros Hmine. by apply (Hapart l').
Qed.

(** X20, witness: after the merge of the example above, which returns, the
    tree of the source cannot be reached from the target. *)
Lemma merge_keeps_apart_witness :
  (Heap.GameTree_merge (rt := cpython) 3 4 9 (Some (py "P")) true None frame_heap).1
  = Ok tt
  /\ ~ Heap.reachable
         (Heap.GameTree_merge (rt := cpython) 3 4 9 (Some (py "P")) true None
            frame_heap).2 4 9.
Proof.
  split; [vm_compute; reflexivity|]. intros Htarget.
  apply (merge_keeps_apart (rt := cpython) 3 frame_heap 4 9 (Some (py "P")) true None)
    with (l := 9%nat).
  - vm_compute. eauto.
  - apply (HeapApart.closed_in_allocated frame_heap (seq 5 5));
      [vm_compute; reflexivity|by_compute|vm_compute; reflexivity].
  - apply (HeapFrame.apart frame_heap 4 9 (seq 0 5) (seq 5 5));
      [vm_compute; reflexivity|vm_compute; reflexivity|by_compute|by_compute
      |vm_compute; reflexivity].
  - exact Htarget.
  - apply Heap.reachable_root. vm_compute. eauto.
Defined.

(** * The branches of a merged tree

    [GameTree.merge] takes the first node of each branch: it relies on
    branches that start with a node, and it keeps them so.  The same holds
    with the nodes being of any kind that [Node.merge] and
    [Node.prefix_comment] keep, such as the nodes that the parser builds. *)

Lemma no_IndexError_bind {A B : Type} (P : A -> Prop) (Q : B -> Prop) (m : result A)
    (k : A -> result B) :
  no_IndexError P m -> (forall a, m = Ok a -> P a -> no_IndexError Q (k a)) ->
  no_IndexError Q (m ≫= k).
Proof. intros Hm Hk. destruct m as [a|e]; [by apply Hk|done]. Qed.

Ltac no_index :=
  repeat match goal with
  | |- no_IndexError _ (Ok _) => done
  | |- no_IndexError _ (Err _) => done
  | |- no_IndexError _ (mbind _ _) =>
      apply (no_IndexError_bind (fun _ => True)); [|intros ? ? _]
  | |- no_IndexError _ (match ?x with _ => _ end) => destruct x eqn:?
  | |- no_IndexError _ (let '(_, _) := ?x in _) => destruct x eqn:?
  end.

Section Rooted.
Context {rt : PyRuntime}.

Lemma node_type_no_IndexError (n : Node) : no_IndexError (fun _ => True) (node_type n).
Proof. unfold node_type. no_index. Qed.

Lemma equivalent_no_IndexError (self other : Node) :
  no_IndexError (fun _ => True) (equivalent self other).
Proof. unfold equivalent. no_index; apply node_type_no_IndexError. Qed.

Lemma Node_prefix_comment_no_IndexError (n : Node) (comment : option pystr) :
  no_IndexError (fun _ => True) (Node_prefix_comment n comment).
Proof. unfold Node_prefix_comment. no_index. Qed.

Lemma merge_differing_no_IndexError (self : Node) (property_id : pystr)
    (other_value : value) (ignore_values : list ignore_value) :
  no_IndexError (fun _ => True)
    (merge_differing_scalar_property_values self property_id other_value ignore_values).
Proof. unfold merge_differing_scalar_property_values. no_index. Qed.

Lemma merge_item_no_IndexError (comment : pystr) (comments_everywhere : bool)
    (ignore_property_values : list (pystr * list ignore_value)) (self : Node)
    (item : pystr * value) :
  no_IndexError (fun _ => True)
    (merge_item comment comments_everywhere ignore_property_values self item).
Proof. unfold merge_item. no_index; apply merge_differing_no_IndexError. Qed.

Lemma Node_merge_no_IndexError (self other : Node) (comment : option pystr)
    (comments_everywhere : bool)
    (ignore_property_values : option (list (pystr * list ignore_value))) :
  no_IndexError (fun _ => True)
    (Node_merge self other comment comments_everywhere ignore_property_values).
Proof.
  unfold Node_merge. generalize (default [] ignore_property_values) as ign.
  generalize (match comment with
              | Some comment0 => comment0 ++ py (String "010" "")
              | None => []
              end) as c.
  intros c ign. revert self. induction other as [|item items IH]; intros self; [done|].
  cbn [merge_items].
  apply (no_IndexError_bind (fun _ => True)); [apply merge_item_no_IndexError|].
  intros. apply IH.
Qed.

End Rooted.

Section TreesOf.
Context {rt : PyRuntime}.
Variable P : Node -> bool.
Hypothesis P_merge :
  forall self other comment comments_everywhere ignore_property_values merged,
  P self = true -> P other = true ->
  Node_merge self other comment comments_everywhere ignore_property_values = Ok merged ->
  P merged = true.
Hypothesis P_prefix_comment :
  forall self comment self',
  P self = true -> Node_prefix_comment self comment = Ok self' -> P self' = true.
Hypothesis P_comment : P [(py "C", VStr [])] = true.

Lemma trees_of_eq (ns : list Node) (bs : list GameTree) :
  trees_of P (Tree ns bs) = forallb P ns && forallb (rooted P) bs.
Proof. reflexivity. Qed.

Lemma trees_of_spec (ns : list Node) (bs : list GameTree) :
  trees_of P (Tree ns bs) = true <-> forallb P ns = true /\ forallb (rooted P) bs = true.
Proof. by rewrite trees_of_eq, andb_true_iff. Qed.

Lemma rooted_spec (b : GameTree) :
  rooted P b = true <-> nodes b <> [] /\ trees_of P b = true.
Proof.
  unfold rooted. by rewrite andb_true_iff, negb_true_iff, bool_decide_eq_false.
Qed.

Lemma GameTree_prefix_comment_trees_of (g : GameTree) (comment : option pystr) :
  trees_of P g = true ->
  no_IndexError
    (fun g' => trees_of P g' = true /\ (nodes g' = [] <-> nodes g = []))
    (GameTree_prefix_comment g comment).
Proof.
  induction g as [ns bs IH] using GameTree_ind'. intros Hg.
  apply trees_of_spec in Hg as [Hns Hbs].
  cbn [GameTree_prefix_comment].
  destruct (negb (comment_given comment)); [by split; [apply trees_of_spec|]|].
  destruct ns as [|first ns].
  - apply (no_IndexError_bind (fun bs' => forallb (rooted P) bs' = true));
      [|intros bs' _ Hbs'; split; [by apply trees_of_spec|done]].
    clear Hns. induction IH as [|b bs Hb _ IHbs]; [done|].
    cbn [forallb] in Hbs. apply andb_true_iff in Hbs as [Hrb Hbs].
    apply rooted_spec in Hrb as [Hnodes Hrb].
    eapply no_IndexError_bind; [by apply Hb|]. intros b' _ [Hb' Hnodes'].
    eapply no_IndexError_bind; [by apply IHbs|]. intros bs' _ Hbs'.
    cbn [no_IndexError forallb]. rewrite Hbs', andb_true_r. apply rooted_spec.
    split; [|done]. intros Hnil. by apply Hnodes, Hnodes'.
  - cbn [forallb] in Hns. apply andb_true_iff in Hns as [Hfirst Hns].
    pose proof (Node_prefix_comment_no_IndexError first comment) as Hno.
    destruct (Node_prefix_comment first comment) as [first'|e] eqn:E; [|done].
    cbn [mbind result_bind no_IndexError]. split; [|done]. apply trees_of_spec.
    split; [|done]. cbn [forallb]. by rewrite (P_prefix_comment first comment first'), Hns.
Qed.

Lemma GameTree_init_rooted (nodelist : list Node) (bs : list GameTree)
    (comment : option pystr) :
  nodelist <> [] -> forallb P nodelist = true -> forallb (rooted P) bs = true ->
  no_IndexError (fun g => rooted P g = true) (GameTree_init nodelist bs comment).
Proof.
  intros Hnodes Hns Hbs. unfold GameTree_init.
  pose proof (GameTree_prefix_comment_trees_of (Tree nodelist bs) comment
                (proj2 (trees_of_spec _ _) (conj Hns Hbs))) as H.
  destruct (GameTree_prefix_comment _ _) as [g|e]; [|done].
  destruct H as [Hg Hiff]. apply rooted_spec. split; [|done].
  intros Hnil. by apply Hnodes, Hiff.
Qed.

Lemma prefix_comments_rooted (bs : list GameTree) (comment : option pystr) :
  forallb (rooted P) bs = true ->
  no_IndexError (fun bs' => forallb (rooted P) bs' = true) (prefix_comments bs comment).
Proof.
  induction bs as [|b bs IH]; [done|]. cbn [forallb prefix_comments].
  rewrite andb_true_iff. intros [Hb Hbs]. apply rooted_spec in Hb as [Hnodes Hb].
  eapply no_IndexError_bind; [by apply GameTree_prefix_comment_trees_of|].
  intros b' _ [Hb' Hnodes'].
  eapply no_IndexError_bind; [by apply IH|]. intros bs' _ Hbs'.
  cbn [no_IndexError forallb]. rewrite Hbs', andb_true_r. apply rooted_spec.
  split; [|done]. intros Hnil. by apply Hnodes, Hnodes'.
Qed.

Lemma trunk_walk_trees_of (self other : list Node) (comment : option pystr)
    (comments_everywhere : bool)
    (ignore_property_values : option (list (pystr * list ignore_value))) :
  forallb P self = true -> forallb P other = true ->
  no_IndexError
    (fun w =>
       match w with
       | Diverged _ self_rest other_rest => self_rest <> [] /\ other_rest <> []
       | Exhausted _ _ _ => True
       end
       /\ forallb P (nodes_of w) = true
       /\ (starts_alike (Tree self []) (Tree other []) -> merged_of w <> []))
    (trunk_walk self other comment comments_everywhere ignore_property_values).
Proof.
  revert other. induction self as [|my_node self IH]; intros other Hself Hother;
    [by repeat split|].
  destruct other as [|other_node other].
  { repeat split; [|done]. cbn [nodes_of app]. by rewrite app_nil_r. }
  cbn [trunk_walk]. unfold starts_alike. cbn [nodes].
  cbn [forallb] in Hself, Hother.
  apply andb_true_iff in Hself as [Hmy Hself].
  apply andb_true_iff in Hother as [Hoth Hother].
  pose proof (equivalent_no_IndexError my_node other_node) as Heq.
  destruct (equivalent my_node other_node) as [[|]|e]; [| |done]; cbn [mbind result_bind].
  - pose proof (Node_merge_no_IndexError my_node other_node comment comments_everywhere
                  ignore_property_values) as Hno.
    destruct (Node_merge my_node other_node _ _ _) as [my_node'|e] eqn:Em; [|done].
    cbn [mbind result_bind].
    eapply no_IndexError_bind; [by apply IH|].
    intros w _ (Hw & HP & _).
    assert (P my_node' = true) as Hmy'
      by apply (P_merge _ _ _ _ _ _ Hmy Hoth Em).
    destruct w; cbn [walk_cons no_IndexError nodes_of merged_of app forallb] in *;
      by rewrite Hmy'.
  - repeat split; try done. cbn [nodes_of app forallb].
    rewrite forallb_app. cbn [forallb]. by rewrite Hmy, Hself, Hoth, Hother.
Qed.

Lemma merge_into_branch_rooted (merge : GameTree -> GameTree -> result GameTree)
    (self_branch : GameTree) (seen others : list GameTree) :
  rooted P self_branch = true -> forallb (rooted P) seen = true ->
  forallb (rooted P) others = true ->
  (forall o, rooted P o = true -> starts_alike self_branch o ->
     no_IndexError (fun g => rooted P g = true) (merge self_branch o)) ->
  no_IndexError
    (fun '(self_branch', others') =>
       rooted P self_branch' = true /\ forallb (rooted P) others' = true)
    (merge_into_branch merge self_branch seen others).
Proof.
  intros Hself. revert seen.
  induction others as [|other_branch others IH]; intros seen Hseen Hothers Hmerge;
    [done|].
  cbn [forallb] in Hothers. apply andb_true_iff in Hothers as [Hother Hothers].
  cbn [merge_into_branch]. unfold first_node.
  pose proof (proj1 (rooted_spec _) Hself) as [Hn1 _].
  pose proof (proj1 (rooted_spec _) Hother) as [Hn2 _].
  destruct (nodes self_branch) as [|mine ns1] eqn:E1; [done|].
  destruct (nodes other_branch) as [|theirs ns2] eqn:E2; [done|].
  cbn [mbind result_bind].
  pose proof (equivalent_no_IndexError mine theirs) as Heq.
  destruct (equivalent mine theirs) as [[|]|e] eqn:Ee; [| |done]; cbn [mbind result_bind].
  - eapply no_IndexError_bind.
    + apply Hmerge; [done|]. unfold starts_alike. by rewrite E1, E2.
    + intros g _ Hg. cbn. split; [done|]. by rewrite forallb_app, Hseen, Hothers.
  - apply IH; [|done|done]. rewrite forallb_app, Hseen. cbn. by rewrite Hother.
Qed.

Lemma merge_branches_rooted (merge : GameTree -> GameTree -> result GameTree)
    (self_branches other_branches : list GameTree) :
  forallb (rooted P) self_branches = true -> forallb (rooted P) other_branches = true ->
  (forall s o, rooted P s = true -> rooted P o = true -> starts_alike s o ->
     no_IndexError (fun g => rooted P g = true) (merge s o)) ->
  no_IndexError
    (fun '(self_branches', others') =>
       forallb (rooted P) self_branches' = true /\ forallb (rooted P) others' = true)
    (merge_branches merge self_branches other_branches).
Proof.
  revert other_branches.
  induction self_branches as [|self_branch rest IH];
    intros other_branches Hself Hother Hmerge; [done|].
  cbn [forallb] in Hself. apply andb_true_iff in Hself as [Hb Hrest].
  cbn [merge_branches].
  eapply no_IndexError_bind.
  { apply (merge_into_branch_rooted merge self_branch [] other_branches); try done.
    intros o Ho. by apply Hmerge. }
  intros [self_branch' others'] _ [Hb' Hleft].
  eapply no_IndexError_bind; [by apply IH|].
  intros [rest' others''] _ [Hrest' Hleft']. cbn. by rewrite Hb', Hrest'.
Qed.

Lemma GameTree_merge_fuel_trees_of (comment : option pystr) (comments_everywhere : bool)
    (ignore_property_values : option (list (pystr * list ignore_value)))
    (fuel : nat) :
  forall self other,
  trees_of P self = true -> trees_of P other = true ->
  no_IndexError
    (fun merged =>
       trees_of P merged = true /\ (starts_alike self other -> nodes merged <> []))
    (GameTree_merge_fuel fuel self other comment comments_everywhere
       ignore_property_values).
Proof.
  induction fuel as [|fuel IH]; intros self other Hself Hother; [done|].
  cbn [GameTree_merge_fuel]. unfold GameTree_merge_body.
  destruct self as [sns sbs], other as [ons obs]. cbn [nodes branches].
  apply trees_of_spec in Hself as [Hsns Hsbs].
  apply trees_of_spec in Hother as [Hons Hobs].
  pose proof (trunk_walk_trees_of sns ons comment comments_everywhere
                ignore_property_values Hsns Hons) as Hwalk.
  destruct (trunk_walk sns ons comment comments_everywhere ignore_property_values)
    as [w|e] eqn:Ew; [|done].
  cbn [mbind result_bind]. destruct Hwalk as (Hshape & HP & Hmerged).
  assert (starts_alike (Tree sns sbs) (Tree ons obs) -> merged_of w <> []) as Halike
    by (intros H; by apply Hmerged).
  clear Hmerged.
  destruct w as [merged self_rest other_rest|merged self_rest other_rest];
    cbn [merged_of nodes_of] in Halike, HP; rewrite !forallb_app in HP;
    apply andb_true_iff in HP as [HPm HP]; apply andb_true_iff in HP as [HPs HPo].
  { destruct Hshape as [Hsr Hor].
    eapply no_IndexError_bind; [by apply GameTree_init_rooted|].
    intros other_branch _ Hob. cbn [no_IndexError]. split; [|done].
    apply trees_of_spec. split; [done|]. cbn [forallb]. rewrite Hob, !andb_true_r.
    apply rooted_spec. split; [done|]. by apply trees_of_spec. }
  apply trunk_walk_length in Ew as (Hself_rest & Hother_rest & Hlen & Hlen' & Hrest).
  assert (length self_rest = length sns - length merged)%nat as Hlen_self
    by (by rewrite Hself_rest, length_drop).
  assert (length other_rest = length ons - length merged)%nat as Hlen_other
    by (by rewrite Hother_rest, length_drop).
  assert (forall self0 other0 : GameTree,
            trees_of P self0 = true -> forallb (rooted P) (branches other0) = true ->
            (merged <> [] -> nodes self0 <> []) ->
            no_IndexError
              (fun merged0 =>
                 trees_of P merged0 = true
                 /\ (starts_alike (Tree sns sbs) (Tree ons obs) -> nodes merged0 <> []))
              (if bool_decide (branches other0 = []) then Ok self0
               else
                 '(self_branches, other_branches) ←
                   merge_branches
                     (fun self_branch other_branch =>
                        GameTree_merge_fuel fuel self_branch other_branch comment
                          comments_everywhere ignore_property_values)
                     (branches
                        (if bool_decide (branches self0 = [])
                         then Tree (nodes self0) [Tree [[(py "C", VStr [])]] []]
                         else self0))
                     (branches other0);
                 other_branches' ← prefix_comments other_branches comment;
                 Ok (Tree
                       (nodes
                          (if bool_decide (branches self0 = [])
                           then Tree (nodes self0) [Tree [[(py "C", VStr [])]] []]
                           else self0))
                       (self_branches ++ other_branches')))) as Hfinish.
  { intros [ns0 bs0] [ons0 obs0] Hs0 Ho0 Hnodes0. cbn [nodes branches] in *.
    apply trees_of_spec in Hs0 as [Hns0 Hbs0].
    case_bool_decide; [by split; [apply trees_of_spec|auto]|].
    eapply no_IndexError_bind.
    { apply merge_branches_rooted; [|done|].
      - case_bool_decide; [|done]. cbn [branches forallb]. rewrite andb_true_r.
        apply rooted_spec. split; [done|]. apply trees_of_spec. split; [|done].
        cbn [forallb]. by rewrite P_comment.
      - intros s o Hs Ho Hso. apply rooted_spec in Hs as [Hsn Hs].
        apply rooted_spec in Ho as [Hon Ho].
        specialize (IH s o Hs Ho).
        destruct (GameTree_merge_fuel fuel s o _ _ _) as [g|e]; [|done].
        destruct IH as [Hg Hgn]. apply rooted_spec. auto. }
    intros [self_branches other_branches] _ [Hsb Hobr].
    eapply no_IndexError_bind; [by apply prefix_comments_rooted|].
    intros other_branches' _ Hob'. cbn [no_IndexError]. split.
    - apply trees_of_spec. split; [by case_bool_decide|].
      by rewrite forallb_app, Hsb, Hob'.
    - intros Hal. case_bool_decide; cbn [nodes]; auto. }
  assert (no_IndexError
            (fun '(self1, other1) =>
               trees_of P self1 = true /\ forallb (rooted P) (branches other1) = true
               /\ (merged <> [] -> nodes self1 <> []))
            (if (length ons <? length (merged ++ self_rest))%nat then
               if negb (bool_decide (obs = [])) then
                 Ok (Tree merged [Tree self_rest sbs], Tree ons obs)
               else Ok (Tree (merged ++ self_rest) sbs, Tree ons obs)
             else if (length (merged ++ self_rest) <? length ons)%nat then
               other_branch ← GameTree_init other_rest obs comment;
               Ok (Tree (merged ++ self_rest) sbs,
                   Tree (take (length merged) ons) [other_branch])
             else Ok (Tree (merged ++ self_rest) sbs, Tree ons obs))) as Hadjust.
  { assert (trees_of P (Tree (merged ++ self_rest) sbs) = true) as Hself'.
    { apply trees_of_spec. split; [|done]. by rewrite forallb_app, HPm, HPs. }
    assert (merged <> [] -> nodes (Tree (merged ++ self_rest) sbs) <> []) as Hnodes'
      by (cbn [nodes]; intros ? ?%app_eq_nil; tauto).
    rewrite length_app.
    destruct (length ons <? length merged + length self_rest)%nat eqn:E1.
    - apply Nat.ltb_lt in E1. destruct (negb (bool_decide (obs = []))); [|done].
      split; [|done]. apply trees_of_spec. split; [done|]. cbn [forallb].
      rewrite andb_true_r. apply rooted_spec. split; [|by apply trees_of_spec].
      cbn [nodes]. intros ->. cbn [length] in *. lia.
    - destruct (length merged + length self_rest <? length ons)%nat eqn:E2; [|done].
      apply Nat.ltb_lt in E2.
      eapply no_IndexError_bind.
      { apply GameTree_init_rooted; [|done|done]. intros ->. cbn [length] in *. lia. }
      intros other_branch _ Hob. cbn [no_IndexError]. split; [done|]. split; [|done].
      cbn [branches forallb]. by rewrite Hob. }
  destruct (bool_decide (merged = [])) eqn:Em;
    [destruct (bool_decide (sns = [])) eqn:Esns; cbn [negb];
       [destruct (bool_decide (sbs = []))
       |destruct (bool_decide (obs = []));
          [split;
             [apply trees_of_spec; by rewrite forallb_app, HPm, HPs
             |intros Hal; apply Halike in Hal; by apply bool_decide_eq_true in Em]|]]|].
  1: { apply bool_decide_eq_true in Esns as ->.
       destruct ons as [|first rest].
       - split; [by apply trees_of_spec|by unfold starts_alike].
       - cbn [forallb] in Hons. apply andb_true_iff in Hons as [Hfirst Hons'].
         pose proof (Node_prefix_comment_no_IndexError first comment) as Hno.
         destruct (Node_prefix_comment first comment) as [first'|e] eqn:E; [|done].
         split; [|by unfold starts_alike]. apply trees_of_spec. split; [|done].
         cbn [forallb]. by rewrite (P_prefix_comment first comment first'), Hons'. }
  all: eapply no_IndexError_bind; [exact Hadjust|].
  all: intros [self1 other1] _ (Hs1 & Ho1 & Hn1); by apply Hfinish.
Qed.

Lemma normalize_from_trees_of (g : GameTree) :
  forall trunk,
  forallb P trunk = true -> trees_of P g = true ->
  trees_of P (normalize_from trunk g) = true
  /\ exists more, nodes (normalize_from trunk g) = trunk ++ nodes g ++ more.
Proof.
  induction g as [ns bs IH] using GameTree_ind'. intros trunk Htrunk Hg.
  apply trees_of_spec in Hg as [Hns Hbs]. destruct bs as [|b1 [|b2 bs]].
  - split; [|exists []; by rewrite app_nil_r].
    apply trees_of_spec. by rewrite forallb_app, Htrunk, Hns.
  - cbn [normalize_from]. apply Forall_cons in IH as [IH1 _].
    cbn [forallb] in Hbs. rewrite andb_true_r in Hbs. apply rooted_spec in Hbs as [_ Hb1].
    destruct (IH1 (trunk ++ ns)) as [Hr [more Hmore]]; [|done|].
    { by rewrite forallb_app, Htrunk, Hns. }
    split; [done|].
    exists (nodes b1 ++ more). cbn [nodes]. by rewrite Hmore, <- app_assoc.
  - cbn [normalize_from]. split; [|exists []; cbn [nodes]; by rewrite app_nil_r].
    apply trees_of_spec. split; [by rewrite forallb_app, Htrunk, Hns|].
    rewrite forallb_forall. intros b' Hin.
    apply in_map_iff in Hin as (b & <- & Hin).
    rewrite forallb_forall in Hbs. pose proof (Hbs b Hin) as Hb.
    apply rooted_spec in Hb as [Hnodes Hb].
    pose proof (proj1 (Forall_forall _ _) IH b (proj2 (list_elem_of_In _ _) Hin) []
                  eq_refl Hb) as [Hr [more Hmore]].
    apply rooted_spec. split; [|done]. rewrite Hmore. cbn [app].
    by destruct (nodes b).
Qed.

End TreesOf.

(** ** Merging nodes that the parser built *)

Lemma when_ok_bind {A B : Type} (Q : A -> Prop) (R : B -> Prop) (m : result A)
    (k : A -> result B) :
  when_ok Q m -> (forall a, Q a -> when_ok R (k a)) -> when_ok R (m ≫= k).
Proof. intros Hm Hk. destruct m as [a|e]; [by apply Hk|done]. Qed.

Lemma keys_dict_del (k : pystr) (n : Node) : sublist (keys (dict_del k n)) (keys n).
Proof.
  induction n as [|[k0 v0] n IH]; [done|]. cbn [dict_del keys map fst].
  destruct (str_eqb k k0); [by apply sublist_cons|by apply sublist_skip].
Qed.

Lemma parsed_node_del (k : pystr) (n : Node) :
  parsed_node n = true -> parsed_node (dict_del k n) = true.
Proof.
  unfold parsed_node. rewrite !andb_true_iff, !bool_decide_eq_true.
  intros [Hnodup Hall]. split; [by eapply sublist_NoDup; [|apply keys_dict_del]|].
  clear Hnodup. induction n as [|[k0 v0] n IH]; [done|]. cbn [dict_del forallb] in *.
  apply andb_true_iff in Hall as [H0 Hall]. destruct (str_eqb k k0); [done|].
  cbn [forallb]. by rewrite H0, IH.
Qed.

Lemma parsed_item_comment (text : pystr) : parsed_item (py "C", VStr text) = true.
Proof. reflexivity. Qed.

Section ParsedMerge.
Context {rt : PyRuntime}.

Lemma Node_prefix_comment_parsed (self : Node) (comment : option pystr) (self' : Node) :
  parsed_node self = true -> Node_prefix_comment self comment = Ok self' ->
  parsed_node self' = true.
Proof.
  intros Hself. unfold Node_prefix_comment.
  destruct comment as [[|c comment]|]; try by intros [= <-].
  destruct (dict_get (py "C") self) as [[text|items]|]; [|done|].
  - case_bool_decide; intros [= <-]; by apply parsed_node_set.
  - intros [= <-]. by apply parsed_node_set.
Qed.

Lemma merge_differing_parsed (self : Node) (property_id : pystr) (other_value : value)
    (ignore_values : list ignore_value) :
  parsed_node self = true -> parsed_item (property_id, other_value) = true ->
  when_ok (fun self' => parsed_node self' = true)
    (merge_differing_scalar_property_values self property_id other_value ignore_values).
Proof.
  intros Hself Hitem. unfold merge_differing_scalar_property_values.
  pose proof (parsed_node_del property_id self Hself) as Hdel.
  destruct (dict_get property_id self) as [[self_value|]|]; [|done..].
  set (cleared := if bool_decide (IgnoreValue self_value ∈ ignore_values)
                  then (dict_del property_id self, None)
                  else (self, Some self_value)).
  assert (parsed_node cleared.1 = true) as Hcleared
    by (unfold cleared; by case_bool_decide).
  destruct cleared as [self1 self_value1]. cbn [fst] in Hcleared.
  repeat match goal with
  | |- when_ok _ (Ok _) => cbn [when_ok]
  | |- when_ok _ (Err _) => done
  | |- when_ok _ (mbind _ _) => apply (when_ok_bind (fun _ => True)); [|intros ? _]
  | |- when_ok _ (match ?x with _ => _ end) => destruct x eqn:?
  end; try done; by apply parsed_node_set.
Qed.

Lemma merge_item_parsed (comment : pystr) (comments_everywhere : bool)
    (ignore_property_values : list (pystr * list ignore_value)) (self : Node)
    (item : pystr * value) :
  parsed_node self = true -> parsed_item item = true ->
  when_ok (fun self' => parsed_node self' = true)
    (merge_item comment comments_everywhere ignore_property_values self item).
Proof.
  intros Hself Hitem. destruct item as [property_id other_value]. unfold merge_item.
  apply (when_ok_bind (fun _ => True)).
  { destruct (str_in _ _); [|done]. case_bool_decide; [done|]. by destruct other_value. }
  intros [|] _; [done|].
  destruct (str_eqb property_id (py "C")) eqn:EC.
  { destruct other_value as [other_text|]; [|done].
    destruct (dict_get (py "C") self) as [[c|items]|];
      repeat match goal with
      | |- when_ok _ (Ok _) => cbn [when_ok]
      | |- when_ok _ (Err _) => done
      | |- when_ok _ (match ?x with _ => _ end) => destruct x eqn:?
      | |- when_ok _ (if ?x then _ else _) => destruct x eqn:?
      end; try done; apply parsed_node_set; try done; apply parsed_item_comment. }
  destruct (dict_get property_id self) as [self_value|] eqn:Eget;
    [|by apply parsed_node_set].
  destruct (str_in property_id scalar_properties).
  { destruct (negb _); [by apply merge_differing_parsed|done]. }
  case_bool_decide as Hextras; [done|].
  destruct self_value as [|items]; [done|]. cbn [when_ok elements_of].
  apply parsed_node_set; [done|].
  pose proof (parsed_node_get _ _ _ Hself Eget) as Hmine.
  apply parsed_item_spec in Hmine as (Hk & Hletters & [Hlist Hne] & Hca & Hascii).
  apply parsed_item_spec in Hitem as (_ & _ & Hshape & _ & Hascii').
  apply parsed_item_spec. repeat split; try done.
  - by destruct items.
  - intros ->. by specialize (Hca eq_refl).
  - intros Ht. specialize (Hascii Ht). specialize (Hascii' Ht).
    cbn [strings_of] in *. rewrite forallb_app, Hascii. cbn [andb].
    destruct other_value as [text|items']; [by rewrite Hlist in Hshape|].
    cbn [strings_of elements_of] in *. apply forallb_forall. intros x Hx.
    apply list_elem_of_In, set_difference_elem in Hx as [Hx _].
    rewrite forallb_forall in Hascii'. by apply Hascii', list_elem_of_In.
Qed.

Lemma Node_merge_parsed (self other : Node) (comment : option pystr)
    (comments_everywhere : bool)
    (ignore_property_values : option (list (pystr * list ignore_value)))
    (merged : Node) :
  parsed_node self = true -> parsed_node other = true ->
  Node_merge self other comment comments_everywhere ignore_property_values = Ok merged ->
  parsed_node merged = true.
Proof.
  intros Hself Hother. unfold Node_merge.
  generalize (default [] ignore_property_values) as ign.
  generalize (match comment with
              | Some comment0 => comment0 ++ py (String "010" "")
              | None => []
              end) as c.
  intros c ign. unfold parsed_node in Hother. apply andb_true_iff in Hother as [_ Hother].
  revert self merged Hself. induction other as [|item items IH]; intros self merged Hself.
  - by intros [= <-].
  - cbn [forallb merge_items] in *. apply andb_true_iff in Hother as [Hitem Hitems].
    pose proof (merge_item_parsed c comments_everywhere ign self item Hself Hitem) as H.
    destruct (merge_item c comments_everywhere ign self item) as [self'|]; [|done].
    cbn [mbind result_bind]. by apply IH.
Qed.

Lemma parsed_tree_trees_of (g : GameTree) : parsed_tree g = trees_of parsed_node g.
Proof.
  induction g as [ns bs IH] using GameTree_ind'. cbn [parsed_tree trees_of]. f_equal.
  induction IH as [|b bs Hb _ IHbs]; [done|]. cbn [forallb]. by rewrite Hb, IHbs.
Qed.

End ParsedMerge.

(** ** The merged tree *)

(** X21: when every branch of the target and of the source, at any
    depth, starts with a node, [GameTree.merge] never raises [IndexError]
    (its [self_branch[0]] and [other_branch[0]] are there), and every branch of
    the merged tree starts with a node; the same holds for the game of the
    collection that [Collection.merge] returns, which is normalized. *)
Theorem merge_keeps_branches_rooted {rt : PyRuntime} (self other : GameTree)
    (comment : option pystr) (comments_everywhere : bool)
    (ignore_property_values : option (list (pystr * list ignore_value))) :
  rooted_branches self = true -> rooted_branches other = true ->
  match GameTree_merge self other comment comments_everywhere ignore_property_values with
  | Ok merged => rooted_branches merged = true
  | Err e => e <> PyIndexError
  end
  /\ match Collection_merge [self] [other] comment comments_everywhere
             ignore_property_values with
     | Ok merged => forallb rooted_branches merged = true
     | Err e => e <> PyIndexError
     end.
Proof.
  intros Hself Hother. unfold Collection_merge. cbn [length Nat.eqb negb].
  unfold GameTree_merge.
  pose proof (GameTree_merge_fuel_trees_of (fun _ => true) ltac:(done) ltac:(done)
                eq_refl comment comments_everywhere ignore_property_values
                (2 * tree_size other + 2) self other Hself Hother) as H.
  destruct (GameTree_merge_fuel _ self other _ _ _) as [merged|e]; [|done].
  destruct H as [Hmerged _]. split; [done|]. cbn. rewrite andb_true_r.
  by apply (normalize_from_trees_of (fun _ => true)).
Qed.

(** X21, witness: a game with two variations, and another first move. *)
Lemma merge_keeps_branches_rooted_witness :
  match GameTree_merge (rt := cpython)
          (Tree [[(py "GM", VStr (py "1"))]]
                [Tree [[(py "B", VStr (py "aa"))]] [];
                 Tree [[(py "B", VStr (py "bb"))]] []])
          (Tree [[(py "GM", VStr (py "1"))]; [(py "B", VStr (py "cc"))]] [])
          None true None with
  | Ok merged => rooted_branches merged = true
  | Err e => e <> PyIndexError
  end.
Proof.
  apply (merge_keeps_branches_rooted (rt := cpython)
           (Tree [[(py "GM", VStr (py "1"))]]
                 [Tree [[(py "B", VStr (py "aa"))]] [];
                  Tree [[(py "B", VStr (py "bb"))]] []])
           (Tree [[(py "GM", VStr (py "1"))]; [(py "B", VStr (py "cc"))]] [])
           None true None); reflexivity.
Defined.

(** X22: the merge of two games that the parser read, whose first nodes
    are equivalent, is a game as the parser builds them, and it is read back
    from its bytes: when [Collection.merge] returns, [bytes] of the merged
    collection gives data, and every text value before the first [CA]
    property is ASCII, parsing the data gives the merged collection. *)
Theorem merged_collection_round_trip {rt : PyRuntime} (input other_input data : bytes)
    (self other : GameTree) (merged : Collection) (comment : option pystr)
    (comments_everywhere : bool)
    (ignore_property_values : option (list (pystr * list ignore_value))) :
  parse input = Ok [self] -> parse other_input = Ok [other] ->
  starts_alike self other ->
  Collection_merge [self] [other] comment comments_everywhere ignore_property_values
  = Ok merged ->
  Collection_bytes merged = Ok data ->
  ascii_until_charset merged = true ->
  parsed_trees merged = true /\ parse data = Ok merged.
Proof.
  intros Hself Hother Halike Hmerge Hbytes Hascii.
  assert (forall input tree, parse input = Ok [tree] -> trees_of parsed_node tree = true)
    as Hparsed.
  { intros input0 tree Hparse. unfold parse in Hparse.
    pose proof (parse_loop_spec (S (length input0)) [] (mkParser input0 (py "latin-1"))
                  ltac:(simpl; lia) eq_refl) as H.
    destruct (parse_loop _ _ _) as [[collection' p']|e]; [|done].
    cbn [mbind result_bind] in Hparse. injection Hparse as ->. destruct H as [H _].
    cbn [parsed_trees forallb] in H. rewrite andb_true_r in H.
    apply andb_true_iff in H as [_ H]. by rewrite <- parsed_tree_trees_of. }
  assert (parsed_trees merged = true) as Hmerged; [|by split; [|apply parse_Collection_bytes]].
  unfold Collection_merge in Hmerge. cbn [length Nat.eqb negb] in Hmerge.
  unfold GameTree_merge in Hmerge.
  pose proof (GameTree_merge_fuel_trees_of parsed_node Node_merge_parsed
                Node_prefix_comment_parsed eq_refl comment comments_everywhere
                ignore_property_values (2 * tree_size other + 2) self other
                (Hparsed _ _ Hself) (Hparsed _ _ Hother)) as H.
  destruct (GameTree_merge_fuel _ self other _ _ _) as [tree|e]; [|done].
  cbn [mbind result_bind] in Hmerge. injection Hmerge as <-.
  destruct H as [Htree Hnodes]. specialize (Hnodes Halike).
  destruct (normalize_from_trees_of parsed_node tree [] eq_refl Htree) as [Hn [more Hmore]].
  cbn [Collection_normalize map parsed_trees forallb]. rewrite andb_true_r.
  apply andb_true_iff. split.
  - apply negb_true_iff, bool_decide_eq_false. unfold normalize. rewrite Hmore.
    cbn [app]. by destruct (nodes tree).
  - by rewrite parsed_tree_trees_of.
Qed.

(** X22, witness: two records of the first moves of a game. *)
Lemma merged_collection_round_trip_witness :
  match Collection_merge (rt := cpython) [frame_target] [frame_source] (Some (py "P"))
          true None with
  | Ok merged =>
      match Collection_bytes merged with
      | Ok data => parsed_trees merged = true /\ parse (rt := cpython) data = Ok merged
      | Err _ => False
      end
  | Err _ => False
  end.
Proof.
  destruct (Collection_merge (rt := cpython) [frame_target] [frame_source]
              (Some (py "P")) true None) as [merged|e] eqn:Em;
    [|vm_compute in Em; discriminate Em].
  destruct (Collection_bytes merged) as [data|e] eqn:Eb.
  - apply (merged_collection_round_trip (rt := cpython)
             (pyb "(;GM[1]AB[aa];B[cc])") (pyb "(;GM[1]AB[bb]C[hi];B[dd])") data
             frame_target frame_source merged (Some (py "P")) true None);
      try done; try (vm_compute; reflexivity).
    vm_compute in Em. injection Em as <-. vm_compute. reflexivity.
  - vm_compute in Em. injection Em as <-. vm_compute in Eb. discriminate Eb.
Defined.

(** * Data without a game, and nodes without a type *)

(** X23: data that do not start, after some space, with an opening
    parenthesis are no error: [Parser.parse] and [RootNodeParser.parse]
    return an empty collection for them, as they do for no data at all. *)
Theorem parse_no_game {rt : PyRuntime} (data : bytes) :
  game_tree_start data = None ->
  parse data = Ok [] /\ RootNodeParser_parse data = Ok [].
Proof.
  intros Hstart. unfold RootNodeParser_parse, parse_with, parse.
  cbn [parse_loop parse_loop_with rest]. case_bool_decide as Hdata; [done|].
  unfold parse_one_game, parse_one_game_with. cbn [rest].
  rewrite (bool_decide_eq_false_2 _ Hdata). cbn [negb]. by rewrite Hstart.
Qed.

(** X23, witness: a file that is not SGF. *)
Lemma parse_no_game_witness :
  parse (rt := cpython) (pyb "B[aa]") = Ok []
  /\ RootNodeParser_parse (rt := cpython) (pyb "B[aa]") = Ok [].
Proof. apply (parse_no_game (rt := cpython)). reflexivity. Defined.

(** X24: [Node.equivalent] is reflexive where it returns, but it is not
    transitive: a node without a type (one without properties, or one with
    an empty comment) is equivalent to every node, so a black move and a
    white move are both equivalent to it, and not to each other. *)
Theorem equivalent_not_transitive :
  (forall n r, equivalent n n = Ok r -> r = true)
  /\ (forall untyped other t,
        node_type untyped = Ok None -> node_type other = Ok t ->
        equivalent untyped other = Ok true /\ equivalent other untyped = Ok true)
  /\ equivalent (scalar_node "B" "aa") [] = Ok true
  /\ equivalent [] (scalar_node "W" "bb") = Ok true
  /\ equivalent (scalar_node "B" "aa") (scalar_node "W" "bb") = Ok false.
Proof.
  split; [|split; [|by repeat split]].
  - intros n r. unfold equivalent.
    destruct (node_type n) as [[t|]|]; cbn [mbind result_bind]; [| |done].
    + rewrite (bool_decide_eq_true_2 (t = t)) by done. cbn [negb].
      case_bool_decide; [|by intros [= <-]].
      destruct (negb (length (players n) =? 1)%nat); [done|].
      rewrite (bool_decide_eq_true_2 (players n = players n)) by done. cbn [negb].
      destruct (players n) as [|player l]; [by intros [= <-]|].
      rewrite (bool_decide_eq_true_2 (dict_get player n = dict_get player n)) by done.
      by intros [= <-].
    + by intros [= <-].
  - intros untyped other t Hu Ho. unfold equivalent. rewrite Hu, Ho.
    cbn [mbind result_bind]. by destruct t.
Qed.
